(** * torrent-creator: Bencode encoder, hashing pipeline and metainfo assembler

    A shallow embedding of the TypeScript sources (Bencode.ts, Sha1.ts,
    Sha1Worker.ts, TorrentHelper.ts, Util.ts, UIState.ts, FileInput.ts) and of
    the SHA-1 kernel (sha1.cpp), followed by the properties of the
    specification that concern them.

    Conventions.
    - A JavaScript string is its sequence of UTF-16 code units ([jsstring]).
    - A [Uint8Array] is the list of its bytes, each a [Z] in [0, 256).
    - JavaScript numbers that hold sizes, counts and indices are modelled by
      [Z]; all of them stay below 2^53 where double arithmetic on integers is
      exact.
    - [async] functions are cut at their [await]s into the synchronous pieces
      that run between two suspensions. *)

From Stdlib Require Import ZArith Ascii String.
From stdpp Require Import base tactics option list sorting.

Set Warnings "-register-all".
Local Open Scope Z_scope.

(* ===================================================================== *)
(** ** JavaScript values *)
(* ===================================================================== *)

Module JS.

(** UTF-16 code units. *)
Definition jsstring := list Z.

(** An ASCII literal as a JavaScript string. *)
Definition js (s : string) : jsstring :=
  map (fun a => Z.of_N (N_of_ascii a)) (list_ascii_of_string s).
Arguments js s%_string.

Definition code_unit (c : Z) : Prop := 0 <= c < 65536.
Definition is_surrogate (c : Z) : bool := (55296 <=? c) && (c <? 57344).

(** [ECMAScript WhiteSpace] and [LineTerminator]: the class [\s]. *)
Definition isWhitespace (c : Z) : bool :=
  (c =? 9) || (c =? 10) || (c =? 11) || (c =? 12) || (c =? 13) || (c =? 32)
  || (c =? 160) || (c =? 5760) || ((8192 <=? c) && (c <=? 8202))
  || (c =? 8232) || (c =? 8233) || (c =? 8239) || (c =? 8287)
  || (c =? 12288) || (c =? 65279).

(** [str.split(/\s+/g)]: the pieces between maximal runs of whitespace,
    an empty piece included where the string starts or ends with one. *)
Fixpoint split_ws_from (inSeparator : bool) (piece : jsstring) (s : jsstring)
  : list jsstring :=
  match s with
  | [] => [piece]
  | c :: s' =>
      if isWhitespace c then
        if inSeparator then split_ws_from true piece s'
        else piece :: split_ws_from true [] s'
      else split_ws_from false (piece ++ [c]) s'
  end.

Definition split_ws (s : jsstring) : list jsstring := split_ws_from false [] s.

(** [Array.prototype.push] and [Array.prototype.pop]: both work at the end
    of the array. *)
Definition push {A} (arr : list A) (x : A) : list A := arr ++ [x].

Fixpoint pop {A} (arr : list A) : option (list A * A) :=
  match arr with
  | [] => None
  | x :: rest =>
      match pop rest with
      | None => Some ([], x)
      | Some (rest', y) => Some (x :: rest', y)
      end
  end.

(** Decimal digits of a non-negative integer, most significant first. *)
Fixpoint digits_fuel (fuel : nat) (n : Z) (acc : jsstring) : jsstring :=
  match fuel with
  | O => acc
  | S fuel' =>
      let acc' := (48 + n mod 10) :: acc in
      if n <? 10 then acc' else digits_fuel fuel' (n / 10) acc'
  end.

(** [Number.prototype.toString()] on an integer (|n| < 10^21, where
    JavaScript prints plain decimal digits). *)
Definition Number_toString (n : Z) : jsstring :=
  if n <? 0 then 45 :: digits_fuel (S (Z.to_nat (Z.log2 (- n)))) (- n) []
  else digits_fuel (S (Z.to_nat (Z.log2 n))) n [].

(** [Math.ceil(a / b)] for integers [a >= 0] and [b > 0]. *)
Definition Math_ceil_div (a b : Z) : Z := (a + b - 1) / b.

End JS.

Export JS.

(* ===================================================================== *)
(** ** Util.ts *)
(* ===================================================================== *)

Module Util.

Definition KB : Z := 1024.
Definition MB : Z := KB * 1024.
Definition GB : Z := MB * 1024.

(** [str.split(/\s+/g).filter(line => line.length !== 0)] *)
Definition getLines (str : jsstring) : list jsstring :=
  filter (fun line => length line ≠ 0%nat) (split_ws str).

Inductive Result (TResult TErr : Type) : Type :=
| ok (result : TResult)
| error (err : TErr).
Arguments ok {TResult TErr} result.
Arguments error {TResult TErr} err.

Definition getError {T E} (r : Result T E) : option E :=
  match r with ok _ => None | error e => Some e end.

Definition getResult {T E} (r : Result T E) : option T :=
  match r with ok x => Some x | error _ => None end.

End Util.

Export Util.

(* ===================================================================== *)
(** ** UIState.ts *)
(* ===================================================================== *)

Module UIState.

Inductive BlockSize : Set :=
| Auto | KB16 | KB32 | KB64 | KB128 | KB256 | KB512
| MB1 | MB2 | MB4 | MB8 | MB16.

Record TorrentUIParameters : Type := {
  name : jsstring;
  blockSize : BlockSize;
  isPrivate : bool;
  setCreationDate : bool;
  trackers : jsstring;
  webSeeds : jsstring;
  comment : jsstring;
  source : jsstring;
}.

End UIState.

Export UIState.

(* ===================================================================== *)
(** ** FileInput.ts *)
(* ===================================================================== *)

Module FileInput.

(** What one read of a file delivers: the reader throws (or fires its error
    event), or it yields [{ value, done }]. *)
Inductive ReadResult : Type :=
| ReadThrows
| ReadChunk (value : option (list Z)) (done : bool).

(** The browser's [File]: the size it reports and what its successive reads
    deliver. Once [reads] is used up the file has no more data. *)
Record File : Type := {
  size : Z;
  reads : list ReadResult;
}.

Inductive FolderElement : Type :=
| mkFolder (files : list (jsstring * File))
           (folders : list (jsstring * FolderElement)).

Inductive InputType : Set := InputFile | InputFolder.

Record FileWithPath : Type := {
  path : list jsstring; (* Including the file name *)
  file : File;
}.

Inductive SelectedInput : Type :=
| input_File (f : File)
| input_Folder (rootFolder : FolderElement).

Definition input_type (i : SelectedInput) : InputType :=
  match i with input_File _ => InputFile | input_Folder _ => InputFolder end.

Record SelectedFileOrFolderInfo : Type := {
  info_name : jsstring;
  info_size : Z;
  input : SelectedInput;
  fileList : list FileWithPath;
}.

End FileInput.

Export FileInput.

(* ===================================================================== *)
(** ** TorrentHelper.ts: validation, assembly, piece size *)
(* ===================================================================== *)

Module TorrentHelper.

Record TorrentFileInfo : Type := {
  tfi_length : Z;
  tfi_path : list jsstring;
}.

(** Optional members ([private?], [files?], [length?], [source?]) are
    [option]s: [None] is a key that was never set. *)
Record TorrentInfo : Type := {
  ti_name : jsstring;
  ti_private : option Z;
  ti_pieces : list Z;
  ti_piece_length : Z;
  ti_files : option (list TorrentFileInfo);
  ti_length : option Z;
  ti_source : option jsstring;
}.

Record TorrentObject : Type := {
  to_info : TorrentInfo;
  to_announce : option jsstring;
  to_announce_list : option (list (list jsstring));
  to_url_list : option (list jsstring);
  to_creation_date : option Z;
  to_created_by : option jsstring;
  to_comment : option jsstring;
}.

(** The part of the platform's [URL] object the code looks at. *)
Record URL : Type := { pathname : jsstring }.

(** The character class of the name check: less-than, greater-than, colon,
    double quote, backslash, slash, bar, question mark, asterisk. *)
Definition reservedCharacter (c : Z) : bool :=
  (c =? 60) || (c =? 62) || (c =? 58) || (c =? 34) || (c =? 92)
  || (c =? 47) || (c =? 124) || (c =? 63) || (c =? 42).

Definition matchReserved (s : jsstring) : bool := existsb reservedCharacter s.

Definition jsstring_eqb (a b : jsstring) : bool := bool_decide (a = b).

(** [/\/announce\/?$/.test(s)]: at some position, [/announce], then an
    optional [/], then the end of the string. *)
Fixpoint testAnnounce (s : jsstring) : bool :=
  jsstring_eqb s (js "/announce") || jsstring_eqb s (js "/announce/")
  || match s with
     | [] => false
     | _ :: s' => testAnnounce s'
     end.

Section Platform.

(** [new URL(s)] of the platform: [None] when the constructor throws. *)
Variable URL_new : jsstring -> option URL.
(** [Date.now()], in milliseconds. *)
Variable Date_now : Z.

(** The loop over the trackers, leaving at the first failure. *)
Fixpoint checkTrackers (lines : list jsstring) : option jsstring :=
  match lines with
  | [] => None
  | tracker :: rest =>
      match URL_new tracker with
      | Some url =>
          if negb (testAnnounce (pathname url)) then
            Some (js "Invalid tracker: `" ++ tracker
                  ++ js "` (URL must end with `announce` or `announce/`)")
          else checkTrackers rest
      | None =>
          Some (js "Invalid tracker: `" ++ tracker ++ js "` (not a valid URL)")
      end
  end.

(** The loop over the web seeds. *)
Fixpoint checkWebSeeds (lines : list jsstring) : option jsstring :=
  match lines with
  | [] => None
  | webSeed :: rest =>
      match URL_new webSeed with
      | Some _ => checkWebSeeds rest
      | None =>
          Some (js "Invalid web seed: `" ++ webSeed ++ js "` (not a valid URL)")
      end
  end.

Definition validateTorrentInput (torrentUIParameters : TorrentUIParameters)
  : Result unit jsstring :=
  if (length (name torrentUIParameters) =? 0)%nat then
    error (js "Torrent name cannot be empty")
  else if (255 <? length (name torrentUIParameters))%nat then
    error (js "Torrent name cannot be longer than 255 characters")
  else if matchReserved (name torrentUIParameters) then
    error (js "Torrent name cannot contain any of the following characters: < > : \ / | ? *")
  else
    match checkTrackers (getLines (trackers torrentUIParameters)) with
    | Some e => error e
    | None =>
        match checkWebSeeds (getLines (webSeeds torrentUIParameters)) with
        | Some e => error e
        | None => ok tt
        end
    end.

(** [x | 0]: truncation to a signed 32-bit integer. *)
Definition toInt32 (x : Z) : Z := (x + 2 ^ 31) mod 2 ^ 32 - 2 ^ 31.

Definition assembleTorrentObject
    (torrentUIParameters : TorrentUIParameters)
    (selectedFileOrFolderInfo : option SelectedFileOrFolderInfo)
    (blockSize : Z) : Result TorrentObject jsstring :=
  (* Just in case *)
  match getError (validateTorrentInput torrentUIParameters) with
  | Some e => error e
  | None =>
      let okTrackersList := getLines (trackers torrentUIParameters) in
      let webSeeds := getLines (webSeeds torrentUIParameters) in
      let infoObject :=
        {| ti_name := name torrentUIParameters;
           ti_pieces := [];
           ti_piece_length := blockSize;
           ti_private := if isPrivate torrentUIParameters then Some 1 else None;
           ti_source :=
             if jsstring_eqb (source torrentUIParameters) []
             then None else Some (source torrentUIParameters);
           ti_length :=
             match selectedFileOrFolderInfo with
             | Some sel =>
                 match input sel with
                 | input_File f => Some (size f)
                 | input_Folder _ => None
                 end
             | None => None
             end;
           ti_files :=
             match selectedFileOrFolderInfo with
             | Some sel =>
                 match input sel with
                 | input_File _ => None
                 | input_Folder _ =>
                     Some (map (fun fp => {| tfi_length := size (file fp);
                                             tfi_path := path fp |})
                               (fileList sel))
                 end
             | None => None
             end |} in
      ok {| to_info := infoObject;
            to_announce := head okTrackersList;
            to_announce_list :=
              match okTrackersList with
              | [] => None
              | _ => Some (map (fun t => [t]) okTrackersList)
              end;
            to_url_list :=
              match webSeeds with [] => None | _ => Some webSeeds end;
            to_comment :=
              if jsstring_eqb (comment torrentUIParameters) []
              then None else Some (comment torrentUIParameters);
            to_creation_date :=
              if setCreationDate torrentUIParameters
              then Some (toInt32 (Z.quot Date_now 1000)) else None;
            to_created_by := Some (js "kimbatt.github.io/torrent-creator") |}
  end.

End Platform.

(** The value of [Math.round(Math.log2(x))] for [x >= 0]. *)
Inductive RoundedLog : Set :=
| NegInfinity
| Finite (k : Z).

(** floor (log2 (a / b)) for positive integers [a] and [b]. *)
Definition floor_log2_ratio (a b : Z) : Z :=
  if b <=? a then Z.log2 (a / b) else - Z.log2_up ((b + a - 1) / a).

(** [Math.round(Math.log2(a / b))] for [a >= 0] and [b > 0], taken on the
    exact quotient: round(y) = floor(y + 1/2), and
    floor(log2(a/b) + 1/2) = floor(floor(log2(2 a^2 / b^2)) / 2). *)
Definition Math_round_log2 (a b : Z) : RoundedLog :=
  if a =? 0 then NegInfinity
  else Finite (floor_log2_ratio (2 * a * a) (b * b) / 2).

Definition Math_max (x : RoundedLog) (y : Z) : Z :=
  match x with NegInfinity => y | Finite k => Z.max k y end.

(** [a << b] on 32-bit integers. *)
Definition shiftLeft32 (a b : Z) : Z := toInt32 (Z.shiftl a (Z.land b 31)).

Definition getAutoBlockSize (totalSize : Z) : Z :=
  let targetBlockCount := 1200 in
  let factor := Math_round_log2 totalSize targetBlockCount in
  let factor := Math_max factor 14 in (* 2^14 = 16 kb (minimum block size) *)
  let factor := Z.min factor 24 in (* 2^24 = 16 mb (maximum block size) *)
  shiftLeft32 1 factor.

Definition getBlockSize (blockSize : BlockSize) (totalSize : Z) : Z :=
  match blockSize with
  | Auto => getAutoBlockSize totalSize
  | KB16 => 16 * KB
  | KB32 => 32 * KB
  | KB64 => 64 * KB
  | KB128 => 128 * KB
  | KB256 => 256 * KB
  | KB512 => 512 * KB
  | MB1 => 1 * MB
  | MB2 => 2 * MB
  | MB4 => 4 * MB
  | MB8 => 8 * MB
  | MB16 => 16 * MB
  end.

End TorrentHelper.

Export TorrentHelper.

(* ===================================================================== *)
(** ** Bencode.ts *)
(* ===================================================================== *)

Module Bencode.

(** Lexicographic comparison of two sequences of numbers; a proper prefix
    comes first. On code units this is the order of JavaScript's [<] on
    strings, which [Array.prototype.sort()] uses without a comparator. *)
Fixpoint lex_leb (a b : list Z) : bool :=
  match a, b with
  | [], _ => true
  | _ :: _, [] => false
  | x :: a', y :: b' => (x <? y) || ((x =? y) && lex_leb a' b')
  end.

Definition lex_le (a b : list Z) : Prop := lex_leb a b = true.

#[global] Instance lex_le_dec : RelDecision lex_le :=
  fun a b => decide (lex_leb a b = true).

(** [new Uint8Array(iterable)]: every element is stored modulo 256. *)
Definition Uint8Array_from (values : list Z) : list Z :=
  map (fun v => v mod 256) values.

(** The generator [toUTF8Bytes]. [charCodeAt] past the end is [NaN], which
    [&] turns into 0. *)
Fixpoint toUTF8Bytes (str : jsstring) : list Z :=
  match str with
  | [] => []
  | charcode :: rest =>
      if charcode <? 128 then
        charcode :: toUTF8Bytes rest
      else if charcode <? 2048 then
        Z.lor 192 (Z.shiftr charcode 6)
        :: Z.lor 128 (Z.land charcode 63)
        :: toUTF8Bytes rest
      else if (charcode <? 55296) || (57344 <=? charcode) then
        Z.lor 224 (Z.shiftr charcode 12)
        :: Z.lor 128 (Z.land (Z.shiftr charcode 6) 63)
        :: Z.lor 128 (Z.land charcode 63)
        :: toUTF8Bytes rest
      else
        let '(next, rest') :=
          match rest with
          | [] => (0, [])
          | n :: rest' => (n, rest')
          end in
        let charcode :=
          65536 + Z.lor (Z.shiftl (Z.land charcode 1023) 10) (Z.land next 1023) in
        Z.lor 240 (Z.shiftr charcode 18)
        :: Z.lor 128 (Z.land (Z.shiftr charcode 12) 63)
        :: Z.lor 128 (Z.land (Z.shiftr charcode 6) 63)
        :: Z.lor 128 (Z.land charcode 63)
        :: match rest with
           | [] => []
           | _ :: rest' => toUTF8Bytes rest'
           end
  end.

Fixpoint stringByteCountUTF8 (str : jsstring) : Z :=
  match str with
  | [] => 0
  | charcode :: rest =>
      if charcode <? 128 then 1 + stringByteCountUTF8 rest
      else if charcode <? 2048 then 2 + stringByteCountUTF8 rest
      else if (charcode <? 55296) || (57344 <=? charcode) then
        3 + stringByteCountUTF8 rest
      else
        4 + match rest with
            | [] => 0
            | _ :: rest' => stringByteCountUTF8 rest'
            end
  end.

(** The plain values handed to the encoder. A dictionary is the list of its
    properties in enumeration order; a property may hold [undefined]. *)
Inductive IBencodeObject : Type :=
| IInt (n : Z)
| IString (s : jsstring)
| IBinaryString (b : list Z)
| IList (l : list IBencodeObject)
| IDict (d : list (jsstring * option IBencodeObject)).

(** The class hierarchy under [BencodeObject]. *)
Inductive BencodeObject : Type :=
| BencodeInt (value : Z)
| BencodeString (value : jsstring)
| BencodeBinaryString (value : list Z)
| BencodeList (data : list BencodeObject)
| BencodeDict (data : list (jsstring * BencodeObject)).

(** [obj[key] = value] on a record held as a property list: an existing
    property keeps its place, a new one goes to the end. *)
Fixpoint Object_set {V} (obj : list (jsstring * V)) (key : jsstring) (value : V)
  : list (jsstring * V) :=
  match obj with
  | [] => [(key, value)]
  | (k, v) :: rest =>
      if decide (k = key) then (k, value) :: rest
      else (k, v) :: Object_set rest key value
  end.

(** [obj[key]] *)
Fixpoint Object_get {V} (obj : list (jsstring * V)) (key : jsstring) : option V :=
  match obj with
  | [] => None
  | (k, v) :: rest => if decide (k = key) then Some v else Object_get rest key
  end.

(** [Object.keys(obj)]. (JavaScript lists integer-like keys first; the only
    caller sorts the keys, so the enumeration order is kept as it is.) *)
Definition Object_keys {V} (obj : list (jsstring * V)) : list jsstring :=
  map fst obj.

(** [keys.sort()] *)
Definition Array_sort (keys : list jsstring) : list jsstring :=
  merge_sort lex_le keys.

(** The key [__proto__] names the accessor of [Object.prototype]: the
    assignment [this.data[key] = bencodeObj] with it sets the prototype of
    [data] and adds no property. *)
Definition isProto (key : jsstring) : bool := bool_decide (key = js "__proto__").

(** [getBencodeObject] together with the constructors of [BencodeList] and
    [BencodeDict]. *)
Fixpoint getBencodeObject (obj : IBencodeObject) : BencodeObject :=
  match obj with
  | IInt n => BencodeInt n
  | IString s => BencodeString s
  | IBinaryString b => BencodeBinaryString b
  | IList l => BencodeList (map getBencodeObject l)
  | IDict d =>
      BencodeDict
        ((fix construct (entries : list (jsstring * option IBencodeObject))
              (data : list (jsstring * BencodeObject)) :=
            match entries with
            | [] => data
            | (key, None) :: rest => construct rest data
            | (key, Some value) :: rest =>
                if isProto key then construct rest data
                else construct rest (Object_set data key (getBencodeObject value))
            end) d [])
  end.

(** [BencodeBuffer]: the chunks pushed so far. *)
Definition BencodeBuffer := list (list Z).

Definition writeTextUTF8 (text : jsstring) (buffer : BencodeBuffer) : BencodeBuffer :=
  push buffer (Uint8Array_from (toUTF8Bytes text)).

Definition writeBytes (bytes : list Z) (buffer : BencodeBuffer) : BencodeBuffer :=
  push buffer bytes.

Definition getBytes (buffer : BencodeBuffer) : list Z := concat buffer.

(** [BencodeString.encode] *)
Definition encodeString (value : jsstring) (buffer : BencodeBuffer) : BencodeBuffer :=
  let buffer := writeTextUTF8 (Number_toString (stringByteCountUTF8 value)) buffer in
  let buffer := writeTextUTF8 (js ":") buffer in
  writeTextUTF8 value buffer.

(** The [encode] methods. In the dictionary case [encoders] holds, for each
    property, the [encode] of its value, so that [this.data[currentKey]
    .encode(buffer)] is a lookup followed by a call. *)
Fixpoint encode (obj : BencodeObject) (buffer : BencodeBuffer) : BencodeBuffer :=
  match obj with
  | BencodeInt value =>
      let buffer := writeTextUTF8 (js "i") buffer in
      let buffer := writeTextUTF8 (Number_toString value) buffer in
      writeTextUTF8 (js "e") buffer
  | BencodeString value => encodeString value buffer
  | BencodeBinaryString value =>
      let buffer := writeTextUTF8 (Number_toString (Z.of_nat (length value))) buffer in
      let buffer := writeTextUTF8 (js ":") buffer in
      writeBytes value buffer
  | BencodeList data =>
      let buffer := writeTextUTF8 (js "l") buffer in
      let buffer := fold_left (fun buffer d => encode d buffer) data buffer in
      writeTextUTF8 (js "e") buffer
  | BencodeDict data =>
      let buffer := writeTextUTF8 (js "d") buffer in
      let sortedKeys := Array_sort (Object_keys data) in
      let encoders := map (fun kv => (fst kv, encode (snd kv))) data in
      let buffer :=
        fold_left
          (fun buffer currentKey =>
             let buffer := encodeString currentKey buffer in
             match Object_get encoders currentKey with
             | Some encode_value => encode_value buffer
             | None => buffer
             end)
          sortedKeys buffer in
      writeTextUTF8 (js "e") buffer
  end.

(** [new BencodeDict(obj).encode(new BencodeBuffer()).getBytes()] *)
Definition bencode (obj : list (jsstring * option IBencodeObject)) : list Z :=
  getBytes (encode (getBencodeObject (IDict obj)) []).

End Bencode.

Export Bencode.

(* ===================================================================== *)
(** ** sha1.cpp: the SHA-1 kernel *)
(* ===================================================================== *)

Module Sha1Kernel.

(** The static [memoryBuffer], indexed from its first byte. *)
Definition Memory := Z -> Z.

(** The max block size for a torrent is 16MB, and the sha-1 hash can add an
    extra 64-byte block at the end *)
Definition maxBufferSize : Z := 16 * 1024 * 1024 + 64.

Definition zeroMemory : Memory := fun _ => 0.

(** [memoryBuffer[i] = v] *)
Definition store (m : Memory) (i v : Z) : Memory :=
  fun j => if j =? i then v else m j.

(** [_uint32_t] arithmetic wraps modulo 2^32. *)
Definition u32 (x : Z) : Z := x mod 2 ^ 32.

(** [(x << n) | (x >> (32 - n))] on [_uint32_t] *)
Definition rotl (x n : Z) : Z :=
  Z.lor (u32 (Z.shiftl x n)) (Z.shiftr x (32 - n)).

(** The zero padding: [while ((writeIndex & 63) != 56) memoryBuffer[writeIndex++] = 0]. *)
Fixpoint padZeros (fuel : nat) (m : Memory) (writeIndex : Z) : Memory * Z :=
  match fuel with
  | O => (m, writeIndex)
  | S fuel' =>
      if Z.land writeIndex 63 =? 56 then (m, writeIndex)
      else padZeros fuel' (store m writeIndex 0) (writeIndex + 1)
  end.

(** The message length [ml], as a 64-bit big-endian integer. *)
Fixpoint appendLength (count : nat) (i : Z) (ml : Z) (m : Memory) (writeIndex : Z)
  : Memory * Z :=
  match count with
  | O => (m, writeIndex)
  | S count' =>
      let shift := (7 - i) * 8 in
      appendLength count' (i + 1) ml
        (store m writeIndex (Z.land (Z.shiftr ml shift) 255 mod 256))
        (writeIndex + 1)
  end.

(** [CHUNK_UNROLL(j)] for [j] = 0 .. 15, reading from [memoryBuffer[i]] on. *)
Definition chunkWord (m : Memory) (i : Z) : Z :=
  let b0 := m i in
  let b1 := m (i + 1) in
  let b2 := m (i + 2) in
  let b3 := m (i + 3) in
  Z.lor (Z.lor (Z.lor (u32 (Z.shiftl b0 24)) (u32 (Z.shiftl b1 16)))
               (u32 (Z.shiftl b2 8))) b3.

Definition chunkWords (m : Memory) (i : Z) : list Z :=
  map (fun j => chunkWord m (i + 4 * Z.of_nat j)) (seq 0 16).

Definition w_at (w : list Z) (j : Z) : Z := nth (Z.to_nat j) w 0.

(** [MESSAGE_SCHEDULE(j)] for [j] = 16 .. 79; [w] holds [w[0 .. j-1]]. *)
Fixpoint messageSchedule (count : nat) (j : Z) (w : list Z) : list Z :=
  match count with
  | O => w
  | S count' =>
      let n := Z.lxor (Z.lxor (Z.lxor (w_at w (j - 3)) (w_at w (j - 8)))
                              (w_at w (j - 14))) (w_at w (j - 16)) in
      messageSchedule count' (j + 1) (w ++ [rotl n 1])
  end.

Record Registers : Type := { ra : Z; rb : Z; rc : Z; rd : Z; re : Z }.

(** One round of the main loop: [MAIN_LOOP_0_20], [_20_40], [_40_60] or
    [_60_80] by the range of [j], followed by [MAIN_LOOP_AFTER]. *)
Definition mainLoopRound (w : list Z) (r : Registers) (j : Z) : Registers :=
  let '{| ra := a; rb := b; rc := c; rd := d; re := e |} := r in
  let f_k :=
    if j <? 20 then
      (Z.lor (Z.land b c) (Z.land (u32 (Z.lnot b)) d), 1518500249)
    else if j <? 40 then
      (Z.lxor (Z.lxor b c) d, 1859775393)
    else if j <? 60 then
      (Z.lor (Z.lor (Z.land b c) (Z.land b d)) (Z.land c d), 2400959708)
    else
      (Z.lxor (Z.lxor b c) d, 3395469782) in
  let temp := Z.land (rotl a 5 + fst f_k + e + w_at w j + snd f_k) 4294967295 in
  {| re := d; rd := c; rc := rotl b 30; rb := a; ra := temp |}.

Definition mainLoop (w : list Z) (r : Registers) : Registers :=
  fold_left (fun r j => mainLoopRound w r (Z.of_nat j)) (seq 0 80) r.

(** The body of the loop over the 512-bit chunks. *)
Definition processChunk (m : Memory) (i : Z) (h : Registers) : Registers :=
  let w := messageSchedule 64 16 (chunkWords m i) in
  let r := mainLoop w h in
  {| ra := u32 (ra h + ra r); rb := u32 (rb h + rb r); rc := u32 (rc h + rc r);
     rd := u32 (rd h + rd r); re := u32 (re h + re r) |}.

(** [for (i = 0; i < writeIndex;)], 64 bytes at a time. *)
Fixpoint processChunks (count : nat) (m : Memory) (i : Z) (h : Registers) : Registers :=
  match count with
  | O => h
  | S count' => processChunks count' m (i + 64) (processChunk m i h)
  end.

(** [WRITE_RESULT_BE(h)] *)
Definition writeResultBE (h : Z) : list Z :=
  [Z.shiftr h 24 mod 256; Z.land (Z.shiftr h 16) 255;
   Z.land (Z.shiftr h 8) 255; Z.land h 255].

Definition initialHash : Registers :=
  {| ra := 1732584193; rb := 4023233417; rc := 2562383102;
     rd := 271733878; re := 3285377520 |}.

(** [sha1(sizeInBytes)]: the message is in [memoryBuffer[0 .. sizeInBytes)].
    The result is the 20 bytes of [resultBuffer] and the memory as the call
    leaves it; [None] when the padded message does not fit [memoryBuffer],
    where the C++ has no defined behaviour. *)
Definition sha1 (memoryBuffer : Memory) (sizeInBytes : Z) : option (list Z * Memory) :=
  let ml := sizeInBytes * 8 in (* Message length in bits *)
  let writeIndex := sizeInBytes in
  (* Append the bit '1' to the message *)
  let m := store memoryBuffer writeIndex 128 in
  let writeIndex := writeIndex + 1 in
  let '(m, writeIndex) := padZeros 64 m writeIndex in
  let '(m, writeIndex) := appendLength 8 0 ml m writeIndex in
  if maxBufferSize <? writeIndex then None
  else
    let h := processChunks (Z.to_nat (writeIndex / 64)) m 0 initialHash in
    Some (writeResultBE (ra h) ++ writeResultBE (rb h) ++ writeResultBE (rc h)
          ++ writeResultBE (rd h) ++ writeResultBE (re h), m).

(** [HEAPU8.set(bytes, ptr)] with [ptr = getMemoryBuffer()] *)
Definition HEAPU8_set (m : Memory) (bytes : list Z) : Memory :=
  fun j => if (0 <=? j) && (j <? Z.of_nat (length bytes))
           then nth (Z.to_nat j) bytes 0 else m j.

(** The digest of a byte string: the kernel run on it in a fresh memory. *)
Definition digest (bytes : list Z) : option (list Z) :=
  fst <$> sha1 (HEAPU8_set zeroMemory bytes) (Z.of_nat (length bytes)).

End Sha1Kernel.

(* ===================================================================== *)
(** ** Typed arrays *)
(* ===================================================================== *)

Module TypedArray.

(** [new Uint8Array(n)] *)
Definition Uint8Array_new (n : Z) : list Z := replicate (Z.to_nat n) 0.

(** [target.set(source, offset)]: [None] is the [RangeError] of a source
    that does not fit; the length of [target] never changes. *)
Definition Uint8Array_set (target source : list Z) (offset : Z) : option (list Z) :=
  if (offset <? 0) || (Z.of_nat (length target) <? offset + Z.of_nat (length source))
  then None
  else Some (take (Z.to_nat offset) target ++ source
             ++ drop (Z.to_nat offset + length source) target).

(** [arr.subarray(start, end)], both ends clamped to the array. *)
Definition subarray (arr : list Z) (start_ end_ : Z) : list Z :=
  take (Z.to_nat end_ - Z.to_nat start_) (drop (Z.to_nat start_) arr).

End TypedArray.

Export TypedArray.

(* ===================================================================== *)
(** ** Sha1Worker.ts *)
(* ===================================================================== *)

Module Sha1Worker.

Import Sha1Kernel.

Record HashResult : Type := {
  result : list Z;
  originalInputs : list (list Z);
}.

(** The worker object: its view [HEAPU8] of the module's memory. *)
Record Sha1WorkerObject : Type := { HEAPU8 : Memory }.

Definition hashResultSize : Z := 20. (* 20 bytes per sha-1 hash *)

(** The loop of [computeHashes] from input [i] on. [None]: the kernel was
    called outside its buffer, or a [set] threw. *)
Fixpoint hashInputs (inputs : list (list Z)) (i : Z) (heap : Memory) (result : list Z)
  : option (list Z * Memory) :=
  match inputs with
  | [] => Some (result, heap)
  | bytes :: rest =>
      let heap := HEAPU8_set heap bytes in
      '(resultBytes, heap) ← sha1 heap (Z.of_nat (length bytes));
      let offset := i * hashResultSize in
      result ← Uint8Array_set result resultBytes offset;
      hashInputs rest (i + 1) heap result
  end.

Definition computeHashes (this : Sha1WorkerObject) (inputs : list (list Z))
  : option (HashResult * Sha1WorkerObject) :=
  let result := Uint8Array_new (Z.of_nat (length inputs) * hashResultSize) in
  '(result, heap) ← hashInputs inputs 0 (HEAPU8 this) result;
  (* Transfer back the original buffers to reuse memory *)
  Some ({| result := result; originalInputs := inputs |}, {| HEAPU8 := heap |}).

End Sha1Worker.

(* ===================================================================== *)
(** ** Sha1.ts: the worker pool *)
(* ===================================================================== *)

Module Sha1.

Import Sha1Worker.

(** Use 8 workers max, reading from disk will be the slowest anyways *)
Definition maxWorkerCount (hardwareConcurrency : Z) : Z :=
  Z.min (if hardwareConcurrency =? 0 then 1 else hardwareConcurrency) 8.

(** A worker proxy: which worker it is, and the object behind it. *)
Record WorkerObject : Type := {
  workerName : nat;
  remote : Sha1WorkerObject;
}.

(** One call of [computeHashes(data, creationId)]; [caller] tells the calls
    apart. A resolver pushed on [waitingResolvers] resumes such a call, and
    is identified with it. The inputs are views: [buffer i] names the
    [ArrayBuffer] behind [data[i]], and two inputs with the same name are
    views of one buffer. *)
Record Call : Type := {
  caller : nat;
  data : list (list Z);
  creationId : option Z;
  buffer : nat -> nat;
}.

(** [data.forEach(TransferTypedArray)]: the transfer list the next message
    is posted with, the buffer of every input. *)
Definition transferList (call : Call) : list nat :=
  map (buffer call) (seq 0 (length (data call))).

Fixpoint hasDuplicate (buffers : list nat) : bool :=
  match buffers with
  | [] => false
  | b :: rest => existsb (Nat.eqb b) rest || hasDuplicate rest
  end.

(** [worker.postMessage(message, transfer)] in [sendMessageToRemote], for a
    message whose arguments are views of the buffers of [transfer]: it
    throws a [DataCloneError], and transfers nothing, when [transfer] names
    a buffer twice or names a buffer that is detached; otherwise every
    buffer of [transfer] is detached from then on. *)
Definition postMessageThrows (detached transfer : list nat) : bool :=
  hasDuplicate transfer
  || existsb (fun b => existsb (Nat.eqb b) detached) transfer.

(** The variables [createWorkerPool] closes over. *)
Record WorkerPool : Type := {
  workers : list WorkerObject;
  waitingResolvers : list Call;
  activeCreationId : Z;
}.

Definition createWorkerPool (workers : list WorkerObject) : WorkerPool :=
  {| workers := workers; waitingResolvers := []; activeCreationId := -1 |}.

Definition setCreationId (id : Z) (pool : WorkerPool) : WorkerPool :=
  {| workers := workers pool; waitingResolvers := waitingResolvers pool;
     activeCreationId := id |}.

(** [computeHashes] up to the point where [worker] is bound or the call
    suspends on [new Promise(res => waitingResolvers.push(res))]. *)
Definition acquireWorker (call : Call) (pool : WorkerPool)
  : WorkerPool * option WorkerObject :=
  match pop (workers pool) with
  | Some (rest, worker) =>
      ({| workers := rest; waitingResolvers := waitingResolvers pool;
          activeCreationId := activeCreationId pool |}, Some worker)
  | None =>
      ({| workers := workers pool;
          waitingResolvers := push (waitingResolvers pool) call;
          activeCreationId := activeCreationId pool |}, None)
  end.

(** [creationId !== null && creationId !== activeCreationId] *)
Definition isCancelled (creationId : option Z) (pool : WorkerPool) : bool :=
  match creationId with
  | None => false
  | Some id => negb (id =? activeCreationId pool)
  end.

(** What a call does once [worker] is bound, [detached] being the buffers
    that are detached by then: [result] is [null] when the call is
    cancelled, and what the worker answers otherwise. The outer [None] is
    [await worker.computeHashes(data)] throwing: the message could not be
    posted, or the worker threw. *)
Definition hashWithWorker (worker : WorkerObject) (call : Call) (pool : WorkerPool)
    (detached : list nat) : option (option HashResult * WorkerObject) :=
  if isCancelled (creationId call) pool then Some (None, worker)
  else if postMessageThrows detached (transferList call) then None
  else
    '(hashes, remote') ← computeHashes (remote worker) (data call);
    Some (Some hashes, {| workerName := workerName worker; remote := remote' |}).

(** The buffers that are detached after that: those of the inputs too, if
    the message was posted. *)
Definition detachedAfter (call : Call) (pool : WorkerPool) (detached : list nat)
  : list nat :=
  if isCancelled (creationId call) pool
     || postMessageThrows detached (transferList call)
  then detached
  else detached ++ transferList call.

(** The end of [computeHashes]: the worker goes to a waiting call if there
    is one, and back to [workers] otherwise. *)
Definition releaseWorker (worker : WorkerObject) (pool : WorkerPool)
  : WorkerPool * option (Call * WorkerObject) :=
  match pop (waitingResolvers pool) with
  | None =>
      ({| workers := push (workers pool) worker;
          waitingResolvers := waitingResolvers pool;
          activeCreationId := activeCreationId pool |}, None)
  | Some (rest, waitingResolver) =>
      ({| workers := workers pool; waitingResolvers := rest;
          activeCreationId := activeCreationId pool |},
       Some (waitingResolver, worker))
  end.

(** *** The pool on the event loop *)

(** A call is between two of its [await]s: [handed] calls were given a
    worker by a resolver and have not run yet, [hashing] calls wait for
    their worker's answer (which is already determined). [returned] lists
    the calls that are over, with their results, in the order they ended;
    [lost] the calls whose [await worker.computeHashes(data)] threw;
    [detached] the buffers the page has transferred to a worker (what a
    worker sends back arrives in new buffers). *)
Record PoolState : Type := {
  pool : WorkerPool;
  handed : list (Call * WorkerObject);
  hashing : list (Call * WorkerObject * HashResult);
  returned : list (Call * option HashResult);
  lost : list Call;
  detached : list nat;
}.

Inductive Event : Type :=
| CallComputeHashes (call : Call)
| SetCreationId (id : Z)
| Resume (n : nat)     (* the [n]-th handed call runs on *)
| Answer (n : nat).    (* the worker of the [n]-th hashing call answers *)

(** The end of a call: release the worker, return [result]. *)
Definition finish (call : Call) (worker : WorkerObject) (result : option HashResult)
    (s : PoolState) : PoolState :=
  let '(pool', next) := releaseWorker worker (pool s) in
  {| pool := pool';
     handed := match next with
               | Some waiting => handed s ++ [waiting]
               | None => handed s
               end;
     hashing := hashing s;
     returned := returned s ++ [(call, result)];
     lost := lost s; detached := detached s |}.

(** A call runs on with its worker, up to its next [await] or its end. *)
Definition runWithWorker (call : Call) (worker : WorkerObject) (s : PoolState)
  : PoolState :=
  match hashWithWorker worker call (pool s) (detached s) with
  | Some (None, worker') => finish call worker' None s
  | Some (Some hashes, worker') =>
      {| pool := pool s; handed := handed s;
         hashing := hashing s ++ [(call, worker', hashes)];
         returned := returned s; lost := lost s;
         detached := detachedAfter call (pool s) (detached s) |}
  | None =>
      {| pool := pool s; handed := handed s; hashing := hashing s;
         returned := returned s; lost := lost s ++ [call];
         detached := detachedAfter call (pool s) (detached s) |}
  end.

Definition step (e : Event) (s : PoolState) : PoolState :=
  match e with
  | CallComputeHashes call =>
      let '(pool', worker) := acquireWorker call (pool s) in
      let s' := {| pool := pool'; handed := handed s; hashing := hashing s;
                   returned := returned s; lost := lost s;
                   detached := detached s |} in
      match worker with
      | Some worker => runWithWorker call worker s'
      | None => s'
      end
  | SetCreationId id =>
      {| pool := setCreationId id (pool s); handed := handed s;
         hashing := hashing s; returned := returned s; lost := lost s;
         detached := detached s |}
  | Resume n =>
      match handed s !! n with
      | Some (call, worker) =>
          runWithWorker call worker
            {| pool := pool s; handed := delete n (handed s);
               hashing := hashing s; returned := returned s; lost := lost s;
               detached := detached s |}
      | None => s
      end
  | Answer n =>
      match hashing s !! n with
      | Some (call, worker, hashes) =>
          finish call worker (Some hashes)
            {| pool := pool s; handed := handed s;
               hashing := delete n (hashing s);
               returned := returned s; lost := lost s;
               detached := detached s |}
      | None => s
      end
  end.

Definition run (events : list Event) (s : PoolState) : PoolState :=
  fold_left (fun s e => step e s) events s.

Definition initialState (workers : list WorkerObject) : PoolState :=
  {| pool := createWorkerPool workers; handed := []; hashing := [];
     returned := []; lost := []; detached := [] |}.

End Sha1.

(* ===================================================================== *)
(** ** TorrentHelper.ts: calculateHashes *)
(* ===================================================================== *)

Module Hashing.

Import Sha1Kernel Sha1Worker Sha1.

(** What the caller can observe while [calculateHashes] runs: the calls of
    its three callbacks. [ReadFailed] is a marker, not a callback: it
    records that a read of the file failed. *)
Inductive Observation : Type :=
| UpdateReadingProgress (progress : Z)
| UpdateProcessingProgress (progress : Z)
| OnReadingFileStarted (filePath : jsstring)
| ReadFailed (filePath : jsstring).

(** How the promise of [calculateHashes] ends. *)
Inductive Outcome : Type :=
| Resolved (r : Result (list Z) (option jsstring))
| Rejected   (* an exception leaves the function *)
| Pending.   (* an awaited promise never settles *)

(** An entry of [allWorkerPromises]: what the inner [calculateHashes] of
    [dispatchSha1Worker] closes over. *)
Record Job : Type := {
  startPieceIndex : Z;
  inputs : list (list Z);
  inputLength : Z;
}.

(** The local variables. [readAccumulator] is the filled part of
    [readAccumulatorBuffer], so [readBufferIndex] is its length;
    [creationIdReads] counts the calls of [getCurrentCreationId]. The
    memory pool only recycles buffers and pieces are held by value: for a
    piece size that divides the read buffer, as every size [getBlockSize]
    gives does, a recycled buffer is never shorter than the piece copied
    into it. *)
Record State : Type := {
  pieceIndex : Z;
  allWorkerPromises : list Job;
  readAccumulator : list Z;
  creationIdReads : nat;
  observed : list Observation;
}.

Definition readBufferIndex (st : State) : Z := Z.of_nat (length (readAccumulator st)).

Definition observe (o : Observation) (st : State) : State :=
  {| pieceIndex := pieceIndex st; allWorkerPromises := allWorkerPromises st;
     readAccumulator := readAccumulator st; creationIdReads := creationIdReads st;
     observed := observed st ++ [o] |}.

(** [path.join("/")] *)
Fixpoint Array_join (segments : list jsstring) : jsstring :=
  match segments with
  | [] => []
  | [s] => s
  | s :: rest => s ++ js "/" ++ Array_join rest
  end.

(** The message of [getError()]: two lines. *)
Definition readErrorMessage (filePath : jsstring) : jsstring :=
  js "Error reading file: `" ++ filePath ++ js "`" ++ [10]
  ++ js "The file might be inaccessible, or might have been modified, moved, or deleted".

(** The file loop goes on, or the function is left. *)
Inductive Step : Type :=
| Continue (st : State)
| Exit (o : Outcome) (st : State).

Section Run.

(** Read 16MB chunks, even for lower block sizes *)
Variable readBufferSize : Z.
Variable blockSize : Z.
Variable creationId : Z.
(** The answer of the [n]-th call of [getCurrentCreationId]. *)
Variable getCurrentCreationId : nat -> Z.
(** The pool's [activeCreationId] when the [n]-th job gets its worker. *)
Variable poolCreationId : nat -> Z.
(** [File.prototype.stream !== undefined] ([typeof] never yields
    [undefined], so the second conjunct of [hasBYOB] is always true). *)
Variable hasBYOB : bool.

Definition isCancelled (st : State) : bool * State :=
  (negb (creationId =? getCurrentCreationId (creationIdReads st)),
   {| pieceIndex := pieceIndex st; allWorkerPromises := allWorkerPromises st;
      readAccumulator := readAccumulator st;
      creationIdReads := S (creationIdReads st);
      observed := observed st |}).

Definition dispatchSha1Worker (inputBytes : list Z) (st : State) : State :=
  let inputLength := Z.of_nat (length inputBytes) in
  let numPieces := Math_ceil_div inputLength blockSize in
  let startPieceIndex := pieceIndex st in
  let inputs :=
    map (fun i =>
           let startByteIndex := i * blockSize in
           let endByteIndex := Z.min ((i + 1) * blockSize) inputLength in
           subarray inputBytes startByteIndex endByteIndex)
        (seqZ 0 numPieces) in
  {| pieceIndex := pieceIndex st + numPieces;
     allWorkerPromises :=
       allWorkerPromises st
       ++ [{| startPieceIndex := startPieceIndex; inputs := inputs;
              inputLength := inputLength |}];
     readAccumulator := readAccumulator st;
     creationIdReads := creationIdReads st;
     observed := observed st |}.

Definition setReadAccumulator (acc : list Z) (st : State) : State :=
  {| pieceIndex := pieceIndex st; allWorkerPromises := allWorkerPromises st;
     readAccumulator := acc; creationIdReads := creationIdReads st;
     observed := observed st |}.

(** [onFileChunkRead]; the flag tells whether the last [set] threw. *)
Definition onFileChunkRead (resultBytes : list Z) (st : State) : bool * State :=
  let '(cancelled, st) := isCancelled st in
  if cancelled then (false, st)
  else
    let st := observe (UpdateReadingProgress (Z.of_nat (length resultBytes))) st in
    let '(resultBytes, st) :=
      if readBufferSize <=? readBufferIndex st + Z.of_nat (length resultBytes) then
        (* Block is full *)
        let remainingSize := readBufferSize - readBufferIndex st in
        let full := readAccumulator st ++ subarray resultBytes 0 remainingSize in
        (drop (Z.to_nat remainingSize) resultBytes,
         setReadAccumulator [] (dispatchSha1Worker full st))
      else (resultBytes, st) in
    (* The rest of the file fits into the read buffer *)
    if readBufferSize <? readBufferIndex st + Z.of_nat (length resultBytes)
    then (true, st)
    else (false, setReadAccumulator (readAccumulator st ++ resultBytes) st).

(** Faster, stream-based version: the [while (true)] loop. *)
Fixpoint readStream (filePath : jsstring) (reads : list ReadResult) (st : State)
  : Step :=
  match reads with
  | ReadThrows :: _ =>
      Exit (Resolved (error (Some (readErrorMessage filePath))))
           (observe (ReadFailed filePath) st)
  | ReadChunk value done :: rest =>
      let '(cancelled, st) := isCancelled st in
      if cancelled then Exit (Resolved (error None)) st
      else
        let '(threw, st) :=
          match value with
          | Some bytes => onFileChunkRead bytes st
          | None => (false, st)
          end in
        if threw then Exit Rejected st
        else if done then Continue st
        else readStream filePath rest st
  | [] =>
      (* the stream is closed: [{ value: undefined, done: true }] *)
      let '(cancelled, st) := isCancelled st in
      if cancelled then Exit (Resolved (error None)) st else Continue st
  end.

(** "Slower" version, each chunk is allocated separately: the loop over
    the [numReadsForCurrentFile] slices. [reader.onerror] holds the
    function [onError] was bound to when it was assigned, which does
    nothing, so after an error event the awaited promise stays pending;
    so it does when [onload] returns early or throws. *)
Fixpoint readSlices (filePath : jsstring) (count : nat) (reads : list ReadResult)
    (st : State) : Step :=
  match count with
  | O => Continue st
  | S count' =>
      match reads with
      | ReadThrows :: _ => Exit Pending (observe (ReadFailed filePath) st)
      | ReadChunk None _ :: _ => Exit Pending st
      | _ =>
          let '(bytes, rest) :=
            match reads with
            | ReadChunk (Some bytes) _ :: rest => (bytes, rest)
            | _ => ([], [])
            end in
          let '(threw, st) := onFileChunkRead bytes st in
          if threw then Exit Pending st
          else
            let '(cancelled, st) := isCancelled st in
            if cancelled then Exit (Resolved (error None)) st
            else readSlices filePath count' rest st
      end
  end.

(** The body of [for (const { path, file } of inputFiles)]. *)
Definition readFile (f : FileWithPath) (st : State) : Step :=
  if size (file f) =? 0 then
    (* Files with 0 size don't contribute to the final hash *)
    Continue st
  else
    let filePath := Array_join (path f) in
    let st := observe (OnReadingFileStarted filePath) st in
    if hasBYOB then readStream filePath (reads (file f)) st
    else
      let numReadsForCurrentFile := Math_ceil_div (size (file f)) readBufferSize in
      readSlices filePath (Z.to_nat numReadsForCurrentFile) (reads (file f)) st.

Fixpoint readFiles (inputFiles : list FileWithPath) (st : State) : Step :=
  match inputFiles with
  | [] => Continue st
  | f :: rest =>
      match readFile f st with
      | Continue st => readFiles rest st
      | Exit o st => Exit o st
      end
  end.

(** What the pool answers to the [n]-th job: [None] when the worker
    throws, [Some None] when the pool cancels the call. Every input of a
    job is a view of a buffer of its own, a new one or one that a worker
    sent back, and none of them is detached. *)
Definition poolAnswer (n : nat) (job : Job) : option (option HashResult) :=
  fst <$> hashWithWorker
            {| workerName := 0; remote := {| HEAPU8 := zeroMemory |} |}
            {| caller := n; data := inputs job; Sha1.creationId := Some creationId;
               buffer := fun i => i |}
            (setCreationId (poolCreationId n) (createWorkerPool []))
            [].

(** The inner [calculateHashes] of every job, in the order of dispatch.
    (The jobs end in any order; they write to ranges of [piecesLocal]
    that do not overlap.) [None]: one of the promises rejects. *)
Fixpoint awaitAll (n : nat) (jobs : list Job) (piecesLocal : list Z) (st : State)
  : option (list Z * State) :=
  match jobs with
  | [] => Some (piecesLocal, st)
  | job :: rest =>
      hashResult ← poolAnswer n job;
      match hashResult with
      | None => (* Cancelled *) awaitAll (S n) rest piecesLocal st
      | Some hashResult =>
          (* Copy results into the pieces list *)
          let pieceByteIndex := startPieceIndex job * 20 in
          piecesLocal ← Uint8Array_set piecesLocal (result hashResult) pieceByteIndex;
          awaitAll (S n) rest piecesLocal
            (observe (UpdateProcessingProgress (inputLength job)) st)
      end
  end.

Definition calculateHashes_from (inputFiles : list FileWithPath) (totalSize : Z)
  : Outcome * State :=
  let totalBlockCount := Math_ceil_div totalSize blockSize in
  let piecesLocal := Uint8Array_new (totalBlockCount * 20) in (* 20 bytes per sha-1 hash *)
  let st := {| pieceIndex := 0; allWorkerPromises := []; readAccumulator := [];
               creationIdReads := 0; observed := [] |} in
  match readFiles inputFiles st with
  | Exit o st => (o, st)
  | Continue st =>
      (* All files read, calculate hash of the remaining bytes *)
      let st :=
        if readBufferIndex st =? 0 then st
        else dispatchSha1Worker (readAccumulator st) st in
      let '(cancelled, st) := isCancelled st in
      if cancelled then (Resolved (error None), st)
      else
        match awaitAll 0 (allWorkerPromises st) piecesLocal st with
        | None => (Rejected, st)
        | Some (piecesLocal, st) =>
            let '(cancelled, st) := isCancelled st in
            if cancelled then (Resolved (error None), st)
            else (Resolved (ok piecesLocal), st)
        end
  end.

End Run.

(** [calculateHashes], with its [readBufferSize] of 16 MB. The callbacks
    are the [observed] part of the final state. *)
Definition calculateHashes (inputFiles : list FileWithPath) (totalSize blockSize : Z)
    (creationId : Z) (getCurrentCreationId : nat -> Z) (poolCreationId : nat -> Z)
    (hasBYOB : bool) : Outcome * State :=
  calculateHashes_from (16 * MB) blockSize creationId getCurrentCreationId
    poolCreationId hasBYOB inputFiles totalSize.

End Hashing.

(* ===================================================================== *)
(** ** A sample platform *)
(* ===================================================================== *)

(** The platform's [URL] constructor is a parameter of the validator. The
    examples below run it on this parser, which covers the plain
    [scheme://host/path] addresses (letters in the scheme, a non-empty host,
    the path up to [?] or [#], no escapes and no dot segments), where it
    answers as the platform does. *)
Module SamplePlatform.

Definition isLetter (c : Z) : bool :=
  ((65 <=? c) && (c <=? 90)) || ((97 <=? c) && (c <=? 122)).

(** The longest prefix free of [stop], and what follows it. *)
Fixpoint span (stop : Z -> bool) (s : jsstring) : jsstring * jsstring :=
  match s with
  | [] => ([], [])
  | c :: s' =>
      if stop c then ([], s)
      else let '(before, after) := span stop s' in (c :: before, after)
  end.

Definition URL_new (s : jsstring) : option URL :=
  let '(scheme, rest) := span (fun c => c =? 58) s in
  if forallb isLetter scheme && negb (length scheme =? 0)%nat then
    match rest with
    | 58 :: 47 :: 47 :: rest =>
        let '(host, rest) :=
          span (fun c => (c =? 47) || (c =? 63) || (c =? 35)) rest in
        let '(path, _) := span (fun c => (c =? 63) || (c =? 35)) rest in
        if (length host =? 0)%nat then None
        else Some {| pathname := match path with [] => js "/" | _ => path end |}
    | _ => None
    end
  else None.

End SamplePlatform.

(* ===================================================================== *)
(** ** TorrentHelper.ts: the info hash; the torrent file *)
(* ===================================================================== *)

Module InfoHash.

Import Sha1Kernel Sha1Worker Sha1.

(** A [TorrentFileInfo] as the plain object it is. *)
Definition TorrentFileInfo_object (f : TorrentFileInfo) : IBencodeObject :=
  IDict [(js "length", Some (IInt (tfi_length f)));
         (js "path", Some (IList (map IString (tfi_path f))))].

(** A [TorrentInfo] as the plain object it is: its properties in the order
    [assembleTorrentObject] sets them. An optional member that is not set
    and one that holds [undefined] (the form sets [private] and [source] to
    [undefined]) are both [None]; [BencodeDict] leaves out either. *)
Definition TorrentInfo_object (info : TorrentInfo)
  : list (jsstring * option IBencodeObject) :=
  [(js "name", Some (IString (ti_name info)));
   (js "pieces", Some (IBinaryString (ti_pieces info)));
   (js "piece length", Some (IInt (ti_piece_length info)));
   (js "private", IInt <$> ti_private info);
   (js "source", IString <$> ti_source info);
   (js "length", IInt <$> ti_length info);
   (js "files", (fun files => IList (map TorrentFileInfo_object files))
                  <$> ti_files info)].

(** A [TorrentObject] as the plain object it is. *)
Definition TorrentObject_object (torrentObject : TorrentObject)
  : list (jsstring * option IBencodeObject) :=
  [(js "info", Some (IDict (TorrentInfo_object (to_info torrentObject))));
   (js "announce", IString <$> to_announce torrentObject);
   (js "announce-list",
    (fun tiers => IList (map (fun tier => IList (map IString tier)) tiers))
      <$> to_announce_list torrentObject);
   (js "url-list", (fun seeds => IList (map IString seeds))
                     <$> to_url_list torrentObject);
   (js "comment", IString <$> to_comment torrentObject);
   (js "creation date", IInt <$> to_creation_date torrentObject);
   (js "created by", IString <$> to_created_by torrentObject)].

(** The bytes [createTorrent] offers for download:
    [new BencodeDict(torrentObject).encode(new BencodeBuffer()).getBytes()] *)
Definition torrentFileBytes (torrentObject : TorrentObject) : list Z :=
  bencode (TorrentObject_object torrentObject).

(** A digit of [Number.prototype.toString(16)]. *)
Definition hexDigit (d : Z) : Z := if d <? 10 then 48 + d else 87 + d.

(** Hexadecimal digits of a non-negative integer, most significant first. *)
Fixpoint hexDigits_fuel (fuel : nat) (n : Z) (acc : jsstring) : jsstring :=
  match fuel with
  | O => acc
  | S fuel' =>
      let acc' := hexDigit (n mod 16) :: acc in
      if n <? 16 then acc' else hexDigits_fuel fuel' (n / 16) acc'
  end.

(** [n.toString(16)] on a non-negative integer. *)
Definition Number_toString16 (n : Z) : jsstring :=
  hexDigits_fuel (S (Z.to_nat (Z.log2 n))) n [].

(** [s.padStart(targetLength, pad)] for a pad of one code unit. *)
Definition padStart (s : jsstring) (targetLength : nat) (pad : Z) : jsstring :=
  replicate (targetLength - length s) pad ++ s.

(** How the promise of [calculateInfoHash] ends. *)
Inductive InfoHashOutcome : Type :=
| InfoHash (hex : jsstring)
| CalculationWasCancelled   (* [throw Error("Calculation was cancelled")] *)
| WorkerThrew.

(** [calculateInfoHash], with the worker the pool gives the call and the
    pool as it is when the call gets it. [encode()] returns a new array, so
    the buffer of [bencodeBytes] is not detached. *)
Definition calculateInfoHash (worker : WorkerObject) (pool : WorkerPool)
    (infoObject : TorrentInfo) : InfoHashOutcome :=
  let bencodeBytes := bencode (TorrentInfo_object infoObject) in
  match hashWithWorker worker
          {| caller := 0; data := [bencodeBytes]; creationId := None;
             buffer := fun _ => 0%nat |} pool [] with
  | None => WorkerThrew
  | Some (None, _) =>
      (* Shouldn't happen, this is not cancelable *)
      CalculationWasCancelled
  | Some (Some hashResult, _) =>
      InfoHash (concat (map (fun byte => padStart (Number_toString16 byte) 2 48)
                            (result hashResult)))
  end.

End InfoHash.

(* ===================================================================== *)
(** ** FileInput.ts: the folder structure of a selection *)
(* ===================================================================== *)

Module FolderStructure.

(** A [File] of a [FileList], with the members [loadFileOrFolder] reads
    besides those of [File] above. *)
Record PickedFile : Type := {
  fileName : jsstring;            (* [file.name] *)
  webkitRelativePath : jsstring;
  content : File;
}.

(** [FolderElement] while the selection is loaded: the values of [files]
    still carry their name and relative path. *)
Inductive Folder : Type :=
| mkFolderOf (files : list (jsstring * PickedFile))
             (folders : list (jsstring * Folder)).

Definition filesOf (folder : Folder) : list (jsstring * PickedFile) :=
  match folder with mkFolderOf files _ => files end.

Definition foldersOf (folder : Folder) : list (jsstring * Folder) :=
  match folder with mkFolderOf _ folders => folders end.

(** [map.get(key)] and [map.set(key, value)] of a [Map] with string keys,
    held as the list of its entries in insertion order: [set] on a key the
    map has keeps the place of the entry. *)
Definition Map_get {V} (map : list (jsstring * V)) (key : jsstring) : option V :=
  Object_get map key.

Definition Map_set {V} (map : list (jsstring * V)) (key : jsstring) (value : V)
  : list (jsstring * V) :=
  Object_set map key value.

(** [str.split(separator)] for a separator of one code unit: the pieces
    between the separators, as many as there are separators and one more. *)
Fixpoint split_from (separator : Z) (piece : jsstring) (str : jsstring)
  : list jsstring :=
  match str with
  | [] => [piece]
  | c :: str' =>
      if c =? separator then piece :: split_from separator [] str'
      else split_from separator (piece ++ [c]) str'
  end.

Definition split (str : jsstring) (separator : Z) : list jsstring :=
  split_from separator [] str.

(** The folders the loop over [segments] walks through: the segments from
    index 1 up to the last but one. *)
Definition folderSegments (file : PickedFile) : list jsstring :=
  if jsstring_eqb (webkitRelativePath file) [] then []
  else
    let segments := split (webkitRelativePath file) 47 in
    (* First segment is the root folder, last segment is the file name *)
    take (length segments - 2) (drop 1 segments).

(** The body of the loop of [createFolderStructure]: walk down from
    [targetFolder] along [segments], creating the folders that are missing,
    and set the file in the folder reached. *)
Fixpoint addFile (segments : list jsstring) (file : PickedFile) (targetFolder : Folder)
  : Folder :=
  match segments with
  | [] =>
      mkFolderOf (Map_set (filesOf targetFolder) (fileName file) file)
                 (foldersOf targetFolder)
  | segment :: rest =>
      let childFolder :=
        match Map_get (foldersOf targetFolder) segment with
        | Some childFolder => childFolder
        | None => mkFolderOf [] []
        end in
      mkFolderOf (filesOf targetFolder)
                 (Map_set (foldersOf targetFolder) segment (addFile rest file childFolder))
  end.

Definition createFolderStructure (files : list PickedFile) : Folder :=
  fold_left (fun rootFolder file => addFile (folderSegments file) file rootFolder)
            files (mkFolderOf [] []).

Fixpoint getFolderSize (folder : Folder) : Z :=
  match folder with
  | mkFolderOf files folders =>
      let size := fold_left (fun size entry => size + FileInput.size (content (snd entry)))
                            files 0 in
      fold_left (fun size entry => size + getFolderSize (snd entry)) folders size
  end.

(** A [FileWithPath] whose file still carries its name and relative path. *)
Record PickedFileWithPath : Type := {
  pickedPath : list jsstring;
  picked : PickedFile;
}.

(** What [visitFolder] writes to: [fileList] and [folderName]. *)
Record Visit : Type := {
  visitedFiles : list PickedFileWithPath;
  folderName : option jsstring;
}.

(** The body of the loop over the files of a folder. *)
Definition visitFile (pathSegments : list jsstring) (v : Visit)
    (entry : jsstring * PickedFile) : Visit :=
  {| visitedFiles :=
       push (visitedFiles v)
            {| pickedPath := pathSegments ++ [fst entry]; picked := snd entry |};
     folderName :=
       match folderName v with
       | Some name => Some name
       | None =>
           let baseFolder := hd [] (split (webkitRelativePath (snd entry)) 47) in
           if negb (length baseFolder =? 0)%nat then Some baseFolder else None
       end |}.

Fixpoint visitFolder (folder : Folder) (pathSegments : list jsstring) (v : Visit)
  : Visit :=
  match folder with
  | mkFolderOf files folders =>
      let v :=
        fold_left (fun v entry => visitFolder (snd entry) (push pathSegments (fst entry)) v)
                  folders v in
      fold_left (visitFile pathSegments) files v
  end.

(** The [FolderElement] and the [FileWithPath] that the rest of the program
    sees. *)
Fixpoint toFolderElement (folder : Folder) : FolderElement :=
  match folder with
  | mkFolderOf files folders =>
      mkFolder (map (fun entry => (fst entry, content (snd entry))) files)
               (map (fun entry => (fst entry, toFolderElement (snd entry))) folders)
  end.

Definition toFileWithPath (f : PickedFileWithPath) : FileWithPath :=
  {| path := pickedPath f; file := content (picked f) |}.

(** [loadFileOrFolder]; [None] is [null]. *)
Definition loadFileOrFolder (files : option (list PickedFile))
  : option SelectedFileOrFolderInfo :=
  match files with
  | None => None
  | Some files =>
      let rootFolder := createFolderStructure files in
      let totalSize := getFolderSize rootFolder in
      if ((length (foldersOf rootFolder) =? 0) && (length (filesOf rootFolder) =? 1))%nat
      then
        (* Single file *)
        match filesOf rootFolder with
        | (fileName, file) :: _ =>
            Some {| info_name := fileName; info_size := totalSize;
                    input := input_File (content file);
                    fileList := [{| path := [fileName]; file := content file |}] |}
        | [] => None (* Shouldn't happen *)
        end
      else
        (* Folder *)
        let v := visitFolder rootFolder [] {| visitedFiles := []; folderName := None |} in
        Some {| info_name := match folderName v with
                             | Some name => name
                             | None => js "unknown"
                             end;
                info_size := totalSize;
                input := input_Folder (toFolderElement rootFolder);
                fileList := map toFileWithPath (visitedFiles v) |}
  end.

End FolderStructure.

(* ===================================================================== *)
(** ** Util.ts: sizes and text areas *)
(* ===================================================================== *)

Module UtilText.

Import TorrentHelper.

Section Platform.

(** [(size / GB).toFixed(2)] rounds a floating-point number to two decimal
    places; it is the platform's, and a parameter here. *)
Variable toFixed2 : Z -> Z -> jsstring.

(** [GetSizeStr] on an integer size. From 1 kB on the quotients are
    positive, where [(x / y) | 0] is the integer quotient cut to 32 bits. *)
Definition GetSizeStr (size : Z) : jsstring :=
  if size <? KB then Number_toString size ++ js " bytes"
  else if size <? MB then Number_toString (toInt32 (size / KB)) ++ js " kB"
  else if size <? GB then Number_toString (toInt32 (size / MB)) ++ js " MB"
  else toFixed2 size GB ++ js " GB".

(** [autoCalculatedBlockSizeText] of the form; [None] is [null]. *)
Definition autoCalculatedBlockSizeText
    (selectedFileOrFolderInfo : option SelectedFileOrFolderInfo) : option jsstring :=
  match selectedFileOrFolderInfo with
  | None => None
  | Some info =>
      let size := getAutoBlockSize (info_size info) in
      Some (GetSizeStr size)
  end.

End Platform.

(** [lines.join(separator)] *)
Fixpoint join (lines : list jsstring) (separator : jsstring) : jsstring :=
  match lines with
  | [] => []
  | [line] => line
  | line :: rest => line ++ separator ++ join rest separator
  end.

(** [formatTextAreaLines]: the new [element.value], from the old one. The
    resizing touches the style of the element only. *)
Definition formatTextAreaLines (value : jsstring) : jsstring :=
  let lines := getLines value in
  if (length lines =? 0)%nat then []
  else join lines [10] ++ [10].

End UtilText.

(* ===================================================================== *)
(** ** RemoteProxy.ts: calls of an object on the other side *)
(* ===================================================================== *)

Module RemoteProxy.

Import TorrentHelper.

Section Proxy.

(** What crosses the boundary ([any] in the source): the argument lists,
    the values that functions return and the ones they throw, the errors
    sent back, the initialization data. [Obj] is the remote object with its
    state, [Caller] the continuation of a call on the local side. *)
Context {Args Value Exn Err Data Obj Caller : Type}.

(** [remoteObject[functionName](...args)]: the object afterwards, and the
    value returned or thrown. *)
Variable invoke : Obj -> jsstring -> Args -> Obj * (Value + Exn).
(** The [TypeError] of a member access on [null]. *)
Variable nullError : jsstring -> Exn.
(** The [Error] the catch block makes of the value thrown in a function. *)
Variable toError : jsstring -> Exn -> Err.
(** [objectOrInitCallback(initData)]; [None] when it throws or rejects. *)
Variable initCallback : Data -> option Obj.

Inductive RemoteProxyMessage : Type :=
| FunctionCall (id : Z) (functionName : jsstring) (args : Args)
| Initialize (data : Data).

Inductive ResponseResult : Type :=
| ResponseSuccess (result : Value)
| ResponseError (exception : Err).

Record RemoteProxyResponse : Type := {
  response_id : Z;
  response_result : ResponseResult;
}.

(** *** Remote part *)

(** The callbacks the remote side calls. *)
Inductive RemoteCallback : Type :=
| OnRemoteError (error : Exn)
| SendResponseToLocal (response : RemoteProxyResponse).

(** Where [SetRemoteObject] stands: before the first [await] has its
    value, before the second has, after both, or left by an exception. *)
Inductive InitStage : Type :=
| AwaitInitData
| AwaitObject (initData : Data)
| InitDone
| InitFailed.

(** The variables of the module, the place [SetRemoteObject] has reached
    and the callbacks called so far. *)
Record RemoteState : Type := {
  remoteObject : option Obj;
  initDataReceived : bool;
  pendingMessages : list RemoteProxyMessage;
  initStage : InitStage;
  remoteCalls : list RemoteCallback;
}.

Definition ProcessMessage (message : RemoteProxyMessage) (st : RemoteState)
  : RemoteState :=
  match message with
  | Initialize _ => st
  | FunctionCall id functionName args =>
      let '(object, outcome) :=
        match remoteObject st with
        | Some object =>
            let '(object, outcome) := invoke object functionName args in
            (Some object, outcome)
        | None => (None, inr (nullError functionName))
        end in
      let '(called, result) :=
        match outcome with
        | inl result => ([], ResponseSuccess result)
        | inr ex => ([OnRemoteError ex], ResponseError (toError functionName ex))
        end in
      {| remoteObject := object;
         initDataReceived := initDataReceived st;
         pendingMessages := pendingMessages st;
         initStage := initStage st;
         remoteCalls :=
           remoteCalls st ++ called
           ++ [SendResponseToLocal {| response_id := id; response_result := result |}] |}
  end.

(** The listener [SetRemoteObject] installs. *)
Definition onRemoteMessage (message : RemoteProxyMessage) (st : RemoteState)
  : RemoteState :=
  match message with
  | Initialize data =>
      (* initResolver(message.data): a promise keeps its first value *)
      match initStage st with
      | AwaitInitData =>
          {| remoteObject := remoteObject st;
             initDataReceived := initDataReceived st;
             pendingMessages := pendingMessages st;
             initStage := AwaitObject data;
             remoteCalls := remoteCalls st |}
      | _ => st
      end
  | FunctionCall _ _ _ =>
      if initDataReceived st
         && match remoteObject st with Some _ => true | None => false end
      then ProcessMessage message st
      else
        {| remoteObject := remoteObject st;
           initDataReceived := initDataReceived st;
           pendingMessages := push (pendingMessages st) message;
           initStage := initStage st;
           remoteCalls := remoteCalls st |}
  end.

(** [SetRemoteObject] from the value of [objectOrInitCallback(initData)]
    on: the object is set and the pending messages are processed. *)
Definition onObjectReady (st : RemoteState) : RemoteState :=
  match initStage st with
  | AwaitObject initData =>
      match initCallback initData with
      | None =>
          {| remoteObject := remoteObject st;
             initDataReceived := initDataReceived st;
             pendingMessages := pendingMessages st;
             initStage := InitFailed;
             remoteCalls := remoteCalls st |}
      | Some object =>
          let st :=
            {| remoteObject := Some object;
               initDataReceived := true;
               pendingMessages := pendingMessages st;
               initStage := InitDone;
               remoteCalls := remoteCalls st |} in
          let st := fold_left (fun st msg => ProcessMessage msg st) (pendingMessages st) st in
          {| remoteObject := remoteObject st;
             initDataReceived := initDataReceived st;
             pendingMessages := [];
             initStage := initStage st;
             remoteCalls := remoteCalls st |}
      end
  | _ => st
  end.

(** [objectOrInitCallback]: the object itself, or the callback. *)
Inductive ObjectOrInitCallback : Type :=
| TheObject (object : Obj)
| TheInitCallback.

(** [SetRemoteObject] up to its first [await]; [None] is the exception of
    a call that is not on the remote side. With the object itself there is
    no [await], and the function runs to its end. *)
Definition SetRemoteObject (isRemote : bool) (objectOrInitCallback : ObjectOrInitCallback)
  : option RemoteState :=
  if negb isRemote then None
  else
    match objectOrInitCallback with
    | TheInitCallback =>
        Some {| remoteObject := None; initDataReceived := false;
                pendingMessages := []; initStage := AwaitInitData;
                remoteCalls := [] |}
    | TheObject object =>
        Some {| remoteObject := Some object; initDataReceived := true;
                pendingMessages := []; initStage := InitDone;
                remoteCalls := [] |}
    end.

(** What happens on the remote side: a message arrives, or the object of
    the initialization is there. *)
Inductive RemoteEvent : Type :=
| MessageArrives (message : RemoteProxyMessage)
| ObjectReady.

Definition remoteStep (st : RemoteState) (e : RemoteEvent) : RemoteState :=
  match e with
  | MessageArrives message => onRemoteMessage message st
  | ObjectReady => onObjectReady st
  end.

Definition remoteRun (events : list RemoteEvent) (st : RemoteState) : RemoteState :=
  fold_left remoteStep events st.

(** *** Local part *)

(** [waitingMessages], a [Map] with numbers as keys, as the list of its
    entries in insertion order. *)
Fixpoint Map_get (map : list (Z * Caller)) (key : Z) : option Caller :=
  match map with
  | [] => None
  | (k, v) :: rest => if k =? key then Some v else Map_get rest key
  end.

Fixpoint Map_set (map : list (Z * Caller)) (key : Z) (value : Caller)
  : list (Z * Caller) :=
  match map with
  | [] => [(key, value)]
  | (k, v) :: rest =>
      if k =? key then (k, value) :: rest else (k, v) :: Map_set rest key value
  end.

Fixpoint Map_delete (map : list (Z * Caller)) (key : Z) : list (Z * Caller) :=
  match map with
  | [] => []
  | (k, v) :: rest => if k =? key then rest else (k, v) :: Map_delete rest key
  end.

(** The variables of [CreateRemoteProxy], whether the data of the
    initialization is still awaited, the messages sent and the resolvers
    called so far, each with its response. *)
Record LocalState : Type := {
  waitingMessages : list (Z * Caller);
  messageId : Z;
  initDataAwaited : bool;
  sentToRemote : list RemoteProxyMessage;
  resolved : list (Caller * RemoteProxyResponse);
}.

(** [CreateRemoteProxy] up to its return; [None] is the exception of a
    call on the remote side. *)
Definition CreateRemoteProxy (isRemote : bool) : option LocalState :=
  if isRemote then None
  else Some {| waitingMessages := []; messageId := 0; initDataAwaited := true;
               sentToRemote := []; resolved := [] |}.

(** The function the proxy gives for a property, up to its [await]:
    [caller] stands for the resolver of the promise. The property [then]
    gives [null]. *)
Definition proxyGet (prop : jsstring)
  : option (Caller -> Args -> LocalState -> LocalState) :=
  if jsstring_eqb prop (js "then") then None
  else
    Some (fun caller args st =>
            let currentId := messageId st in
            let msg := FunctionCall currentId prop args in
            {| waitingMessages := Map_set (waitingMessages st) currentId caller;
               messageId := currentId + 1;
               initDataAwaited := initDataAwaited st;
               sentToRemote := sentToRemote st ++ [msg];
               resolved := resolved st |}).

(** What the call gives its caller once the response is there: the result,
    or the error [Worker proxy call threw an error] with its cause. *)
Inductive CallOutcome : Type :=
| Returned (result : Value)
| Threw (cause : Err).

Definition callOutcome (response : RemoteProxyResponse) : CallOutcome :=
  match response_result response with
  | ResponseSuccess result => Returned result
  | ResponseError exception => Threw exception
  end.

(** The listener [CreateRemoteProxy] installs. *)
Definition onResponse (response : RemoteProxyResponse) (st : LocalState) : LocalState :=
  let resolver := Map_get (waitingMessages st) (response_id response) in
  let waiting := Map_delete (waitingMessages st) (response_id response) in
  {| waitingMessages := waiting;
     messageId := messageId st;
     initDataAwaited := initDataAwaited st;
     sentToRemote := sentToRemote st;
     resolved :=
       match resolver with
       | Some caller => resolved st ++ [(caller, response)]
       | None => resolved st
       end |}.

(** The function that sends the initialization, from the value of
    [await initData] on. *)
Definition onInitData (data : Data) (st : LocalState) : LocalState :=
  if initDataAwaited st then
    {| waitingMessages := waitingMessages st;
       messageId := messageId st;
       initDataAwaited := false;
       sentToRemote := sentToRemote st ++ [Initialize data];
       resolved := resolved st |}
  else st.

Inductive LocalEvent : Type :=
| Call (caller : Caller) (prop : jsstring) (args : Args)
| ResponseArrives (response : RemoteProxyResponse)
| InitDataThere (data : Data).

Definition localStep (st : LocalState) (e : LocalEvent) : LocalState :=
  match e with
  | Call caller prop args =>
      match proxyGet prop with
      | Some call => call caller args st
      | None => st (* null is not a function: nothing is sent *)
      end
  | ResponseArrives response => onResponse response st
  | InitDataThere data => onInitData data st
  end.

Definition localRun (events : list LocalEvent) (st : LocalState) : LocalState :=
  fold_left localStep events st.

(** *** RemoteWorkerProxy.ts: the two sides in a page and its worker *)

(** The responses among the callbacks called. *)
Fixpoint responsesOf (called : list RemoteCallback) : list RemoteProxyResponse :=
  match called with
  | [] => []
  | SendResponseToLocal response :: rest => response :: responsesOf rest
  | OnRemoteError _ :: rest => responsesOf rest
  end.

(** [postMessage] in both directions: the messages of one side reach the
    listener of the other one at a time and in the order they were sent.
    The state counts those that have arrived. *)
Record Worker : Type := {
  localSide : LocalState;
  remoteSide : RemoteState;
  arrivedAtRemote : nat;
  arrivedAtLocal : nat;
}.

Inductive WorkerEvent : Type :=
| PageCalls (caller : Caller) (prop : jsstring) (args : Args)
| PageHasInitData (data : Data)
| WorkerGetsMessage
| WorkerHasObject
| PageGetsMessage.

Definition workerStep (w : Worker) (e : WorkerEvent) : Worker :=
  match e with
  | PageCalls caller prop args =>
      {| localSide := localStep (localSide w) (Call caller prop args);
         remoteSide := remoteSide w;
         arrivedAtRemote := arrivedAtRemote w; arrivedAtLocal := arrivedAtLocal w |}
  | PageHasInitData data =>
      {| localSide := localStep (localSide w) (InitDataThere data);
         remoteSide := remoteSide w;
         arrivedAtRemote := arrivedAtRemote w; arrivedAtLocal := arrivedAtLocal w |}
  | WorkerGetsMessage =>
      match sentToRemote (localSide w) !! arrivedAtRemote w with
      | Some message =>
          {| localSide := localSide w;
             remoteSide := remoteStep (remoteSide w) (MessageArrives message);
             arrivedAtRemote := S (arrivedAtRemote w);
             arrivedAtLocal := arrivedAtLocal w |}
      | None => w
      end
  | WorkerHasObject =>
      {| localSide := localSide w;
         remoteSide := remoteStep (remoteSide w) ObjectReady;
         arrivedAtRemote := arrivedAtRemote w; arrivedAtLocal := arrivedAtLocal w |}
  | PageGetsMessage =>
      match responsesOf (remoteCalls (remoteSide w)) !! arrivedAtLocal w with
      | Some response =>
          {| localSide := localStep (localSide w) (ResponseArrives response);
             remoteSide := remoteSide w;
             arrivedAtRemote := arrivedAtRemote w;
             arrivedAtLocal := S (arrivedAtLocal w) |}
      | None => w
      end
  end.

(** [CreateWorkerProxy] in the page and [SetWorkerObject] with an
    initialization callback in the worker. *)
Definition newWorker : Worker :=
  {| localSide :=
       {| waitingMessages := []; messageId := 0; initDataAwaited := true;
          sentToRemote := []; resolved := [] |};
     remoteSide :=
       {| remoteObject := None; initDataReceived := false; pendingMessages := [];
          initStage := AwaitInitData; remoteCalls := [] |};
     arrivedAtRemote := 0; arrivedAtLocal := 0 |}.

Definition workerRun (events : list WorkerEvent) (w : Worker) : Worker :=
  fold_left workerStep events w.

End Proxy.

End RemoteProxy.

(* ===================================================================== *)
(** ** App.svelte: createTorrent *)
(* ===================================================================== *)

Module Form.

Import Sha1Kernel Sha1Worker Sha1 Hashing InfoHash.

Inductive TorrentCreationState : Set :=
| NotStarted
| InProgress
| ReadyToDownload.

(** How a call of [createTorrent] ends, with what it leaves in the
    variables of the form. *)
Inductive CreateTorrentOutcome : Type :=
| Cancelled (creationId : Z)
    (* the creation in progress is cancelled: [creationId] is the new id,
       the creation state is reset *)
| NothingSelected
| InvalidInput (errorText : jsstring)
| HashingFailed (errorText : option jsstring)
    (* [errorText] is set, the creation state is reset *)
| NotFinished (rejected : bool)
    (* the promise of [calculateHashes] rejects, or never settles *)
| AssembleFailed (errorText : jsstring)
| TorrentReady (torrentObject : TorrentObject) (bencodeBytes : list Z)
               (downloadedAs : option jsstring).
    (* [lastValidInfoObject] is [torrentObject.info], the link holds a blob
       of [bencodeBytes], which is downloaded under the name given when the
       button was [Download torrent file] *)

(** [torrentObject.info.pieces = pieces] *)
Definition setPieces (torrentObject : TorrentObject) (pieces : list Z) : TorrentObject :=
  {| to_info :=
       {| ti_name := ti_name (to_info torrentObject);
          ti_private := ti_private (to_info torrentObject);
          ti_pieces := pieces;
          ti_piece_length := ti_piece_length (to_info torrentObject);
          ti_files := ti_files (to_info torrentObject);
          ti_length := ti_length (to_info torrentObject);
          ti_source := ti_source (to_info torrentObject) |};
     to_announce := to_announce torrentObject;
     to_announce_list := to_announce_list torrentObject;
     to_url_list := to_url_list torrentObject;
     to_comment := to_comment torrentObject;
     to_creation_date := to_creation_date torrentObject;
     to_created_by := to_created_by torrentObject |}.

Section Platform.

Variable URL_new : jsstring -> option URL.
Variable Date_now : Z.

(** [createTorrent], from the variables of the form when the button is
    clicked: [creationState], [creationId], [pieces], the selection and
    the parameters. The parameters are read again after the hashing; the
    inputs of the form are disabled meanwhile, and the embedding takes them
    unchanged. What a click on [Cancel] during the hashing does is in the
    answers of [getCurrentCreationId] and in the [poolCreationId] the jobs
    meet. The progress texts are not part of the embedding. *)
Definition createTorrent (creationState : TorrentCreationState) (creationId : Z)
    (pieces : option (list Z))
    (selectedFileOrFolderInfo : option SelectedFileOrFolderInfo)
    (torrentUIParameters : TorrentUIParameters)
    (getCurrentCreationId : nat -> Z) (poolCreationId : nat -> Z) (hasBYOB : bool)
  : CreateTorrentOutcome :=
  match creationState with
  | InProgress =>
      (* Cancel *)
      Cancelled (creationId + 1)
  | _ =>
      match selectedFileOrFolderInfo with
      | None =>
          (* Shouldn't happen, button is disabled in this case *)
          NothingSelected
      | Some info =>
          match getError (validateTorrentInput URL_new torrentUIParameters) with
          | Some errorText => InvalidInput errorText
          | None =>
              let totalSize := info_size info in
              let blockSize := getBlockSize (blockSize torrentUIParameters) totalSize in
              let currentCreationId := creationId + 1 in
              let hashed :=
                match creationState, pieces with
                | ReadyToDownload, Some pieces => inr (pieces, ReadyToDownload)
                | _, _ =>
                    match fst (calculateHashes (fileList info) totalSize blockSize
                                 currentCreationId getCurrentCreationId poolCreationId
                                 hasBYOB) with
                    | Resolved (error errorText) => inl (HashingFailed errorText)
                    | Resolved (ok result) => inr (result, InProgress)
                    | Rejected => inl (NotFinished true)
                    | Pending => inl (NotFinished false)
                    end
                end in
              match hashed with
              | inl outcome => outcome
              | inr (pieces, creationState) =>
                  (* Create torrent object *)
                  match assembleTorrentObject URL_new Date_now torrentUIParameters
                          (Some info) blockSize with
                  | error errorText => AssembleFailed errorText
                  | ok torrentObject =>
                      let torrentObject := setPieces torrentObject pieces in
                      (* Bencode *)
                      let bencodeBytes := bencode (TorrentObject_object torrentObject) in
                      TorrentReady torrentObject bencodeBytes
                        match creationState with
                        | ReadyToDownload =>
                            (* Button was clicked and the download is ready, so just download *)
                            Some (ti_name (to_info torrentObject) ++ js ".torrent")
                        | _ => None
                        end
                  end
              end
          end
      end
  end.

End Platform.

End Form.

(* ===================================================================== *)
(** * Vocabulary of the properties *)
(* ===================================================================== *)

(** ** Vocabulary of the validator *)

Module ValidatorSpec.

(** The characters the name check refuses, as the specification lists
    them: less-than, greater-than, colon, double quote, backslash, slash,
    bar, question mark, asterisk. *)
Definition reservedCharacters : list Z := [60; 62; 58; 34; 92; 47; 124; 63; 42].

Definition nameAccepted (p : TorrentUIParameters) : Prop :=
  name p ≠ [] ∧ (length (name p) ≤ 255)%nat
  ∧ ∀ c, c ∈ name p → c ∉ reservedCharacters.

(** The path ends with the segment [announce], with or without a final
    slash. *)
Definition endsWithAnnounceSegment (pathname : jsstring) : Prop :=
  js "/announce" `suffix_of` pathname ∨ js "/announce/" `suffix_of` pathname.

(** The reading of the specification: the path ends with the characters
    [announce] or [announce/]. *)
Definition endsWithAnnounce (pathname : jsstring) : Prop :=
  js "announce" `suffix_of` pathname ∨ js "announce/" `suffix_of` pathname.

Definition notValidURL (tracker : jsstring) : jsstring :=
  js "Invalid tracker: `" ++ tracker ++ js "` (not a valid URL)".

Definition mustEndWithAnnounce (tracker : jsstring) : jsstring :=
  js "Invalid tracker: `" ++ tracker
  ++ js "` (URL must end with `announce` or `announce/`)".

Definition webSeedNotValidURL (webSeed : jsstring) : jsstring :=
  js "Invalid web seed: `" ++ webSeed ++ js "` (not a valid URL)".

Section WithPlatform.

Variable URL_new : jsstring -> option URL.

Definition trackerAccepted (tracker : jsstring) : Prop :=
  ∃ url, URL_new tracker = Some url ∧ endsWithAnnounceSegment (pathname url).

Definition webSeedAccepted (webSeed : jsstring) : Prop :=
  is_Some (URL_new webSeed).

(** The error a refused tracker is reported with. *)
Definition trackerError (tracker : jsstring) : jsstring :=
  match URL_new tracker with
  | Some _ => mustEndWithAnnounce tracker
  | None => notValidURL tracker
  end.

End WithPlatform.

End ValidatorSpec.

Export ValidatorSpec.

(** ** Vocabulary of the piece size *)

Module BlockSizeSpec.

(** The exponent of the automatic rule: round, then clamp to [14, 24]. *)
Definition autoFactor (totalSize : Z) : Z :=
  Z.min (Math_max (Math_round_log2 totalSize 1200) 14) 24.

(** [2^e * x <= y] for an exponent [e] of either sign, cleared of
    fractions. *)
Definition scaledLe (e x y : Z) : Prop :=
  2 ^ Z.max e 0 * x ≤ 2 ^ Z.max (- e) 0 * y.

(** [r] is [round(log2(a / b))] for positive integers [a] and [b], where
    [round(y)] is the integer [r] with [r - 1/2 <= y < r + 1/2]: squared,
    [2^(2r - 1) <= (a / b)^2] and not [2^(2r + 1) <= (a / b)^2]. *)
Definition roundedLog2 (a b r : Z) : Prop :=
  scaledLe (2 * r - 1) (b * b) (a * a) ∧ ¬ scaledLe (2 * r + 1) (b * b) (a * a).

End BlockSizeSpec.

Export BlockSizeSpec.

(** ** Vocabulary of the encoder *)

Module BencodeSpec.

Definition utf8 (text : jsstring) : list Z := Uint8Array_from (toUTF8Bytes text).

Definition stringChunks (value : jsstring) : BencodeBuffer :=
  [utf8 (Number_toString (stringByteCountUTF8 value)); utf8 (js ":"); utf8 value].

(** What the loop of [BencodeDict.encode] writes for one key. *)
Definition entryChunks (data : list (jsstring * BencodeObject)) (key : jsstring)
  : BencodeBuffer :=
  stringChunks key
  ++ match Object_get data key with
     | Some value => encode value []
     | None => []
     end.

(** The properties of a plain object that hold a value, but for the one
    named [__proto__], turned into encoder objects: what the constructor
    of [BencodeDict] stores when the keys are distinct. *)
Definition definedEntries (d : list (jsstring * option IBencodeObject))
  : list (jsstring * BencodeObject) :=
  omap (fun kv => if isProto (fst kv) then None
                  else (fun value => (fst kv, getBencodeObject value)) <$> snd kv) d.

(** The bytes of one code unit outside the surrogate range, by arithmetic. *)
Definition unitBytes (c : Z) : list Z :=
  if c <? 128 then [c]
  else if c <? 2048 then [192 + c / 64; 128 + c mod 64]
  else [224 + c / 4096; 128 + (c / 64) mod 64; 128 + c mod 64].

(** [u] and [v] differ at a position that both have, and [u] holds the
    smaller byte there. *)
Fixpoint differs_lt (u v : list Z) : bool :=
  match u, v with
  | x :: u', y :: v' => (x <? y) || ((x =? y) && differs_lt u' v')
  | _, _ => false
  end.

Definition plainUnit (c : Z) : Prop := code_unit c ∧ is_surrogate c = false.

(** The keys in the order [BencodeDict.encode] writes them. *)
Definition emittedKeys (data : list (jsstring * BencodeObject)) : list jsstring :=
  Array_sort (Object_keys data).

End BencodeSpec.

Export BencodeSpec.

(** ** Vocabulary of the kernel and the worker *)

Module Sha1Spec.

Import Sha1Kernel Sha1Worker.

(** Two memories that hold the same bytes below [bound]. *)
Definition agree (bound : Z) (m m' : Memory) : Prop :=
  ∀ i, 0 ≤ i < bound → m i = m' i.

(** The digests of a list of inputs, each of 20 bytes. *)
Definition digestsOf (inputs digests : list (list Z)) : Prop :=
  Forall2 (fun bytes d => digest bytes = Some d ∧ length d = 20%nat) inputs digests.

End Sha1Spec.

Export Sha1Spec.

(** ** Vocabulary of the pool *)

Module PoolSpec.

Import Sha1Kernel Sha1Worker Sha1.

(** The call was given a creation id and it is not the pool's. *)
Definition cancelledAt (call : Call) (pool : WorkerPool) : Prop :=
  ∃ id, creationId call = Some id ∧ id ≠ activeCreationId pool.

End PoolSpec.

Export PoolSpec.

(** ** Vocabulary of the pipeline *)

Module HashingSpec.

Import Sha1Kernel Sha1Worker Sha1 Hashing.

(** [st'] records no failed read that [st] does not record. *)
Definition quiet (st st' : State) : Prop :=
  ∀ p, ReadFailed p ∈ observed st' → ReadFailed p ∈ observed st.

(** The outcome is not an error with a message. *)
Definition notReadError (o : Outcome) : Prop :=
  ∀ message, o ≠ Resolved (error (Some message)).

(** The outcome is not a piece table. *)
Definition notOk (o : Outcome) : Prop := ∀ pieces, o ≠ Resolved (ok pieces).

(** What a read loop leaves behind: it goes on without a failed read, or it
    leaves the function, either without one and without an error message,
    or after a failed read of [filePath] with the message of [getError]. *)
Definition readOutcome (filePath : jsstring) (st : State) (step : Step) : Prop :=
  match step with
  | Continue st' => quiet st st'
  | Exit o st' =>
      (quiet st st' ∧ notReadError o ∧ notOk o)
      ∨ (o = Resolved (error (Some (readErrorMessage filePath)))
         ∧ ReadFailed filePath ∈ observed st'
         ∧ ∀ p, ReadFailed p ∈ observed st' → p = filePath ∨ ReadFailed p ∈ observed st)
  end.

End HashingSpec.

Export HashingSpec.

(** ** Sample inputs *)

Module Samples.

Import Sha1Kernel Sha1Worker Sha1 Hashing.

(** A form filled in for the examples. *)
Definition sampleParameters (name trackers webSeeds : jsstring) : TorrentUIParameters :=
  {| name := name; blockSize := Auto; isPrivate := false;
     setCreationDate := false; trackers := trackers; webSeeds := webSeeds;
     comment := []; source := [] |}.

Definition sampleFile (bytes : Z) : File := {| size := bytes; reads := [] |}.

Definition sampleForm : TorrentUIParameters :=
  sampleParameters (js "a.txt") [] [].

Definition sampleWorker (n : nat) : WorkerObject :=
  {| workerName := n; remote := {| HEAPU8 := zeroMemory |} |}.

(** Call [n] has two inputs, in buffers of its own. *)
Definition sampleCall (n : nat) (id : option Z) : Call :=
  {| caller := n; data := [js "ab"; js "cd"]; creationId := id;
     buffer := fun i => (2 * n + i)%nat |}.

Definition sampleInput (p : string) (bytes : Z) (reads : list ReadResult) : FileWithPath :=
  {| path := [js p]; file := {| size := bytes; reads := reads |} |}.
Arguments sampleInput p%_string bytes reads.

(** A run that nobody cancels: creation 7 stays the current one. *)
Definition sampleRun (inputFiles : list FileWithPath) (totalSize blockSize : Z)
    (hasBYOB : bool) : Outcome * State :=
  calculateHashes inputFiles totalSize blockSize 7 (fun _ => 7) (fun _ => 7) hasBYOB.

End Samples.

Export Samples.

(** ** Vocabulary of UTF-8 *)

Module Utf8Spec.

(** The code points of a well-formed UTF-16 string: a high surrogate
    followed by a low surrogate is one supplementary code point; [None] when
    a surrogate is not part of such a pair. *)
Fixpoint codePoints (s : jsstring) : option (list Z) :=
  match s with
  | [] => Some []
  | c :: rest =>
      if (55296 <=? c) && (c <? 56320) then
        match rest with
        | low :: rest' =>
            if (56320 <=? low) && (low <? 57344) then
              cons (65536 + (c - 55296) * 1024 + (low - 56320)) <$> codePoints rest'
            else None
        | [] => None
        end
      else if (56320 <=? c) && (c <? 57344) then None
      else cons c <$> codePoints rest
  end.

(** The UTF-8 encoding of a code point, by the table of the Unicode
    standard: one to four bytes. *)
Definition scalarBytes (cp : Z) : list Z :=
  if cp <? 128 then [cp]
  else if cp <? 2048 then [192 + cp / 64; 128 + cp mod 64]
  else if cp <? 65536 then [224 + cp / 4096; 128 + (cp / 64) mod 64; 128 + cp mod 64]
  else [240 + cp / 262144; 128 + (cp / 4096) mod 64; 128 + (cp / 64) mod 64;
        128 + cp mod 64].

Definition isByte (b : Z) : Prop := 0 ≤ b < 256.

End Utf8Spec.

Export Utf8Spec.

(** ** SHA-1 as the standard defines it *)

Module SecureHashStandard.

(** FIPS 180-4, for messages of whole bytes. A word is an integer below
    2^32 (section 2.2.2); the bitwise operations are those of the integers. *)

Definition word32 (x : Z) : Prop := 0 ≤ x < 2 ^ 32.

(** Addition modulo 2^32 (section 3.2, 1). *)
Definition add32 (x y : Z) : Z := (x + y) mod 2 ^ 32.

(** The complement of a word, in 32 bits. *)
Definition not32 (x : Z) : Z := 2 ^ 32 - 1 - x.

(** The circular left shift ROTL^n(x) = (x << n) or (x >> 32 - n): the
    [n] high bits move to the low end (section 3.2, 5). *)
Definition ROTL (n x : Z) : Z := (x * 2 ^ n) mod 2 ^ 32 + x / 2 ^ (32 - n).

(** The functions of section 4.1.1. *)
Definition Ch (x y z : Z) : Z := Z.lxor (Z.land x y) (Z.land (not32 x) z).

Definition Parity (x y z : Z) : Z := Z.lxor (Z.lxor x y) z.

Definition Maj (x y z : Z) : Z :=
  Z.lxor (Z.lxor (Z.land x y) (Z.land x z)) (Z.land y z).

Definition f_t (t : nat) : Z → Z → Z → Z :=
  if (t <? 20)%nat then Ch
  else if (t <? 40)%nat then Parity
  else if (t <? 60)%nat then Maj
  else Parity.

(** The constants of section 4.2.1. *)
Definition K_t (t : nat) : Z :=
  if (t <? 20)%nat then 0x5a827999
  else if (t <? 40)%nat then 0x6ed9eba1
  else if (t <? 60)%nat then 0x8f1bbcdc
  else 0xca62c1d6.

(** [x] as [n] bytes, the most significant first. *)
Definition bigEndian (n : nat) (x : Z) : list Z :=
  map (fun i => (x / 256 ^ Z.of_nat (n - 1 - i)) mod 256) (seq 0 n).

(** The integer a sequence of bytes stands for, the most significant
    first. *)
Definition fromBigEndian (bytes : list Z) : Z :=
  fold_left (fun x b => 256 * x + b) bytes 0.

(** Padding (section 5.1.1): the bit 1, then [k] zero bits, [k] the
    least number with l + 1 + k = 448 modulo 512, then the length [l] of
    the message in bits as a 64-bit integer. The message is whole bytes, so
    the bit 1 and the first seven zero bits are the byte 0x80. *)
Definition pad (M : list Z) : list Z :=
  let l := 8 * Z.of_nat (length M) in
  let k := (448 - (l + 1)) mod 512 in
  M ++ [0x80] ++ replicate (Z.to_nat ((k - 7) / 8)) 0 ++ bigEndian 8 l.

(** Parsing (section 5.2.1): blocks of 512 bits, each sixteen words of 32
    bits. *)
Definition blocks (padded : list Z) : list (list Z) :=
  map (fun i => take 64 (drop (64 * i) padded)) (seq 0 (length padded / 64)).

Definition words (block : list Z) : list Z :=
  map (fun j => fromBigEndian (take 4 (drop (4 * j) block))) (seq 0 16).

(** The initial hash value (section 5.3.1). *)
Definition H_initial : Z * Z * Z * Z * Z :=
  (0x67452301, 0xefcdab89, 0x98badcfe, 0x10325476, 0xc3d2e1f0).

(** The message schedule (section 6.1.2, 1): the words W_0 .. W_(t-1) of
    the block [M]. *)
Fixpoint W_t (M : list Z) (t : nat) : list Z :=
  match t with
  | O => []
  | S t' =>
      let w := W_t M t' in
      w ++ [if (t' <? 16)%nat then nth t' M 0
            else ROTL 1 (Z.lxor (Z.lxor (Z.lxor (nth (t' - 3) w 0) (nth (t' - 8) w 0))
                                        (nth (t' - 14) w 0))
                                (nth (t' - 16) w 0))]
  end.

(** Step [t] on the working variables a, b, c, d, e (section 6.1.2, 3). *)
Definition round (w : list Z) (v : Z * Z * Z * Z * Z) (t : nat) : Z * Z * Z * Z * Z :=
  let '(a, b, c, d, e) := v in
  let T := add32 (add32 (add32 (add32 (ROTL 5 a) (f_t t b c d)) e) (K_t t)) (nth t w 0) in
  (T, a, ROTL 30 b, c, d).

(** The hash value after one more block (section 6.1.2, 1 to 4). *)
Definition compress (H : Z * Z * Z * Z * Z) (block : list Z) : Z * Z * Z * Z * Z :=
  let '(a, b, c, d, e) := fold_left (round (W_t (words block) 80)) (seq 0 80) H in
  let '(h0, h1, h2, h3, h4) := H in
  (add32 a h0, add32 b h1, add32 c h2, add32 d h3, add32 e h4).

(** The message digest: the five words of the last hash value, 160 bits. *)
Definition SHA1 (M : list Z) : list Z :=
  let '(h0, h1, h2, h3, h4) := fold_left compress (blocks (pad M)) H_initial in
  bigEndian 4 h0 ++ bigEndian 4 h1 ++ bigEndian 4 h2 ++ bigEndian 4 h3
  ++ bigEndian 4 h4.

End SecureHashStandard.

Export SecureHashStandard.

(** ** The state of the kernel, in the terms of the standard *)

Module Sha1KernelSpec.

Import Sha1Kernel.

(** The five registers of the kernel as the working variables, or the hash
    value, of the standard. *)
Definition regs (r : Registers) : Z * Z * Z * Z * Z := (ra r, rb r, rc r, rd r, re r).

Definition wordRegs (r : Registers) : Prop :=
  word32 (ra r) ∧ word32 (rb r) ∧ word32 (rc r) ∧ word32 (rd r) ∧ word32 (re r).

(** [memoryBuffer] holds the bytes [l] from its first byte on. *)
Definition holds (m : Memory) (l : list Z) : Prop :=
  ∀ i : nat, (i < length l)%nat → m (Z.of_nat i) = nth i l 0.

End Sha1KernelSpec.

Export Sha1KernelSpec.
(** ** Vocabulary of the torrent file *)

Module LayoutSpec.

Import InfoHash.

(** A Bencode string: the decimal byte count, a colon, the UTF-8 bytes. *)
Definition bencodedString (s : jsstring) : list Z :=
  utf8 (Number_toString (Z.of_nat (length (utf8 s)))) ++ js ":" ++ utf8 s.

(** A Bencode integer. *)
Definition bencodedInt (n : Z) : list Z :=
  js "i" ++ utf8 (Number_toString n) ++ js "e".

(** A Bencode list of strings. *)
Definition bencodedStrings (l : list jsstring) : list Z :=
  js "l" ++ concat (map bencodedString l) ++ js "e".

(** An entry of [files]: a dictionary with the keys [length] and [path]. *)
Definition bencodedFile (f : TorrentFileInfo) : list Z :=
  js "d6:length" ++ bencodedInt (tfi_length f)
  ++ js "4:path" ++ bencodedStrings (tfi_path f) ++ js "e".

(** A member that is written only when it is set. *)
Definition optionalMember {A} (key : string) (value : A → list Z) (member : option A)
  : list Z :=
  match member with
  | Some x => js key ++ value x
  | None => []
  end.
Arguments optionalMember {A} key%_string value member.

(** The value of a member of a plain object, encoded on its own. *)
Definition memberBytes (value : IBencodeObject) : list Z :=
  getBytes (encode (getBencodeObject value) []).

Definition optionalBytes (key : string) (member : option IBencodeObject) : list Z :=
  optionalMember key memberBytes member.
Arguments optionalBytes key%_string member.

(** The two characters [byte.toString(16).padStart(2, 0)] gives for a byte. *)
Definition hexByte (byte : Z) : jsstring := [hexDigit (byte / 16); hexDigit (byte mod 16)].

(** A lower-case hexadecimal digit. *)
Definition isLowerHex (c : Z) : Prop := 48 ≤ c ≤ 57 ∨ 97 ≤ c ≤ 102.

End LayoutSpec.

Export LayoutSpec.

(** ** Vocabulary of the pool on the event loop *)

Module PoolRunSpec.

Import Sha1Kernel Sha1Worker Sha1.

(** The workers a state holds: the free ones, those a resolver handed to a
    call that has not run yet, and those that are hashing. *)
Definition workersOf (s : PoolState) : list WorkerObject :=
  workers (pool s) ++ map snd (handed s) ++ map (fun h => snd (fst h)) (hashing s).

Definition workerNames (s : PoolState) : list nat := map workerName (workersOf s).

(** No call waits while a worker is free. *)
Definition noIdleWait (s : PoolState) : Prop :=
  workers (pool s) = [] ∨ waitingResolvers (pool s) = [].

(** The calls a state knows of: waiting for a worker, handed one, hashing,
    returned, lost. *)
Definition callsOf (s : PoolState) : list Call :=
  waitingResolvers (pool s) ++ map fst (handed s)
  ++ map (fun h => fst (fst h)) (hashing s) ++ map fst (returned s) ++ lost s.

(** The calls of [computeHashes] among the events. *)
Definition callsMade (events : list Event) : list Call :=
  omap (fun e => match e with CallComputeHashes call => Some call | _ => None end)
       events.

(** Every input fits the kernel's buffer. *)
Definition fits (inputs : list (list Z)) : Prop :=
  Forall (fun bytes => Z.of_nat (length bytes) ≤ 16 * MB) inputs.

(** The hashes are those of the call's own inputs. *)
Definition hashesOf (call : Call) (hashes : HashResult) : Prop :=
  originalInputs hashes = data call
  ∧ ∃ digests, digestsOf (data call) digests ∧ result hashes = concat digests.

(** What a returned call may hold: the hashes of its own inputs, or [null]
    when it was given a creation id. *)
Definition rightResult (ended : Call * option HashResult) : Prop :=
  match snd ended with
  | Some hashes => hashesOf (fst ended) hashes
  | None => is_Some (creationId (fst ended))
  end.


(** The calls whose inputs may have been transferred: hashing, returned or
    lost. *)
Definition transferred (s : PoolState) : list Call :=
  map (fun h => fst (fst h)) (hashing s) ++ map fst (returned s) ++ lost s.

(** Why the worker of a call can throw: an input does not fit the kernel's
    buffer, or the message cannot be posted, because two inputs are views
    of one buffer or because a buffer is detached. *)
Definition cannotBeHashed (detached : list nat) (call : Call) : Prop :=
  ¬ fits (data call)
  ∨ ¬ NoDup (transferList call)
  ∨ ∃ b, b ∈ transferList call ∧ b ∈ detached.

(** What holds of the pool after any events, [ws] being the workers it was
    created with and [calls] the calls made so far. *)
Record Invariant (ws : list WorkerObject) (calls : list Call) (s : PoolState) : Prop := {
  inv_noIdleWait : noIdleWait s;
  inv_workers :
    ∃ gone, workerNames s ++ gone ≡ₚ map workerName ws
            ∧ length gone = length (lost s);
  inv_calls : callsOf s ≡ₚ calls;
  inv_returned : Forall rightResult (returned s);
  inv_hashing : Forall (fun h => hashesOf (fst (fst h)) (snd h)) (hashing s);
  inv_lost : Forall (cannotBeHashed (detached s)) (lost s);
  inv_detached :
    ∀ b, b ∈ detached s → ∃ call, call ∈ transferred s ∧ b ∈ transferList call;
}.

End PoolRunSpec.

Export PoolRunSpec.
(** ** Vocabulary of the folder structure *)

Module FolderSpec.

Import FolderStructure.

(** The sum of the sizes of the files of a list. *)
Definition totalSizeOf (fileList : list FileWithPath) : Z :=
  foldr (fun f total => size (file f) + total) 0 fileList.

(** Where a picked file goes: its folders below the root, then its name. *)
Definition location (f : PickedFile) : list jsstring :=
  folderSegments f ++ [fileName f].

(** The files of a folder with their paths from it, child folders first and
    in the order of the maps. *)
Fixpoint entries (folder : Folder) : list (list jsstring * PickedFile) :=
  match folder with
  | mkFolderOf files folders =>
      (folders ≫= fun e => map (fun qf => (fst e :: fst qf, snd qf)) (entries (snd e)))
      ++ map (fun e => ([fst e], snd e)) files
  end.

(** The keys of each map are distinct, and a file sits under its name. *)
Fixpoint wellFormed (folder : Folder) : Prop :=
  match folder with
  | mkFolderOf files folders =>
      NoDup (map fst files) ∧ NoDup (map fst folders)
      ∧ Forall (fun e => fileName (snd e) = fst e) files
      ∧ foldr (fun e rest => wellFormed (snd e) ∧ rest) True folders
  end.

End FolderSpec.

Export FolderSpec.

(** ** Vocabulary of a run of the pipeline *)

Module PipelineSpec.

Import Sha1Kernel Sha1Worker Sha1 Hashing.

(** The pieces of a byte string, as [dispatchSha1Worker] cuts them: piece
    [i] is the bytes from [i * blockSize] up to [(i + 1) * blockSize] or
    the end. *)
Definition piecesOf (blockSize : Z) (bytes : list Z) : list (list Z) :=
  map (fun i => subarray bytes (i * blockSize)
                  (Z.min ((i + 1) * blockSize) (Z.of_nat (length bytes))))
      (seqZ 0 (Math_ceil_div (Z.of_nat (length bytes)) blockSize)).

(** The bytes the stream of a file delivers: the values of its reads up to
    the first one that is [done], or up to the end of the stream. *)
Fixpoint streamBytes (reads : list ReadResult) : list Z :=
  match reads with
  | [] => []
  | ReadThrows :: _ => []
  | ReadChunk value isDone :: rest =>
      default [] value ++ (if isDone then [] else streamBytes rest)
  end.

(** The stream can be read to its end: no read throws before it, and no
    read delivers more than the [readBufferSize] bytes it was given room
    for. *)
Fixpoint streamReadable (readBufferSize : Z) (reads : list ReadResult) : Prop :=
  match reads with
  | [] => True
  | ReadThrows :: _ => False
  | ReadChunk value isDone :: rest =>
      Z.of_nat (length (default [] value)) ≤ readBufferSize
      ∧ (isDone = true ∨ streamReadable readBufferSize rest)
  end.

(** The files the loop reads: those whose size is not 0. *)
Definition isRead (f : FileWithPath) : bool := negb (size (file f) =? 0).

(** The bytes of the files, in the order of the list. *)
Definition contentOf (inputFiles : list FileWithPath) : list Z :=
  concat (map (fun f => if isRead f then streamBytes (reads (file f)) else [])
              inputFiles).

Definition filesReadable (readBufferSize : Z) (inputFiles : list FileWithPath) : Prop :=
  Forall (fun f => isRead f = true → streamReadable readBufferSize (reads (file f)))
         inputFiles.

(** The reader of the slower version: the number of slices it asks of a
    file, the bytes they deliver, and that each read delivers a slice no
    longer than the [readBufferSize] bytes asked for. A file whose reads
    are used up delivers empty slices. *)
Definition sliceCount (readBufferSize : Z) (f : FileWithPath) : nat :=
  Z.to_nat (Math_ceil_div (size (file f)) readBufferSize).

Fixpoint sliceBytes (count : nat) (reads : list ReadResult) : list Z :=
  match count, reads with
  | S count, ReadChunk (Some bytes) _ :: rest => bytes ++ sliceBytes count rest
  | _, _ => []
  end.

Fixpoint slicesReadable (readBufferSize : Z) (count : nat) (reads : list ReadResult)
  : Prop :=
  match count, reads with
  | O, _ => True
  | S count, [] => True
  | S count, ReadChunk (Some bytes) _ :: rest =>
      Z.of_nat (length bytes) ≤ readBufferSize ∧ slicesReadable readBufferSize count rest
  | S count, _ :: _ => False
  end.

Definition sliceContentOf (readBufferSize : Z) (inputFiles : list FileWithPath)
  : list Z :=
  concat (map (fun f => if isRead f
                        then sliceBytes (sliceCount readBufferSize f) (reads (file f))
                        else [])
              inputFiles).

Definition filesSliceable (readBufferSize : Z) (inputFiles : list FileWithPath) : Prop :=
  Forall (fun f => isRead f = true →
                   slicesReadable readBufferSize (sliceCount readBufferSize f)
                     (reads (file f)))
         inputFiles.

(** What the caller has been told so far: the sum of the arguments of
    [updateReadingProgress], and of [updateProcessingProgress]. *)
Definition readingProgress (observed : list Observation) : Z :=
  foldr (fun o total => match o with UpdateReadingProgress n => n + total | _ => total end)
        0 observed.

Definition processingProgress (observed : list Observation) : Z :=
  foldr (fun o total =>
           match o with UpdateProcessingProgress n => n + total | _ => total end)
        0 observed.

(** The job [dispatchSha1Worker] makes of [chunk] when [pieceIndex] is
    [start]. *)
Definition jobOf (blockSize start : Z) (chunk : list Z) : Job :=
  {| startPieceIndex := start; inputs := piecesOf blockSize chunk;
     inputLength := Z.of_nat (length chunk) |}.

(** [jobs] are the jobs of consecutive chunks of [bytes], the first one
    starting at piece [start]; every chunk but the last is a whole number
    of pieces. *)
Inductive Jobs (blockSize : Z) : Z → list Job → list Z → Prop :=
| Jobs_nil start : Jobs blockSize start [] []
| Jobs_cons start chunk rest bytes :
    (rest ≠ [] → Z.of_nat (length chunk) mod blockSize = 0) →
    Jobs blockSize (start + Math_ceil_div (Z.of_nat (length chunk)) blockSize) rest bytes →
    Jobs blockSize start (jobOf blockSize start chunk :: rest) (chunk ++ bytes).

(** The state while the files are read: [dispatched] went to the workers in
    whole buffers, the accumulator holds what came after. *)
Record Reading (readBufferSize blockSize : Z) (st : State) (bytes : list Z) : Prop := {
  reading_dispatched :
    ∃ dispatched,
      Jobs blockSize 0 (allWorkerPromises st) dispatched
      ∧ Z.of_nat (length dispatched) mod readBufferSize = 0
      ∧ pieceIndex st = Z.of_nat (length dispatched) / blockSize
      ∧ bytes = dispatched ++ readAccumulator st;
  reading_room : Z.of_nat (length (readAccumulator st)) < readBufferSize;
  reading_progress : readingProgress (observed st) = Z.of_nat (length bytes);
  reading_processing : processingProgress (observed st) = 0;
  reading_quiet : ∀ p, ReadFailed p ∉ observed st;
}.

(** The state once the jobs have reported their progress. *)
Definition finished (jobs : list Job) (st : State) : State :=
  fold_left (fun st job => observe (UpdateProcessingProgress (inputLength job)) st)
            jobs st.

(** The fresh state [calculateHashes] starts from. *)
Definition freshState : State :=
  {| pieceIndex := 0; allWorkerPromises := []; readAccumulator := [];
     creationIdReads := 0; observed := [] |}.

End PipelineSpec.

Export PipelineSpec.

(** ** Vocabulary of the text areas and the sizes *)

Module UtilSpec.

Import UtilText.

(** A line as [getLines] gives it: not empty, and free of whitespace. *)
Definition isLine (line : jsstring) : Prop :=
  line ≠ [] ∧ Forall (fun c => isWhitespace c = false) line.

(** A form with other text in the two text areas. *)
Definition withTextAreas (trackersValue webSeedsValue : jsstring)
    (p : TorrentUIParameters) : TorrentUIParameters :=
  {| name := name p; blockSize := blockSize p; isPrivate := isPrivate p;
     setCreationDate := setCreationDate p; trackers := trackersValue;
     webSeeds := webSeedsValue; comment := comment p; source := source p |}.

(** The texts the form shows for the automatic piece size. *)
Definition blockSizeTexts : list jsstring :=
  [js "16 kB"; js "32 kB"; js "64 kB"; js "128 kB"; js "256 kB"; js "512 kB";
   js "1 MB"; js "2 MB"; js "4 MB"; js "8 MB"; js "16 MB"].

End UtilSpec.

Export UtilSpec.

(** ** Vocabulary of the remote proxy *)

Module ProxySpec.

Import TorrentHelper RemoteProxy.

Section Spec.

Context {Args Value Exn Err Data Obj Caller : Type}.

Variable invoke : Obj -> jsstring -> Args -> Obj * (Value + Exn).
Variable toError : jsstring -> Exn -> Err.

(** The function calls among the messages, each with its id, and the data
    of the initializations. *)
Fixpoint functionCallsOf (messages : list (@RemoteProxyMessage Args Data))
  : list (Z * jsstring * Args) :=
  match messages with
  | [] => []
  | FunctionCall id functionName args :: rest => (id, functionName, args) :: functionCallsOf rest
  | Initialize _ :: rest => functionCallsOf rest
  end.

Fixpoint initDataOf (messages : list (@RemoteProxyMessage Args Data)) : list Data :=
  match messages with
  | [] => []
  | FunctionCall _ _ _ :: rest => initDataOf rest
  | Initialize data :: rest => data :: initDataOf rest
  end.

Definition isFunctionCall (message : @RemoteProxyMessage Args Data) : bool :=
  match message with FunctionCall _ _ _ => true | Initialize _ => false end.

(** An object that serves calls one after the other: the callbacks this
    takes, and the object afterwards. *)
Fixpoint served (object : Obj) (calls : list (Z * jsstring * Args))
  : list (@RemoteCallback Value Exn Err) :=
  match calls with
  | [] => []
  | (id, functionName, args) :: rest =>
      match invoke object functionName args with
      | (object, inl result) =>
          SendResponseToLocal {| response_id := id;
                                 response_result := ResponseSuccess result |}
          :: served object rest
      | (object, inr ex) =>
          OnRemoteError ex
          :: SendResponseToLocal
               {| response_id := id;
                  response_result := ResponseError (toError functionName ex) |}
          :: served object rest
      end
  end.

Fixpoint objectAfter (object : Obj) (calls : list (Z * jsstring * Args)) : Obj :=
  match calls with
  | [] => object
  | (_, functionName, args) :: rest =>
      objectAfter (fst (invoke object functionName args)) rest
  end.

(** The messages that have arrived on the remote side. *)
Fixpoint arrived (events : list (@RemoteEvent Args Data))
  : list (@RemoteProxyMessage Args Data) :=
  match events with
  | [] => []
  | MessageArrives message :: rest => message :: arrived rest
  | ObjectReady :: rest => arrived rest
  end.

(** The remote side before the object is there. *)
Definition waitingForObject (st : @RemoteState Args Value Exn Err Data Obj)
    (messages : list (@RemoteProxyMessage Args Data)) : Prop :=
  remoteObject st = None ∧ initDataReceived st = false ∧ remoteCalls st = []
  ∧ pendingMessages st = filter (fun m => isFunctionCall m = true) messages.

Variable initCallback : Data -> option Obj.

(** Where the remote side stands after the messages [messages]. *)
Definition remoteStands (st : @RemoteState Args Value Exn Err Data Obj)
    (messages : list (@RemoteProxyMessage Args Data)) : Prop :=
  match initStage st with
  | AwaitInitData => initDataOf messages = [] ∧ waitingForObject st messages
  | AwaitObject data => head (initDataOf messages) = Some data ∧ waitingForObject st messages
  | InitFailed =>
      (∃ data, head (initDataOf messages) = Some data ∧ initCallback data = None)
      ∧ waitingForObject st messages
  | InitDone =>
      ∃ data object,
        head (initDataOf messages) = Some data ∧ initCallback data = Some object
        ∧ initDataReceived st = true
        ∧ remoteObject st = Some (objectAfter object (functionCallsOf messages))
        ∧ remoteCalls st = served object (functionCallsOf messages)
        ∧ pendingMessages st = []
  end.

(** The calls made on the local side, each with its caller: a call of
    [then] is none. *)
Fixpoint proxyCalls (events : list (@LocalEvent Args Value Err Data Caller))
  : list (Caller * jsstring * Args) :=
  match events with
  | [] => []
  | Call caller prop args :: rest =>
      if jsstring_eqb prop (js "then") then proxyCalls rest
      else (caller, prop, args) :: proxyCalls rest
  | _ :: rest => proxyCalls rest
  end.

(** The calls with the ids [start], [start + 1], ... *)
Fixpoint numberedFrom (start : Z) (calls : list (Caller * jsstring * Args))
  : list (Z * jsstring * Args) :=
  match calls with
  | [] => []
  | (_, prop, args) :: rest => (start, prop, args) :: numberedFrom (start + 1) rest
  end.

(** The resolvers with these ids. *)
Fixpoint resolversFrom (start : Z) (calls : list (Caller * jsstring * Args))
  : list (Z * Caller) :=
  match calls with
  | [] => []
  | (caller, _, _) :: rest => (start, caller) :: resolversFrom (start + 1) rest
  end.

(** Where the local side stands after the calls [calls]: every call
    waits or was resolved, and none both or twice. *)
Record localStands (st : @LocalState Args Value Err Data Caller)
    (calls : list (Caller * jsstring * Args)) : Prop := {
  local_messageId : messageId st = Z.of_nat (length calls);
  local_sent : functionCallsOf (sentToRemote st) = numberedFrom 0 calls;
  local_initData :
    (length (initDataOf (sentToRemote st)) ≤ 1)%nat
    ∧ (initDataAwaited st = true ↔ initDataOf (sentToRemote st) = []);
  local_waiting :
    ∀ id caller, (id, caller) ∈ waitingMessages st →
                 (id, caller) ∈ resolversFrom 0 calls;
  local_resolved :
    ∀ caller response, (caller, response) ∈ resolved st →
                       (response_id response, caller) ∈ resolversFrom 0 calls;
  local_all :
    (waitingMessages st).*1 ++ ((fun r => response_id (snd r)) <$> resolved st)
    ≡ₚ (resolversFrom 0 calls).*1;
}.

(** The calls of the page, and the data of its initialization. *)
Fixpoint pageCalls (events : list (@WorkerEvent Args Data Caller))
  : list (Caller * jsstring * Args) :=
  match events with
  | [] => []
  | PageCalls caller prop args :: rest =>
      if jsstring_eqb prop (js "then") then pageCalls rest
      else (caller, prop, args) :: pageCalls rest
  | _ :: rest => pageCalls rest
  end.

Fixpoint pageInitData (events : list (@WorkerEvent Args Data Caller)) : option Data :=
  match events with
  | [] => None
  | PageHasInitData data :: _ => Some data
  | _ :: rest => pageInitData rest
  end.

(** The responses to the calls, served one after the other. *)
Definition answers (object : Obj) (calls : list (Z * jsstring * Args))
  : list (@RemoteProxyResponse Value Err) :=
  responsesOf (served object calls).

Definition callerOf (call : Caller * jsstring * Args) : Caller := fst (fst call).

(** Where a page and its worker stand after the calls [calls] of the page,
    [initData] being the data of the initialization once it is there. *)
Record workerStands (w : @Worker Args Value Exn Err Data Obj Caller)
    (calls : list (Caller * jsstring * Args)) (initData : option Data) : Prop := {
  stands_messageId : messageId (localSide w) = Z.of_nat (length calls);
  stands_sent : functionCallsOf (sentToRemote (localSide w)) = numberedFrom 0 calls;
  stands_initData :
    initDataOf (sentToRemote (localSide w))
    = match initData with Some data => [data] | None => [] end;
  stands_awaited :
    initDataAwaited (localSide w)
    = match initData with Some _ => false | None => true end;
  stands_atRemote :
    (arrivedAtRemote w ≤ length (sentToRemote (localSide w)))%nat;
  stands_remote :
    remoteStands (remoteSide w)
      (take (arrivedAtRemote w) (sentToRemote (localSide w)));
  stands_atLocal :
    (arrivedAtLocal w ≤ length (responsesOf (remoteCalls (remoteSide w))))%nat;
  stands_waiting :
    waitingMessages (localSide w) = drop (arrivedAtLocal w) (resolversFrom 0 calls);
  stands_resolved :
    resolved (localSide w)
    = zip (map callerOf calls)
          (take (arrivedAtLocal w) (responsesOf (remoteCalls (remoteSide w))));
}.

(** Nothing is on its way and the object is there. *)
Definition quiescent (w : @Worker Args Value Exn Err Data Obj Caller) : Prop :=
  arrivedAtRemote w = length (sentToRemote (localSide w))
  ∧ arrivedAtLocal w = length (responsesOf (remoteCalls (remoteSide w)))
  ∧ initStage (remoteSide w) = InitDone.

End Spec.

End ProxySpec.

Export ProxySpec.

(* ===================================================================== *)
(** * Properties *)
(* ===================================================================== *)

(** ** The validator *)

Module ValidatorProperties.

Lemma matchReserved_true (s : jsstring) :
  matchReserved s = true ↔ ∃ c, c ∈ s ∧ c ∈ reservedCharacters.
Proof.
  unfold matchReserved. rewrite existsb_exists. split.
  - intros (c & Hin & Hc). exists c. split; [by apply list_elem_of_In|].
    unfold reservedCharacter in Hc. unfold reservedCharacters.
    repeat (apply orb_prop in Hc as [Hc|Hc]);
      apply Z.eqb_eq in Hc; subst c; apply list_elem_of_In; cbn; tauto.
  - intros (c & Hin & Hc). exists c. split; [by apply list_elem_of_In|].
    unfold reservedCharacters in Hc.
    repeat (apply elem_of_cons in Hc as [->|Hc]); try reflexivity.
    by apply elem_of_nil in Hc.
Qed.

Lemma matchReserved_false (s : jsstring) :
  matchReserved s = false ↔ ∀ c, c ∈ s → c ∉ reservedCharacters.
Proof.
  rewrite <- not_true_iff_false, matchReserved_true. split.
  - intros H c Hin Hc. apply H. eauto.
  - intros H (c & Hin & Hc). by apply (H c).
Qed.

Lemma jsstring_eqb_true (a b : jsstring) : jsstring_eqb a b = true ↔ a = b.
Proof. unfold jsstring_eqb. apply bool_decide_eq_true. Qed.

Lemma testAnnounce_true (s : jsstring) :
  testAnnounce s = true ↔ endsWithAnnounceSegment s.
Proof.
  unfold endsWithAnnounceSegment. induction s as [|c s IH].
  - cbn. split; [discriminate|].
    intros [[k Hk]|[k Hk]]; destruct k; discriminate.
  - cbn [testAnnounce]. rewrite !orb_true_iff, !jsstring_eqb_true, IH.
    split.
    + intros [[->| ->]|[H|H]].
      * left. by exists [].
      * right. by exists [].
      * left. by apply suffix_cons_r.
      * right. by apply suffix_cons_r.
    + intros [H|H]; apply suffix_cons_inv in H as [H|H]; auto.
Qed.

Lemma checkTrackers_None (URL_new : jsstring → option URL) (lines : list jsstring) :
  checkTrackers URL_new lines = None ↔ Forall (trackerAccepted URL_new) lines.
Proof.
  induction lines as [|t lines IH]; cbn.
  - split; [constructor|done].
  - rewrite Forall_cons, <- IH. unfold trackerAccepted.
    destruct (URL_new t) as [url|] eqn:Hurl.
    + destruct (testAnnounce (pathname url)) eqn:Ht; cbn.
      * apply testAnnounce_true in Ht. split; [|by intros [_ ?]].
        intros Hrest. split; [|done]. by exists url.
      * split; [done|]. intros [(u & Hu & Hs) _]. simplify_eq.
        apply testAnnounce_true in Hs. congruence.
    + split; [done|]. intros [(u & Hu & _) _]. done.
Qed.

Lemma checkTrackers_first (URL_new : jsstring → option URL)
    (before after : list jsstring) (tracker : jsstring) :
  Forall (trackerAccepted URL_new) before → ¬ trackerAccepted URL_new tracker →
  checkTrackers URL_new (before ++ tracker :: after) = Some (trackerError URL_new tracker).
Proof.
  intros Hbefore Hno. induction Hbefore as [|t before (u & Hu & Hs) _ IH]; cbn.
  - unfold trackerError, trackerAccepted in *.
    destruct (URL_new tracker) as [url|]; [|done].
    destruct (testAnnounce (pathname url)) eqn:Ht; [|done].
    exfalso. apply Hno. exists url. split; [done|]. by apply testAnnounce_true.
  - rewrite Hu. apply testAnnounce_true in Hs. by rewrite Hs.
Qed.

Lemma checkWebSeeds_None (URL_new : jsstring → option URL) (lines : list jsstring) :
  checkWebSeeds URL_new lines = None ↔ Forall (webSeedAccepted URL_new) lines.
Proof.
  induction lines as [|w lines IH]; cbn.
  - split; [constructor|done].
  - rewrite Forall_cons, <- IH. unfold webSeedAccepted.
    destruct (URL_new w); [|split; [done|intros [[? ?] _]; done]].
    split; [eauto|tauto].
Qed.

Lemma checkWebSeeds_first (URL_new : jsstring → option URL)
    (before after : list jsstring) (webSeed : jsstring) :
  Forall (webSeedAccepted URL_new) before → ¬ webSeedAccepted URL_new webSeed →
  checkWebSeeds URL_new (before ++ webSeed :: after)
  = Some (webSeedNotValidURL webSeed).
Proof.
  intros Hbefore Hno. induction Hbefore as [|w before [u Hu] _ IH]; cbn.
  - unfold webSeedAccepted in Hno. destruct (URL_new webSeed); [|done].
    exfalso. eauto.
  - by rewrite Hu.
Qed.

(** Past the name checks the validator is the two loops. *)
Lemma validateTorrentInput_nameAccepted (URL_new : jsstring → option URL)
    (p : TorrentUIParameters) :
  nameAccepted p →
  validateTorrentInput URL_new p =
    match checkTrackers URL_new (getLines (trackers p)) with
    | Some e => error e
    | None =>
        match checkWebSeeds URL_new (getLines (webSeeds p)) with
        | Some e => error e
        | None => ok tt
        end
    end.
Proof.
  intros (Hne & Hlen & Hres). unfold validateTorrentInput.
  destruct (name p) as [|c s] eqn:Hname; [done|]. rewrite <- Hname in *.
  replace (length (name p) =? 0)%nat with false
    by (symmetry; apply Nat.eqb_neq; rewrite Hname; cbn; lia).
  replace (255 <? length (name p))%nat with false
    by (symmetry; apply Nat.ltb_ge; lia).
  apply matchReserved_false in Hres. by rewrite Hres.
Qed.

End ValidatorProperties.

Module ValidatorClaims.

Import ValidatorProperties.

Example validate_sample_ok :
  validateTorrentInput SamplePlatform.URL_new
    (sampleParameters (js "ubuntu.iso")
       (js "http://tracker.example/announce  udp://t.example:6969/announce/")
       (js "https://mirror.example/ubuntu.iso"))
  = ok tt.
Proof. reflexivity. Qed.

Example validate_sample_not_a_url :
  validateTorrentInput SamplePlatform.URL_new
    (sampleParameters (js "ubuntu.iso") (js "http://tracker.example/announce nonsense") [])
  = error (js "Invalid tracker: `nonsense` (not a valid URL)").
Proof. reflexivity. Qed.

(** C7. [validateTorrentInput] answers with the first check that fails, in
    a fixed order: the empty name, the name longer than 255, the name with
    a reserved character, then the trackers from left to right, then the
    web seeds from left to right; the three name checks do not look at the
    trackers or the web seeds. It answers [ok] exactly when no check
    fails. *)
Theorem validateTorrentInput_first_failure
    (URL_new : jsstring -> option URL) (p : TorrentUIParameters) :
  (name p = [] →
   validateTorrentInput URL_new p = error (js "Torrent name cannot be empty"))
  ∧ ((255 < length (name p))%nat →
     validateTorrentInput URL_new p
     = error (js "Torrent name cannot be longer than 255 characters"))
  ∧ (name p ≠ [] → (length (name p) ≤ 255)%nat →
     (∃ c, c ∈ name p ∧ c ∈ reservedCharacters) →
     validateTorrentInput URL_new p
     = error (js "Torrent name cannot contain any of the following characters: < > : \ / | ? *"))
  ∧ (nameAccepted p →
     ∀ before tracker after,
       getLines (trackers p) = before ++ tracker :: after →
       Forall (trackerAccepted URL_new) before →
       ¬ trackerAccepted URL_new tracker →
       validateTorrentInput URL_new p = error (trackerError URL_new tracker))
  ∧ (nameAccepted p →
     Forall (trackerAccepted URL_new) (getLines (trackers p)) →
     ∀ before webSeed after,
       getLines (webSeeds p) = before ++ webSeed :: after →
       Forall (webSeedAccepted URL_new) before →
       ¬ webSeedAccepted URL_new webSeed →
       validateTorrentInput URL_new p = error (webSeedNotValidURL webSeed))
  ∧ (validateTorrentInput URL_new p = ok tt ↔
     nameAccepted p
     ∧ Forall (trackerAccepted URL_new) (getLines (trackers p))
     ∧ Forall (webSeedAccepted URL_new) (getLines (webSeeds p))).
Proof.
  split_and!.
  - intros Hname. unfold validateTorrentInput. by rewrite Hname.
  - intros Hlen. unfold validateTorrentInput.
    destruct (length (name p) =? 0)%nat eqn:H0; [apply Nat.eqb_eq in H0; lia|].
    by apply Nat.ltb_lt in Hlen as ->.
  - intros Hne Hlen Hres. unfold validateTorrentInput.
    destruct (length (name p) =? 0)%nat eqn:H0.
    { apply Nat.eqb_eq in H0. by destruct (name p). }
    replace (255 <? length (name p))%nat with false
      by (symmetry; apply Nat.ltb_ge; lia).
    by apply matchReserved_true in Hres as ->.
  - intros Hname before tracker after Hlines Hbefore Hno.
    rewrite validateTorrentInput_nameAccepted by done.
    by rewrite Hlines, checkTrackers_first.
  - intros Hname Htrackers before webSeed after Hlines Hbefore Hno.
    rewrite validateTorrentInput_nameAccepted by done.
    apply checkTrackers_None in Htrackers as ->.
    by rewrite Hlines, checkWebSeeds_first.
  - split.
    + intros Hok.
      assert (Hname : nameAccepted p).
      { unfold validateTorrentInput, nameAccepted in *.
        destruct (length (name p) =? 0)%nat eqn:H0; [done|].
        destruct (255 <? length (name p))%nat eqn:H255; [done|].
        destruct (matchReserved (name p)) eqn:Hres; [done|].
        apply Nat.eqb_neq in H0. apply Nat.ltb_ge in H255.
        pose proof (proj1 (matchReserved_false _) Hres) as Hres'.
        split; [|done]. intros Hnil. by rewrite Hnil in H0. }
      split; [done|]. rewrite validateTorrentInput_nameAccepted in Hok by done.
      destruct (checkTrackers _ _) eqn:Ht; [done|].
      destruct (checkWebSeeds _ _) eqn:Hw; [done|].
      split; [by apply checkTrackers_None | by apply checkWebSeeds_None].
    + intros (Hname & Ht & Hw).
      rewrite validateTorrentInput_nameAccepted by done.
      apply checkTrackers_None in Ht as ->.
      by apply checkWebSeeds_None in Hw as ->.
Qed.

Lemma sample_name_accepted (trackers webSeeds : jsstring) :
  nameAccepted (sampleParameters (js "a.txt") trackers webSeeds).
Proof.
  split; [done|]. split; [cbn; lia|].
  intros c Hc Hres. cbn in Hc. unfold reservedCharacters in Hres.
  repeat (apply elem_of_cons in Hc as [->|Hc]);
    try (by apply elem_of_nil in Hc);
    repeat (apply elem_of_cons in Hres as [Hres|Hres]; [discriminate|]);
    by apply elem_of_nil in Hres.
Defined.

Lemma validateTorrentInput_first_failure_witness :
  validateTorrentInput SamplePlatform.URL_new (sampleParameters [] (js "x") (js "y"))
  = error (js "Torrent name cannot be empty")
  ∧ validateTorrentInput SamplePlatform.URL_new
      (sampleParameters (js "a?b") (js "x") (js "y"))
    = error (js "Torrent name cannot contain any of the following characters: < > : \ / | ? *")
  ∧ validateTorrentInput SamplePlatform.URL_new
      (sampleParameters (js "a.txt") (js "http://t.example/announce nonsense") (js "y"))
    = error (js "Invalid tracker: `nonsense` (not a valid URL)")
  ∧ validateTorrentInput SamplePlatform.URL_new
      (sampleParameters (js "a.txt") (js "http://t.example/announce") (js "y"))
    = error (js "Invalid web seed: `y` (not a valid URL)").
Proof.
  repeat apply conj.
  - apply (validateTorrentInput_first_failure SamplePlatform.URL_new
             (sampleParameters [] (js "x") (js "y"))).
    reflexivity.
  - apply (validateTorrentInput_first_failure SamplePlatform.URL_new
             (sampleParameters (js "a?b") (js "x") (js "y"))).
    + discriminate.
    + cbn. lia.
    + exists 63. split; apply list_elem_of_In; cbn; tauto.
  - apply (proj1 (proj2 (proj2 (proj2
             (validateTorrentInput_first_failure SamplePlatform.URL_new
                (sampleParameters (js "a.txt")
                   (js "http://t.example/announce nonsense") (js "y"))))))
             (sample_name_accepted _ _)
             [js "http://t.example/announce"] (js "nonsense") []).
    + reflexivity.
    + constructor; [|constructor].
      exists {| pathname := js "/announce" |}. split; [reflexivity|].
      left. by exists [].
    + intros (url & Hurl & _). discriminate.
  - apply (proj1 (proj2 (proj2 (proj2 (proj2
             (validateTorrentInput_first_failure SamplePlatform.URL_new
                (sampleParameters (js "a.txt")
                   (js "http://t.example/announce") (js "y")))))))
             (sample_name_accepted _ _))
      with (before := []) (webSeed := js "y") (after := []).
    + constructor; [|constructor].
      exists {| pathname := js "/announce" |}. split; [reflexivity|].
      left. by exists [].
    + reflexivity.
    + constructor.
    + intros [url Hurl]. discriminate.
Defined.

(** C8, as the code has it. Past the name checks, the tracker loop lets a
    token pass if and only if the platform parses it as a URL whose path
    ends with the segment [/announce] or [/announce/] (the slash before
    [announce] is part of the test). The first token that does not pass
    ends the validation with its own error: "not a valid URL" when it does
    not parse, "URL must end with `announce` or `announce/`" when its path
    fails the test. When every token passes, the result is that of the web
    seed checks. *)
Theorem tracker_accepted_iff_announce_segment
    (URL_new : jsstring -> option URL) (p : TorrentUIParameters) :
  nameAccepted p →
  (checkTrackers URL_new (getLines (trackers p)) = None ↔
   Forall (fun tracker =>
             ∃ url, URL_new tracker = Some url
                    ∧ (js "/announce" `suffix_of` pathname url
                       ∨ js "/announce/" `suffix_of` pathname url))
          (getLines (trackers p)))
  ∧ (∀ before tracker after,
       getLines (trackers p) = before ++ tracker :: after →
       Forall (trackerAccepted URL_new) before →
       (URL_new tracker = None →
        validateTorrentInput URL_new p = error (notValidURL tracker))
       ∧ (∀ url, URL_new tracker = Some url →
                 ¬ endsWithAnnounceSegment (pathname url) →
                 validateTorrentInput URL_new p = error (mustEndWithAnnounce tracker)))
  ∧ (Forall (trackerAccepted URL_new) (getLines (trackers p)) →
     validateTorrentInput URL_new p =
       match checkWebSeeds URL_new (getLines (webSeeds p)) with
       | Some e => error e
       | None => ok tt
       end).
Proof.
  intros Hname. split_and!.
  - apply checkTrackers_None.
  - intros before tracker after Hlines Hbefore.
    rewrite validateTorrentInput_nameAccepted, Hlines by done. split.
    + intros Hnone. rewrite checkTrackers_first; [|done|].
      * unfold trackerError. by rewrite Hnone.
      * intros (url & Hurl & _). congruence.
    + intros url Hurl Hpath. rewrite checkTrackers_first; [|done|].
      * unfold trackerError. by rewrite Hurl.
      * intros (url' & Hurl' & Hs). congruence.
  - intros Hall. rewrite validateTorrentInput_nameAccepted by done.
    by apply checkTrackers_None in Hall as ->.
Qed.

Lemma tracker_accepted_iff_announce_segment_witness :
  validateTorrentInput SamplePlatform.URL_new
    (sampleParameters (js "a.txt") (js "http://t.example/announce.php") [])
  = error (js "Invalid tracker: `http://t.example/announce.php` (URL must end with `announce` or `announce/`)").
Proof.
  apply (proj1 (proj2
           (tracker_accepted_iff_announce_segment SamplePlatform.URL_new
              (sampleParameters (js "a.txt") (js "http://t.example/announce.php") [])
              (sample_name_accepted _ _)))
           [] (js "http://t.example/announce.php") [])
    with (url := {| pathname := js "/announce.php" |}).
  - reflexivity.
  - constructor.
  - reflexivity.
  - intros [[k Hk]|[k Hk]];
      apply (f_equal (@rev Z)) in Hk; rewrite rev_app_distr in Hk; discriminate.
Defined.

(** C8 as the specification words it fails: this tracker parses, its path
    [/xannounce] ends with [announce], and the validator refuses it. *)
Lemma tracker_path_ending_in_announce_refused :
  let tracker := js "http://tracker.example/xannounce" in
  (∃ url, SamplePlatform.URL_new tracker = Some url
          ∧ endsWithAnnounce (pathname url))
  ∧ validateTorrentInput SamplePlatform.URL_new
      (sampleParameters (js "a.txt") tracker [])
    = error (js "Invalid tracker: `http://tracker.example/xannounce` (URL must end with `announce` or `announce/`)").
Proof.
  split; [|reflexivity].
  exists {| pathname := js "/xannounce" |}. split; [reflexivity|].
  left. by exists (js "/x").
Qed.

(** C10. The result of [validateTorrentInput] is a function of the fields
    [name], [trackers] and [webSeeds]: two forms that agree on them get the
    same result, whatever [blockSize], [isPrivate], [setCreationDate],
    [comment] and [source] hold. *)
Theorem validateTorrentInput_depends_on_three_fields
    (URL_new : jsstring -> option URL) (p1 p2 : TorrentUIParameters) :
  name p1 = name p2 → trackers p1 = trackers p2 → webSeeds p1 = webSeeds p2 →
  validateTorrentInput URL_new p1 = validateTorrentInput URL_new p2.
Proof.
  intros Hname Htrackers HwebSeeds. unfold validateTorrentInput.
  by rewrite Hname, Htrackers, HwebSeeds.
Qed.

Lemma validateTorrentInput_depends_on_three_fields_witness :
  validateTorrentInput SamplePlatform.URL_new
    {| name := js "a.txt"; blockSize := Auto; isPrivate := false;
       setCreationDate := false; trackers := js "nonsense"; webSeeds := [];
       comment := []; source := [] |}
  = validateTorrentInput SamplePlatform.URL_new
      {| name := js "a.txt"; blockSize := MB16; isPrivate := true;
         setCreationDate := true; trackers := js "nonsense"; webSeeds := [];
         comment := js "hello"; source := js "me" |}.
Proof.
  apply validateTorrentInput_depends_on_three_fields; reflexivity.
Defined.

End ValidatorClaims.

(** ** The piece size *)

Module BlockSizeProperties.

(** [floor_log2_ratio a b] is the integer [l] with 2^l <= a/b < 2^(l+1). *)
Lemma floor_log2_ratio_nonneg (a b : Z) :
  0 < b → b ≤ a →
  0 ≤ floor_log2_ratio a b
  ∧ 2 ^ floor_log2_ratio a b * b ≤ a < 2 ^ (floor_log2_ratio a b + 1) * b.
Proof.
  intros Hb Hab. unfold floor_log2_ratio.
  replace (b <=? a) with true by (symmetry; by apply Z.leb_le).
  assert (Hq : 0 < a / b) by (apply Z.div_str_pos; lia).
  pose proof (Z.log2_spec (a / b) Hq) as [Hlo Hhi].
  pose proof (Z.log2_nonneg (a / b)) as Hnn.
  replace (Z.succ (Z.log2 (a / b))) with (Z.log2 (a / b) + 1) in Hhi by lia.
  pose proof (Z.div_mod a b ltac:(lia)) as Hdm.
  pose proof (Z.mod_pos_bound a b Hb) as Hmod.
  split; [done|]. nia.
Qed.

Lemma floor_log2_ratio_neg (a b : Z) :
  0 < a → a < b →
  floor_log2_ratio a b < 0
  ∧ a * 2 ^ (- floor_log2_ratio a b - 1) < b ≤ a * 2 ^ (- floor_log2_ratio a b).
Proof.
  intros Ha Hab. unfold floor_log2_ratio.
  replace (b <=? a) with false by (symmetry; apply Z.leb_gt; lia).
  set (c := (b + a - 1) / a).
  pose proof (Z.div_mod (b + a - 1) a ltac:(lia)) as Hdm.
  pose proof (Z.mod_pos_bound (b + a - 1) a Ha) as Hmod.
  fold c in Hdm.
  assert (Hc : 1 < c) by nia.
  pose proof (Z.log2_up_spec c Hc) as [Hlo Hhi].
  pose proof (Z.log2_up_pos c Hc) as Hpos.
  replace (- - Z.log2_up c) with (Z.log2_up c) by lia.
  replace (Z.log2_up c - 1) with (Z.pred (Z.log2_up c)) by lia.
  split; [lia|]. nia.
Qed.

(** [Math_round_log2 a b] is the integer nearest to log2 (a / b): for a
    result [k >= 1], 2^(k - 1/2) <= a/b < 2^(k + 1/2), squared. *)
Lemma Math_round_log2_nearest (a b k : Z) :
  0 < a → 0 < b → Math_round_log2 a b = Finite k → 1 ≤ k →
  2 ^ (2 * k - 1) * (b * b) ≤ a * a < 2 ^ (2 * k + 1) * (b * b).
Proof.
  intros Ha Hb Hround Hk. unfold Math_round_log2 in Hround.
  replace (a =? 0) with false in Hround by (symmetry; apply Z.eqb_neq; lia).
  injection Hround as Hround.
  set (l := floor_log2_ratio (2 * a * a) (b * b)) in *.
  assert (Hl : 2 * k ≤ l ≤ 2 * k + 1).
  { pose proof (Z.div_mod l 2 ltac:(lia)). pose proof (Z.mod_pos_bound l 2). lia. }
  assert (Hle : b * b ≤ 2 * a * a).
  { destruct (Z.le_gt_cases (b * b) (2 * a * a)) as [|Hgt]; [done|].
    pose proof (floor_log2_ratio_neg (2 * a * a) (b * b) ltac:(nia) Hgt).
    fold l in H. lia. }
  pose proof (floor_log2_ratio_nonneg (2 * a * a) (b * b) ltac:(nia) Hle) as (_ & Hlo & Hhi).
  fold l in Hlo, Hhi.
  assert (Hp1 : 2 ^ (2 * k) = 2 * 2 ^ (2 * k - 1)).
  { rewrite <- Z.pow_succ_r by lia. f_equal. lia. }
  assert (Hp2 : 2 ^ (2 * k + 2) = 2 * 2 ^ (2 * k + 1)).
  { rewrite <- Z.pow_succ_r by lia. f_equal. lia. }
  assert (Hm1 : 2 ^ (2 * k) ≤ 2 ^ l) by (apply Z.pow_le_mono_r; lia).
  assert (Hm2 : 2 ^ (l + 1) ≤ 2 ^ (2 * k + 2)) by (apply Z.pow_le_mono_r; lia).
  assert (0 < b * b) by nia.
  split; nia.
Qed.

(** A bound that holds of an exponent holds of every smaller one. *)
Lemma scaledLe_mono (e e' x y : Z) :
  e ≤ e' → 0 ≤ x → scaledLe e' x y → scaledLe e x y.
Proof.
  unfold scaledLe. intros He Hx Hle.
  assert (Hpow : ∀ n, 0 < 2 ^ Z.max n 0) by (intros n; apply Z.pow_pos_nonneg; lia).
  pose proof (Hpow e') as H1. pose proof (Hpow (- e')) as H2.
  pose proof (Hpow e) as H3. pose proof (Hpow (- e)) as H4.
  assert (Hy : 0 ≤ y) by nia.
  assert (Hup : 2 ^ Z.max e 0 ≤ 2 ^ Z.max e' 0) by (apply Z.pow_le_mono_r; lia).
  assert (Hdown : 2 ^ Z.max (- e') 0 ≤ 2 ^ Z.max (- e) 0)
    by (apply Z.pow_le_mono_r; lia).
  nia.
Qed.

Lemma roundedLog2_unique (a b r r' : Z) :
  roundedLog2 a b r → roundedLog2 a b r' → r = r'.
Proof.
  assert (Hlt : ∀ r r', roundedLog2 a b r → roundedLog2 a b r' → ¬ r < r').
  { intros r1 r2 [_ Hnot] [Hle _] Hlt. apply Hnot.
    apply (scaledLe_mono _ (2 * r2 - 1)); [lia|nia|done]. }
  intros Hr Hr'. pose proof (Hlt r r' Hr Hr'). pose proof (Hlt r' r Hr' Hr). lia.
Qed.

(** [Math_round_log2 a b] is [round(log2(a / b))]. *)
Lemma Math_round_log2_rounded (a b : Z) :
  0 < a → 0 < b → ∃ r, Math_round_log2 a b = Finite r ∧ roundedLog2 a b r.
Proof.
  intros Ha Hb. unfold Math_round_log2.
  replace (a =? 0) with false by (symmetry; apply Z.eqb_neq; lia).
  set (l := floor_log2_ratio (2 * a * a) (b * b)).
  exists (l / 2). split; [done|].
  assert (Hl : 2 * (l / 2) ≤ l ≤ 2 * (l / 2) + 1).
  { pose proof (Z.div_mod l 2 ltac:(lia)). pose proof (Z.mod_pos_bound l 2). lia. }
  set (r := l / 2) in *.
  assert (Hpos : ∀ n, 0 < 2 ^ Z.max n 0) by (intros n; apply Z.pow_pos_nonneg; lia).
  assert (Hsucc : ∀ n, 0 ≤ n → 2 ^ (n + 1) = 2 * 2 ^ n)
    by (intros n Hn; rewrite Z.pow_add_r by lia; lia).
  assert (Haa : 0 < a * a) by nia. assert (Hbb : 0 < b * b) by nia.
  unfold roundedLog2, scaledLe.
  destruct (Z.le_gt_cases (b * b) (2 * a * a)) as [Hle|Hgt].
  - pose proof (floor_log2_ratio_nonneg (2 * a * a) (b * b) Hbb Hle) as (Hnn & Hlo & Hhi).
    fold l in Hnn, Hlo, Hhi.
    assert (Hr : 0 ≤ r) by lia.
    assert (Hm1 : 2 ^ (2 * r) ≤ 2 ^ l) by (apply Z.pow_le_mono_r; lia).
    assert (Hm2 : 2 ^ (l + 1) ≤ 2 ^ (2 * r + 2)) by (apply Z.pow_le_mono_r; lia).
    replace (Z.max (2 * r + 1) 0) with (2 * r + 1) by lia.
    replace (Z.max (- (2 * r + 1)) 0) with 0 by lia.
    replace (2 * r + 2) with (2 * r + 1 + 1) in Hm2 by lia.
    rewrite (Hsucc (2 * r + 1)) in Hm2 by lia.
    split; [|nia].
    destruct (Z.eq_dec r 0) as [->|Hr0].
    + change (2 ^ Z.max (2 * 0 - 1) 0) with 1.
      change (2 ^ Z.max (- (2 * 0 - 1)) 0) with 2. lia.
    + replace (Z.max (2 * r - 1) 0) with (2 * r - 1) by lia.
      replace (Z.max (- (2 * r - 1)) 0) with 0 by lia.
      replace (2 * r) with (2 * r - 1 + 1) in Hm1 by lia.
      rewrite (Hsucc (2 * r - 1)) in Hm1 by lia. nia.
  - pose proof (floor_log2_ratio_neg (2 * a * a) (b * b) ltac:(lia) Hgt) as (Hneg & Hlo & Hhi).
    fold l in Hneg, Hlo, Hhi.
    assert (Hr : r < 0) by lia.
    replace (Z.max (2 * r - 1) 0) with 0 by lia.
    replace (Z.max (- (2 * r - 1)) 0) with (- (2 * r) + 1) by lia.
    replace (Z.max (2 * r + 1) 0) with 0 by lia.
    replace (Z.max (- (2 * r + 1)) 0) with (- (2 * r) - 1) by lia.
    assert (Hm1 : 2 ^ (- l) ≤ 2 ^ (- (2 * r))) by (apply Z.pow_le_mono_r; lia).
    assert (Hm2 : 2 ^ (- (2 * r) - 2) ≤ 2 ^ (- l - 1)) by (apply Z.pow_le_mono_r; lia).
    rewrite (Hsucc (- (2 * r))) by lia.
    replace (- (2 * r) - 1) with (- (2 * r) - 2 + 1) by lia.
    rewrite (Hsucc (- (2 * r) - 2)) by lia.
    assert (0 < 2 ^ (- (2 * r) - 2)) by (apply Z.pow_pos_nonneg; lia).
    assert (0 < 2 ^ (- l - 1)) by (apply Z.pow_pos_nonneg; lia).
    split; [nia|nia].
Qed.

Lemma shiftLeft32_one (k : Z) : 14 ≤ k ≤ 24 → shiftLeft32 1 k = 2 ^ k.
Proof.
  intros Hk.
  assert (k = 14 ∨ k = 15 ∨ k = 16 ∨ k = 17 ∨ k = 18 ∨ k = 19 ∨ k = 20
          ∨ k = 21 ∨ k = 22 ∨ k = 23 ∨ k = 24) as Hcases by lia.
  repeat destruct Hcases as [->|Hcases]; try reflexivity. by subst k.
Qed.

Lemma autoFactor_range (totalSize : Z) : 14 ≤ autoFactor totalSize ≤ 24.
Proof.
  unfold autoFactor, Math_max. destruct (Math_round_log2 totalSize 1200); lia.
Qed.

End BlockSizeProperties.

Module BlockSizeClaims.

Import BlockSizeProperties.

Example getAutoBlockSize_empty : getAutoBlockSize 0 = 16384.
Proof. reflexivity. Qed.

Example getAutoBlockSize_4GB : getAutoBlockSize (4 * GB) = 4 * MB.
Proof. reflexivity. Qed.

Example getAutoBlockSize_1TB : getAutoBlockSize (1024 * GB) = 16 * MB.
Proof. reflexivity. Qed.

Example roundedLog2_4GB : roundedLog2 (4 * GB) 1200 22.
Proof. unfold roundedLog2, scaledLe. vm_compute. split; [discriminate|]. by intros []. Qed.

Example roundedLog2_small : roundedLog2 300 1200 (-2).
Proof. unfold roundedLog2, scaledLe. vm_compute. split; [discriminate|]. by intros []. Qed.

(** C5. For every non-negative total size and every piece-size choice,
    [getBlockSize] is a power of two between 2^14 and 2^24. For the
    automatic choice it is [1 << f], which is 2^f, where [f] is
    [round(log2(totalSize / 1200))] clamped to [14, 24]: the rounded
    logarithm is the one integer [r] with
    [r - 1/2 <= log2(totalSize / 1200) < r + 1/2], and for a total size of
    0, whose logarithm is [-Infinity], [f] is 14. A total size of 1,200,000
    rounds to 10, is clamped to 14 and gives 16384. *)
Theorem getBlockSize_power_of_two (blockSize : BlockSize) (totalSize : Z) :
  0 ≤ totalSize →
  (∃ k, 14 ≤ k ≤ 24 ∧ getBlockSize blockSize totalSize = 2 ^ k)
  ∧ (totalSize = 0 → getBlockSize Auto totalSize = Z.shiftl 1 14)
  ∧ (0 < totalSize →
     ∃ r, roundedLog2 totalSize 1200 r
          ∧ (∀ r', roundedLog2 totalSize 1200 r' → r' = r)
          ∧ getBlockSize Auto totalSize = Z.shiftl 1 (Z.min (Z.max r 14) 24)
          ∧ getBlockSize Auto totalSize = 2 ^ Z.min (Z.max r 14) 24)
  ∧ roundedLog2 1200000 1200 10
  ∧ getBlockSize Auto 1200000 = 16384.
Proof.
  intros Hsize. split_and!.
  - destruct blockSize;
      [exists (autoFactor totalSize); split; [apply autoFactor_range|];
       apply shiftLeft32_one, autoFactor_range
      |exists 14|exists 15|exists 16|exists 17|exists 18|exists 19
      |exists 20|exists 21|exists 22|exists 23|exists 24];
      (split; [lia|reflexivity]).
  - by intros ->.
  - intros Hpos.
    destruct (Math_round_log2_rounded totalSize 1200 Hpos ltac:(lia))
      as (r & Hround & Hr).
    exists r. split; [done|]. split.
    { intros r' Hr'. by apply (roundedLog2_unique totalSize 1200). }
    assert (Hauto : getBlockSize Auto totalSize = 2 ^ Z.min (Z.max r 14) 24).
    { cbn [getBlockSize]. unfold getAutoBlockSize. rewrite Hround. cbn [Math_max].
      apply shiftLeft32_one. lia. }
    split; [|done]. rewrite Hauto, Z.shiftl_mul_pow2 by lia. lia.
  - unfold roundedLog2, scaledLe. vm_compute. split; [discriminate|]. by intros [].
  - reflexivity.
Qed.

Lemma getBlockSize_power_of_two_witness :
  ∃ r, roundedLog2 (4 * GB) 1200 r
       ∧ getBlockSize Auto (4 * GB) = 2 ^ Z.min (Z.max r 14) 24
       ∧ getBlockSize Auto (4 * GB) = 4 * MB.
Proof.
  destruct (getBlockSize_power_of_two Auto (4 * GB)) as (_ & _ & Hauto & _).
  - unfold GB, MB, KB. lia.
  - destruct Hauto as (r & Hr & _ & _ & Hsize).
    + unfold GB, MB, KB. lia.
    + exists r. split; [exact Hr|]. split; [exact Hsize|reflexivity].
Defined.

End BlockSizeClaims.

(** ** The assembler *)

Module AssemblerClaims.

Example assemble_without_selection :
  (fun o => (ti_length (to_info o), ti_files (to_info o)))
    <$> getResult (assembleTorrentObject SamplePlatform.URL_new 0 sampleForm None 16384)
  = Some (None, None).
Proof. reflexivity. Qed.

(** C6. For a form that passes validation and a selected file or folder,
    [assembleTorrentObject] succeeds. When the selection is a bare file,
    [info.length] is the size of that file and [info.files] is not set;
    when it is a folder, [info.files] lists [{length, path}] for the files
    of the file list, in their order, and [info.length] is not set. So
    exactly one of the two keys is present. *)
Theorem assembleTorrentObject_length_or_files
    (URL_new : jsstring -> option URL) (Date_now : Z)
    (ui : TorrentUIParameters) (sel : SelectedFileOrFolderInfo) (blockSize : Z) :
  validateTorrentInput URL_new ui = ok tt →
  ∃ torrentObject,
    assembleTorrentObject URL_new Date_now ui (Some sel) blockSize = ok torrentObject
    ∧ (∀ f, input sel = input_File f →
            ti_length (to_info torrentObject) = Some (size f)
            ∧ ti_files (to_info torrentObject) = None)
    ∧ (∀ rootFolder, input sel = input_Folder rootFolder →
            ti_files (to_info torrentObject)
            = Some (map (fun fp => {| tfi_length := size (file fp);
                                      tfi_path := path fp |}) (fileList sel))
            ∧ ti_length (to_info torrentObject) = None)
    ∧ ((is_Some (ti_length (to_info torrentObject))
        ∧ ti_files (to_info torrentObject) = None)
       ∨ (ti_length (to_info torrentObject) = None
          ∧ is_Some (ti_files (to_info torrentObject)))).
Proof.
  intros Hvalid. unfold assembleTorrentObject. rewrite Hvalid. cbn.
  eexists. split; [reflexivity|]. cbn. split_and!.
  - by intros f ->.
  - by intros rootFolder ->.
  - destruct (input sel); [left|right]; eauto.
Qed.

Lemma assembleTorrentObject_length_or_files_witness :
  ∃ torrentObject,
    assembleTorrentObject SamplePlatform.URL_new 0 sampleForm
      (Some {| info_name := js "a.txt"; info_size := 5;
               input := input_File (sampleFile 5);
               fileList := [{| path := [js "a.txt"]; file := sampleFile 5 |}] |})
      16384 = ok torrentObject
    ∧ ti_length (to_info torrentObject) = Some 5
    ∧ ti_files (to_info torrentObject) = None.
Proof.
  destruct (assembleTorrentObject_length_or_files SamplePlatform.URL_new 0 sampleForm
              {| info_name := js "a.txt"; info_size := 5;
                 input := input_File (sampleFile 5);
                 fileList := [{| path := [js "a.txt"]; file := sampleFile 5 |}] |}
              16384 eq_refl) as (torrentObject & Hok & Hfile & _).
  exists torrentObject. split; [exact Hok|]. exact (Hfile (sampleFile 5) eq_refl).
Defined.

End AssemblerClaims.

(** ** The Bencode encoder *)

Module BencodeProperties.

(** *** The order of [sort()] *)

Lemma lex_leb_refl (a : list Z) : lex_leb a a = true.
Proof.
  induction a as [|x a IH]; [done|]. cbn.
  by rewrite Z.eqb_refl, IH, orb_true_r.
Qed.

Lemma lex_leb_cons (x y : Z) (a b : list Z) :
  lex_leb (x :: a) (y :: b) = true ↔ x < y ∨ (x = y ∧ lex_leb a b = true).
Proof.
  cbn. rewrite orb_true_iff, andb_true_iff, Z.ltb_lt, Z.eqb_eq. tauto.
Qed.

#[global] Instance lex_le_total : Total lex_le.
Proof.
  intros a. induction a as [|x a IH]; intros [|y b]; unfold lex_le in *;
    [by left|by left|by right|].
  rewrite !lex_leb_cons.
  destruct (Z.lt_trichotomy x y) as [?|[->|?]]; [tauto| |tauto].
  destruct (IH b); tauto.
Qed.

#[global] Instance lex_le_trans : Transitive lex_le.
Proof.
  intros a. induction a as [|x a IH]; intros [|y b] [|z c]; unfold lex_le in *;
    try done.
  rewrite !lex_leb_cons. intros [?|[-> Hab]] [?|[-> Hbc]]; try (left; lia).
  right. split; [done|]. by apply (IH b c).
Qed.

#[global] Instance lex_le_antisymm : AntiSymm (=) lex_le.
Proof.
  intros a. induction a as [|x a IH]; intros [|y b]; unfold lex_le in *;
    try done.
  rewrite !lex_leb_cons. intros [?|[-> Hab]] [?|[? Hba]]; try lia.
  f_equal. by apply IH.
Qed.

Lemma Array_sort_sorted (keys : list jsstring) :
  StronglySorted lex_le (Array_sort keys).
Proof. apply (StronglySorted_merge_sort lex_le). Qed.

Lemma Array_sort_Permutation (keys : list jsstring) : Array_sort keys ≡ₚ keys.
Proof. apply (merge_sort_Permutation lex_le). Qed.

(** The sorted keys depend on the set of keys only. *)
Lemma Array_sort_unique (keys1 keys2 : list jsstring) :
  keys1 ≡ₚ keys2 → Array_sort keys1 = Array_sort keys2.
Proof.
  intros Hperm. apply (StronglySorted_unique lex_le); try apply Array_sort_sorted.
  by rewrite !Array_sort_Permutation.
Qed.

(** *** Induction over encoder objects *)

Lemma BencodeObject_induction (P : BencodeObject → Prop) :
  (∀ value, P (BencodeInt value)) →
  (∀ value, P (BencodeString value)) →
  (∀ value, P (BencodeBinaryString value)) →
  (∀ data, Forall P data → P (BencodeList data)) →
  (∀ data, Forall (fun kv => P (snd kv)) data → P (BencodeDict data)) →
  ∀ obj, P obj.
Proof.
  intros Hint Hstring Hbinary Hlist Hdict. fix IH 1.
  intros [value|value|value|data|data].
  - apply Hint.
  - apply Hstring.
  - apply Hbinary.
  - apply Hlist. induction data as [|d data IHdata]; constructor; [apply IH|done].
  - apply Hdict.
    induction data as [|[k v] data IHdata]; constructor; [apply IH|done].
Qed.

(** *** The chunks an object writes *)

Lemma encodeString_app (value : jsstring) (buffer : BencodeBuffer) :
  encodeString value buffer = buffer ++ stringChunks value.
Proof.
  unfold encodeString, writeTextUTF8, push, stringChunks, utf8.
  by rewrite <- !app_assoc.
Qed.

Lemma Object_get_encoders (data : list (jsstring * BencodeObject)) (key : jsstring) :
  Object_get (map (fun kv => (fst kv, encode (snd kv))) data) key
  = encode <$> Object_get data key.
Proof.
  induction data as [|[k v] data IH]; [done|]. cbn.
  by destruct (decide (k = key)).
Qed.

Lemma fold_left_chunks {A} (f : BencodeBuffer → A → BencodeBuffer)
    (g : A → BencodeBuffer) (l : list A) (buffer : BencodeBuffer) :
  Forall (fun x => ∀ b, f b x = b ++ g x) l →
  fold_left f l buffer = buffer ++ concat (map g l).
Proof.
  intros Hl. revert buffer.
  induction Hl as [|x l Hx _ IH]; intros buffer; cbn.
  - by rewrite app_nil_r.
  - by rewrite IH, Hx, <- app_assoc.
Qed.

Lemma Object_get_Some_elem {V} (data : list (jsstring * V)) (key : jsstring) (v : V) :
  Object_get data key = Some v → (key, v) ∈ data.
Proof.
  induction data as [|[k w] data IH]; [done|]. cbn.
  destruct (decide (k = key)) as [->|].
  - intros [= ->]. apply list_elem_of_here.
  - intros H. apply list_elem_of_further. by apply IH.
Qed.

(** Every [encode] appends to the buffer it is given. *)
Lemma encode_app (obj : BencodeObject) :
  ∀ buffer, encode obj buffer = buffer ++ encode obj [].
Proof.
  induction obj as [value|value|value|data IH|data IH] using BencodeObject_induction;
    intros buffer.
  - cbn. unfold writeTextUTF8, push. by rewrite <- !app_assoc.
  - cbn. by rewrite !encodeString_app.
  - cbn. unfold writeBytes, writeTextUTF8, push. by rewrite <- !app_assoc.
  - cbn. unfold writeTextUTF8, push.
    rewrite !(fold_left_chunks _ (fun d => encode d [])) by done.
    by rewrite <- !app_assoc.
  - cbn. unfold writeTextUTF8, push.
    assert (Hstep : ∀ keys : list jsstring,
               Forall (fun key => ∀ b,
                         (let b' := encodeString key b in
                          match Object_get (map (fun kv => (fst kv, encode (snd kv))) data) key with
                          | Some encode_value => encode_value b'
                          | None => b'
                          end) = b ++ entryChunks data key) keys).
    { intros keys. apply Forall_forall. intros key _ b. cbn.
      rewrite Object_get_encoders, encodeString_app. unfold entryChunks.
      destruct (Object_get data key) as [v|] eqn:Hget; cbn.
      - rewrite Forall_forall in IH.
        rewrite (IH (key, v)) by (by apply Object_get_Some_elem).
        by rewrite <- app_assoc.
      - by rewrite ?app_nil_r. }
    rewrite !(fold_left_chunks _ (entryChunks data)) by apply Hstep.
    by rewrite <- !app_assoc.
Qed.

(** [BencodeDict.encode] as the source has it: [d], then for each key of
    the sorted key list the key and the value found under it, then [e]. *)
Lemma encode_BencodeDict (data : list (jsstring * BencodeObject)) :
  encode (BencodeDict data) []
  = [utf8 (js "d")]
    ++ concat (map (entryChunks data) (Array_sort (Object_keys data)))
    ++ [utf8 (js "e")].
Proof.
  cbn. unfold writeTextUTF8, push.
  rewrite (fold_left_chunks _ (entryChunks data)).
  - by rewrite <- app_assoc.
  - apply Forall_forall. intros key _ b. cbn.
    rewrite Object_get_encoders, encodeString_app. unfold entryChunks.
    destruct (Object_get data key) as [v|]; cbn.
    + by rewrite (encode_app v), <- app_assoc.
    + by rewrite ?app_nil_r.
Qed.

End BencodeProperties.

Module BencodeOrder.

Import BencodeProperties.

(** *** Dictionaries that differ in the order of their keys *)

Lemma Object_get_Some {V} (data : list (jsstring * V)) (key : jsstring) (v : V) :
  NoDup (Object_keys data) → Object_get data key = Some v ↔ (key, v) ∈ data.
Proof.
  intros Hnodup. split; [apply Object_get_Some_elem|].
  induction data as [|[k w] data IH]; [by intros ?%elem_of_nil|].
  cbn in Hnodup. apply NoDup_cons in Hnodup as [Hk Hnodup]. cbn.
  intros [[= <- <-]|Hin]%elem_of_cons.
  - by rewrite decide_True.
  - destruct (decide (k = key)) as [->|]; [|by apply IH].
    exfalso. apply Hk. apply list_elem_of_fmap. by exists (key, v).
Qed.

Lemma Object_get_Permutation {V} (data1 data2 : list (jsstring * V)) (key : jsstring) :
  NoDup (Object_keys data1) → data1 ≡ₚ data2 →
  Object_get data1 key = Object_get data2 key.
Proof.
  intros Hnodup Hperm.
  assert (Hnodup2 : NoDup (Object_keys data2)).
  { unfold Object_keys in *. by rewrite <- Hperm. }
  destruct (Object_get data1 key) as [v|] eqn:H1.
  - symmetry. apply Object_get_Some; [done|]. rewrite <- Hperm.
    by apply Object_get_Some.
  - destruct (Object_get data2 key) as [v|] eqn:H2; [|done].
    apply Object_get_Some in H2; [|done]. rewrite <- Hperm in H2.
    apply Object_get_Some in H2; [|done]. congruence.
Qed.

(** Two dictionaries with the same entries, in whatever order, are encoded
    alike. *)
Lemma encode_BencodeDict_Permutation (data1 data2 : list (jsstring * BencodeObject))
    (buffer : BencodeBuffer) :
  NoDup (Object_keys data1) → data1 ≡ₚ data2 →
  encode (BencodeDict data1) buffer = encode (BencodeDict data2) buffer.
Proof.
  intros Hnodup Hperm.
  rewrite (encode_app (BencodeDict data1)), (encode_app (BencodeDict data2)).
  rewrite !encode_BencodeDict. do 3 f_equal.
  rewrite (Array_sort_unique (Object_keys data1) (Object_keys data2))
    by (unfold Object_keys; by rewrite Hperm).
  f_equal. apply map_ext. intros key. unfold entryChunks.
  by rewrite (Object_get_Permutation data1 data2).
Qed.

Lemma Object_set_new {V} (obj : list (jsstring * V)) (key : jsstring) (value : V) :
  key ∉ Object_keys obj → Object_set obj key value = obj ++ [(key, value)].
Proof.
  induction obj as [|[k v] obj IH]; [done|]. cbn. intros Hnot.
  apply not_elem_of_cons in Hnot as [Hne Hnot].
  rewrite decide_False by done. by rewrite IH.
Qed.

Lemma definedEntries_keys (d : list (jsstring * option IBencodeObject)) (key : jsstring) :
  key ∈ Object_keys (definedEntries d) → key ∈ Object_keys d.
Proof.
  unfold Object_keys, definedEntries. rewrite !list_elem_of_fmap.
  intros ([k v] & -> & Hin). apply list_elem_of_omap in Hin as ([k' v'] & Hin & Hf).
  cbn in Hf. destruct (isProto k'); [done|].
  destruct v'; [|done]. cbn in Hf. injection Hf as <- <-. by exists (k', Some i).
Qed.

Lemma definedEntries_NoDup (d : list (jsstring * option IBencodeObject)) :
  NoDup (Object_keys d) → NoDup (Object_keys (definedEntries d)).
Proof.
  induction d as [|[k [v|]] d IH]; cbn; intros Hnodup; [constructor| |].
  - apply NoDup_cons in Hnodup as [Hk Hnodup].
    destruct (isProto k); [by apply IH|]. cbn. apply NoDup_cons. split; [|by apply IH].
    intros Hin. by apply Hk, definedEntries_keys.
  - apply NoDup_cons in Hnodup as [_ Hnodup]. destruct (isProto k); by apply IH.
Qed.

Lemma getBencodeObject_IDict (d : list (jsstring * option IBencodeObject)) :
  NoDup (Object_keys d) →
  getBencodeObject (IDict d) = BencodeDict (definedEntries d).
Proof.
  intros Hnodup. cbn. f_equal.
  change (definedEntries d) with ([] ++ definedEntries d).
  assert (Hfresh : ∀ key, key ∈ Object_keys d →
                          key ∉ Object_keys ([] : list (jsstring * BencodeObject))).
  { intros key _ Hin. by apply elem_of_nil in Hin. }
  revert Hnodup Hfresh. generalize ([] : list (jsstring * BencodeObject)) as data.
  induction d as [|[k [v|]] d IH]; intros data Hnodup Hfresh; cbn.
  - by rewrite app_nil_r.
  - cbn in Hnodup. apply NoDup_cons in Hnodup as [Hk Hnodup].
    destruct (isProto k).
    { apply IH; [done|]. intros key Hkey. apply Hfresh. cbn.
      by apply list_elem_of_further. }
    cbn. rewrite Object_set_new by (apply Hfresh; cbn; apply list_elem_of_here).
    rewrite IH; [by rewrite <- app_assoc|done|].
    intros key Hkey Hin. unfold Object_keys in Hin.
    rewrite fmap_app in Hin. apply elem_of_app in Hin as [Hin|Hin].
    + apply (Hfresh key); [cbn; by apply list_elem_of_further|done].
    + cbn in Hin. apply list_elem_of_singleton in Hin as ->. done.
  - cbn in Hnodup. apply NoDup_cons in Hnodup as [Hk Hnodup].
    assert (Hrest : ∀ key, key ∈ Object_keys d → key ∉ Object_keys data).
    { intros key Hkey. apply Hfresh. cbn. by apply list_elem_of_further. }
    destruct (isProto k); by apply IH.
Qed.

(** Two plain objects with the same properties, listed in a different
    order, are encoded to the same bytes. *)
Lemma bencode_Permutation (obj1 obj2 : list (jsstring * option IBencodeObject)) :
  NoDup (Object_keys obj1) → obj1 ≡ₚ obj2 → bencode obj1 = bencode obj2.
Proof.
  intros Hnodup Hperm. unfold bencode.
  assert (Hnodup2 : NoDup (Object_keys obj2)).
  { unfold Object_keys in *. by rewrite <- Hperm. }
  rewrite !getBencodeObject_IDict by done. f_equal.
  apply encode_BencodeDict_Permutation.
  - by apply definedEntries_NoDup.
  - unfold definedEntries. by rewrite Hperm.
Qed.

End BencodeOrder.

Module Utf8Order.

Import BencodeProperties.

(** Setting the marker bits of a UTF-8 byte adds them: the payload is
    below the lowest marker bit. *)
Lemma lor_marker (marker bound q : Z) :
  forallb (fun q => Z.lor marker q =? marker + q) (seqZ 0 bound) = true →
  0 ≤ q < bound → Z.lor marker q = marker + q.
Proof.
  intros Htable Hq. rewrite forallb_forall in Htable.
  apply Z.eqb_eq, Htable, list_elem_of_In, elem_of_seqZ. lia.
Qed.

Lemma utf8_unit (c : Z) : plainUnit c → utf8 [c] = unitBytes c.
Proof.
  intros [Hc Hs]. unfold code_unit in Hc. unfold utf8, unitBytes.
  cbn [toUTF8Bytes].
  assert (Hplain : (c <? 55296) || (57344 <=? c) = true).
  { unfold is_surrogate in Hs. apply andb_false_iff in Hs as [Hs|Hs].
    - apply Z.leb_gt in Hs. apply orb_true_iff. left. by apply Z.ltb_lt.
    - apply Z.ltb_ge in Hs. apply orb_true_iff. right. by apply Z.leb_le. }
  change 63 with (Z.ones 6).
  rewrite !Z.shiftr_div_pow2, !Z.land_ones by lia.
  change (2 ^ 6) with 64. change (2 ^ 12) with 4096.
  destruct (c <? 128) eqn:H128; [|destruct (c <? 2048) eqn:H2048].
  - apply Z.ltb_lt in H128. cbn [Uint8Array_from map]. by rewrite Z.mod_small by lia.
  - apply Z.ltb_ge in H128. apply Z.ltb_lt in H2048.
    rewrite (lor_marker 192 32), (lor_marker 128 64);
      [|reflexivity|Z.div_mod_to_equations; lia|reflexivity|Z.div_mod_to_equations; lia].
    cbn [Uint8Array_from map].
    rewrite !(Z.mod_small _ 256) by (Z.div_mod_to_equations; lia). done.
  - apply Z.ltb_ge in H2048. rewrite Hplain.
    rewrite (lor_marker 224 16), !(lor_marker 128 64);
      [|reflexivity|Z.div_mod_to_equations; lia|reflexivity|Z.div_mod_to_equations; lia
       |reflexivity|Z.div_mod_to_equations; lia].
    cbn [Uint8Array_from map].
    rewrite !(Z.mod_small _ 256) by (Z.div_mod_to_equations; lia). done.
Qed.

Lemma utf8_cons (c : Z) (s : jsstring) :
  is_surrogate c = false → utf8 (c :: s) = utf8 [c] ++ utf8 s.
Proof.
  unfold is_surrogate, utf8. intros Hs. cbn [toUTF8Bytes].
  destruct (c <? 128); [done|]. destruct (c <? 2048); [done|].
  destruct (c <? 55296) eqn:Hlo; [done|].
  destruct (57344 <=? c) eqn:Hhi; [done|].
  apply Z.ltb_ge in Hlo. apply Z.leb_gt in Hhi.
  apply andb_false_iff in Hs as [Hs|Hs]; [apply Z.leb_gt in Hs|apply Z.ltb_ge in Hs]; lia.
Qed.

Lemma unitBytes_lt (x y : Z) :
  code_unit x → code_unit y → x < y → differs_lt (unitBytes x) (unitBytes y) = true.
Proof.
  unfold code_unit, unitBytes. intros Hx Hy Hlt.
  destruct (x <? 128) eqn:Hx1; destruct (y <? 128) eqn:Hy1;
    destruct (x <? 2048) eqn:Hx2; destruct (y <? 2048) eqn:Hy2;
    rewrite ?Z.ltb_lt, ?Z.ltb_ge in *; try lia; cbn [differs_lt];
    rewrite ?orb_true_iff, ?andb_true_iff, ?Z.ltb_lt, ?Z.eqb_eq, ?orb_false_r;
    Z.div_mod_to_equations; lia.
Qed.

Lemma differs_lt_app (u v a b : list Z) :
  differs_lt u v = true → lex_leb (u ++ a) (v ++ b) = true.
Proof.
  revert v. induction u as [|x u IH]; intros [|y v]; try done.
  cbn [differs_lt app]. rewrite lex_leb_cons.
  rewrite orb_true_iff, andb_true_iff, Z.ltb_lt, Z.eqb_eq.
  intros [?|[-> ?]]; [by left|]. right. split; [done|]. by apply IH.
Qed.

Lemma lex_leb_app_same (u a b : list Z) :
  lex_leb a b = true → lex_leb (u ++ a) (u ++ b) = true.
Proof.
  intros Hab. induction u as [|x u IH]; [done|].
  cbn [app]. apply lex_leb_cons. by right.
Qed.

(** On strings without surrogates, the order of the code units is the
    order of the UTF-8 bytes. *)
Lemma utf8_monotone (a b : jsstring) :
  Forall plainUnit a → Forall plainUnit b →
  lex_le a b → lex_le (utf8 a) (utf8 b).
Proof.
  unfold lex_le. intros Ha. revert b.
  induction Ha as [|x a Hx Ha IH]; intros b Hb Hab; [done|].
  destruct Hb as [|y b Hy Hb]; [done|].
  rewrite (utf8_cons x), (utf8_cons y) by apply Hx || apply Hy.
  apply lex_leb_cons in Hab as [Hlt|[-> Hab]].
  - apply differs_lt_app. rewrite !utf8_unit by done.
    apply unitBytes_lt; [apply Hx|apply Hy|done].
  - by apply lex_leb_app_same, IH.
Qed.

Lemma utf8_sorted (keys : list jsstring) :
  Forall (Forall plainUnit) keys →
  StronglySorted lex_le keys → StronglySorted lex_le (map utf8 keys).
Proof.
  intros Hplain Hsorted.
  induction Hsorted as [|key keys Hsorted IH Hkey]; cbn; [constructor|].
  apply Forall_cons in Hplain as [Hplain Hrest].
  constructor; [by apply IH|].
  apply Forall_fmap. rewrite Forall_forall in Hkey, Hrest. apply Forall_forall.
  intros key' Hin. cbn. apply utf8_monotone; auto.
Qed.

End Utf8Order.

Module BencodeClaims.

Import BencodeProperties BencodeOrder Utf8Order.

Example encode_empty_dict : bencode [] = js "de".
Proof. reflexivity. Qed.

Example encode_int :
  getBytes (encode (getBencodeObject (IInt (-42))) []) = js "i-42e".
Proof. reflexivity. Qed.

Example encode_skips_proto :
  bencode [(js "__proto__", Some (IInt 1)); (js "a", Some (IInt 2))] = js "d1:ai2ee".
Proof. reflexivity. Qed.

Example encode_skips_undefined :
  bencode [(js "name", Some (IString (js "a.txt"))); (js "private", None);
           (js "length", Some (IInt 5))]
  = js "d6:lengthi5e4:name5:a.txte".
Proof. reflexivity. Qed.

(** C1, as the code has it. For a dictionary [data1] (its keys are
    distinct) and any reordering [data2] of it, [encode] writes [d], then
    for each key of the sorted key list the key as a string followed by
    its value, then [e]. The sorted key list holds the keys of the
    dictionary in ascending order of their UTF-16 code units, the order of
    [sort()]; when no key holds a surrogate code unit this is also the
    ascending order of their UTF-8 bytes. [data2] is encoded as [data1]
    is, so are two plain objects that list the same properties in a
    different order, and the plain object with the properties b: x and a: y
    is encoded as [d1:a1:y1:b1:xe]. *)
Theorem BencodeDict_encode_sorted_keys (data1 data2 : list (jsstring * BencodeObject)) :
  NoDup (Object_keys data1) → data1 ≡ₚ data2 →
  getBytes (encode (BencodeDict data1) [])
  = js "d"
    ++ concat (map (fun key =>
                      getBytes (encode (BencodeString key) [])
                      ++ match Object_get data1 key with
                         | Some value => getBytes (encode value [])
                         | None => []
                         end)
                   (emittedKeys data1))
    ++ js "e"
  ∧ emittedKeys data1 ≡ₚ Object_keys data1
  ∧ StronglySorted lex_le (emittedKeys data1)
  ∧ (Forall (Forall plainUnit) (Object_keys data1) →
     StronglySorted lex_le (map utf8 (emittedKeys data1)))
  ∧ (∀ buffer, encode (BencodeDict data2) buffer = encode (BencodeDict data1) buffer)
  ∧ (∀ obj1 obj2 : list (jsstring * option IBencodeObject),
       NoDup (Object_keys obj1) → obj1 ≡ₚ obj2 → bencode obj1 = bencode obj2)
  ∧ bencode [(js "b", Some (IString (js "x"))); (js "a", Some (IString (js "y")))]
    = js "d1:a1:y1:b1:xe".
Proof.
  intros Hnodup Hperm. split_and!.
  - rewrite encode_BencodeDict. unfold getBytes, emittedKeys.
    rewrite !concat_app. cbn [concat]. rewrite app_nil_r. f_equal. f_equal.
    induction (Array_sort (Object_keys data1)) as [|key keys IH]; [done|].
    cbn [map concat]. rewrite concat_app, IH. f_equal.
    unfold entryChunks. rewrite concat_app. f_equal.
    by destruct (Object_get data1 key).
  - apply Array_sort_Permutation.
  - apply Array_sort_sorted.
  - intros Hplain. apply utf8_sorted; [|apply Array_sort_sorted].
    unfold emittedKeys. by rewrite Array_sort_Permutation.
  - intros buffer. symmetry. by apply encode_BencodeDict_Permutation.
  - apply bencode_Permutation.
  - reflexivity.
Qed.

Lemma BencodeDict_encode_sorted_keys_witness :
  getBytes (encode (BencodeDict [(js "a", BencodeString (js "y"));
                                 (js "b", BencodeString (js "x"))]) [])
  = getBytes (encode (BencodeDict [(js "b", BencodeString (js "x"));
                                   (js "a", BencodeString (js "y"))]) []).
Proof.
  assert (Hnodup : NoDup (Object_keys [(js "b", BencodeString (js "x"));
                                       (js "a", BencodeString (js "y"))])).
  { apply NoDup_cons. split.
    - intros Hin. apply list_elem_of_singleton in Hin. discriminate.
    - apply NoDup_singleton. }
  destruct (BencodeDict_encode_sorted_keys
              [(js "b", BencodeString (js "x")); (js "a", BencodeString (js "y"))]
              [(js "a", BencodeString (js "y")); (js "b", BencodeString (js "x"))]
              Hnodup (Permutation_swap _ _ _)) as (_ & _ & _ & _ & Hsame & _).
  exact (f_equal getBytes (Hsame [])).
Defined.

(** C1 as the specification words it fails. The keys U+E000 and U+10000
    are the code units [E000] and [D800 DC00], and the UTF-8 bytes
    [EE 80 80] and [F0 90 80 80]: [sort()] puts U+10000 first, and the
    encoder writes the key with the larger bytes before the other. *)
Lemma keys_not_in_utf8_byte_order :
  let data := [([57344], BencodeInt 1); ([55296; 56320], BencodeInt 2)] in
  emittedKeys data = [[55296; 56320]; [57344]]
  ∧ map utf8 (emittedKeys data) = [[240; 144; 128; 128]; [238; 128; 128]]
  ∧ ¬ StronglySorted lex_le (map utf8 (emittedKeys data))
  ∧ getBytes (encode (BencodeDict data) [])
    = js "d4:" ++ [240; 144; 128; 128] ++ js "i2e3:" ++ [238; 128; 128] ++ js "i1ee".
Proof.
  cbv zeta. split_and!; try reflexivity.
  intros Hsorted. apply StronglySorted_inv in Hsorted as [_ Hhead].
  apply Forall_inv in Hhead. discriminate.
Qed.

End BencodeClaims.

(** ** The SHA-1 kernel and the worker *)

Module Sha1Properties.

Import Sha1Kernel Sha1Worker.

Example digest_empty :
  digest [] = Some [218; 57; 163; 238; 94; 107; 75; 13; 50; 85; 191; 239; 149;
                    96; 24; 144; 175; 216; 7; 9].
Proof. reflexivity. Qed.

Example digest_abc :
  digest (js "abc") = Some [169; 153; 62; 54; 71; 6; 129; 106; 186; 62; 37; 113;
                            120; 80; 194; 108; 156; 208; 216; 157].
Proof. reflexivity. Qed.

Example digest_hello :
  digest (js "hello") = Some [170; 244; 198; 29; 220; 197; 232; 162; 218; 190;
                              222; 15; 59; 72; 44; 217; 174; 169; 67; 77].
Proof. reflexivity. Qed.

Lemma agree_store (bound v : Z) (m m' : Memory) :
  agree bound m m' → agree (bound + 1) (store m bound v) (store m' bound v).
Proof.
  intros Hagree i Hi. unfold store.
  destruct (i =? bound) eqn:Heq; [done|]. apply Z.eqb_neq in Heq.
  apply Hagree. lia.
Qed.

Lemma agree_weaken (bound bound' : Z) (m m' : Memory) :
  bound' ≤ bound → agree bound m m' → agree bound' m m'.
Proof. intros Hle Hagree i Hi. apply Hagree. lia. Qed.

Lemma padZeros_agree (fuel : nat) (m m' : Memory) (writeIndex : Z) :
  agree writeIndex m m' →
  snd (padZeros fuel m writeIndex) = snd (padZeros fuel m' writeIndex)
  ∧ agree (snd (padZeros fuel m writeIndex))
          (fst (padZeros fuel m writeIndex)) (fst (padZeros fuel m' writeIndex)).
Proof.
  revert m m' writeIndex.
  induction fuel as [|fuel IH]; intros m m' writeIndex Hagree; cbn; [done|].
  destruct (Z.land writeIndex 63 =? 56); [done|].
  apply IH. by apply agree_store.
Qed.

Lemma appendLength_agree (count : nat) (i ml : Z) (m m' : Memory) (writeIndex : Z) :
  agree writeIndex m m' →
  snd (appendLength count i ml m writeIndex) = writeIndex + Z.of_nat count
  ∧ snd (appendLength count i ml m' writeIndex) = writeIndex + Z.of_nat count
  ∧ agree (writeIndex + Z.of_nat count)
          (fst (appendLength count i ml m writeIndex))
          (fst (appendLength count i ml m' writeIndex)).
Proof.
  revert i m m' writeIndex.
  induction count as [|count IH]; intros i m m' writeIndex Hagree.
  - cbn. by rewrite Z.add_0_r.
  - cbn [appendLength].
    replace (writeIndex + Z.of_nat (S count)) with (writeIndex + 1 + Z.of_nat count) by lia.
    apply IH. by apply agree_store.
Qed.

Lemma chunkWords_agree (bound i : Z) (m m' : Memory) :
  agree bound m m' → 0 ≤ i → i + 64 ≤ bound → chunkWords m i = chunkWords m' i.
Proof.
  intros Hagree Hi Hbound. unfold chunkWords. apply map_ext_in.
  intros j Hj. apply in_seq in Hj. unfold chunkWord.
  rewrite !(Hagree (i + 4 * Z.of_nat j)), !(Hagree (i + 4 * Z.of_nat j + 1)),
    !(Hagree (i + 4 * Z.of_nat j + 2)), !(Hagree (i + 4 * Z.of_nat j + 3)) by lia.
  done.
Qed.

Lemma processChunks_agree (count : nat) (bound i : Z) (m m' : Memory) (h : Registers) :
  agree bound m m' → 0 ≤ i → i + 64 * Z.of_nat count ≤ bound →
  processChunks count m i h = processChunks count m' i h.
Proof.
  revert i h. induction count as [|count IH]; intros i h Hagree Hi Hbound; [done|].
  cbn [processChunks].
  assert (processChunk m i h = processChunk m' i h) as ->.
  { unfold processChunk. by rewrite (chunkWords_agree bound i m m') by (done || lia). }
  apply IH; [done|lia|lia].
Qed.

(** The kernel reads the message and the padding it wrote, and nothing else:
    the digest does not depend on what the buffer held beyond the message. *)
Lemma sha1_agree (m m' : Memory) (sizeInBytes : Z) :
  0 ≤ sizeInBytes → agree sizeInBytes m m' →
  fst <$> sha1 m sizeInBytes = fst <$> sha1 m' sizeInBytes.
Proof.
  intros Hsize Hagree. unfold sha1.
  pose proof (agree_store sizeInBytes 128 m m' Hagree) as H1.
  pose proof (padZeros_agree 64 _ _ _ H1) as [Hidx H2].
  destruct (padZeros 64 (store m sizeInBytes 128) (sizeInBytes + 1)) as [m1 w1].
  destruct (padZeros 64 (store m' sizeInBytes 128) (sizeInBytes + 1)) as [m1' w1'].
  cbn in Hidx, H2. subst w1'.
  pose proof (appendLength_agree 8 0 (sizeInBytes * 8) _ _ _ H2) as (Hw & Hw' & H3).
  destruct (appendLength 8 0 (sizeInBytes * 8) m1 w1) as [m2 w2].
  destruct (appendLength 8 0 (sizeInBytes * 8) m1' w1) as [m2' w2'].
  cbn in Hw, Hw', H3. subst w2 w2'.
  destruct (maxBufferSize <? w1 + Z.of_nat 8); [done|]. cbn.
  destruct (Z.le_gt_cases 0 (w1 + Z.of_nat 8)) as [Hnn|Hneg].
  - rewrite (processChunks_agree _ (w1 + Z.of_nat 8) 0 m2 m2'); [done|done|lia|].
    rewrite Z2Nat.id by (apply Z.div_pos; lia).
    pose proof (Z.mul_div_le (w1 + Z.of_nat 8) 64 ltac:(lia)). lia.
  - replace (Z.to_nat ((w1 + Z.of_nat 8) / 64)) with 0%nat; [done|].
    assert ((w1 + Z.of_nat 8) / 64 < 0) by (apply Z.div_lt_upper_bound; lia).
    lia.
Qed.

Lemma HEAPU8_set_agree (m m' : Memory) (bytes : list Z) :
  agree (Z.of_nat (length bytes)) (HEAPU8_set m bytes) (HEAPU8_set m' bytes).
Proof.
  intros i Hi. unfold HEAPU8_set.
  replace (0 <=? i) with true by (symmetry; apply Z.leb_le; lia).
  by replace (i <? Z.of_nat (length bytes)) with true by (symmetry; apply Z.ltb_lt; lia).
Qed.

(** Whatever the worker's memory holds, hashing [bytes] there gives the
    digest of [bytes]. *)
Lemma sha1_HEAPU8_set (m : Memory) (bytes : list Z) :
  fst <$> sha1 (HEAPU8_set m bytes) (Z.of_nat (length bytes)) = digest bytes.
Proof. unfold digest. apply sha1_agree; [lia|apply HEAPU8_set_agree]. Qed.

(** The padding stops at the first index congruent to 56 modulo 64. *)
Lemma padZeros_index (fuel : nat) (m : Memory) (writeIndex : Z) :
  0 ≤ writeIndex → (56 - writeIndex) mod 64 < Z.of_nat fuel →
  snd (padZeros fuel m writeIndex) = writeIndex + (56 - writeIndex) mod 64.
Proof.
  revert m writeIndex.
  induction fuel as [|fuel IH]; intros m writeIndex Hnn Hfuel.
  - pose proof (Z.mod_pos_bound (56 - writeIndex) 64). lia.
  - cbn [padZeros]. change 63 with (Z.ones 6). rewrite Z.land_ones by lia.
    change (2 ^ 6) with 64.
    destruct (writeIndex mod 64 =? 56) eqn:Heq.
    + apply Z.eqb_eq in Heq. cbn. Z.div_mod_to_equations. lia.
    + apply Z.eqb_neq in Heq. rewrite IH.
      * Z.div_mod_to_equations. lia.
      * lia.
      * Z.div_mod_to_equations. lia.
Qed.

(** A message of at most 16 MB fits the buffer with its padding, and its
    digest has 20 bytes. *)
Lemma digest_defined (bytes : list Z) :
  Z.of_nat (length bytes) ≤ 16 * MB →
  ∃ d, digest bytes = Some d ∧ length d = 20%nat.
Proof.
  intros Hlen. unfold digest, sha1.
  set (size := Z.of_nat (length bytes)) in *.
  set (m0 := store (HEAPU8_set zeroMemory bytes) size 128).
  pose proof (padZeros_index 64 m0 (size + 1) ltac:(lia)) as Hpad.
  destruct (padZeros 64 m0 (size + 1)) as [m1 w1]. cbn in Hpad.
  pose proof (appendLength_agree 8 0 (size * 8) m1 m1 w1 ltac:(by intros ??)) as (Hw & _).
  destruct (appendLength 8 0 (size * 8) m1 w1) as [m2 w2]. cbn in Hw. subst w2.
  assert (Hw1 : w1 = size + 1 + (56 - (size + 1)) mod 64).
  { apply Hpad. pose proof (Z.mod_pos_bound (56 - (size + 1)) 64). lia. }
  replace (maxBufferSize <? w1 + Z.of_nat 8) with false.
  - cbn. eexists. split; [reflexivity|reflexivity].
  - symmetry. apply Z.ltb_ge. unfold maxBufferSize. unfold MB, KB in Hlen.
    Z.div_mod_to_equations. lia.
Qed.

(** [target.set(source, offset)] keeps the length of [target]. *)
Lemma Uint8Array_set_length (target source result : list Z) (offset : Z) :
  Uint8Array_set target source offset = Some result → length result = length target.
Proof.
  unfold Uint8Array_set.
  destruct ((offset <? 0) || (Z.of_nat (length target) <? offset + Z.of_nat (length source)))
    eqn:Hrange; [done|].
  apply orb_false_iff in Hrange as [H0 Hfit].
  apply Z.ltb_ge in H0. apply Z.ltb_ge in Hfit.
  intros [= <-]. rewrite !length_app, length_take, length_drop. lia.
Qed.

Lemma Uint8Array_set_next (done d : list Z) (room : nat) :
  Uint8Array_set (done ++ replicate (length d + room) 0) d (Z.of_nat (length done))
  = Some ((done ++ d) ++ replicate room 0).
Proof.
  unfold Uint8Array_set.
  replace (Z.of_nat (length done) <? 0) with false by (symmetry; apply Z.ltb_ge; lia).
  replace (Z.of_nat (length (done ++ replicate (length d + room) 0))
           <? Z.of_nat (length done) + Z.of_nat (length d)) with false.
  - cbn. rewrite Nat2Z.id, take_app_length, drop_app_add, drop_replicate.
    replace (length d + room - length d)%nat with room by lia.
    by rewrite <- app_assoc.
  - symmetry. apply Z.ltb_ge. rewrite length_app, length_replicate. lia.
Qed.

(** The loop of [computeHashes] from input [i] on: [result] holds the
    digests of the inputs before [i], then room for the others. *)
Lemma hashInputs_digests (inputs : list (list Z)) (i : nat) (heap : Memory) (done : list Z) :
  Forall (fun bytes => Z.of_nat (length bytes) ≤ 16 * MB) inputs →
  length done = (20 * i)%nat →
  ∃ digests heap',
    digestsOf inputs digests
    ∧ hashInputs inputs (Z.of_nat i) heap (done ++ replicate (20 * length inputs) 0)
      = Some (done ++ concat digests, heap').
Proof.
  intros Hfit. revert i heap done.
  induction Hfit as [|bytes inputs Hbytes _ IH]; intros i heap done Hdone.
  - exists [], heap. split; [constructor|]. cbn. by rewrite !app_nil_r.
  - destruct (digest_defined bytes Hbytes) as (d & Hd & Hlen).
    pose proof (sha1_HEAPU8_set heap bytes) as Hsha. rewrite Hd in Hsha.
    destruct (sha1 (HEAPU8_set heap bytes) (Z.of_nat (length bytes)))
      as [[d' heap1]|] eqn:Hrun; [|done].
    cbn in Hsha. injection Hsha as ->.
    destruct (IH (S i) heap1 (done ++ d)) as (digests & heap' & Hdigests & Hloop).
    { rewrite length_app. lia. }
    exists (d :: digests), heap'. split; [by constructor|].
    cbn [hashInputs]. rewrite Hrun. cbn [mbind option_bind].
    replace (Z.of_nat i * hashResultSize) with (Z.of_nat (length done))
      by (unfold hashResultSize; lia).
    replace (20 * length (bytes :: inputs))%nat
      with (length d + 20 * length inputs)%nat by (cbn [length]; lia).
    rewrite Uint8Array_set_next. cbn [mbind option_bind].
    replace (Z.of_nat i + 1) with (Z.of_nat (S i)) by lia.
    rewrite Hloop. cbn [concat]. by rewrite app_assoc.
Qed.

(** [Sha1WorkerObject.computeHashes]: the digests of the inputs, in their
    order, one after the other, and the inputs themselves. *)
Lemma computeHashes_digests (this : Sha1WorkerObject) (inputs : list (list Z)) :
  Forall (fun bytes => Z.of_nat (length bytes) ≤ 16 * MB) inputs →
  ∃ digests this',
    digestsOf inputs digests
    ∧ computeHashes this inputs
      = Some ({| result := concat digests; originalInputs := inputs |}, this').
Proof.
  intros Hfit.
  destruct (hashInputs_digests inputs 0 (HEAPU8 this) [] Hfit eq_refl)
    as (digests & heap' & Hdigests & Hloop).
  exists digests, {| HEAPU8 := heap' |}. split; [done|].
  unfold computeHashes, Uint8Array_new, hashResultSize.
  replace (Z.to_nat (Z.of_nat (length inputs) * 20)) with (20 * length inputs)%nat by lia.
  rewrite !app_nil_l in Hloop. change (Z.of_nat 0) with 0 in Hloop.
  by rewrite Hloop.
Qed.

Lemma digestsOf_length (inputs digests : list (list Z)) :
  digestsOf inputs digests → length (concat digests) = (20 * length inputs)%nat.
Proof.
  induction 1 as [|bytes d inputs digests [_ Hd] _ IH]; [done|].
  cbn. rewrite length_app, IH, Hd. lia.
Qed.

End Sha1Properties.

(** ** The kernel and the standard *)

Module Sha1Standard.

Import Sha1Kernel Sha1Worker Sha1Properties.

(** *** Words *)

Lemma word32_mod (x : Z) : word32 x ↔ x mod 2 ^ 32 = x.
Proof.
  unfold word32. split.
  - intros Hx. by apply Z.mod_small.
  - intros <-. apply Z.mod_pos_bound. lia.
Qed.

Ltac bitwise :=
  apply Z.bits_inj'; intros i Hi;
  repeat first
    [ rewrite Z.lor_spec | rewrite Z.lxor_spec | rewrite Z.land_spec
    | rewrite Z.testbit_mod_pow2 by lia | rewrite Z.lnot_spec by lia ].

Lemma word32_lxor (x y : Z) : word32 x → word32 y → word32 (Z.lxor x y).
Proof.
  rewrite !word32_mod. intros Hx Hy. rewrite <- Hx, <- Hy at 2. bitwise.
  by destruct (i <? 32).
Qed.

Lemma u32_word32 (x : Z) : word32 (u32 x).
Proof. apply Z.mod_pos_bound. lia. Qed.

Lemma add32_word32 (x y : Z) : word32 (add32 x y).
Proof. apply Z.mod_pos_bound. lia. Qed.

(** A low part below 2^n joins a multiple of 2^n without carry. *)
Lemma lor_add (hi lo n : Z) :
  0 ≤ n → 0 ≤ lo < 2 ^ n → Z.lor (hi * 2 ^ n) lo = hi * 2 ^ n + lo.
Proof.
  intros Hn Hlo. rewrite <- Z.add_lor_land.
  replace (Z.land (hi * 2 ^ n) lo) with 0; [lia|].
  symmetry. apply Z.bits_inj'. intros i Hi.
  rewrite Z.land_spec, Z.bits_0.
  destruct (Z.lt_ge_cases i n) as [Hlt|Hge].
  - by rewrite Z.mul_pow2_bits_low.
  - rewrite andb_comm. replace (Z.testbit lo i) with false; [done|].
    symmetry. rewrite <- (Z.mod_small lo (2 ^ n)) by done.
    apply Z.mod_pow2_bits_high. lia.
Qed.

Lemma rotl_ROTL (x n : Z) : word32 x → 0 < n < 32 → rotl x n = ROTL n x.
Proof.
  unfold word32, rotl, ROTL, u32. intros Hx Hn.
  rewrite Z.shiftl_mul_pow2, Z.shiftr_div_pow2 by lia.
  assert (Hsplit : 2 ^ 32 = 2 ^ (32 - n) * 2 ^ n).
  { rewrite <- Z.pow_add_r by lia. f_equal. lia. }
  assert (Hpos1 : 0 < 2 ^ n) by (apply Z.pow_pos_nonneg; lia).
  assert (Hpos2 : 0 < 2 ^ (32 - n)) by (apply Z.pow_pos_nonneg; lia).
  pose proof (Z.div_mod x (2 ^ (32 - n)) ltac:(lia)) as Hdm.
  pose proof (Z.mod_pos_bound x (2 ^ (32 - n)) Hpos2) as Hlo.
  set (hi := x / 2 ^ (32 - n)) in *. set (lo := x mod 2 ^ (32 - n)) in *.
  assert (Hhi : 0 ≤ hi < 2 ^ n) by nia.
  assert (Hmod : (x * 2 ^ n) mod 2 ^ 32 = lo * 2 ^ n).
  { symmetry. apply (Z.mod_unique_pos _ _ hi); [nia|]. rewrite Hdm, Hsplit. ring. }
  rewrite Hmod. apply lor_add; [lia|done].
Qed.

Lemma ROTL_word32 (x n : Z) : word32 x → 0 < n < 32 → word32 (ROTL n x).
Proof.
  intros Hx Hn. rewrite <- rotl_ROTL by done. unfold rotl.
  apply word32_mod. unfold word32 in Hx.
  assert (Hshift : word32 (Z.shiftr x (32 - n))).
  { rewrite Z.shiftr_div_pow2 by lia. unfold word32. split.
    - apply Z.div_pos; [lia|]. apply Z.pow_pos_nonneg; lia.
    - apply Z.div_lt_upper_bound; [apply Z.pow_pos_nonneg; lia|].
      assert (0 < 2 ^ (32 - n)) by (apply Z.pow_pos_nonneg; lia). nia. }
  apply word32_mod in Hshift. rewrite <- Hshift at 2.
  unfold u32. bitwise. by destruct (i <? 32).
Qed.

Lemma Ch_kernel (b c d : Z) :
  word32 b →
  Z.lor (Z.land b c) (Z.land (u32 (Z.lnot b)) d) = Ch b c d.
Proof.
  intros Hb. unfold Ch, not32, u32.
  replace (2 ^ 32 - 1 - b) with (Z.lnot b mod 2 ^ 32).
  - bitwise. by destruct (i <? 32), (Z.testbit b i), (Z.testbit c i), (Z.testbit d i).
  - unfold Z.lnot, word32 in *. symmetry.
    apply (Z.mod_unique_pos _ _ (-1)); lia.
Qed.

Lemma Maj_kernel (b c d : Z) :
  Z.lor (Z.lor (Z.land b c) (Z.land b d)) (Z.land c d) = Maj b c d.
Proof.
  unfold Maj. bitwise. by destruct (Z.testbit b i), (Z.testbit c i), (Z.testbit d i).
Qed.


(** *** Rounds *)

Lemma ltb_of_nat (t n : nat) : (Z.of_nat t <? Z.of_nat n) = (t <? n)%nat.
Proof.
  destruct (Nat.ltb_spec t n).
  - apply Z.ltb_lt. lia.
  - apply Z.ltb_ge. lia.
Qed.

Lemma add32_sum (x y e k w : Z) :
  (x + y + e + w + k) mod 2 ^ 32 = add32 (add32 (add32 (add32 x y) e) k) w.
Proof.
  unfold add32.
  rewrite (Zplus_mod_idemp_l (x + y) e), (Zplus_mod_idemp_l (x + y + e) k),
    (Zplus_mod_idemp_l (x + y + e + k) w).
  f_equal. lia.
Qed.

Lemma mainLoopRound_round (w : list Z) (r : Registers) (t : nat) :
  wordRegs r →
  regs (mainLoopRound w r (Z.of_nat t)) = round w (regs r) t
  ∧ wordRegs (mainLoopRound w r (Z.of_nat t)).
Proof.
  destruct r as [a b c d e]. unfold wordRegs, regs. cbn [ra rb rc rd re].
  intros (Ha & Hb & Hc & Hd & He). unfold mainLoopRound, round, w_at.
  rewrite Nat2Z.id.
  change 20 with (Z.of_nat 20). change 40 with (Z.of_nat 40).
  change 60 with (Z.of_nat 60). rewrite !ltb_of_nat.
  change 4294967295 with (Z.ones 32). rewrite Z.land_ones by lia.
  cbn [ra rb rc rd re]. rewrite !rotl_ROTL by (done || lia).
  split.
  - do 4 f_equal. rewrite <- add32_sum. unfold f_t, K_t.
    by destruct (t <? 20)%nat; [|destruct (t <? 40)%nat; [|destruct (t <? 60)%nat]];
      cbn [fst snd]; rewrite ?Ch_kernel, ?Maj_kernel by done.
  - split_and!; try done.
    + apply Z.mod_pos_bound. lia.
    + apply ROTL_word32; [done|lia].
Qed.

Lemma mainLoop_rounds (w : list Z) (r : Registers) (ts : list nat) :
  wordRegs r →
  regs (fold_left (fun r j => mainLoopRound w r (Z.of_nat j)) ts r)
  = fold_left (round w) ts (regs r)
  ∧ wordRegs (fold_left (fun r j => mainLoopRound w r (Z.of_nat j)) ts r).
Proof.
  revert r. induction ts as [|t ts IH]; intros r Hr; [done|].
  cbn [fold_left]. destruct (mainLoopRound_round w r t Hr) as [<- Hr']. by apply IH.
Qed.

(** *** The message schedule *)

Lemma nth_word32 (w : list Z) (n : nat) : Forall word32 w → word32 (nth n w 0).
Proof.
  intros Hw. destruct (nth_in_or_default n w 0) as [Hin| ->].
  - by apply (proj1 (Forall_forall _ _) Hw), list_elem_of_In.
  - unfold word32. lia.
Qed.

Lemma W_word32 (M : list Z) (t : nat) : Forall word32 M → Forall word32 (W_t M t).
Proof.
  intros HM. induction t as [|t IH]; [constructor|].
  cbn [W_t]. apply Forall_app. split; [done|]. apply Forall_cons. split; [|constructor].
  destruct (t <? 16)%nat; [by apply nth_word32|].
  apply ROTL_word32; [|lia]. by repeat apply word32_lxor; apply nth_word32.
Qed.

Lemma W_take (M : list Z) (t : nat) : (t ≤ 16)%nat → (t ≤ length M)%nat → W_t M t = take t M.
Proof.
  induction t as [|t IH]; intros Ht HM; [done|].
  cbn [W_t]. rewrite IH by lia.
  replace (t <? 16)%nat with true by (symmetry; apply Nat.ltb_lt; lia).
  destruct (lookup_lt_is_Some_2 M t ltac:(lia)) as [x Hx].
  rewrite (take_S_r _ _ x Hx). do 2 f_equal. by apply nth_lookup_Some.
Qed.

Lemma messageSchedule_W (M : list Z) (count t : nat) :
  Forall word32 M → (16 ≤ t)%nat →
  messageSchedule count (Z.of_nat t) (W_t M t) = W_t M (t + count).
Proof.
  intros HM. revert t. induction count as [|count IH]; intros t Ht.
  - by rewrite Nat.add_0_r.
  - cbn [messageSchedule]. replace (t + S count)%nat with (S t + count)%nat by lia.
    replace (Z.of_nat t + 1) with (Z.of_nat (S t)) by lia.
    rewrite <- IH by lia. f_equal. cbn [W_t].
    replace (t <? 16)%nat with false by (symmetry; apply Nat.ltb_ge; lia).
    unfold w_at.
    replace (Z.to_nat (Z.of_nat t - 3)) with (t - 3)%nat by lia.
    replace (Z.to_nat (Z.of_nat t - 8)) with (t - 8)%nat by lia.
    replace (Z.to_nat (Z.of_nat t - 14)) with (t - 14)%nat by lia.
    replace (Z.to_nat (Z.of_nat t - 16)) with (t - 16)%nat by lia.
    do 2 f_equal. apply rotl_ROTL; [|lia].
    pose proof (W_word32 M t HM).
    by repeat apply word32_lxor; apply nth_word32.
Qed.

(** *** Bytes and words *)

Lemma chunkWord_bytes (b0 b1 b2 b3 : Z) :
  isByte b0 → isByte b1 → isByte b2 → isByte b3 →
  Z.lor (Z.lor (Z.lor (u32 (Z.shiftl b0 24)) (u32 (Z.shiftl b1 16)))
               (u32 (Z.shiftl b2 8))) b3
  = fromBigEndian [b0; b1; b2; b3]
  ∧ word32 (fromBigEndian [b0; b1; b2; b3]).
Proof.
  unfold isByte, fromBigEndian, u32, word32. cbn [fold_left].
  intros H0 H1 H2 H3. rewrite !Z.shiftl_mul_pow2 by lia.
  rewrite !Z.mod_small by lia.
  rewrite (lor_add b0 (b1 * 2 ^ 16) 24) by lia.
  replace (b0 * 2 ^ 24 + b1 * 2 ^ 16) with ((b0 * 2 ^ 8 + b1) * 2 ^ 16) by lia.
  rewrite (lor_add _ (b2 * 2 ^ 8) 16) by lia.
  replace ((b0 * 2 ^ 8 + b1) * 2 ^ 16 + b2 * 2 ^ 8)
    with (((b0 * 2 ^ 8 + b1) * 2 ^ 8 + b2) * 2 ^ 8) by lia.
  rewrite (lor_add _ b3 8) by lia. lia.
Qed.

Lemma take4_drop (l : list Z) (n : nat) :
  (n + 4 ≤ length l)%nat →
  take 4 (drop n l) = [nth n l 0; nth (n + 1) l 0; nth (n + 2) l 0; nth (n + 3) l 0].
Proof.
  revert l. induction n as [|n IH]; intros l Hl.
  - destruct l as [|a [|b [|c [|d l]]]]; cbn in Hl; try lia. done.
  - destruct l as [|x l]; cbn in Hl; [lia|]. cbn. apply IH. lia.
Qed.

Lemma chunkWords_words (m : Memory) (padded : list Z) (k : nat) :
  holds m padded → Forall isByte padded → (64 * k + 64 ≤ length padded)%nat →
  chunkWords m (64 * Z.of_nat k) = words (take 64 (drop (64 * k) padded))
  ∧ Forall word32 (words (take 64 (drop (64 * k) padded))).
Proof.
  intros Hm Hbytes Hk. unfold chunkWords, words.
  assert (Hword : ∀ j, (j < 16)%nat →
            chunkWord m (64 * Z.of_nat k + 4 * Z.of_nat j)
            = fromBigEndian (take 4 (drop (4 * j) (take 64 (drop (64 * k) padded))))
            ∧ word32 (fromBigEndian
                        (take 4 (drop (4 * j) (take 64 (drop (64 * k) padded)))))).
  { intros j Hj.
    rewrite skipn_firstn_comm, take_take, drop_drop.
    replace (4 `min` (64 - 4 * j))%nat with 4%nat by lia.
    rewrite take4_drop by lia. unfold chunkWord. cbv zeta.
    replace (64 * Z.of_nat k + 4 * Z.of_nat j) with (Z.of_nat (64 * k + 4 * j)) by lia.
    replace (Z.of_nat (64 * k + 4 * j) + 1) with (Z.of_nat (64 * k + 4 * j + 1)) by lia.
    replace (Z.of_nat (64 * k + 4 * j) + 2) with (Z.of_nat (64 * k + 4 * j + 2)) by lia.
    replace (Z.of_nat (64 * k + 4 * j) + 3) with (Z.of_nat (64 * k + 4 * j + 3)) by lia.
    rewrite !Hm by lia.
    assert (Hbyte : ∀ n, isByte (nth n padded 0)).
    { intros n. destruct (nth_in_or_default n padded 0) as [Hin| ->].
      - by apply (proj1 (Forall_forall _ _) Hbytes), list_elem_of_In.
      - unfold isByte. lia. }
    by apply chunkWord_bytes. }
  split.
  - apply map_ext_in. intros j Hj%in_seq. apply Hword. lia.
  - apply Forall_fmap, Forall_forall. intros j Hj%elem_of_seq. apply Hword. lia.
Qed.


(** *** Blocks *)

Lemma processChunk_compress (m : Memory) (padded : list Z) (k : nat) (h : Registers) :
  holds m padded → Forall isByte padded → (64 * k + 64 ≤ length padded)%nat →
  wordRegs h →
  regs (processChunk m (64 * Z.of_nat k) h)
  = compress (regs h) (take 64 (drop (64 * k) padded))
  ∧ wordRegs (processChunk m (64 * Z.of_nat k) h).
Proof.
  intros Hm Hbytes Hk Hh. unfold processChunk, compress.
  destruct (chunkWords_words m padded k Hm Hbytes Hk) as [-> Hwords].
  set (ws := words (take 64 (drop (64 * k) padded))) in *.
  assert (Hlength : length ws = 16%nat).
  { unfold ws, words. by rewrite length_map, length_seq. }
  assert (Hschedule : messageSchedule 64 16 ws = W_t ws 80).
  { transitivity (messageSchedule 64 (Z.of_nat 16) (W_t ws 16)).
    - rewrite W_take by lia. by rewrite take_ge by lia.
    - apply (messageSchedule_W ws 64 16); [done|lia]. }
  rewrite Hschedule. unfold mainLoop.
  destruct (mainLoop_rounds (W_t ws 80) h (seq 0 80) Hh) as [Hrounds _].
  set (r := fold_left _ (seq 0 80) h) in *.
  rewrite <- Hrounds. unfold regs at 1 2, add32, u32. cbn [ra rb rc rd re].
  split.
  - destruct h as [a b c d e]. cbn [regs ra rb rc rd re].
    by rewrite (Z.add_comm a), (Z.add_comm b), (Z.add_comm c), (Z.add_comm d),
      (Z.add_comm e).
  - unfold wordRegs. cbn [ra rb rc rd re]. split_and!; apply Z.mod_pos_bound; lia.
Qed.

Lemma processChunks_S (count : nat) (m : Memory) (i : Z) (h : Registers) :
  processChunks (S count) m i h = processChunks count m (i + 64) (processChunk m i h).
Proof. reflexivity. Qed.

Lemma fold_left_cons {A B} (g : A → B → A) (x : B) (l : list B) (a : A) :
  fold_left g (x :: l) a = fold_left g l (g a x).
Proof. reflexivity. Qed.

Lemma processChunks_compress (m : Memory) (padded : list Z) (count k : nat)
    (h : Registers) :
  holds m padded → Forall isByte padded → (64 * (k + count) ≤ length padded)%nat →
  wordRegs h →
  regs (processChunks count m (64 * Z.of_nat k) h)
  = fold_left compress
      (map (fun i => take 64 (drop (64 * i) padded)) (seq k count)) (regs h).
Proof.
  intros Hm Hbytes. revert k h.
  induction count as [|count IH]; intros k h Hk Hh; [reflexivity|].
  rewrite processChunks_S, <- cons_seq, map_cons, fold_left_cons.
  destruct (processChunk_compress m padded k h Hm Hbytes ltac:(lia) Hh) as [<- Hh'].
  replace (64 * Z.of_nat k + 64) with (64 * Z.of_nat (S k)) by lia.
  apply IH; [lia|done].
Qed.

(** *** Padding *)

Lemma holds_HEAPU8_set (m : Memory) (bytes : list Z) : holds (HEAPU8_set m bytes) bytes.
Proof.
  intros i Hi. unfold HEAPU8_set.
  replace (0 <=? Z.of_nat i) with true by (symmetry; apply Z.leb_le; lia).
  replace (Z.of_nat i <? Z.of_nat (length bytes)) with true
    by (symmetry; apply Z.ltb_lt; lia).
  cbn. by rewrite Nat2Z.id.
Qed.

Lemma holds_store (m : Memory) (l : list Z) (writeIndex v : Z) :
  holds m l → writeIndex = Z.of_nat (length l) → holds (store m writeIndex v) (l ++ [v]).
Proof.
  intros Hm -> i Hi. rewrite length_app in Hi. cbn in Hi. unfold store.
  destruct (Z.of_nat i =? Z.of_nat (length l)) eqn:Heq.
  - apply Z.eqb_eq in Heq. assert (i = length l) as -> by lia.
    by rewrite nth_middle.
  - apply Z.eqb_neq in Heq. rewrite app_nth1 by lia. apply Hm. lia.
Qed.

Lemma holds_padZeros (fuel : nat) (m : Memory) (l : list Z) (writeIndex : Z) :
  holds m l → writeIndex = Z.of_nat (length l) →
  ∃ zeros : nat,
    snd (padZeros fuel m writeIndex) = writeIndex + Z.of_nat zeros
    ∧ holds (fst (padZeros fuel m writeIndex)) (l ++ replicate zeros 0).
Proof.
  revert m l writeIndex.
  induction fuel as [|fuel IH]; intros m l writeIndex Hm Hw.
  - exists 0%nat. cbn. rewrite app_nil_r. split; [lia|done].
  - cbn [padZeros]. destruct (Z.land writeIndex 63 =? 56).
    + exists 0%nat. cbn. rewrite app_nil_r. split; [lia|done].
    + destruct (IH (store m writeIndex 0) (l ++ [0]) (writeIndex + 1))
        as (zeros & Hindex & Hholds).
      * by apply holds_store.
      * rewrite length_app. cbn. lia.
      * exists (S zeros). split; [lia|]. by rewrite <- app_assoc in Hholds.
Qed.

Lemma lengthByte (ml shift k : Z) :
  0 ≤ k → shift = 8 * k →
  Z.land (Z.shiftr ml shift) 255 mod 256 = (ml / 256 ^ k) mod 256.
Proof.
  intros Hk ->. rewrite Z.shiftr_div_pow2 by lia.
  change 255 with (Z.ones 8). rewrite Z.land_ones by lia.
  change (2 ^ 8) with 256. rewrite Z.mod_mod by lia.
  by rewrite Z.pow_mul_r by lia.
Qed.

Lemma holds_appendLength (ml : Z) (m : Memory) (l : list Z) (writeIndex : Z) :
  holds m l → writeIndex = Z.of_nat (length l) →
  snd (appendLength 8 0 ml m writeIndex) = writeIndex + 8
  ∧ holds (fst (appendLength 8 0 ml m writeIndex)) (l ++ bigEndian 8 ml).
Proof.
  intros Hm Hw. cbn [appendLength fst snd]. split; [lia|].
  unfold bigEndian. cbn [seq map].
  rewrite (lengthByte ml ((7 - 0) * 8) 7), (lengthByte ml ((7 - (0 + 1)) * 8) 6),
    (lengthByte ml ((7 - (0 + 1 + 1)) * 8) 5),
    (lengthByte ml ((7 - (0 + 1 + 1 + 1)) * 8) 4),
    (lengthByte ml ((7 - (0 + 1 + 1 + 1 + 1)) * 8) 3),
    (lengthByte ml ((7 - (0 + 1 + 1 + 1 + 1 + 1)) * 8) 2),
    (lengthByte ml ((7 - (0 + 1 + 1 + 1 + 1 + 1 + 1)) * 8) 1),
    (lengthByte ml ((7 - (0 + 1 + 1 + 1 + 1 + 1 + 1 + 1)) * 8) 0) by lia.
  change (Z.of_nat (8 - 1 - 0)) with 7. change (Z.of_nat (8 - 1 - 1)) with 6.
  change (Z.of_nat (8 - 1 - 2)) with 5. change (Z.of_nat (8 - 1 - 3)) with 4.
  change (Z.of_nat (8 - 1 - 4)) with 3. change (Z.of_nat (8 - 1 - 5)) with 2.
  change (Z.of_nat (8 - 1 - 6)) with 1. change (Z.of_nat (8 - 1 - 7)) with 0.
  change (l ++ ?a :: ?b :: ?c :: ?d :: ?e :: ?f :: ?g :: ?h :: [])
    with (l ++ [a] ++ [b] ++ [c] ++ [d] ++ [e] ++ [f] ++ [g] ++ [h]).
  rewrite !app_assoc.
  repeat (apply holds_store; [|rewrite ?length_app; cbn [length]; lia]).
  done.
Qed.

(** The kernel pads as the standard does. *)
Lemma sha1_pad (bytes : list Z) :
  let size := Z.of_nat (length bytes) in
  let m0 := store (HEAPU8_set zeroMemory bytes) size 128 in
  let '(m1, w1) := padZeros 64 m0 (size + 1) in
  let '(m2, w2) := appendLength 8 0 (size * 8) m1 w1 in
  w2 = Z.of_nat (length (pad bytes)) ∧ holds m2 (pad bytes)
  ∧ w2 = 64 * ((size + 8) / 64 + 1).
Proof.
  cbv zeta. set (size := Z.of_nat (length bytes)).
  pose proof (holds_store _ bytes size 128 (holds_HEAPU8_set zeroMemory bytes) eq_refl)
    as H0.
  destruct (holds_padZeros 64 _ (bytes ++ [128]) (size + 1) H0) as (zeros & Hw1 & H1).
  { rewrite length_app. cbn. lia. }
  pose proof (padZeros_index 64 (store (HEAPU8_set zeroMemory bytes) size 128) (size + 1)
                ltac:(lia)) as Hindex.
  destruct (padZeros 64 _ (size + 1)) as [m1 w1]. cbn [fst snd] in *.
  specialize (Hindex ltac:(pose proof (Z.mod_pos_bound (56 - (size + 1)) 64); lia)).
  destruct (holds_appendLength (size * 8) m1 (bytes ++ [128] ++ replicate zeros 0) w1)
    as [Hw2 H2].
  { by rewrite app_assoc. }
  { rewrite !length_app, length_replicate. cbn [length]. unfold size in *. lia. }
  destruct (appendLength 8 0 (size * 8) m1 w1) as [m2 w2]. cbn [fst snd] in *.
  assert (Hzeros : zeros = Z.to_nat (((448 - (8 * size + 1)) mod 512 - 7) / 8)).
  { Z.div_mod_to_equations. lia. }
  assert (Hpad : pad bytes = (bytes ++ [128] ++ replicate zeros 0) ++ bigEndian 8 (size * 8)).
  { unfold pad. fold size. rewrite <- Hzeros, <- !app_assoc.
    by rewrite (Z.mul_comm size 8). }
  rewrite Hpad. split_and!; [|done|].
  - rewrite !length_app, length_replicate. unfold bigEndian.
    rewrite length_map, length_seq. cbn [length]. lia.
  - Z.div_mod_to_equations. lia.
Qed.

Lemma writeResultBE_bigEndian (h : Z) : writeResultBE h = bigEndian 4 h.
Proof.
  unfold writeResultBE, bigEndian. cbn [seq map].
  rewrite !Z.shiftr_div_pow2 by lia. change 255 with (Z.ones 8).
  rewrite !Z.land_ones by lia. change (2 ^ 8) with 256.
  change (256 ^ Z.of_nat (4 - 1 - 0)) with (2 ^ 24).
  change (256 ^ Z.of_nat (4 - 1 - 1)) with (2 ^ 16).
  change (256 ^ Z.of_nat (4 - 1 - 2)) with (2 ^ 8).
  change (256 ^ Z.of_nat (4 - 1 - 3)) with 1.
  by rewrite Z.div_1_r.
Qed.

(** The kernel computes SHA-1: for a message of bytes that fits the buffer
    with its padding, the 20 bytes it returns are the message digest of the
    standard; a longer message does not fit. *)
Lemma digest_cases (bytes : list Z) :
  Forall isByte bytes →
  digest bytes
  = if Z.of_nat (length bytes) <=? 16 * MB + 55 then Some (SHA1 bytes) else None.
Proof.
  intros Hbytes. unfold digest, sha1.
  pose proof (sha1_pad bytes) as Hpad. cbv zeta in Hpad.
  set (size := Z.of_nat (length bytes)) in *.
  destruct (padZeros 64 _ (size + 1)) as [m1 w1].
  destruct (appendLength 8 0 (size * 8) m1 w1) as [m2 w2].
  destruct Hpad as (Hw2 & Hm2 & Hblocks).
  destruct (Z.leb_spec size (16 * MB + 55)) as [Hsize|Hsize].
  2:{ replace (maxBufferSize <? w2) with true; [done|].
      symmetry. apply Z.ltb_lt. unfold maxBufferSize. unfold MB, KB in Hsize.
      Z.div_mod_to_equations. lia. }
  replace (maxBufferSize <? w2) with false.
  2:{ symmetry. apply Z.ltb_ge. unfold maxBufferSize. unfold MB, KB in Hsize.
      Z.div_mod_to_equations. lia. }
  cbn [fmap option_fmap option_map fst]. f_equal.
  assert (Hpadded : Forall isByte (pad bytes)).
  { unfold pad. repeat apply Forall_app_2; [done|by repeat constructor| |].
    - apply Forall_replicate. unfold isByte. lia.
    - unfold bigEndian. apply Forall_fmap, Forall_forall. intros i _. cbn.
      apply Z.mod_pos_bound. lia. }
  assert (Hinit : wordRegs initialHash).
  { unfold wordRegs, word32. cbn. lia. }
  assert (Hcount : Z.to_nat (w2 / 64) = (length (pad bytes) / 64)%nat).
  { rewrite Hw2. change 64 with (Z.of_nat 64) at 1.
    by rewrite <- Nat2Z.inj_div, Nat2Z.id. }
  pose proof (processChunks_compress m2 (pad bytes) (length (pad bytes) / 64) 0
                initialHash Hm2 Hpadded) as Hrun.
  rewrite Hcount. change (64 * Z.of_nat 0) with 0 in Hrun.
  unfold SHA1, blocks. change H_initial with (regs initialHash).
  rewrite <- Hrun; [|pose proof (Nat.div_mod_eq (length (pad bytes)) 64); lia|done].
  unfold regs. by rewrite !writeResultBE_bigEndian.
Qed.

Lemma digest_SHA1 (bytes : list Z) :
  Forall isByte bytes → Z.of_nat (length bytes) ≤ 16 * MB + 55 →
  digest bytes = Some (SHA1 bytes).
Proof.
  intros Hbytes Hsize. rewrite digest_cases by done.
  by replace (Z.of_nat (length bytes) <=? 16 * MB + 55) with true
    by (symmetry; by apply Z.leb_le).
Qed.

Lemma digest_too_long (bytes : list Z) :
  Forall isByte bytes → 16 * MB + 55 < Z.of_nat (length bytes) → digest bytes = None.
Proof.
  intros Hbytes Hsize. rewrite digest_cases by done.
  by replace (Z.of_nat (length bytes) <=? 16 * MB + 55) with false
    by (symmetry; by apply Z.leb_gt).
Qed.

Lemma digest_Some_SHA1 (bytes d : list Z) :
  Forall isByte bytes → digest bytes = Some d → d = SHA1 bytes.
Proof.
  intros Hbytes. rewrite digest_cases by done.
  destruct (Z.of_nat (length bytes) <=? 16 * MB + 55); [|done]. by intros [= <-].
Qed.

Lemma SHA1_length (M : list Z) : length (SHA1 M) = 20%nat.
Proof.
  unfold SHA1. by destruct (fold_left compress (blocks (pad M)) H_initial) as [[[[??]?]?]?].
Qed.

Lemma SHA1_isByte (M : list Z) : Forall isByte (SHA1 M).
Proof.
  unfold SHA1. destruct (fold_left compress (blocks (pad M)) H_initial) as [[[[??]?]?]?].
  repeat apply Forall_app_2; unfold bigEndian; apply Forall_fmap, Forall_forall;
    intros i _; cbn; apply Z.mod_pos_bound; lia.
Qed.

(** The examples of the standard: the messages of 24, 0, 448 and 896
    bits. *)
Example SHA1_abc :
  SHA1 (js "abc")
  = [0xa9; 0x99; 0x3e; 0x36; 0x47; 0x06; 0x81; 0x6a; 0xba; 0x3e;
     0x25; 0x71; 0x78; 0x50; 0xc2; 0x6c; 0x9c; 0xd0; 0xd8; 0x9d].
Proof. reflexivity. Qed.

Example SHA1_empty :
  SHA1 []
  = [0xda; 0x39; 0xa3; 0xee; 0x5e; 0x6b; 0x4b; 0x0d; 0x32; 0x55;
     0xbf; 0xef; 0x95; 0x60; 0x18; 0x90; 0xaf; 0xd8; 0x07; 0x09].
Proof. reflexivity. Qed.

Example SHA1_two_blocks :
  SHA1 (js "abcdbcdecdefdefgefghfghighijhijkijkljklmklmnlmnomnopnopq")
  = [0x84; 0x98; 0x3e; 0x44; 0x1c; 0x3b; 0xd2; 0x6e; 0xba; 0xae;
     0x4a; 0xa1; 0xf9; 0x51; 0x29; 0xe5; 0xe5; 0x46; 0x70; 0xf1].
Proof. reflexivity. Qed.

Example SHA1_896_bits :
  SHA1 (js ("abcdefghbcdefghicdefghijdefghijkefghijklfghijklmghijklmn"
            ++ "hijklmnoijklmnopjklmnopqklmnopqrlmnopqrsmnopqrstnopqrstu"))
  = [0xa4; 0x9b; 0x24; 0x46; 0xa0; 0x2c; 0x64; 0x5b; 0xf4; 0x19;
     0xf9; 0x95; 0xb6; 0x70; 0x91; 0x25; 0x3a; 0x04; 0xa2; 0x59].
Proof. reflexivity. Qed.

(** The digests the worker computes are those of the standard. *)
Lemma digestsOf_SHA1 (inputs digests : list (list Z)) :
  Forall (Forall isByte) inputs → digestsOf inputs digests → digests = map SHA1 inputs.
Proof.
  intros Hbytes Hdigests.
  induction Hdigests as [|bytes d inputs digests [Hd _] _ IH]; [done|].
  apply Forall_cons in Hbytes as [Hbytes Hrest].
  cbn [map]. f_equal; [by apply digest_Some_SHA1|by apply IH].
Qed.

Lemma length_concat_SHA1 (inputs : list (list Z)) :
  length (concat (map SHA1 inputs)) = (20 * length inputs)%nat.
Proof.
  induction inputs as [|bytes inputs IH]; [done|].
  cbn [map concat length]. rewrite length_app, SHA1_length, IH. lia.
Qed.

(** [Sha1WorkerObject.computeHashes] on inputs of bytes that fit: the SHA-1
    digests of the inputs, in their order, one after the other, and the
    inputs themselves. *)
Lemma computeHashes_SHA1 (this : Sha1WorkerObject) (inputs : list (list Z)) :
  Forall (fun bytes => Forall isByte bytes ∧ Z.of_nat (length bytes) ≤ 16 * MB) inputs →
  ∃ this',
    computeHashes this inputs
    = Some ({| result := concat (map SHA1 inputs); originalInputs := inputs |}, this').
Proof.
  intros Hinputs.
  destruct (computeHashes_digests this inputs) as (digests & this' & Hdigests & Hrun).
  { eapply Forall_impl; [done|]. by intros bytes [_ ?]. }
  exists this'. rewrite Hrun. do 4 f_equal. apply digestsOf_SHA1; [|done].
  eapply Forall_impl; [done|]. by intros bytes [? _].
Qed.

End Sha1Standard.

(** ** The worker pool *)

Module PoolProperties.

Import Sha1Kernel Sha1Worker Sha1 Sha1Properties Sha1Standard.

Lemma isCancelled_true (call : Call) (pool : WorkerPool) :
  isCancelled (creationId call) pool = true ↔ cancelledAt call pool.
Proof.
  unfold isCancelled, cancelledAt. destruct (creationId call) as [id|].
  - rewrite negb_true_iff, Z.eqb_neq. split; [eauto|]. by intros (? & [= <-] & ?).
  - split; [done|]. by intros (? & ? & _).
Qed.

Lemma pop_push {A} (arr : list A) (x : A) : pop (push arr x) = Some (arr, x).
Proof.
  unfold push. induction arr as [|y arr IH]; [done|].
  cbn [app pop]. by rewrite IH.
Qed.

Lemma pop_None {A} (arr : list A) : pop arr = None ↔ arr = [].
Proof.
  split; [|by intros ->]. destruct arr as [|x arr]; [done|].
  cbn. by destruct (pop arr) as [[? ?]|].
Qed.

(** Calls that arrive while no worker is free queue up in their order. *)
Lemma acquireWorker_all_busy (calls : list Call) (pool : WorkerPool) :
  workers pool = [] →
  workers (fold_left (fun p call => fst (acquireWorker call p)) calls pool) = []
  ∧ waitingResolvers (fold_left (fun p call => fst (acquireWorker call p)) calls pool)
    = waitingResolvers pool ++ calls
  ∧ activeCreationId (fold_left (fun p call => fst (acquireWorker call p)) calls pool)
    = activeCreationId pool.
Proof.
  revert pool. induction calls as [|call calls IH]; intros pool Hbusy.
  - cbn. by rewrite app_nil_r.
  - cbn [fold_left].
    assert (Hstep : fst (acquireWorker call pool)
                    = {| workers := []; waitingResolvers := waitingResolvers pool ++ [call];
                         activeCreationId := activeCreationId pool |}).
    { unfold acquireWorker. by rewrite Hbusy. }
    rewrite Hstep.
    destruct (IH {| workers := []; waitingResolvers := waitingResolvers pool ++ [call];
                    activeCreationId := activeCreationId pool |} eq_refl)
      as (Hw & Hq & Hid).
    rewrite Hw, Hq, Hid. cbn. by rewrite <- app_assoc.
Qed.

(** A call started while a worker is free runs on with it at once. *)
Lemma step_call_free_worker (call : Call) (s : PoolState)
    (rest : list WorkerObject) (worker : WorkerObject) :
  pop (workers (pool s)) = Some (rest, worker) →
  step (CallComputeHashes call) s
  = runWithWorker call worker
      {| pool := {| workers := rest; waitingResolvers := waitingResolvers (pool s);
                    activeCreationId := activeCreationId (pool s) |};
         handed := handed s; hashing := hashing s; returned := returned s;
         lost := lost s; detached := detached s |}.
Proof. intros Hpop. cbn. unfold acquireWorker. by rewrite Hpop. Qed.

(** A call that was handed a worker runs on with the pool as it is when it
    resumes, not as it was when the call was made. *)
Lemma step_resume (n : nat) (s : PoolState) (call : Call) (worker : WorkerObject) :
  handed s !! n = Some (call, worker) →
  step (Resume n) s
  = runWithWorker call worker
      {| pool := pool s; handed := delete n (handed s); hashing := hashing s;
         returned := returned s; lost := lost s; detached := detached s |}.
Proof. intros Hn. cbn. by rewrite Hn. Qed.

(** When the worker answers, the call returns the hashes. *)
Lemma step_answer (n : nat) (s : PoolState) (call : Call) (worker : WorkerObject)
    (hashes : HashResult) :
  hashing s !! n = Some (call, worker, hashes) →
  returned (step (Answer n) s) = returned s ++ [(call, Some hashes)].
Proof.
  intros Hn. cbn. rewrite Hn. unfold finish. cbn.
  by destruct (releaseWorker worker (pool s)) as [? [?|]].
Qed.

Lemma hasDuplicate_false (buffers : list nat) :
  hasDuplicate buffers = false ↔ NoDup buffers.
Proof.
  induction buffers as [|b rest IH]; [by split; [constructor|]|].
  cbn [hasDuplicate]. rewrite orb_false_iff, IH, NoDup_cons.
  apply and_iff_compat_r. rewrite <- not_true_iff_false, existsb_exists.
  split.
  - intros Hnone Hin. apply Hnone. exists b. split; [by apply list_elem_of_In|].
    apply Nat.eqb_refl.
  - intros Hnotin (b' & Hin & ->%Nat.eqb_eq). by apply Hnotin, list_elem_of_In.
Qed.

(** The message is posted when no buffer is named twice and none is
    detached. *)
Lemma postMessageThrows_false (detached transfer : list nat) :
  postMessageThrows detached transfer = false
  ↔ NoDup transfer ∧ ∀ b, b ∈ transfer → b ∉ detached.
Proof.
  unfold postMessageThrows. rewrite orb_false_iff, hasDuplicate_false.
  apply and_iff_compat_l. rewrite <- not_true_iff_false, existsb_exists.
  split.
  - intros Hnone b Hb Hdetached. apply Hnone. exists b.
    split; [by apply list_elem_of_In|]. apply existsb_exists. exists b.
    split; [by apply list_elem_of_In|apply Nat.eqb_refl].
  - intros Hfresh (b & Hb & (b' & Hb' & ->%Nat.eqb_eq)%existsb_exists).
    apply (Hfresh b'); by apply list_elem_of_In.
Qed.

End PoolProperties.

Module PoolClaims.

Import Sha1Kernel Sha1Worker Sha1 Sha1Properties Sha1Standard PoolProperties.

Example pool_hashes_two_inputs :
  fst <$> hashWithWorker (sampleWorker 0) (sampleCall 0 (Some 7))
            (setCreationId 7 (createWorkerPool [])) []
  = Some (Some {| result :=
                    [218; 35; 97; 78; 2; 70; 154; 13; 124; 123; 209; 189; 171; 92;
                     156; 71; 75; 25; 4; 220; 3; 71; 120; 25; 138; 4; 92; 30; 216;
                     11; 226; 113; 205; 208; 41; 183; 104; 116; 246; 252];
                  originalInputs := [js "ab"; js "cd"] |}).
Proof. reflexivity. Qed.

Example pool_cancels_other_creation :
  fst <$> hashWithWorker (sampleWorker 0) (sampleCall 0 (Some 6))
            (setCreationId 7 (createWorkerPool [])) []
  = Some None.
Proof. reflexivity. Qed.

(** Two calls of creation 7 on a pool with one worker; creation 8 begins
    while the first is hashed and the second waits. The first call returns
    its hashes, the second gets the worker afterwards and returns [null]. *)
Example cancelled_while_waiting :
  map (fun ended => (caller (fst ended), result <$> snd ended))
    (returned
       (run [SetCreationId 7;
             CallComputeHashes {| caller := 0; data := [[]]; creationId := Some 7;
                                  buffer := fun _ => 0%nat |};
             CallComputeHashes {| caller := 1; data := [[]]; creationId := Some 7;
                                  buffer := fun _ => 1%nat |};
             SetCreationId 8;
             Answer 0;
             Resume 0]
            (initialState [sampleWorker 0])))
  = [(0%nat, Some [218; 57; 163; 238; 94; 107; 75; 13; 50; 85; 191; 239; 149;
                   96; 24; 144; 175; 216; 7; 9]);
     (1%nat, None)].
Proof. reflexivity. Qed.

(** C3, as the code has it. The inputs are transferred to the worker, so
    the call needs them in buffers it can give away. For every list of
    inputs that are views of buffers of their own, none of them detached,
    each of at most 16 MB (what the kernel's buffer holds with the padding),
    a call of the pool's [computeHashes] that has its worker returns [null]
    exactly when it was given a creation id that differs from the pool's
    [activeCreationId] at that moment, and then neither the worker nor the
    buffers are used; otherwise it returns the SHA-1 digests of the inputs
    (the message digests of FIPS 180-4), 20 bytes each, in the order of the
    inputs and one after the other, together with the inputs. On the event
    loop the cancelled call returns at once, and the other one waits for
    the worker with that result, its buffers detached. *)
Theorem computeHashes_result (worker : WorkerObject) (call : Call) (s : PoolState) :
  Forall (fun bytes => Forall isByte bytes ∧ Z.of_nat (length bytes) ≤ 16 * MB)
         (data call) →
  NoDup (transferList call) →
  (∀ b, b ∈ transferList call → b ∉ detached s) →
  ∃ r worker',
    hashWithWorker worker call (pool s) (detached s) = Some (r, worker')
    ∧ (r = None ↔ cancelledAt call (pool s))
    ∧ (r = None → worker' = worker)
    ∧ (∀ hashes, r = Some hashes →
         result hashes = concat (map SHA1 (data call))
         ∧ originalInputs hashes = data call
         ∧ length (result hashes) = (20 * length (data call))%nat)
    ∧ match r with
      | None =>
          returned (runWithWorker call worker s) = returned s ++ [(call, None)]
          ∧ hashing (runWithWorker call worker s) = hashing s
          ∧ detached (runWithWorker call worker s) = detached s
      | Some hashes =>
          returned (runWithWorker call worker s) = returned s
          ∧ hashing (runWithWorker call worker s) = hashing s ++ [(call, worker', hashes)]
          ∧ detached (runWithWorker call worker s) = detached s ++ transferList call
      end.
Proof.
  intros Hfit Hown Hattached.
  pose proof (proj2 (postMessageThrows_false (detached s) (transferList call))
                (conj Hown Hattached)) as Hpost.
  unfold runWithWorker, hashWithWorker, detachedAfter. rewrite Hpost.
  destruct (isCancelled (creationId call) (pool s)) eqn:Hcancel.
  - exists None, worker. apply isCancelled_true in Hcancel.
    split_and!; try done; unfold finish;
      by destruct (releaseWorker worker (pool s)) as [? [?|]].
  - destruct (computeHashes_SHA1 (remote worker) (data call) Hfit) as (remote' & Hrun).
    rewrite Hrun. cbn.
    eexists (Some _), _. split_and!; [reflexivity| | | |done|done|done].
    + split; [done|]. intros Hc%isCancelled_true. congruence.
    + done.
    + intros hashes [= <-]. cbn. split_and!; try done. apply length_concat_SHA1.
Qed.

Lemma computeHashes_result_witness :
  ∃ r worker',
    hashWithWorker (sampleWorker 0) (sampleCall 0 (Some 7))
      (setCreationId 7 (createWorkerPool [])) [] = Some (r, worker')
    ∧ (r = None ↔ cancelledAt (sampleCall 0 (Some 7))
                     (setCreationId 7 (createWorkerPool [])))
    ∧ (∀ hashes, r = Some hashes →
         result hashes = concat (map SHA1 (data (sampleCall 0 (Some 7))))).
Proof.
  destruct (computeHashes_result (sampleWorker 0) (sampleCall 0 (Some 7))
              {| pool := setCreationId 7 (createWorkerPool []); handed := [];
                 hashing := []; returned := []; lost := []; detached := [] |})
    as (r & worker' & Hrun & Hnone & _ & Hhashes & _).
  - repeat constructor; cbn; unfold isByte, MB, KB; lia.
  - by apply hasDuplicate_false.
  - intros b _ Hb. by apply elem_of_nil in Hb.
  - exists r, worker'. split; [exact Hrun|]. split; [exact Hnone|].
    intros hashes Hr. by destruct (Hhashes hashes Hr) as [? _].
Defined.

(** C3 as the specification words it fails: it promises the digests for
    every list of input buffers. Two inputs that are views of one buffer
    cannot be transferred together: with a free worker and no creation id
    the call neither returns the digests nor [null], it throws when the
    message is posted, and the worker it held never comes back to the
    pool. *)
Lemma computeHashes_shared_buffer_throws :
  let call := {| caller := 0; data := [js "ab"; js "cd"]; creationId := None;
                 buffer := fun _ => 0%nat |} in
  let s := run [CallComputeHashes call] (initialState [sampleWorker 0]) in
  hashWithWorker (sampleWorker 0) call (createWorkerPool []) [] = None
  ∧ ¬ cancelledAt call (createWorkerPool [])
  ∧ returned s = [] ∧ hashing s = [] ∧ lost s = [call] ∧ workers (pool s) = [].
Proof.
  cbv zeta. split_and!; try reflexivity. by intros (id & [=] & _).
Qed.

(** C4, as the code has it. While no worker is free the calls that arrive
    are pushed on [waitingResolvers] in their order, and a worker that
    becomes free is handed to the one [pop] takes off, which is the call
    that arrived last; the calls that arrived before it keep waiting. *)
Theorem freed_worker_goes_to_last_arrival
    (pool0 : WorkerPool) (worker : WorkerObject) (earlier : list Call) (last : Call) :
  workers pool0 = [] →
  ∃ arrived after,
    arrived = fold_left (fun p call => fst (acquireWorker call p)) (earlier ++ [last]) pool0
    ∧ waitingResolvers arrived = waitingResolvers pool0 ++ earlier ++ [last]
    ∧ releaseWorker worker arrived = (after, Some (last, worker))
    ∧ waitingResolvers after = waitingResolvers pool0 ++ earlier
    ∧ workers after = [].
Proof.
  intros Hbusy.
  destruct (acquireWorker_all_busy (earlier ++ [last]) pool0 Hbusy) as (Hw & Hq & Hid).
  eexists _, _. split; [reflexivity|]. split; [done|].
  unfold releaseWorker. rewrite Hq, app_assoc.
  change ((waitingResolvers pool0 ++ earlier) ++ [last])
    with (push (waitingResolvers pool0 ++ earlier) last).
  rewrite pop_push. split; [reflexivity|]. cbn. by rewrite Hw.
Qed.

Lemma freed_worker_goes_to_last_arrival_witness :
  ∃ arrived after,
    arrived = fold_left (fun p call => fst (acquireWorker call p))
                ([sampleCall 1 None] ++ [sampleCall 2 None]) (createWorkerPool [])
    ∧ waitingResolvers arrived
      = waitingResolvers (createWorkerPool []) ++ [sampleCall 1 None] ++ [sampleCall 2 None]
    ∧ releaseWorker (sampleWorker 0) arrived = (after, Some (sampleCall 2 None, sampleWorker 0))
    ∧ waitingResolvers after = waitingResolvers (createWorkerPool []) ++ [sampleCall 1 None]
    ∧ workers after = [].
Proof.
  apply (freed_worker_goes_to_last_arrival (createWorkerPool []) (sampleWorker 0)
           [sampleCall 1 None] (sampleCall 2 None)).
  reflexivity.
Defined.

(** C4 as the specification words it fails. A pool with one worker: call 0
    gets the worker, calls 1 and 2 arrive in this order and wait. When the
    worker answers call 0, it is handed to call 2, and call 1, which arrived
    first, still waits. *)
Lemma freed_worker_skips_first_arrival :
  let s := run [CallComputeHashes (sampleCall 0 None);
                CallComputeHashes (sampleCall 1 None);
                CallComputeHashes (sampleCall 2 None);
                Answer 0]
               (initialState [sampleWorker 0]) in
  map (fun waiting => caller (fst waiting)) (handed s) = [2%nat]
  ∧ map caller (waitingResolvers (pool s)) = [1%nat]
  ∧ map (fun ended => caller (fst ended)) (returned s) = [0%nat].
Proof. cbv zeta. split_and!; reflexivity. Qed.

End PoolClaims.

(** ** The hashing pipeline *)

Module HashingProperties.

Import Sha1Kernel Sha1Worker Sha1 Sha1Properties Hashing.

Lemma quiet_refl (st : State) : quiet st st.
Proof. by intros p. Qed.

Lemma quiet_trans (st1 st2 st3 : State) : quiet st1 st2 → quiet st2 st3 → quiet st1 st3.
Proof. intros H12 H23 p Hp. by apply H12, H23. Qed.

Lemma quiet_same (st st' : State) : observed st' = observed st → quiet st st'.
Proof. intros Heq p. by rewrite Heq. Qed.

Lemma quiet_observe (o : Observation) (st : State) :
  (∀ p, o ≠ ReadFailed p) → quiet st (observe o st).
Proof.
  intros Ho p. cbn. rewrite elem_of_app, list_elem_of_singleton.
  intros [Hin|Heq]; [done|]. by destruct (Ho p).
Qed.

Lemma quiet_isCancelled (creationId : Z) (getCurrentCreationId : nat → Z) (st : State) :
  quiet st (snd (isCancelled creationId getCurrentCreationId st)).
Proof. by apply quiet_same. Qed.

Lemma quiet_onFileChunkRead (readBufferSize blockSize creationId : Z)
    (getCurrentCreationId : nat → Z) (bytes : list Z) (st : State) :
  quiet st (snd (onFileChunkRead readBufferSize blockSize creationId
                   getCurrentCreationId bytes st)).
Proof.
  unfold onFileChunkRead, isCancelled. cbn.
  destruct (negb _); [by apply quiet_same|].
  match goal with |- context [if ?c then _ else _] => destruct c end; cbn.
  - match goal with |- context [if ?c then _ else _] => destruct c end; cbn;
      unfold quiet, setReadAccumulator, dispatchSha1Worker, observe; intros p; cbn;
      intros Hp; apply elem_of_app in Hp as [Hp|Hp]; [done| |done|];
      apply list_elem_of_singleton in Hp; discriminate.
  - match goal with |- context [if ?c then _ else _] => destruct c end; cbn;
      unfold quiet, setReadAccumulator, dispatchSha1Worker, observe; intros p; cbn;
      intros Hp; apply elem_of_app in Hp as [Hp|Hp]; [done| |done|];
      apply list_elem_of_singleton in Hp; discriminate.
Qed.

Lemma readOutcome_quiet (filePath : jsstring) (st st1 : State) (step : Step) :
  quiet st st1 → readOutcome filePath st1 step → readOutcome filePath st step.
Proof.
  intros Hq. destruct step as [st'|o st']; cbn.
  - by apply quiet_trans.
  - intros [(Hq' & Ho)|(Ho & Hin & Honly)]; [left|right].
    + split; [by apply (quiet_trans st st1)|done].
    + split_and!; [done|done|]. intros p Hp.
      destruct (Honly p Hp) as [?|?]; [by left|right; by apply Hq].
Qed.

Lemma readStream_outcome (readBufferSize blockSize creationId : Z)
    (getCurrentCreationId : nat → Z) (filePath : jsstring)
    (reads : list ReadResult) (st : State) :
  readOutcome filePath st
    (readStream readBufferSize blockSize creationId getCurrentCreationId
       filePath reads st).
Proof.
  revert st. induction reads as [|[|value isDone] reads IH]; intros st.
  - cbn. destruct (negb _); cbn.
    + left. split_and!; [by apply quiet_same|done|done].
    + by apply quiet_same.
  - cbn. right. split_and!; [done| |].
    + apply elem_of_app. right. apply list_elem_of_here.
    + intros p. rewrite elem_of_app, list_elem_of_singleton.
      intros [?|[= ->]]; [by right|by left].
  - cbn [readStream].
    pose proof (quiet_isCancelled creationId getCurrentCreationId st) as Hq1.
    destruct (isCancelled creationId getCurrentCreationId st) as [cancelled st1].
    cbn [snd] in Hq1. destruct cancelled.
    { left. split_and!; done. }
    destruct value as [bytes|].
    + pose proof (quiet_onFileChunkRead readBufferSize blockSize creationId
                    getCurrentCreationId bytes st1) as Hq2.
      destruct (onFileChunkRead _ _ _ _ bytes st1) as [threw st2]. cbn [snd] in Hq2.
      assert (Hq : quiet st st2) by (by apply (quiet_trans st st1)).
      destruct threw.
      { left. split_and!; done. }
      destruct isDone; [done|]. by apply (readOutcome_quiet _ _ st2).
    + destruct isDone; [done|]. by apply (readOutcome_quiet _ _ st1).
Qed.


Lemma quiet_awaitAll (creationId : Z) (poolCreationId : nat → Z) (jobs : list Job)
    (n : nat) (piecesLocal piecesLocal' : list Z) (st st' : State) :
  awaitAll creationId poolCreationId n jobs piecesLocal st = Some (piecesLocal', st') →
  quiet st st' ∧ length piecesLocal' = length piecesLocal.
Proof.
  revert n piecesLocal st.
  induction jobs as [|job jobs IH]; intros n piecesLocal st; cbn [awaitAll].
  - intros [= <- <-]. split; [apply quiet_refl|done].
  - destruct (poolAnswer creationId poolCreationId n job) as [[hashes|]|]; cbn; [| |done].
    + destruct (Uint8Array_set piecesLocal (result hashes) (startPieceIndex job * 20))
        as [pieces1|] eqn:Hset; cbn; [|done].
      intros Hrest. apply IH in Hrest as [Hq Hlen]. split.
      * eapply quiet_trans; [|exact Hq]. by apply quiet_observe.
      * rewrite Hlen. by apply Uint8Array_set_length in Hset.
    + apply IH.
Qed.

(** A file of size 0 is passed over: nothing is read, observed or changed. *)
Lemma readFile_empty (readBufferSize blockSize creationId : Z)
    (getCurrentCreationId : nat → Z) (hasBYOB : bool) (f : FileWithPath) (st : State) :
  size (file f) = 0 →
  readFile readBufferSize blockSize creationId getCurrentCreationId hasBYOB f st
  = Continue st.
Proof. intros Hsize. unfold readFile. by rewrite Hsize. Qed.

Lemma readFiles_without_empty (readBufferSize blockSize creationId : Z)
    (getCurrentCreationId : nat → Z) (hasBYOB : bool)
    (inputFiles : list FileWithPath) (st : State) :
  readFiles readBufferSize blockSize creationId getCurrentCreationId hasBYOB
    (filter (fun f => size (file f) ≠ 0) inputFiles) st
  = readFiles readBufferSize blockSize creationId getCurrentCreationId hasBYOB
      inputFiles st.
Proof.
  revert st. induction inputFiles as [|f inputFiles IH]; intros st; [done|].
  rewrite filter_cons. destruct (decide (size (file f) ≠ 0)) as [Hsize|Hsize].
  - cbn [readFiles]. destruct (readFile _ _ _ _ _ f st); [apply IH|done].
  - apply dec_stable in Hsize. cbn [readFiles]. by rewrite readFile_empty, IH.
Qed.

(** Every way out of the file loops is an error, a rejection or a promise
    that stays pending, never a piece table. *)
Lemma readFiles_exit_notOk (readBufferSize blockSize creationId : Z)
    (getCurrentCreationId : nat → Z) (hasBYOB : bool)
    (inputFiles : list FileWithPath) (st st' : State) (o : Outcome) :
  readFiles readBufferSize blockSize creationId getCurrentCreationId hasBYOB
    inputFiles st = Exit o st' → notOk o.
Proof.
  revert st. induction inputFiles as [|f inputFiles IH]; intros st; [done|].
  cbn [readFiles].
  destruct (readFile _ _ _ _ _ f st) as [st1|o1 st1] eqn:Hfile; [apply IH|].
  intros [= <- <-]. clear IH. unfold readFile in Hfile.
  destruct (size (file f) =? 0); [done|]. destruct hasBYOB.
  - pose proof (readStream_outcome readBufferSize blockSize creationId
                  getCurrentCreationId (Array_join (path f)) (reads (file f))
                  (observe (OnReadingFileStarted (Array_join (path f))) st)) as Hout.
    rewrite Hfile in Hout. destruct Hout as [(_ & _ & Hok)|(-> & _)]; [done|].
    by intros pieces.
  - revert Hfile. generalize (observe (OnReadingFileStarted (Array_join (path f))) st).
    generalize (reads (file f)).
    induction (Z.to_nat (Math_ceil_div (size (file f)) readBufferSize)) as [|count IH];
      intros reads st2; [done|].
    cbn [readSlices].
    assert (Hgo : ∀ bytes rest,
               (let '(threw, st3) := onFileChunkRead readBufferSize blockSize creationId
                                       getCurrentCreationId bytes st2 in
                if threw then Exit Pending st3
                else let '(cancelled, st4) := isCancelled creationId getCurrentCreationId st3 in
                     if cancelled then Exit (Resolved (error None)) st4
                     else readSlices readBufferSize blockSize creationId
                            getCurrentCreationId (Array_join (path f)) count rest st4)
               = Exit o1 st1 → notOk o1).
    { intros bytes rest.
      destruct (onFileChunkRead _ _ _ _ bytes st2) as [[] st3].
      - intros [= <- <-]. by intros pieces.
      - unfold isCancelled. cbn. destruct (negb _).
        + intros [= <- <-]. by intros pieces.
        + apply IH. }
    destruct reads as [|[|[bytes|] isDone] rest].
    + apply Hgo.
    + intros [= <- <-]. by intros pieces.
    + apply Hgo.
    + intros [= <- <-]. by intros pieces.
Qed.

End HashingProperties.

Module HashingClaims.

Import Sha1Kernel Sha1Worker Sha1 Sha1Properties Hashing HashingProperties.

(** One file holding [hello], pieces of 16 KB: one piece, SHA1(hello). *)
Example single_tiny_file :
  fst (sampleRun [sampleInput "a.txt" 5 [ReadChunk (Some (js "hello")) true]]
         5 16384 true)
  = Resolved (ok [170; 244; 198; 29; 220; 197; 232; 162; 218; 190; 222; 15; 59;
                  72; 44; 217; 174; 169; 67; 77]).
Proof. reflexivity. Qed.

(** Two files [ab] and [cd] with an empty file between them, pieces of 2
    bytes: SHA1(ab) then SHA1(cd), and the empty file is never opened. *)
Example two_files_one_piece_each :
  let r := sampleRun [sampleInput "a" 2 [ReadChunk (Some (js "ab")) true];
                      sampleInput "empty" 0 [ReadThrows];
                      sampleInput "b" 2 [ReadChunk (Some (js "cd")) true]]
             4 2 true in
  fst r = Resolved (ok [218; 35; 97; 78; 2; 70; 154; 13; 124; 123; 209; 189; 171;
                        92; 156; 71; 75; 25; 4; 220; 3; 71; 120; 25; 138; 4; 92;
                        30; 216; 11; 226; 113; 205; 208; 41; 183; 104; 116; 246;
                        252])
  ∧ observed (snd r)
    = [OnReadingFileStarted (js "a"); UpdateReadingProgress 2;
       OnReadingFileStarted (js "b"); UpdateReadingProgress 2;
       UpdateProcessingProgress 4]
  ∧ pieceIndex (snd r) = 2.
Proof. cbv zeta. split_and!; reflexivity. Qed.

(** With a read buffer of 4 bytes the accumulator fills up while the files
    are read: [abc], [de], [f] are cut into the pieces [ab], [cd], [ef]. *)
Example pieces_across_files :
  map inputs
    (allWorkerPromises
       (snd (calculateHashes_from 4 2 7 (fun _ => 7) (fun _ => 7) true
               [sampleInput "a" 3 [ReadChunk (Some (js "abc")) true];
                sampleInput "b" 2 [ReadChunk (Some (js "de")) true];
                sampleInput "c" 1 [ReadChunk (Some (js "f")) true]] 6)))
  = [[js "ab"; js "cd"]; [js "ef"]].
Proof. reflexivity. Qed.

Example cancelled_run :
  fst (calculateHashes [sampleInput "a.txt" 5 [ReadChunk (Some (js "hello")) true]]
         5 16384 7 (fun n => if (n <? 2)%nat then 7 else 8) (fun _ => 7) true)
  = Resolved (error None).
Proof. reflexivity. Qed.

(** C2. For every file list, total size and piece length (a positive
    number), the piece table [calculateHashes] returns on success has
    exactly 20 n bytes, where n is the ceiling of [totalSize / blockSize]:
    the table is allocated with that length and written in place. A file of
    size 0 is passed over: nothing is read from it, the callbacks are not
    called and the piece index and the accumulator stay as they are, so the
    run is the run without the files of size 0, with the same table. *)
Theorem calculateHashes_piece_table
    (inputFiles : list FileWithPath) (totalSize blockSize creationId : Z)
    (getCurrentCreationId poolCreationId : nat → Z) (hasBYOB : bool) :
  0 ≤ totalSize → 0 < blockSize →
  (∀ pieces st,
     calculateHashes inputFiles totalSize blockSize creationId getCurrentCreationId
       poolCreationId hasBYOB = (Resolved (ok pieces), st) →
     ∃ n, Z.of_nat (length pieces) = n * 20
          ∧ (n - 1) * blockSize < totalSize ≤ n * blockSize)
  ∧ (∀ f st, size (file f) = 0 →
       readFile (16 * MB) blockSize creationId getCurrentCreationId hasBYOB f st
       = Continue st)
  ∧ calculateHashes (filter (fun f => size (file f) ≠ 0) inputFiles) totalSize
      blockSize creationId getCurrentCreationId poolCreationId hasBYOB
    = calculateHashes inputFiles totalSize blockSize creationId getCurrentCreationId
        poolCreationId hasBYOB.
Proof.
  intros Htotal Hblock. split_and!.
  - intros pieces st. unfold calculateHashes, calculateHashes_from.
    destruct (readFiles _ _ _ _ _ inputFiles _) as [st1|o st1] eqn:Hread.
    + set (st2 := if readBufferIndex st1 =? 0 then st1 else _).
      unfold isCancelled at 1. cbn [fst snd].
      destruct (negb _); [done|].
      destruct (awaitAll _ _ 0 _ _ _) as [[pieces' st3]|] eqn:Hawait; [|done].
      unfold isCancelled. destruct (negb _); [done|].
      intros [= <- <-]. apply quiet_awaitAll in Hawait as [_ Hlen].
      exists (Math_ceil_div totalSize blockSize). split.
      * rewrite Hlen. unfold Uint8Array_new. rewrite length_replicate.
        unfold Math_ceil_div. rewrite Z2Nat.id; [done|].
        apply Z.mul_nonneg_nonneg; [|lia]. apply Z.div_pos; lia.
      * unfold Math_ceil_div. Z.div_mod_to_equations. nia.
    + intros [= -> <-]. by apply readFiles_exit_notOk in Hread as Hno; destruct (Hno pieces).
  - intros f st. apply readFile_empty.
  - unfold calculateHashes, calculateHashes_from. by rewrite readFiles_without_empty.
Qed.

Lemma calculateHashes_piece_table_witness :
  ∃ n, Z.of_nat (length [218; 35; 97; 78; 2; 70; 154; 13; 124; 123; 209; 189; 171;
                         92; 156; 71; 75; 25; 4; 220; 3; 71; 120; 25; 138; 4; 92;
                         30; 216; 11; 226; 113; 205; 208; 41; 183; 104; 116; 246;
                         252]) = n * 20
       ∧ (n - 1) * 2 < 4 ≤ n * 2.
Proof.
  apply (proj1 (calculateHashes_piece_table
                  [sampleInput "a" 2 [ReadChunk (Some (js "ab")) true];
                   sampleInput "empty" 0 [ReadThrows];
                   sampleInput "b" 2 [ReadChunk (Some (js "cd")) true]]
                  4 2 7 (fun _ => 7) (fun _ => 7) true ltac:(lia) ltac:(lia))
           _
           (snd (sampleRun [sampleInput "a" 2 [ReadChunk (Some (js "ab")) true];
                            sampleInput "empty" 0 [ReadThrows];
                            sampleInput "b" 2 [ReadChunk (Some (js "cd")) true]]
                   4 2 true))).
  reflexivity.
Defined.




(** Without the stream reader a failed read leaves the promise pending:
    [reader.onerror] was assigned the first value of [onError], a function
    that does nothing, and the rejecting function never reaches it. *)
Lemma read_error_event_leaves_promise_pending :
  let run := sampleRun [sampleInput "a.txt" 5 [ReadThrows]] 5 16384 false in
  ReadFailed (js "a.txt") ∈ observed (snd run) ∧ fst run = Pending.
Proof.
  cbv zeta. split; [|reflexivity]. apply list_elem_of_further, list_elem_of_here.
Qed.

End HashingClaims.

(* ===================================================================== *)
(** * Further properties of the code *)
(* ===================================================================== *)

(** ** UTF-8 *)

Module Utf8Properties.

(** [marker | q] adds when [q] is below the lowest bit of [marker]. *)
Lemma lor_disjoint (a q n : Z) :
  0 ≤ n → 0 ≤ q < 2 ^ n → Z.lor (a * 2 ^ n) q = a * 2 ^ n + q.
Proof.
  intros Hn Hq.
  assert (Z.land (a * 2 ^ n) q = 0) as Hland.
  { apply Z.bits_inj'. intros i Hi. rewrite Z.land_spec, Z.bits_0.
    destruct (decide (i < n)).
    - rewrite Z.mul_pow2_bits_low by lia. done.
    - destruct (decide (q = 0)) as [->|]; [by rewrite Z.bits_0, andb_false_r|].
      rewrite (Z.bits_above_log2 q i), andb_false_r; [done|lia|].
      apply Z.log2_lt_pow2; [lia|].
      eapply Z.lt_le_trans; [apply Hq|]. apply Z.pow_le_mono_r; lia. }
  rewrite <- Z.lxor_lor by done. symmetry. by apply Z.add_nocarry_lxor.
Qed.

Lemma lor_128 (q : Z) : 0 ≤ q < 64 → Z.lor 128 q = 128 + q.
Proof. intros Hq. apply (lor_disjoint 1 q 7); lia. Qed.

Lemma lor_192 (q : Z) : 0 ≤ q < 64 → Z.lor 192 q = 192 + q.
Proof. intros Hq. apply (lor_disjoint 3 q 6); lia. Qed.

Lemma lor_224 (q : Z) : 0 ≤ q < 32 → Z.lor 224 q = 224 + q.
Proof. intros Hq. apply (lor_disjoint 7 q 5); lia. Qed.

Lemma lor_240 (q : Z) : 0 ≤ q < 16 → Z.lor 240 q = 240 + q.
Proof. intros Hq. apply (lor_disjoint 15 q 4); lia. Qed.

Lemma land_63 (x : Z) : Z.land x 63 = x mod 64.
Proof. apply (Z.land_ones x 6). lia. Qed.

Lemma land_1023 (x : Z) : Z.land x 1023 = x mod 1024.
Proof. apply (Z.land_ones x 10). lia. Qed.

(** The code point the last branch of [toUTF8Bytes] computes. *)
Lemma pair_code_point (c next : Z) :
  65536 + Z.lor (Z.shiftl (Z.land c 1023) 10) (Z.land next 1023)
  = 65536 + (c mod 1024) * 1024 + next mod 1024.
Proof.
  rewrite !land_1023, Z.shiftl_mul_pow2 by lia.
  rewrite (lor_disjoint (c mod 1024) (next mod 1024) 10); [lia|lia|].
  change (2 ^ 10) with 1024. apply Z.mod_pos_bound. lia.
Qed.

(** The four bytes of a code point above the basic plane. *)
Lemma four_bytes (cp : Z) :
  65536 ≤ cp < 1114112 →
  [Z.lor 240 (Z.shiftr cp 18); Z.lor 128 (Z.land (Z.shiftr cp 12) 63);
   Z.lor 128 (Z.land (Z.shiftr cp 6) 63); Z.lor 128 (Z.land cp 63)]
  = [240 + cp / 262144; 128 + (cp / 4096) mod 64; 128 + (cp / 64) mod 64;
     128 + cp mod 64].
Proof.
  intros Hcp. rewrite !land_63, !Z.shiftr_div_pow2 by lia.
  change (2 ^ 18) with 262144. change (2 ^ 12) with 4096. change (2 ^ 6) with 64.
  rewrite lor_240 by (split; [apply Z.div_pos; lia|apply Z.div_lt_upper_bound; lia]).
  rewrite !lor_128 by (apply Z.mod_pos_bound; lia). done.
Qed.

(** The bytes of a code unit outside the surrogate range. *)
Lemma unit_bytes (c : Z) (rest : jsstring) :
  code_unit c → is_surrogate c = false →
  toUTF8Bytes (c :: rest) = scalarBytes c ++ toUTF8Bytes rest.
Proof.
  intros Hc Hs. unfold code_unit in Hc. unfold is_surrogate in Hs.
  cbn [toUTF8Bytes]. unfold scalarBytes.
  destruct (Z.ltb_spec c 128); [done|].
  destruct (Z.ltb_spec c 2048).
  - rewrite land_63, Z.shiftr_div_pow2 by lia. change (2 ^ 6) with 64.
    rewrite lor_192 by (split; [apply Z.div_pos; lia|apply Z.div_lt_upper_bound; lia]).
    rewrite lor_128 by (apply Z.mod_pos_bound; lia). done.
  - assert ((c <? 55296) || (57344 <=? c) = true) as ->.
    { destruct (Z.leb_spec 55296 c), (Z.ltb_spec c 57344), (Z.ltb_spec c 55296),
        (Z.leb_spec 57344 c); try done; lia. }
    destruct (Z.ltb_spec c 65536); [|lia].
    rewrite !land_63, !Z.shiftr_div_pow2 by lia.
    change (2 ^ 12) with 4096. change (2 ^ 6) with 64.
    rewrite lor_224 by (split; [apply Z.div_pos; lia|apply Z.div_lt_upper_bound; lia]).
    rewrite !lor_128 by (apply Z.mod_pos_bound; lia). done.
Qed.

Lemma surrogate_branch (c : Z) :
  is_surrogate c = true →
  (c <? 128) = false ∧ (c <? 2048) = false ∧ (c <? 55296) || (57344 <=? c) = false.
Proof.
  unfold is_surrogate. intros [Hlo Hhi]%andb_true_iff.
  apply Z.leb_le in Hlo. apply Z.ltb_lt in Hhi.
  destruct (Z.ltb_spec c 128), (Z.ltb_spec c 2048), (Z.ltb_spec c 55296),
    (Z.leb_spec 57344 c); try done; lia.
Qed.

(** The bytes of a surrogate and the code unit after it, paired or not. *)
Lemma surrogate_bytes (c next : Z) (rest : jsstring) :
  is_surrogate c = true →
  toUTF8Bytes (c :: next :: rest)
  = scalarBytes (65536 + (c mod 1024) * 1024 + next mod 1024) ++ toUTF8Bytes rest.
Proof.
  intros Hs. destruct (surrogate_branch c Hs) as (H1 & H2 & H3).
  cbn [toUTF8Bytes]. rewrite H1, H2, H3, pair_code_point.
  pose proof (Z.mod_pos_bound c 1024). pose proof (Z.mod_pos_bound next 1024).
  set (cp := 65536 + c mod 1024 * 1024 + next mod 1024).
  assert (65536 ≤ cp < 1114112) as Hcp by (unfold cp; lia).
  pose proof (four_bytes cp Hcp) as Hfour.
  unfold scalarBytes.
  destruct (Z.ltb_spec cp 128); [lia|]. destruct (Z.ltb_spec cp 2048); [lia|].
  destruct (Z.ltb_spec cp 65536); [lia|].
  cbn [app]. by injection Hfour as -> -> -> ->.
Qed.

(** A surrogate at the very end is paired with the 0 that [NaN & 0x3ff]
    gives. *)
Lemma last_surrogate_bytes (c : Z) :
  is_surrogate c = true →
  toUTF8Bytes [c] = scalarBytes (65536 + (c mod 1024) * 1024).
Proof.
  intros Hs. pose proof (surrogate_bytes c 0 [] Hs) as Hpair.
  rewrite app_nil_r, Z.mod_0_l, Z.add_0_r in Hpair by lia.
  rewrite <- Hpair. destruct (surrogate_branch c Hs) as (H1 & H2 & H3).
  cbn [toUTF8Bytes]. by rewrite H1, H2, H3.
Qed.

Lemma scalarBytes_isByte (cp : Z) : 0 ≤ cp < 1114112 → Forall isByte (scalarBytes cp).
Proof.
  intros Hcp. unfold scalarBytes, isByte.
  destruct (Z.ltb_spec cp 128); [repeat constructor; lia|].
  destruct (Z.ltb_spec cp 2048).
  { pose proof (Z.mod_pos_bound cp 64).
    assert (0 ≤ cp / 64 < 32) by (split; [apply Z.div_pos; lia|apply Z.div_lt_upper_bound; lia]).
    repeat constructor; lia. }
  destruct (Z.ltb_spec cp 65536).
  { pose proof (Z.mod_pos_bound cp 64). pose proof (Z.mod_pos_bound (cp / 64) 64).
    assert (0 ≤ cp / 4096 < 16) by (split; [apply Z.div_pos; lia|apply Z.div_lt_upper_bound; lia]).
    repeat constructor; lia. }
  pose proof (Z.mod_pos_bound cp 64). pose proof (Z.mod_pos_bound (cp / 64) 64).
  pose proof (Z.mod_pos_bound (cp / 4096) 64).
  assert (0 ≤ cp / 262144 < 5) by (split; [apply Z.div_pos; lia|apply Z.div_lt_upper_bound; lia]).
  repeat constructor; lia.
Qed.

Lemma Uint8Array_from_bytes (values : list Z) :
  Forall isByte values → Uint8Array_from values = values.
Proof.
  intros Hbytes. unfold Uint8Array_from.
  rewrite <- (list_fmap_id values) at 2.
  apply Forall_fmap_ext_1. eapply Forall_impl; [done|].
  intros b Hb. apply Z.mod_small, Hb.
Qed.

Lemma stringByteCountUTF8_length (str : jsstring) :
  stringByteCountUTF8 str = Z.of_nat (length (toUTF8Bytes str)).
Proof.
  induction str as [str IH] using (induction_ltof1 _ (@length Z)). unfold ltof in IH.
  destruct str as [|c rest]; [done|].
  cbn [toUTF8Bytes stringByteCountUTF8].
  destruct (c <? 128); [rewrite IH by (cbn; lia); cbn [length]; lia|].
  destruct (c <? 2048); [rewrite IH by (cbn; lia); cbn [length]; lia|].
  destruct ((c <? 55296) || (57344 <=? c)); [rewrite IH by (cbn; lia); cbn [length]; lia|].
  destruct rest as [|n rest']; [done|].
  rewrite IH by (cbn; lia). cbn [length]. lia.
Qed.

End Utf8Properties.

Module Utf8Claims.

Import Utf8Properties.

(** X1 (Bencode.ts, stringByteCountUTF8 and toUTF8Bytes): the byte count
    that [BencodeString.encode] writes before the colon is the number of
    bytes [toUTF8Bytes] yields for the same string, for every sequence of
    code units, unpaired surrogates included. *)
Theorem stringByteCountUTF8_counts_toUTF8Bytes (str : jsstring) :
  stringByteCountUTF8 str = Z.of_nat (length (toUTF8Bytes str))
  ∧ getBytes (encodeString str [])
    = utf8 (Number_toString (Z.of_nat (length (utf8 str)))) ++ utf8 (js ":") ++ utf8 str.
Proof.
  pose proof (stringByteCountUTF8_length str) as Hcount.
  split; [done|].
  assert (Z.of_nat (length (utf8 str)) = stringByteCountUTF8 str) as ->.
  { unfold utf8, Uint8Array_from. by rewrite length_map. }
  rewrite BencodeProperties.encodeString_app. unfold stringChunks, getBytes.
  cbn [app concat]. by rewrite app_nil_r.
Qed.

(** X2 (Bencode.ts, toUTF8Bytes): on a well-formed UTF-16 string the
    generator yields the UTF-8 encoding of its code points, a surrogate pair
    becoming the four bytes of its supplementary code point; every value it
    yields is a byte already, so the [Uint8Array] built from it stores the
    values unchanged. *)
Theorem toUTF8Bytes_is_UTF8 (str : jsstring) (points : list Z) :
  Forall code_unit str → codePoints str = Some points →
  toUTF8Bytes str = concat (map scalarBytes points)
  ∧ utf8 str = toUTF8Bytes str
  ∧ Forall (fun cp => 0 ≤ cp < 1114112 ∧ (cp < 55296 ∨ 57344 ≤ cp)) points.
Proof.
  revert points.
  induction str as [str IH] using (induction_ltof1 _ (@length Z)). unfold ltof in IH.
  intros points Hunits Hpoints.
  destruct str as [|c rest]; [by injection Hpoints as <-|].
  apply Forall_cons in Hunits as [Hc Hrest]. unfold code_unit in Hc.
  cbn [codePoints] in Hpoints.
  destruct ((55296 <=? c) && (c <? 56320)) eqn:Hhigh.
  - apply andb_true_iff in Hhigh as [Hlo Hhi].
    apply Z.leb_le in Hlo. apply Z.ltb_lt in Hhi.
    destruct rest as [|low rest']; [done|].
    destruct ((56320 <=? low) && (low <? 57344)) eqn:Hlow; [|done].
    apply andb_true_iff in Hlow as [Hlo' Hhi'].
    apply Z.leb_le in Hlo'. apply Z.ltb_lt in Hhi'.
    apply Forall_cons in Hrest as [_ Hrest'].
    destruct (codePoints rest') as [points'|] eqn:Hrest_points; [|done].
    injection Hpoints as <-.
    destruct (IH rest' ltac:(cbn; lia) points' Hrest' Hrest_points) as (Hbytes & Hutf8 & Hrange).
    assert (is_surrogate c = true) as Hs.
    { unfold is_surrogate. apply andb_true_iff. split; [apply Z.leb_le|apply Z.ltb_lt]; lia. }
    assert (65536 + c mod 1024 * 1024 + low mod 1024
            = 65536 + (c - 55296) * 1024 + (low - 56320)) as Hcp.
    { replace c with ((c - 55296) + 54 * 1024) at 1 by lia.
      replace low with ((low - 56320) + 55 * 1024) at 1 by lia.
      rewrite !Z.mod_add, !Z.mod_small by lia. done. }
    assert (toUTF8Bytes (c :: low :: rest')
            = scalarBytes (65536 + (c - 55296) * 1024 + (low - 56320))
              ++ concat (map scalarBytes points')) as Hstep.
    { by rewrite surrogate_bytes, Hcp, Hbytes. }
    split_and!.
    + done.
    + unfold utf8 in *. rewrite Hstep, <- Hbytes.
      unfold Uint8Array_from in *. rewrite map_app, Hutf8. f_equal.
      apply Uint8Array_from_bytes, scalarBytes_isByte. lia.
    + constructor; [lia|done].
  - destruct ((56320 <=? c) && (c <? 57344)) eqn:Hlow; [done|].
    destruct (codePoints rest) as [points'|] eqn:Hrest_points; [|done].
    injection Hpoints as <-.
    destruct (IH rest ltac:(cbn; lia) points' Hrest Hrest_points) as (Hbytes & Hutf8 & Hrange).
    assert (c < 55296 ∨ 57344 ≤ c) as Hplain.
    { destruct (Z.leb_spec 55296 c), (Z.ltb_spec c 56320), (Z.leb_spec 56320 c),
        (Z.ltb_spec c 57344); try done; lia. }
    assert (is_surrogate c = false) as Hs.
    { unfold is_surrogate.
      destruct (Z.leb_spec 55296 c), (Z.ltb_spec c 57344); try done; lia. }
    assert (toUTF8Bytes (c :: rest) = scalarBytes c ++ concat (map scalarBytes points'))
      as Hstep.
    { by rewrite unit_bytes, Hbytes. }
    split_and!.
    + done.
    + unfold utf8 in *. rewrite Hstep, <- Hbytes.
      unfold Uint8Array_from in *. rewrite map_app, Hutf8. f_equal.
      apply Uint8Array_from_bytes, scalarBytes_isByte. lia.
    + constructor; [lia|done].
Qed.

Lemma toUTF8Bytes_is_UTF8_witness :
  toUTF8Bytes [104; 233; 8364; 55357; 56832]
  = concat (map scalarBytes [104; 233; 8364; 128512])
  ∧ utf8 [104; 233; 8364; 55357; 56832] = toUTF8Bytes [104; 233; 8364; 55357; 56832]
  ∧ Forall (fun cp => 0 ≤ cp < 1114112 ∧ (cp < 55296 ∨ 57344 ≤ cp))
      [104; 233; 8364; 128512].
Proof.
  apply (toUTF8Bytes_is_UTF8 [104; 233; 8364; 55357; 56832] [104; 233; 8364; 128512]).
  - unfold code_unit. repeat constructor; lia.
  - reflexivity.
Defined.

(** X3 (Bencode.ts, toUTF8Bytes): a surrogate is never checked for its
    partner. Whatever code unit follows it is consumed with it, and the two
    always become one four-byte sequence; a surrogate at the end of the
    string still gives four bytes. The code units after the pair are encoded
    as if the string started there. *)
Theorem toUTF8Bytes_consumes_unit_after_surrogate (c next : Z) (rest : jsstring) :
  is_surrogate c = true →
  toUTF8Bytes (c :: next :: rest)
  = toUTF8Bytes [c; next] ++ toUTF8Bytes rest
  ∧ toUTF8Bytes [c; next] = scalarBytes (65536 + (c mod 1024) * 1024 + next mod 1024)
  ∧ length (toUTF8Bytes [c; next]) = 4%nat
  ∧ length (toUTF8Bytes [c]) = 4%nat
  ∧ Forall isByte (toUTF8Bytes [c; next]).
Proof.
  intros Hs.
  pose proof (Z.mod_pos_bound c 1024). pose proof (Z.mod_pos_bound next 1024).
  assert (∀ cp, 65536 ≤ cp → length (scalarBytes cp) = 4%nat) as Hfour.
  { intros cp Hcp. unfold scalarBytes.
    destruct (Z.ltb_spec cp 128); [lia|]. destruct (Z.ltb_spec cp 2048); [lia|].
    by destruct (Z.ltb_spec cp 65536); [lia|]. }
  rewrite !surrogate_bytes, last_surrogate_bytes, app_nil_r by done.
  rewrite !Hfour by lia. split_and!; try done.
  apply scalarBytes_isByte. lia.
Qed.

Lemma toUTF8Bytes_consumes_unit_after_surrogate_witness :
  toUTF8Bytes (55357 :: 65 :: js "bc") = toUTF8Bytes [55357; 65] ++ toUTF8Bytes (js "bc")
  ∧ toUTF8Bytes [55357; 65] = scalarBytes (65536 + (55357 mod 1024) * 1024 + 65 mod 1024)
  ∧ length (toUTF8Bytes [55357; 65]) = 4%nat
  ∧ length (toUTF8Bytes [55357]) = 4%nat
  ∧ Forall isByte (toUTF8Bytes [55357; 65]).
Proof.
  apply (toUTF8Bytes_consumes_unit_after_surrogate 55357 65 (js "bc")). reflexivity.
Defined.

End Utf8Claims.

(** ** The encoder and the torrent file *)

Module LayoutProperties.

Import InfoHash BencodeProperties BencodeOrder Utf8Properties.

Lemma getBytes_app (b1 b2 : BencodeBuffer) : getBytes (b1 ++ b2) = getBytes b1 ++ getBytes b2.
Proof. apply concat_app. Qed.

Lemma getBytes_encodeString (s : jsstring) :
  getBytes (encodeString s []) = bencodedString s.
Proof.
  assert (length (utf8 s) = length (toUTF8Bytes s)) as Hlength.
  { unfold utf8, Uint8Array_from. apply length_map. }
  rewrite encodeString_app. unfold stringChunks, getBytes, bencodedString.
  cbn [app concat]. by rewrite app_nil_r, stringByteCountUTF8_length, Hlength.
Qed.

Lemma getBytes_encode_BencodeInt (n : Z) :
  getBytes (encode (BencodeInt n) []) = bencodedInt n.
Proof. unfold bencodedInt. cbn. by rewrite app_nil_r. Qed.

(** The bytes of a list are those of its elements between [l] and [e]. *)
Lemma getBytes_encode_BencodeList (data : list BencodeObject) :
  getBytes (encode (BencodeList data) [])
  = js "l" ++ concat (map (fun d => getBytes (encode d [])) data) ++ js "e".
Proof.
  cbn [encode]. unfold writeTextUTF8 at 1 2. unfold push.
  rewrite (fold_left_chunks _ (fun d => encode d []) data).
  - rewrite !getBytes_app. change (getBytes []) with (@nil Z).
    change (getBytes [Uint8Array_from (toUTF8Bytes (js "l"))]) with (js "l").
    change (getBytes [Uint8Array_from (toUTF8Bytes (js "e"))]) with (js "e").
    rewrite app_nil_l, <- app_assoc.
    do 2 f_equal. unfold getBytes. induction data as [|d data IH]; [done|].
    cbn [map concat]. by rewrite concat_app, IH.
  - apply Forall_forall. intros d _ b. apply encode_app.
Qed.

Lemma getBytes_encode_strings (l : list jsstring) :
  getBytes (encode (getBencodeObject (IList (map IString l))) []) = bencodedStrings l.
Proof.
  cbn [getBencodeObject]. rewrite getBytes_encode_BencodeList. unfold bencodedStrings.
  do 2 f_equal. rewrite !map_map. f_equal. apply map_ext. intros s.
  cbn [getBencodeObject encode].
  apply getBytes_encodeString.
Qed.

(** The bytes of a dictionary, key by key. *)
Lemma getBytes_encode_BencodeDict (data : list (jsstring * BencodeObject)) :
  getBytes (encode (BencodeDict data) [])
  = js "d"
    ++ concat (map (fun key =>
                      bencodedString key
                      ++ match Object_get data key with
                         | Some value => getBytes (encode value [])
                         | None => []
                         end)
                   (Array_sort (Object_keys data)))
    ++ js "e".
Proof.
  rewrite encode_BencodeDict, !getBytes_app.
  change (getBytes [utf8 (js "d")]) with (js "d").
  change (getBytes [utf8 (js "e")]) with (js "e").
  do 2 f_equal. unfold getBytes.
  induction (Array_sort (Object_keys data)) as [|key keys IH]; [done|].
  cbn [map concat]. rewrite concat_app, IH. f_equal.
  unfold entryChunks. rewrite concat_app. f_equal.
  - rewrite <- getBytes_encodeString, encodeString_app. done.
  - by destruct (Object_get data key).
Qed.

Lemma NoDup_keys (keys : list jsstring) : bool_decide (NoDup keys) = true → NoDup keys.
Proof. apply bool_decide_eq_true. Qed.

Ltac dictionary_layout :=
  unfold bencode;
  rewrite getBencodeObject_IDict by (apply NoDup_keys; reflexivity);
  rewrite getBytes_encode_BencodeDict;
  match goal with
  | |- context [Array_sort ?keys] =>
      let sorted := eval vm_compute in (Array_sort keys) in
      change (Array_sort keys) with sorted
  end;
  cbn [map concat]; unfold optionalBytes, optionalMember;
  rewrite <- ?app_assoc, ?app_nil_r;
  reflexivity.

(** The info dictionary, whatever its members hold. *)
Lemma info_layout (name pieces pieceLength : IBencodeObject)
    (private source length_ files : option IBencodeObject) :
  bencode [(js "name", Some name); (js "pieces", Some pieces);
           (js "piece length", Some pieceLength); (js "private", private);
           (js "source", source); (js "length", length_); (js "files", files)]
  = js "d"
    ++ optionalBytes "5:files" files
    ++ optionalBytes "6:length" length_
    ++ js "4:name" ++ memberBytes name
    ++ js "12:piece length" ++ memberBytes pieceLength
    ++ js "6:pieces" ++ memberBytes pieces
    ++ optionalBytes "7:private" private
    ++ optionalBytes "6:source" source
    ++ js "e".
Proof.
  destruct private, source, length_, files; dictionary_layout.
Qed.

(** An entry of [files], whatever its members hold. *)
Lemma file_layout (length_ path : IBencodeObject) :
  bencode [(js "length", Some length_); (js "path", Some path)]
  = js "d6:length" ++ memberBytes length_ ++ js "4:path" ++ memberBytes path ++ js "e".
Proof. dictionary_layout. Qed.

(** The torrent object, whatever its members hold. *)
Lemma torrent_layout (info : IBencodeObject)
    (announce announceList urlList comment creationDate createdBy : option IBencodeObject) :
  bencode [(js "info", Some info); (js "announce", announce);
           (js "announce-list", announceList); (js "url-list", urlList);
           (js "comment", comment); (js "creation date", creationDate);
           (js "created by", createdBy)]
  = js "d"
    ++ optionalBytes "8:announce" announce
    ++ optionalBytes "13:announce-list" announceList
    ++ optionalBytes "7:comment" comment
    ++ optionalBytes "10:created by" createdBy
    ++ optionalBytes "13:creation date" creationDate
    ++ js "4:info" ++ memberBytes info
    ++ optionalBytes "8:url-list" urlList
    ++ js "e".
Proof.
  destruct announce, announceList, urlList, comment, creationDate, createdBy;
    dictionary_layout.
Qed.

Lemma memberBytes_IString (s : jsstring) : memberBytes (IString s) = bencodedString s.
Proof. apply getBytes_encodeString. Qed.

Lemma memberBytes_IInt (n : Z) : memberBytes (IInt n) = bencodedInt n.
Proof. apply getBytes_encode_BencodeInt. Qed.

Lemma memberBytes_IBinaryString (bytes : list Z) :
  memberBytes (IBinaryString bytes)
  = utf8 (Number_toString (Z.of_nat (length bytes))) ++ js ":" ++ bytes.
Proof. unfold memberBytes. cbn. by rewrite app_nil_r. Qed.

Lemma memberBytes_IList (l : list IBencodeObject) :
  memberBytes (IList l) = js "l" ++ concat (map memberBytes l) ++ js "e".
Proof.
  unfold memberBytes at 1. cbn [getBencodeObject].
  rewrite getBytes_encode_BencodeList. by rewrite map_map.
Qed.

Lemma memberBytes_strings (l : list jsstring) :
  memberBytes (IList (map IString l)) = bencodedStrings l.
Proof. apply getBytes_encode_strings. Qed.

Lemma memberBytes_file (f : TorrentFileInfo) :
  memberBytes (TorrentFileInfo_object f) = bencodedFile f.
Proof.
  unfold TorrentFileInfo_object, bencodedFile.
  change (memberBytes (IDict ?obj)) with (bencode obj).
  by rewrite file_layout, memberBytes_IInt, memberBytes_strings.
Qed.

Lemma map_memberBytes_files (files : list TorrentFileInfo) :
  map (fun f => memberBytes (TorrentFileInfo_object f)) files = map bencodedFile files.
Proof. apply map_ext. intros f. apply memberBytes_file. Qed.

Lemma map_memberBytes_tiers (tiers : list (list jsstring)) :
  map (fun tier => memberBytes (IList (map IString tier))) tiers
  = map bencodedStrings tiers.
Proof. apply map_ext. intros tier. apply memberBytes_strings. Qed.

(** The layout of the info dictionary. *)
Lemma bencode_TorrentInfo_object (info : TorrentInfo) :
  bencode (TorrentInfo_object info)
  = js "d"
    ++ optionalMember "5:files"
         (fun files => js "l" ++ concat (map bencodedFile files) ++ js "e")
         (ti_files info)
    ++ optionalMember "6:length" bencodedInt (ti_length info)
    ++ js "4:name" ++ bencodedString (ti_name info)
    ++ js "12:piece length" ++ bencodedInt (ti_piece_length info)
    ++ js "6:pieces"
    ++ (utf8 (Number_toString (Z.of_nat (length (ti_pieces info)))) ++ js ":"
        ++ ti_pieces info)
    ++ optionalMember "7:private" bencodedInt (ti_private info)
    ++ optionalMember "6:source" bencodedString (ti_source info)
    ++ js "e".
Proof.
  unfold TorrentInfo_object. rewrite info_layout.
  rewrite memberBytes_IString, memberBytes_IInt, memberBytes_IBinaryString.
  unfold optionalBytes.
  destruct (ti_files info) as [files|], (ti_length info), (ti_private info),
    (ti_source info); cbn [fmap option_fmap option_map optionalMember];
    rewrite ?memberBytes_IString, ?memberBytes_IInt, ?memberBytes_IList, ?map_map,
      ?map_memberBytes_files;
    reflexivity.
Qed.

(** The encoding of an info dictionary is bytes when its pieces are. *)
Lemma js_isByte (s : string) : Forall isByte (js s).
Proof.
  unfold js. apply Forall_fmap, Forall_forall. intros a _. cbn. unfold isByte.
  pose proof (N_ascii_bounded a). lia.
Qed.

Lemma utf8_isByte (text : jsstring) : Forall isByte (utf8 text).
Proof.
  unfold utf8, Uint8Array_from. apply Forall_fmap, Forall_forall. intros v _. cbn.
  apply Z.mod_pos_bound. lia.
Qed.

Ltac solve_isByte :=
  repeat first [apply js_isByte | apply utf8_isByte | apply Forall_nil_2
               | apply Forall_app_2 | assumption].

Lemma bencodedString_isByte (s : jsstring) : Forall isByte (bencodedString s).
Proof. unfold bencodedString. solve_isByte. Qed.

Lemma bencodedFile_isByte (f : TorrentFileInfo) : Forall isByte (bencodedFile f).
Proof.
  unfold bencodedFile, bencodedStrings, bencodedInt. solve_isByte.
  apply Forall_concat, Forall_fmap, Forall_forall. intros s _.
  apply bencodedString_isByte.
Qed.

Lemma bencode_TorrentInfo_object_isByte (info : TorrentInfo) :
  Forall isByte (ti_pieces info) → Forall isByte (bencode (TorrentInfo_object info)).
Proof.
  intros Hpieces. rewrite bencode_TorrentInfo_object.
  unfold optionalMember, bencodedInt, bencodedString.
  destruct (ti_files info) as [files|], (ti_length info), (ti_private info),
    (ti_source info); solve_isByte;
    apply Forall_concat, Forall_fmap, Forall_forall; intros f _;
    apply bencodedFile_isByte.
Qed.

End LayoutProperties.

Module LayoutClaims.

Import InfoHash LayoutProperties.

(** X4 (TorrentHelper.ts, TorrentInfo; Bencode.ts, BencodeDict.encode): the
    info dictionary is always written in one layout, whatever the order in
    which the assembler and the form set its members: [files] or [length],
    [name], [piece length], [pieces], then [private] and [source] when they
    are set. An entry of [files] is a dictionary of [length] and [path]. *)
Theorem info_dictionary_layout (info : TorrentInfo) :
  bencode (TorrentInfo_object info)
  = js "d"
    ++ optionalMember "5:files"
         (fun files => js "l" ++ concat (map bencodedFile files) ++ js "e")
         (ti_files info)
    ++ optionalMember "6:length" bencodedInt (ti_length info)
    ++ js "4:name" ++ bencodedString (ti_name info)
    ++ js "12:piece length" ++ bencodedInt (ti_piece_length info)
    ++ js "6:pieces"
    ++ (utf8 (Number_toString (Z.of_nat (length (ti_pieces info)))) ++ js ":"
        ++ ti_pieces info)
    ++ optionalMember "7:private" bencodedInt (ti_private info)
    ++ optionalMember "6:source" bencodedString (ti_source info)
    ++ js "e".
Proof. apply bencode_TorrentInfo_object. Qed.

(** X5 (the form's createTorrent; TorrentHelper.ts, calculateInfoHash): the
    torrent file holds its members in the order [announce],
    [announce-list], [comment], [created by], [creation date], [info],
    [url-list], and after the key [info] it holds, byte for byte, the
    encoding of the info dictionary that [calculateInfoHash] hashes. *)
Theorem torrent_file_layout (torrentObject : TorrentObject) :
  torrentFileBytes torrentObject
  = js "d"
    ++ optionalMember "8:announce" bencodedString (to_announce torrentObject)
    ++ optionalMember "13:announce-list"
         (fun tiers => js "l" ++ concat (map bencodedStrings tiers) ++ js "e")
         (to_announce_list torrentObject)
    ++ optionalMember "7:comment" bencodedString (to_comment torrentObject)
    ++ optionalMember "10:created by" bencodedString (to_created_by torrentObject)
    ++ optionalMember "13:creation date" bencodedInt (to_creation_date torrentObject)
    ++ js "4:info" ++ bencode (TorrentInfo_object (to_info torrentObject))
    ++ optionalMember "8:url-list" bencodedStrings (to_url_list torrentObject)
    ++ js "e".
Proof.
  unfold torrentFileBytes, TorrentObject_object. rewrite torrent_layout.
  change (memberBytes (IDict ?obj)) with (bencode obj).
  unfold optionalBytes.
  destruct (to_announce torrentObject), (to_announce_list torrentObject) as [tiers|],
    (to_comment torrentObject), (to_created_by torrentObject),
    (to_creation_date torrentObject), (to_url_list torrentObject);
    cbn [fmap option_fmap option_map optionalMember];
    rewrite ?memberBytes_IString, ?memberBytes_IInt, ?memberBytes_strings,
      ?memberBytes_IList, ?map_map, ?map_memberBytes_tiers;
    reflexivity.
Qed.

End LayoutClaims.

(** ** The kernel, the worker and the info hash *)

Module KernelProperties.

Import Sha1Kernel Sha1Worker Sha1 InfoHash Sha1Properties.

Lemma land_255_isByte (x : Z) : isByte (Z.land x 255).
Proof.
  unfold isByte. change 255 with (Z.ones 8). rewrite Z.land_ones by lia.
  apply Z.mod_pos_bound. lia.
Qed.

Lemma writeResultBE_isByte (h : Z) : Forall isByte (writeResultBE h).
Proof.
  unfold writeResultBE.
  apply Forall_cons; split; [unfold isByte; apply Z.mod_pos_bound; lia|].
  repeat (apply Forall_cons; split; [apply land_255_isByte|]). constructor.
Qed.

(** What the kernel returns is 20 bytes. *)
Lemma sha1_result (m m' : Memory) (sizeInBytes : Z) (r : list Z) :
  sha1 m sizeInBytes = Some (r, m') → length r = 20%nat ∧ Forall isByte r.
Proof.
  unfold sha1.
  destruct (padZeros 64 (store m sizeInBytes 128) (sizeInBytes + 1)) as [m1 w1].
  destruct (appendLength 8 0 (sizeInBytes * 8) m1 w1) as [m2 w2].
  destruct (maxBufferSize <? w2); [done|]. intros Heq. injection Heq as Hr _.
  rewrite <- Hr. split; [done|].
  repeat (apply Forall_cons; split;
          [first [apply land_255_isByte|unfold isByte; apply Z.mod_pos_bound; lia]|]).
  constructor.
Qed.

Lemma digest_result (bytes d : list Z) :
  digest bytes = Some d → length d = 20%nat ∧ Forall isByte d.
Proof.
  unfold digest.
  destruct (sha1 (HEAPU8_set zeroMemory bytes) (Z.of_nat (length bytes)))
    as [[r m']|] eqn:Hrun; [|done].
  intros [= <-]. by eapply sha1_result.
Qed.

(** Where the padding and the length end: the next multiple of 64 after
    the message, its [0x80] and the 8 bytes of the length. *)
Lemma sha1_writeIndex (m : Memory) (sizeInBytes : Z) :
  0 ≤ sizeInBytes →
  snd (appendLength 8 0 (sizeInBytes * 8)
         (fst (padZeros 64 (store m sizeInBytes 128) (sizeInBytes + 1)))
         (snd (padZeros 64 (store m sizeInBytes 128) (sizeInBytes + 1))))
  = 64 * ((sizeInBytes + 8) / 64 + 1).
Proof.
  intros Hsize.
  pose proof (padZeros_index 64 (store m sizeInBytes 128) (sizeInBytes + 1) ltac:(lia))
    as Hpad.
  destruct (padZeros 64 (store m sizeInBytes 128) (sizeInBytes + 1)) as [m1 w1].
  cbn [fst snd] in *.
  pose proof (appendLength_agree 8 0 (sizeInBytes * 8) m1 m1 w1 ltac:(by intros ??))
    as (Hw & _).
  rewrite Hw, Hpad.
  - Z.div_mod_to_equations. lia.
  - pose proof (Z.mod_pos_bound (56 - (sizeInBytes + 1)) 64). lia.
Qed.

Lemma sha1_defined_iff (m : Memory) (sizeInBytes : Z) :
  0 ≤ sizeInBytes → is_Some (sha1 m sizeInBytes) ↔ sizeInBytes ≤ 16 * MB + 55.
Proof.
  intros Hsize. pose proof (sha1_writeIndex m sizeInBytes Hsize) as Hindex.
  unfold sha1.
  destruct (padZeros 64 (store m sizeInBytes 128) (sizeInBytes + 1)) as [m1 w1].
  cbn [fst snd] in Hindex.
  destruct (appendLength 8 0 (sizeInBytes * 8) m1 w1) as [m2 w2].
  cbn [snd] in Hindex. subst w2. unfold maxBufferSize, MB, KB.
  destruct (Z.ltb_spec (16 * 1024 * 1024 + 64) (64 * ((sizeInBytes + 8) / 64 + 1))).
  - split; [intros [? [=]]|]. intros. exfalso. Z.div_mod_to_equations. lia.
  - split; [|by eexists]. intros _. Z.div_mod_to_equations. lia.
Qed.

(** The digests of a list of inputs are determined by the inputs. *)
Lemma digestsOf_unique (inputs digests1 digests2 : list (list Z)) :
  digestsOf inputs digests1 → digestsOf inputs digests2 → digests1 = digests2.
Proof.
  intros H1. revert digests2.
  induction H1 as [|bytes d inputs digests1 [Hd _] _ IH]; intros digests2 H2.
  - by inversion H2.
  - inversion H2 as [|? d' ? digests2' [Hd' _] Hrest]; subst.
    f_equal; [congruence|by apply IH].
Qed.

Lemma digestsOf_app (inputs1 inputs2 digests1 digests2 : list (list Z)) :
  digestsOf inputs1 digests1 → digestsOf inputs2 digests2 →
  digestsOf (inputs1 ++ inputs2) (digests1 ++ digests2).
Proof. apply Forall2_app. Qed.

Lemma hexDigit_isLowerHex (d : Z) : 0 ≤ d < 16 → isLowerHex (hexDigit d).
Proof.
  intros Hd. unfold isLowerHex, hexDigit. destruct (Z.ltb_spec d 10); lia.
Qed.

(** [byte.toString(16).padStart(2, 0)] is two hexadecimal digits. *)
Lemma padStart_Number_toString16 (byte : Z) :
  isByte byte → padStart (Number_toString16 byte) 2 48 = hexByte byte.
Proof.
  unfold isByte, Number_toString16, hexByte. intros Hbyte.
  destruct (Z.ltb_spec byte 16) as [Hsmall|Hlarge].
  - cbn [hexDigits_fuel]. replace (byte <? 16) with true by (symmetry; apply Z.ltb_lt; lia).
    rewrite Z.div_small by lia. done.
  - assert (4 ≤ Z.log2 byte) as Hlog by (apply (Z.log2_le_pow2 byte 4); lia).
    destruct (Z.to_nat (Z.log2 byte)) as [|fuel] eqn:Hfuel; [lia|].
    cbn [hexDigits_fuel].
    replace (byte <? 16) with false by (symmetry; apply Z.ltb_ge; lia).
    assert (0 ≤ byte / 16 < 16) as Hhigh
      by (split; [apply Z.div_pos; lia|apply Z.div_lt_upper_bound; lia]).
    replace (byte / 16 <? 16) with true by (symmetry; apply Z.ltb_lt; lia).
    rewrite (Z.mod_small (byte / 16)) by lia. done.
Qed.

Lemma hexByte_isLowerHex (byte : Z) : isByte byte → Forall isLowerHex (hexByte byte).
Proof.
  unfold isByte. intros Hbyte. unfold hexByte.
  apply Forall_cons; split; [|apply Forall_cons; split; [|constructor]];
    apply hexDigit_isLowerHex.
  - split; [apply Z.div_pos; lia|apply Z.div_lt_upper_bound; lia].
  - apply Z.mod_pos_bound. lia.
Qed.

Lemma length_hexBytes (d : list Z) :
  length (concat (map hexByte d)) = (2 * length d)%nat.
Proof. induction d as [|byte d IH]; [done|]. cbn [map concat hexByte app length]. lia. Qed.

End KernelProperties.

Module KernelClaims.

Import Sha1Kernel Sha1Worker Sha1 InfoHash Sha1Properties Sha1Standard
  LayoutProperties KernelProperties.

(** X6 (sha1.cpp, sha1 and maxBufferSize): the kernel writes the padded
    message into [memoryBuffer] up to the next multiple of 64 after the
    message, its [0x80] byte and its 8 length bytes. So it stays inside the
    buffer exactly for messages of at most 16 MB + 55 bytes, whatever the
    buffer held before, and then it returns 20 values that are bytes. *)
Theorem sha1_stays_in_memoryBuffer (memoryBuffer : Memory) (sizeInBytes : Z) :
  0 ≤ sizeInBytes →
  (is_Some (sha1 memoryBuffer sizeInBytes) ↔ sizeInBytes ≤ 16 * MB + 55)
  ∧ (is_Some (sha1 memoryBuffer sizeInBytes)
     ↔ 64 * ((sizeInBytes + 8) / 64 + 1) ≤ maxBufferSize)
  ∧ (∀ r m', sha1 memoryBuffer sizeInBytes = Some (r, m') →
             length r = 20%nat ∧ Forall isByte r).
Proof.
  intros Hsize. split_and!.
  - by apply sha1_defined_iff.
  - rewrite sha1_defined_iff by done. unfold maxBufferSize, MB, KB.
    Z.div_mod_to_equations. lia.
  - intros r m'. apply sha1_result.
Qed.

Lemma sha1_stays_in_memoryBuffer_witness :
  (is_Some (sha1 zeroMemory 3) ↔ 3 ≤ 16 * MB + 55)
  ∧ (is_Some (sha1 zeroMemory 3) ↔ 64 * ((3 + 8) / 64 + 1) ≤ maxBufferSize)
  ∧ (∀ r m', sha1 zeroMemory 3 = Some (r, m') → length r = 20%nat ∧ Forall isByte r).
Proof. apply (sha1_stays_in_memoryBuffer zeroMemory 3). lia. Defined.

(** X7 (Sha1Worker.ts, computeHashes): the hashes of a list of inputs are
    the hashes of its parts one after the other, and they do not depend on
    the worker that computes them: what an earlier input or an earlier call
    left in the module's memory never reaches a later digest. For inputs
    of bytes they are the SHA-1 digests of FIPS 180-4. *)
Theorem computeHashes_of_parts (whole first second : Sha1WorkerObject)
    (inputs1 inputs2 : list (list Z)) :
  Forall (fun bytes => Z.of_nat (length bytes) ≤ 16 * MB) (inputs1 ++ inputs2) →
  ∃ hashes hashes1 hashes2 whole' first' second',
    computeHashes whole (inputs1 ++ inputs2) = Some (hashes, whole')
    ∧ computeHashes first inputs1 = Some (hashes1, first')
    ∧ computeHashes second inputs2 = Some (hashes2, second')
    ∧ result hashes = result hashes1 ++ result hashes2
    ∧ originalInputs hashes = originalInputs hashes1 ++ originalInputs hashes2
    ∧ length (result hashes1) = (20 * length inputs1)%nat
    ∧ (Forall (Forall isByte) (inputs1 ++ inputs2) →
       result hashes = concat (map SHA1 (inputs1 ++ inputs2))).
Proof.
  intros Hfit. pose proof Hfit as [Hfit1 Hfit2]%Forall_app.
  destruct (computeHashes_digests whole _ Hfit) as (digests & whole' & Hdigests & Hwhole).
  destruct (computeHashes_digests first _ Hfit1) as (digests1 & first' & Hdigests1 & Hfirst).
  destruct (computeHashes_digests second _ Hfit2)
    as (digests2 & second' & Hdigests2 & Hsecond).
  eexists _, _, _, _, _, _. split_and!; [done|done|done| | | |].
  - cbn [result].
    rewrite (digestsOf_unique _ _ _ Hdigests (digestsOf_app _ _ _ _ Hdigests1 Hdigests2)).
    apply concat_app.
  - done.
  - cbn [result]. by apply digestsOf_length.
  - intros Hbytes. cbn [result]. f_equal. by apply digestsOf_SHA1.
Qed.

Lemma computeHashes_of_parts_witness :
  ∃ hashes hashes1 hashes2 whole' first' second',
    computeHashes {| HEAPU8 := zeroMemory |} ([js "ab"] ++ [js "cd"]) = Some (hashes, whole')
    ∧ computeHashes {| HEAPU8 := HEAPU8_set zeroMemory (js "stale bytes") |} [js "ab"]
      = Some (hashes1, first')
    ∧ computeHashes {| HEAPU8 := zeroMemory |} [js "cd"] = Some (hashes2, second')
    ∧ result hashes = result hashes1 ++ result hashes2
    ∧ originalInputs hashes = originalInputs hashes1 ++ originalInputs hashes2
    ∧ length (result hashes1) = (20 * length [js "ab"])%nat
    ∧ (Forall (Forall isByte) ([js "ab"] ++ [js "cd"]) →
       result hashes = concat (map SHA1 ([js "ab"] ++ [js "cd"]))).
Proof.
  apply (computeHashes_of_parts {| HEAPU8 := zeroMemory |}
           {| HEAPU8 := HEAPU8_set zeroMemory (js "stale bytes") |}
           {| HEAPU8 := zeroMemory |} [js "ab"] [js "cd"]).
  repeat constructor; vm_compute; discriminate.
Defined.

(** X8 (TorrentHelper.ts, calculateInfoHash): for an info dictionary whose
    pieces are bytes and whose encoding is at most 16 MB the function
    returns the SHA-1 digest of that encoding (the message digest of FIPS
    180-4) as 40 lower-case hexadecimal digits, two per byte and the high
    digit first, whatever worker serves the call and whatever creation id is
    active in the pool: the branch that throws is never taken. *)
Theorem calculateInfoHash_hex_digest (worker : WorkerObject) (pool : WorkerPool)
    (infoObject : TorrentInfo) :
  Forall isByte (ti_pieces infoObject) →
  Z.of_nat (length (bencode (TorrentInfo_object infoObject))) ≤ 16 * MB →
  calculateInfoHash worker pool infoObject
  = InfoHash (concat (map hexByte (SHA1 (bencode (TorrentInfo_object infoObject)))))
  ∧ length (concat (map hexByte (SHA1 (bencode (TorrentInfo_object infoObject)))))
    = 40%nat
  ∧ Forall isLowerHex
      (concat (map hexByte (SHA1 (bencode (TorrentInfo_object infoObject))))).
Proof.
  intros Hpieces Hfit.
  pose proof (bencode_TorrentInfo_object_isByte infoObject Hpieces) as Hbytes.
  set (bytes := bencode (TorrentInfo_object infoObject)) in *.
  destruct (computeHashes_SHA1 (remote worker) [bytes] ltac:(by repeat constructor))
    as (this' & Hrun).
  cbn [map concat] in Hrun. rewrite app_nil_r in Hrun.
  split_and!.
  - unfold calculateInfoHash, hashWithWorker. fold bytes.
    cbn [isCancelled creationId data transferList length seq map buffer].
    replace (postMessageThrows [] [0%nat]) with false by reflexivity.
    rewrite Hrun. cbn [mbind option_bind result]. do 2 f_equal.
    apply Forall_fmap_ext_1. eapply Forall_impl; [apply SHA1_isByte|].
    intros byte Hbyte. by apply padStart_Number_toString16.
  - rewrite length_hexBytes, SHA1_length. lia.
  - pose proof (SHA1_isByte bytes) as Hdigest. clear Hrun.
    induction Hdigest as [|byte d Hbyte _ IH]; [constructor|].
    cbn [map concat]. apply Forall_app. split; [by apply hexByte_isLowerHex|done].
Qed.

Lemma calculateInfoHash_hex_digest_witness :
  let infoObject :=
    {| ti_name := js "a.txt"; ti_private := None; ti_pieces := replicate 20 7;
       ti_piece_length := 16384; ti_files := None; ti_length := Some 5;
       ti_source := None |} in
  calculateInfoHash (sampleWorker 0) (createWorkerPool [sampleWorker 1]) infoObject
  = InfoHash (concat (map hexByte (SHA1 (bencode (TorrentInfo_object infoObject))))).
Proof.
  intros infoObject.
  refine (proj1 (calculateInfoHash_hex_digest (sampleWorker 0)
                   (createWorkerPool [sampleWorker 1]) infoObject _ _)).
  - apply Forall_replicate. unfold isByte. lia.
  - vm_compute. discriminate.
Defined.

End KernelClaims.

(** ** The pool on the event loop *)

Module PoolRunProperties.

Import Sha1Kernel Sha1Worker Sha1 Sha1Properties Sha1Standard PoolProperties
  KernelProperties.

Lemma pop_Some {A} (arr rest : list A) (x : A) :
  pop arr = Some (rest, x) → arr = rest ++ [x].
Proof.
  revert rest. induction arr as [|y arr IH]; intros rest; [done|].
  cbn [pop]. destruct (pop arr) as [[rest' z]|] eqn:Hpop.
  - intros [= <- <-]. by rewrite (IH rest' eq_refl).
  - intros [= <- <-]. by apply pop_None in Hpop as ->.
Qed.

(** The loop of [computeHashes], when it ends well. *)
Lemma hashInputs_Some (inputs : list (list Z)) (i : nat) (heap heap' : Memory)
    (done r : list Z) :
  length done = (20 * i)%nat →
  hashInputs inputs (Z.of_nat i) heap (done ++ replicate (20 * length inputs) 0)
  = Some (r, heap') →
  ∃ digests, digestsOf inputs digests ∧ r = done ++ concat digests.
Proof.
  revert i heap done.
  induction inputs as [|bytes inputs IH]; intros i heap done Hdone.
  - cbn. rewrite app_nil_r. intros [= <- _]. exists []. split; [constructor|].
    by rewrite app_nil_r.
  - cbn [hashInputs].
    pose proof (sha1_HEAPU8_set heap bytes) as Hsha.
    destruct (sha1 (HEAPU8_set heap bytes) (Z.of_nat (length bytes)))
      as [[d heap1]|] eqn:Hrun; [|done].
    destruct (sha1_result _ _ _ _ Hrun) as [Hlength _].
    cbn in Hsha. cbn [mbind option_bind].
    replace (Z.of_nat i * hashResultSize) with (Z.of_nat (length done))
      by (unfold hashResultSize; lia).
    replace (20 * length (bytes :: inputs))%nat
      with (length d + 20 * length inputs)%nat by (cbn [length]; lia).
    rewrite Uint8Array_set_next. cbn [mbind option_bind].
    replace (Z.of_nat i + 1) with (Z.of_nat (S i)) by lia.
    intros Hloop. apply IH in Hloop as (digests & Hdigests & ->).
    + exists (d :: digests). split; [by constructor|].
      cbn [concat]. by rewrite app_assoc.
    + rewrite length_app. lia.
Qed.

Lemma computeHashes_Some (this this' : Sha1WorkerObject) (inputs : list (list Z))
    (hashes : HashResult) :
  computeHashes this inputs = Some (hashes, this') →
  originalInputs hashes = inputs
  ∧ ∃ digests, digestsOf inputs digests ∧ result hashes = concat digests.
Proof.
  unfold computeHashes, Uint8Array_new, hashResultSize.
  replace (Z.to_nat (Z.of_nat (length inputs) * 20)) with (20 * length inputs)%nat by lia.
  destruct (hashInputs inputs 0 (HEAPU8 this) (replicate (20 * length inputs) 0))
    as [[r heap']|] eqn:Hloop; [|done].
  cbn [mbind option_bind]. intros [= <- _]. split; [done|].
  apply (hashInputs_Some inputs 0 _ _ []) in Hloop as (digests & Hdigests & ->); [|done].
  by exists digests.
Qed.

(** What a call gets from its worker. *)
Lemma hashWithWorker_Some (worker worker' : WorkerObject) (call : Call)
    (pool : WorkerPool) (detached : list nat) (hashes : HashResult) :
  hashWithWorker worker call pool detached = Some (Some hashes, worker') →
  workerName worker' = workerName worker ∧ hashesOf call hashes
  ∧ detachedAfter call pool detached = detached ++ transferList call.
Proof.
  unfold hashWithWorker, detachedAfter.
  destruct (isCancelled (creationId call) pool); [done|].
  destruct (postMessageThrows detached (transferList call)); [done|].
  destruct (computeHashes (remote worker) (data call)) as [[h remote']|] eqn:Hrun; [|done].
  cbn [mbind option_bind]. intros [= <- <-]. split_and!; [done| |done].
  by apply computeHashes_Some in Hrun.
Qed.

Lemma hashWithWorker_null (worker worker' : WorkerObject) (call : Call)
    (pool : WorkerPool) (detached : list nat) :
  hashWithWorker worker call pool detached = Some (None, worker') →
  worker' = worker ∧ is_Some (creationId call).
Proof.
  unfold hashWithWorker, isCancelled.
  destruct (creationId call) as [id|].
  - destruct (negb (id =? activeCreationId pool)).
    + intros [= <-]. by split.
    + destruct (postMessageThrows detached (transferList call)); [done|].
      by destruct (computeHashes (remote worker) (data call)) as [[h remote']|].
  - destruct (postMessageThrows detached (transferList call)); [done|].
    by destruct (computeHashes (remote worker) (data call)) as [[h remote']|].
Qed.

Lemma postMessageThrows_true (detached transfer : list nat) :
  postMessageThrows detached transfer = true →
  ¬ NoDup transfer ∨ ∃ b, b ∈ transfer ∧ b ∈ detached.
Proof.
  unfold postMessageThrows. intros [Hdup|Hdetached]%orb_true_iff.
  - left. intros Hown%hasDuplicate_false. congruence.
  - right. apply existsb_exists in Hdetached as (b & Hb & Hin).
    apply existsb_exists in Hin as (b' & Hb' & ->%Nat.eqb_eq).
    exists b'. split; by apply list_elem_of_In.
Qed.

(** The worker of a call throws only if the call cannot be hashed, and the
    buffers of the call are detached unless the message was not posted. *)
Lemma hashWithWorker_None (worker : WorkerObject) (call : Call) (pool : WorkerPool)
    (detached : list nat) :
  hashWithWorker worker call pool detached = None →
  cannotBeHashed detached call
  ∧ (detachedAfter call pool detached = detached
     ∨ detachedAfter call pool detached = detached ++ transferList call).
Proof.
  unfold hashWithWorker, detachedAfter, cannotBeHashed.
  destruct (isCancelled (creationId call) pool); [done|]. cbn [orb].
  destruct (postMessageThrows detached (transferList call)) eqn:Hpost.
  - intros _. split; [|by left]. right. by apply postMessageThrows_true.
  - intros Hrun. split; [|by right]. left. intros Hfit.
    destruct (computeHashes_digests (remote worker) (data call) Hfit)
      as (digests & this' & _ & Hhashes).
    by rewrite Hhashes in Hrun.
Qed.

Lemma cannotBeHashed_mono (detached detached' : list nat) (call : Call) :
  detached ⊆ detached' → cannotBeHashed detached call → cannotBeHashed detached' call.
Proof.
  intros Hsub [Hfit|[Hdup|(b & Hb & Hdetached)]]; [by left|by right; left|].
  right. right. exists b. split; [done|]. by apply Hsub.
Qed.

(** A call that is among the transferred ones stays among them. *)
Ltac solve_transferred :=
  unfold transferred; cbn [hashing returned lost];
  rewrite ?map_app; cbn [map fst];
  rewrite ?elem_of_cons, ?elem_of_app, ?list_elem_of_singleton; tauto.

(** The end of a call, with its worker [w] taken out of the state before. *)
Lemma finish_Invariant (ws : list WorkerObject) (calls : list Call) (s : PoolState)
    (call : Call) (w : WorkerObject) (r : option HashResult) :
  noIdleWait s →
  (∃ gone, (workerName w :: workerNames s) ++ gone ≡ₚ map workerName ws
           ∧ length gone = length (lost s)) →
  call :: callsOf s ≡ₚ calls →
  Forall rightResult (returned s) → rightResult (call, r) →
  Forall (fun h => hashesOf (fst (fst h)) (snd h)) (hashing s) →
  Forall (cannotBeHashed (detached s)) (lost s) →
  (∀ b, b ∈ detached s →
        ∃ call', call' ∈ call :: transferred s ∧ b ∈ transferList call') →
  Invariant ws calls (finish call w r s).
Proof.
  intros Hidle (gone & Hworkers & Hgone) Hcalls Hreturned Hr Hhashing Hlost Hdetached.
  assert (Htransferred :
            ∀ pool' handed',
              ∀ b, b ∈ detached s →
                   ∃ call', call' ∈ transferred
                                      {| pool := pool'; handed := handed';
                                         hashing := hashing s;
                                         returned := returned s ++ [(call, r)];
                                         lost := lost s; detached := detached s |}
                            ∧ b ∈ transferList call').
  { intros pool' handed' b Hb. destruct (Hdetached b Hb) as (call' & Hcall' & Hin).
    exists call'. split; [|done]. revert Hcall'. solve_transferred. }
  unfold finish, releaseWorker.
  destruct (pop (waitingResolvers (pool s))) as [[rest next]|] eqn:Hpop.
  - apply pop_Some in Hpop.
    split; cbn [pool handed hashing returned lost detached workers waitingResolvers].
    + left. destruct Hidle as [Hfree|Hwait]; [done|]. rewrite Hwait in Hpop.
      by destruct rest.
    + exists gone. split; [|done]. rewrite <- Hworkers.
      unfold workerNames, workersOf. cbn [pool handed hashing workers].
      rewrite !map_app. cbn [map snd]. solve_Permutation.
    + rewrite <- Hcalls. unfold callsOf.
      cbn [pool handed hashing returned lost waitingResolvers]. rewrite Hpop.
      rewrite !map_app. cbn [map fst]. solve_Permutation.
    + apply Forall_app. split; [done|by constructor].
    + done.
    + done.
    + apply Htransferred.
  - apply pop_None in Hpop.
    split; cbn [pool handed hashing returned lost detached workers waitingResolvers].
    + by right.
    + exists gone. split; [|done]. rewrite <- Hworkers.
      unfold workerNames, workersOf. cbn [pool handed hashing workers].
      unfold push. rewrite !map_app. cbn [map]. solve_Permutation.
    + rewrite <- Hcalls. unfold callsOf.
      cbn [pool handed hashing returned lost waitingResolvers].
      rewrite !map_app. cbn [map fst]. solve_Permutation.
    + apply Forall_app. split; [done|by constructor].
    + done.
    + done.
    + apply Htransferred.
Qed.

(** A call runs on with its worker [w], taken out of the state before. *)
Lemma runWithWorker_Invariant (ws : list WorkerObject) (calls : list Call)
    (s : PoolState) (call : Call) (w : WorkerObject) :
  noIdleWait s →
  (∃ gone, (workerName w :: workerNames s) ++ gone ≡ₚ map workerName ws
           ∧ length gone = length (lost s)) →
  call :: callsOf s ≡ₚ calls →
  Forall rightResult (returned s) →
  Forall (fun h => hashesOf (fst (fst h)) (snd h)) (hashing s) →
  Forall (cannotBeHashed (detached s)) (lost s) →
  (∀ b, b ∈ detached s → ∃ call', call' ∈ transferred s ∧ b ∈ transferList call') →
  Invariant ws calls (runWithWorker call w s).
Proof.
  intros Hidle (gone & Hworkers & Hgone) Hcalls Hreturned Hhashing Hlost Hdetached.
  unfold runWithWorker.
  destruct (hashWithWorker w call (pool s) (detached s)) as [[[hashes|] w']|] eqn:Hrun.
  - apply hashWithWorker_Some in Hrun as (Hname & Hhashes & Hafter).
    split; cbn [pool handed hashing returned lost detached].
    + done.
    + exists gone. split; [|done]. rewrite <- Hworkers.
      unfold workerNames, workersOf. cbn [pool handed hashing].
      rewrite !map_app. cbn [map fst snd]. rewrite Hname. solve_Permutation.
    + rewrite <- Hcalls. unfold callsOf. cbn [pool handed hashing returned lost].
      rewrite !map_app. cbn [map fst]. solve_Permutation.
    + done.
    + apply Forall_app. split; [done|by constructor].
    + eapply Forall_impl; [done|]. intros lostCall. apply cannotBeHashed_mono.
      rewrite Hafter. by apply list_subseteq_app_l.
    + rewrite Hafter. intros b [Hb|Hb]%elem_of_app.
      * destruct (Hdetached b Hb) as (call' & Hcall' & Hin). exists call'.
        split; [|done]. revert Hcall'. solve_transferred.
      * exists call. split; [|done]. solve_transferred.
  - apply hashWithWorker_null in Hrun as [-> Hid].
    apply finish_Invariant; try done; [by exists gone|].
    intros b Hb. destruct (Hdetached b Hb) as (call' & Hcall' & Hin).
    exists call'. split; [by apply elem_of_cons; right|done].
  - apply hashWithWorker_None in Hrun as [Hcannot Hafter].
    assert (Hsub : detached s ⊆ detachedAfter call (pool s) (detached s)).
    { destruct Hafter as [-> | ->]; [done|by apply list_subseteq_app_l]. }
    split; cbn [pool handed hashing returned lost detached].
    + done.
    + exists (workerName w :: gone). split.
      * rewrite <- Hworkers. unfold workerNames, workersOf. cbn [pool handed hashing].
        solve_Permutation.
      * rewrite length_app. cbn [length]. lia.
    + rewrite <- Hcalls. unfold callsOf. cbn [pool handed hashing returned lost].
      solve_Permutation.
    + done.
    + done.
    + apply Forall_app. split.
      * eapply Forall_impl; [done|]. intros lostCall. by apply cannotBeHashed_mono.
      * constructor; [|constructor]. by apply (cannotBeHashed_mono (detached s)).
    + intros b Hb.
      assert (b ∈ detached s ∨ b ∈ transferList call) as [Hold|Hnew].
      { destruct Hafter as [Heq|Heq]; rewrite Heq in Hb; [by left|].
        by apply elem_of_app in Hb. }
      * destruct (Hdetached b Hold) as (call' & Hcall' & Hin). exists call'.
        split; [|done]. revert Hcall'. solve_transferred.
      * exists call. split; [|done]. solve_transferred.
Qed.

Lemma step_Invariant (ws : list WorkerObject) (events : list Event) (s : PoolState)
    (e : Event) :
  Invariant ws (callsMade events) s → Invariant ws (callsMade (events ++ [e])) (step e s).
Proof.
  intros [Hidle (gone & Hworkers & Hgone) Hcalls Hreturned Hhashing Hlost Hdetached].
  unfold callsMade. rewrite omap_app. fold (callsMade events).
  destruct e as [call|id|n|n]; cbn [omap step].
  - unfold acquireWorker.
    destruct (pop (workers (pool s))) as [[rest w]|] eqn:Hpop.
    + apply pop_Some in Hpop.
      apply runWithWorker_Invariant; cbn [pool handed hashing returned lost detached];
        try done.
      * right. destruct Hidle as [Hfree|Hwait]; [|done].
        rewrite Hfree in Hpop. by destruct rest.
      * exists gone. split; [|done]. rewrite <- Hworkers.
        unfold workerNames, workersOf. cbn [pool handed hashing workers]. rewrite Hpop.
        rewrite !map_app. cbn [map]. solve_Permutation.
      * rewrite <- Hcalls. unfold callsOf.
        cbn [pool handed hashing returned lost waitingResolvers]. solve_Permutation.
    + apply pop_None in Hpop.
      split; cbn [pool handed hashing returned lost detached workers waitingResolvers].
      * by left.
      * exists gone. split; [|done]. by rewrite <- Hworkers.
      * rewrite <- Hcalls. unfold callsOf.
        cbn [pool handed hashing returned lost waitingResolvers]. unfold push.
        solve_Permutation.
      * done.
      * done.
      * done.
      * done.
  - rewrite app_nil_r.
    split; cbn [pool handed hashing returned lost detached setCreationId]; try done.
    by exists gone.
  - rewrite app_nil_r.
    destruct (handed s !! n) as [[call w]|] eqn:Hn; [|by split; [|exists gone|..]].
    apply delete_Permutation in Hn.
    apply runWithWorker_Invariant; cbn [pool handed hashing returned lost detached];
      try done.
    + exists gone. split; [|done]. rewrite <- Hworkers.
      unfold workerNames, workersOf. cbn [pool handed hashing]. rewrite Hn at 2.
      rewrite !map_app. cbn [map snd]. solve_Permutation.
    + rewrite <- Hcalls. unfold callsOf. cbn [pool handed hashing returned lost].
      rewrite Hn at 2. cbn [map fst]. solve_Permutation.
  - rewrite app_nil_r.
    destruct (hashing s !! n) as [[[call w] hashes]|] eqn:Hn;
      [|by split; [|exists gone|..]].
    pose proof (Forall_lookup_1 _ _ _ _ Hhashing Hn) as Hright.
    apply delete_Permutation in Hn.
    apply finish_Invariant; cbn [pool handed hashing returned lost detached]; try done.
    + exists gone. split; [|done]. rewrite <- Hworkers.
      unfold workerNames, workersOf. cbn [pool handed hashing]. rewrite Hn at 2.
      rewrite !map_app. cbn [map fst snd]. solve_Permutation.
    + rewrite <- Hcalls. unfold callsOf. cbn [pool handed hashing returned lost].
      rewrite Hn at 2. cbn [map fst]. solve_Permutation.
    + rewrite Hn in Hhashing. by apply Forall_cons in Hhashing as [_ ?].
    + intros b Hb. destruct (Hdetached b Hb) as (call' & Hcall' & Hin).
      exists call'. split; [|done]. unfold transferred in *.
      cbn [hashing returned lost].
      apply elem_of_app in Hcall' as [Hcall'|Hcall'].
      * apply list_elem_of_fmap in Hcall' as (h & -> & Hh). rewrite Hn in Hh.
        apply elem_of_cons in Hh as [->|Hh]; [by left|].
        right. apply elem_of_app. left.
        by apply (list_elem_of_fmap_2
                    (fun h : Call * WorkerObject * HashResult => fst (fst h))).
      * right. apply elem_of_app. by right.
Qed.

Lemma run_app (events1 events2 : list Event) (s : PoolState) :
  run (events1 ++ events2) s = run events2 (run events1 s).
Proof. apply fold_left_app. Qed.

Lemma run_Invariant (ws : list WorkerObject) (events : list Event) :
  Invariant ws (callsMade events) (run events (initialState ws)).
Proof.
  induction events as [|e events IH] using rev_ind.
  - split; try done.
    + by right.
    + exists []. split; [|done]. unfold workerNames, workersOf. cbn.
      by rewrite !app_nil_r.
    + intros b Hb. by apply elem_of_nil in Hb.
  - rewrite run_app. by apply step_Invariant.
Qed.

(** *** Calls that keep their buffers apart *)










End PoolRunProperties.

Module PoolRunClaims.

Import Sha1Kernel Sha1Worker Sha1 Sha1Standard PoolRunProperties.

(** X9 (Sha1.ts, createWorkerPool): whatever calls, cancellations and
    worker answers arrive and in whatever order, no call is left waiting
    while a worker is free: after every event the list of free workers or
    the list of waiting resolvers is empty. *)
Theorem pool_never_waits_beside_free_worker
    (ws : list WorkerObject) (events : list Event) :
  workers (pool (run events (initialState ws))) = []
  ∨ waitingResolvers (pool (run events (initialState ws))) = [].
Proof. apply (inv_noIdleWait _ _ _ (run_Invariant ws events)). Qed.

(** X10 (Sha1.ts, createWorkerPool): the pool neither invents nor shares
    workers. At any moment a worker is free, or handed to one call, or
    hashing for one call, and a worker leaves the pool only when its
    [computeHashes] throws: it is then never released, one worker for each
    call so lost. *)
Theorem pool_workers_accounted (ws : list WorkerObject) (events : list Event) :
  let s := run events (initialState ws) in
  (∃ gone, map workerName (workersOf s) ++ gone ≡ₚ map workerName ws
           ∧ length gone = length (lost s))
  ∧ (length (workersOf s) + length (lost s) = length ws)%nat
  ∧ (NoDup (map workerName ws) → NoDup (map workerName (workersOf s)))
  ∧ (lost s = [] → map workerName (workersOf s) ≡ₚ map workerName ws).
Proof.
  cbv zeta. destruct (inv_workers _ _ _ (run_Invariant ws events))
    as (gone & Hworkers & Hgone).
  unfold workerNames in Hworkers. split_and!.
  - by exists gone.
  - apply Permutation_length in Hworkers.
    rewrite length_app, !length_map in Hworkers. lia.
  - intros Hws. rewrite <- Hworkers in Hws. by apply NoDup_app in Hws as [? _].
  - intros Hlost. rewrite Hlost in Hgone. destruct gone; [|done].
    by rewrite app_nil_r in Hworkers.
Qed.

(** X11 (Sha1.ts, createWorkerPool): no call is dropped or answered twice.
    Every call of [computeHashes] made so far is in exactly one place:
    waiting for a worker, handed one, hashing, returned, or lost with a
    worker that threw. *)
Theorem pool_calls_accounted (ws : list WorkerObject) (events : list Event) :
  callsOf (run events (initialState ws)) ≡ₚ callsMade events.
Proof. apply (inv_calls _ _ _ (run_Invariant ws events)). Qed.



End PoolRunClaims.

(** ** The folder structure of a selection *)

Module FolderProperties.

Import FolderStructure.

Lemma Folder_induction (P : Folder → Prop) :
  (∀ files folders, Forall (fun e => P (snd e)) folders → P (mkFolderOf files folders)) →
  ∀ folder, P folder.
Proof.
  intros Hfolder. fix IH 1. intros [files folders]. apply Hfolder.
  induction folders as [|[name child] folders IHfolders]; constructor; [apply IH|done].
Qed.

Lemma fold_left_sum {A} (g : A → Z) (l : list A) (a : Z) :
  fold_left (fun size e => size + g e) l a = a + foldr (fun e total => g e + total) 0 l.
Proof.
  revert a. induction l as [|e l IH]; intros a; cbn; [lia|]. rewrite IH. lia.
Qed.

Lemma foldr_sum_app {A} (g : A → Z) (l1 l2 : list A) :
  foldr (fun e total => g e + total) 0 (l1 ++ l2)
  = foldr (fun e total => g e + total) 0 l1 + foldr (fun e total => g e + total) 0 l2.
Proof. induction l1 as [|e l1 IH]; cbn; [done|]. rewrite IH. lia. Qed.

Lemma foldr_sum_map {A B} (g : B → Z) (h : A → B) (l : list A) :
  foldr (fun e total => g e + total) 0 (map h l)
  = foldr (fun e total => g (h e) + total) 0 l.
Proof. induction l as [|e l IH]; cbn; [done|]. by rewrite IH. Qed.

(** The size of a folder is the sum over its entries. *)
Lemma getFolderSize_entries (folder : Folder) :
  getFolderSize folder
  = foldr (fun qf total => size (content (snd qf)) + total) 0 (entries folder).
Proof.
  induction folder as [files folders IH] using Folder_induction.
  cbn [getFolderSize entries]. rewrite !fold_left_sum, foldr_sum_app, foldr_sum_map.
  cbn [snd].
  assert (foldr (fun e total => getFolderSize (snd e) + total) 0 folders
          = foldr (fun qf total => size (content (snd qf)) + total) 0
              (folders ≫= fun e => map (fun qf => (fst e :: fst qf, snd qf))
                                       (entries (snd e)))) as ->; [|lia].
  induction IH as [|[name child] folders Hchild _ IHfolders]; csimpl; [done|].
  rewrite foldr_sum_app, foldr_sum_map, IHfolders. cbn [snd] in *. by rewrite Hchild.
Qed.

Lemma visitFile_files (pathSegments : list jsstring) (files : list (jsstring * PickedFile))
    (v : Visit) :
  visitedFiles (fold_left (visitFile pathSegments) files v)
  = visitedFiles v
    ++ map (fun e => {| pickedPath := pathSegments ++ [fst e]; picked := snd e |}) files.
Proof.
  revert v. induction files as [|e files IH]; intros v; cbn [fold_left map].
  - by rewrite app_nil_r.
  - rewrite IH. unfold visitFile. cbn [visitedFiles]. unfold push.
    by rewrite <- app_assoc.
Qed.

(** What [visitFolder] adds to [fileList]: the entries of the folder, their
    paths after [pathSegments]. *)
Lemma visitFolder_files (folder : Folder) :
  ∀ pathSegments v,
    visitedFiles (visitFolder folder pathSegments v)
    = visitedFiles v
      ++ map (fun qf => {| pickedPath := pathSegments ++ fst qf; picked := snd qf |})
             (entries folder).
Proof.
  induction folder as [files folders IH] using Folder_induction.
  intros pathSegments v. cbn [visitFolder entries].
  rewrite visitFile_files, map_app, map_map. cbn [fst snd].
  rewrite app_assoc. f_equal.
  revert v. induction IH as [|[name child] folders Hchild _ IHfolders]; intros v;
    cbn [fold_left]; csimpl.
  - by rewrite app_nil_r.
  - rewrite IHfolders. cbn [fst snd] in *. rewrite Hchild, map_app, map_map.
    cbn [fst snd]. unfold push. rewrite <- app_assoc. do 2 f_equal.
    apply map_ext. intros [q f]. cbn [fst snd]. by rewrite <- app_assoc.
Qed.

(** *** Maps *)

Lemma Object_set_keys {V} (m : list (jsstring * V)) (key : jsstring) (value : V) :
  map fst (Object_set m key value)
  = map fst m ++ (if decide (key ∈ map fst m) then [] else [key]).
Proof.
  induction m as [|[k v] m IH]; cbn [Object_set map fst app].
  - by rewrite decide_False by apply not_elem_of_nil.
  - destruct (decide (k = key)) as [->|Hne]; cbn [map fst].
    + rewrite decide_True by apply list_elem_of_here. by rewrite app_nil_r.
    + rewrite IH. f_equal. destruct (decide (key ∈ map fst m)) as [Hin|Hout].
      * by rewrite decide_True by by apply list_elem_of_further.
      * rewrite decide_False; [done|]. intros [?|?]%elem_of_cons; [congruence|done].
Qed.

Lemma NoDup_Object_set {V} (m : list (jsstring * V)) (key : jsstring) (value : V) :
  NoDup (map fst m) → NoDup (map fst (Object_set m key value)).
Proof.
  intros Hm. rewrite Object_set_keys.
  destruct (decide (key ∈ map fst m)); [by rewrite app_nil_r|].
  apply NoDup_app. split_and!; [done| |apply NoDup_singleton].
  intros k Hk ->%list_elem_of_singleton. done.
Qed.

Lemma elem_of_Object_set {V} (m : list (jsstring * V)) (key k : jsstring) (value v : V) :
  NoDup (map fst m) →
  (k, v) ∈ Object_set m key value
  ↔ (k = key ∧ v = value) ∨ ((k, v) ∈ m ∧ k ≠ key).
Proof.
  induction m as [|[k0 v0] m IH]; cbn [Object_set map fst]; intros Hm.
  - rewrite list_elem_of_singleton, elem_of_nil. split; [intros [= -> ->]; by left|].
    by intros [[-> ->]|[[] _]].
  - apply NoDup_cons in Hm as [Hk0 Hm].
    destruct (decide (k0 = key)) as [->|Hne]; rewrite !elem_of_cons.
    + split.
      * intros [[= -> ->]|Hin]; [by left|]. right. split; [by right|].
        intros ->. apply Hk0. by apply (list_elem_of_fmap_2 fst) in Hin.
      * intros [[-> ->]|[[[= -> ->]|Hin] Hne]]; [by left|done|by right].
    + rewrite (IH Hm). split.
      * intros [[= -> ->]|[[-> ->]|[Hin Hk]]]; [right; split; [by left|done]|by left|].
        right. split; [by right|done].
      * intros [[-> ->]|[[[= -> ->]|Hin] Hk]]; [right; by left|by left|].
        right. right. done.
Qed.

Lemma Forall_Object_set {V} (P : jsstring * V → Prop) (m : list (jsstring * V))
    (key : jsstring) (value : V) :
  Forall P m → P (key, value) → Forall P (Object_set m key value).
Proof.
  intros Hm Hnew. induction Hm as [|[k v] m Hkv Hm IH]; cbn [Object_set].
  - by constructor.
  - destruct (decide (k = key)) as [->|]; by constructor.
Qed.

Lemma Object_get_elem {V} (m : list (jsstring * V)) (key : jsstring) (value : V) :
  Object_get m key = Some value → (key, value) ∈ m.
Proof.
  induction m as [|[k v] m IH]; cbn [Object_get]; [done|].
  destruct (decide (k = key)) as [->|].
  - intros [= ->]. apply list_elem_of_here.
  - intros Hget. by apply list_elem_of_further, IH.
Qed.

Lemma Object_get_None {V} (m : list (jsstring * V)) (key : jsstring) :
  Object_get m key = None → key ∉ map fst m.
Proof.
  induction m as [|[k v] m IH]; cbn [Object_get map fst]; [intros _; apply not_elem_of_nil|].
  destruct (decide (k = key)) as [->|]; [done|].
  intros Hget [?|?]%elem_of_cons; [congruence|by apply IH].
Qed.

Lemma NoDup_keys_eq {V} (m : list (jsstring * V)) (k : jsstring) (v1 v2 : V) :
  NoDup (map fst m) → (k, v1) ∈ m → (k, v2) ∈ m → v1 = v2.
Proof.
  induction m as [|[k0 v0] m IH]; cbn [map fst]; [by intros _ ?%elem_of_nil|].
  intros [Hk0 Hm]%NoDup_cons [[= -> ->]|H1]%elem_of_cons [[= ->]|H2]%elem_of_cons.
  - done.
  - destruct Hk0. by apply (list_elem_of_fmap_2 fst) in H2.
  - subst. destruct Hk0. by apply (list_elem_of_fmap_2 fst) in H1.
  - by apply IH.
Qed.

(** *** Well-formed folders *)

Lemma wellFormed_unfold (files : list (jsstring * PickedFile))
    (folders : list (jsstring * Folder)) :
  wellFormed (mkFolderOf files folders)
  ↔ NoDup (map fst files) ∧ NoDup (map fst folders)
    ∧ Forall (fun e => fileName (snd e) = fst e) files
    ∧ Forall (fun e => wellFormed (snd e)) folders.
Proof.
  cbn [wellFormed].
  assert (foldr (fun e rest => wellFormed (snd e) ∧ rest) True folders
          ↔ Forall (fun e => wellFormed (snd e)) folders) as ->; [|done].
  induction folders as [|e folders IH]; cbn [foldr].
  - split; [constructor|done].
  - rewrite Forall_cons, IH. done.
Qed.

Lemma wellFormed_empty : wellFormed (mkFolderOf [] []).
Proof. apply wellFormed_unfold. split_and!; constructor. Qed.

Lemma wellFormed_child (targetFolder : Folder) (segment : jsstring) :
  wellFormed targetFolder →
  wellFormed match Map_get (foldersOf targetFolder) segment with
             | Some childFolder => childFolder
             | None => mkFolderOf [] []
             end.
Proof.
  destruct targetFolder as [files folders]. intros (_ & _ & _ & Hfolders)%wellFormed_unfold.
  cbn [foldersOf]. unfold Map_get.
  destruct (Object_get folders segment) as [child|] eqn:Hget; [|apply wellFormed_empty].
  apply Object_get_elem in Hget.
  by apply (proj1 (Forall_forall _ _) Hfolders _ Hget).
Qed.

Lemma addFile_wellFormed (segments : list jsstring) (file : PickedFile) :
  ∀ targetFolder, wellFormed targetFolder →
                  wellFormed (addFile segments file targetFolder).
Proof.
  induction segments as [|segment rest IH]; intros targetFolder Hwf.
  - destruct targetFolder as [files folders].
    apply wellFormed_unfold in Hwf as (Hfiles & Hfolders & Hnames & Hchildren).
    cbn [addFile filesOf foldersOf]. apply wellFormed_unfold. unfold Map_set.
    split_and!; [by apply NoDup_Object_set|done|by apply Forall_Object_set|done].
  - pose proof (wellFormed_child targetFolder segment Hwf) as Hchild.
    destruct targetFolder as [files folders].
    apply wellFormed_unfold in Hwf as (Hfiles & Hfolders & Hnames & Hchildren).
    cbn [addFile filesOf foldersOf] in *. apply wellFormed_unfold. unfold Map_set.
    split_and!; [done|by apply NoDup_Object_set|done|].
    apply Forall_Object_set; [done|]. by apply IH.
Qed.

Lemma fold_addFile_wellFormed (files : list PickedFile) (start : Folder) :
  wellFormed start →
  wellFormed (fold_left (fun rootFolder file => addFile (folderSegments file) file rootFolder)
                        files start).
Proof.
  revert start. induction files as [|f files IH]; intros start Hstart; [done|].
  cbn [fold_left]. by apply IH, addFile_wellFormed.
Qed.

(** *** The entries of a folder *)

Lemma elem_of_entries (files : list (jsstring * PickedFile))
    (folders : list (jsstring * Folder)) (q : list jsstring) (g : PickedFile) :
  (q, g) ∈ entries (mkFolderOf files folders)
  ↔ (∃ name child q', (name, child) ∈ folders ∧ (q', g) ∈ entries child ∧ q = name :: q')
    ∨ (∃ name, (name, g) ∈ files ∧ q = [name]).
Proof.
  cbn [entries]. rewrite elem_of_app, list_elem_of_bind. split.
  - intros [([name child] & Hin & Hchild)|Hin].
    + left. apply list_elem_of_fmap in Hin as ([q' g'] & [= -> ->] & Hin).
      by exists name, child, q'.
    + right. apply list_elem_of_fmap in Hin as ([name g'] & [= -> ->] & Hin).
      by exists name.
  - intros [(name & child & q' & Hchild & Hin & ->)|(name & Hin & ->)].
    + left. exists (name, child). split; [|done].
      apply list_elem_of_fmap. by exists (q', g).
    + right. apply list_elem_of_fmap. by exists (name, g).
Qed.

Lemma entries_nonempty (folder : Folder) (g : PickedFile) : ([], g) ∉ entries folder.
Proof.
  destruct folder as [files folders].
  by intros [(? & ? & ? & _ & _ & ?)|(? & _ & ?)]%elem_of_entries.
Qed.

(** The entries after [addFile]: the file at its place, and what was
    elsewhere. *)
Lemma entries_addFile (segments : list jsstring) (file : PickedFile) :
  ∀ targetFolder q g,
    wellFormed targetFolder →
    (q, g) ∈ entries (addFile segments file targetFolder)
    ↔ (q = segments ++ [fileName file] ∧ g = file)
      ∨ ((q, g) ∈ entries targetFolder ∧ q ≠ segments ++ [fileName file]).
Proof.
  induction segments as [|segment rest IH]; intros targetFolder q g Hwf.
  - destruct targetFolder as [files folders].
    apply wellFormed_unfold in Hwf as (Hfiles & Hfolders & Hnames & Hchildren).
    cbn [addFile filesOf foldersOf app]. rewrite !elem_of_entries. unfold Map_set.
    split.
    + intros [(name & child & q' & Hchild & Hin & ->)|(name & Hin & ->)].
      * right. split; [left; by exists name, child, q'|].
        intros [= -> ->]. by apply entries_nonempty in Hin.
      * apply (proj1 (elem_of_Object_set _ _ _ _ _ Hfiles)) in Hin
          as [[-> ->]|[Hin Hne]]; [by left|].
        right. split; [right; by exists name|congruence].
    + intros [[-> ->]|[[(name & child & q' & Hchild & Hin & ->)|(name & Hin & ->)] Hne]].
      * right. exists (fileName file). split; [|done].
        apply (proj2 (elem_of_Object_set _ _ _ _ _ Hfiles)). by left.
      * left. by exists name, child, q'.
      * right. exists name. split; [|done].
        apply (proj2 (elem_of_Object_set _ _ _ _ _ Hfiles)).
        right. split; [done|congruence].
  - pose proof (wellFormed_child targetFolder segment Hwf) as Hchild_wf.
    destruct targetFolder as [files folders].
    apply wellFormed_unfold in Hwf as (Hfiles & Hfolders & Hnames & Hchildren).
    cbn [addFile filesOf foldersOf] in *. rewrite !elem_of_entries.
    unfold Map_set, Map_get in *.
    set (child0 := match Object_get folders segment with
                   | Some childFolder => childFolder
                   | None => mkFolderOf [] []
                   end) in *.
    assert (∀ q' g', (q', g') ∈ entries child0
                     ↔ ∃ child, (segment, child) ∈ folders ∧ (q', g') ∈ entries child)
      as Hchild0.
    { intros q' g'. unfold child0.
      destruct (Object_get folders segment) as [child|] eqn:Hget.
      - apply Object_get_elem in Hget. split; [by exists child|].
        intros (child' & Hin & Hq). by rewrite (NoDup_keys_eq _ _ _ _ Hfolders Hget Hin).
      - apply Object_get_None in Hget. split; [by intros ?%elem_of_nil|].
        intros (child' & Hin & _). destruct Hget.
        by apply (list_elem_of_fmap_2 fst) in Hin. }
    split.
    + intros [(name & child & q' & Hchild & Hin & ->)|(name & Hin & ->)].
      * apply (proj1 (elem_of_Object_set _ _ _ _ _ Hfolders)) in Hchild
          as [[-> ->]|[Hchild Hne]].
        -- apply (proj1 (IH _ _ _ Hchild_wf)) in Hin as [[-> ->]|[Hin Hne]]; [by left|].
           apply Hchild0 in Hin as (child & Hchild & Hin).
           right. split; [left; by exists segment, child, q'|cbn [app]; congruence].
        -- right. split; [left; by exists name, child, q'|].
           cbn [app]. congruence.
      * right. split; [right; by exists name|]. cbn [app]. intros [= -> Hrest].
        by destruct rest.
    + intros [[-> ->]|[[(name & child & q' & Hchild & Hin & ->)|(name & Hin & ->)] Hne]].
      * left. exists segment, (addFile rest file child0), (rest ++ [fileName file]).
        split_and!; [| |done].
        -- apply (proj2 (elem_of_Object_set _ _ _ _ _ Hfolders)). by left.
        -- apply (proj2 (IH _ _ _ Hchild_wf)). by left.
      * left. destruct (decide (name = segment)) as [->|Hname].
        -- exists segment, (addFile rest file child0), q'. split_and!; [| |done].
           ++ apply (proj2 (elem_of_Object_set _ _ _ _ _ Hfolders)). by left.
           ++ apply (proj2 (IH _ _ _ Hchild_wf)). right.
              split; [apply Hchild0; by exists child|].
              cbn [app] in Hne. congruence.
        -- exists name, child, q'. split_and!; [|done|done].
           apply (proj2 (elem_of_Object_set _ _ _ _ _ Hfolders)). by right.
      * right. by exists name.
Qed.

Lemma map_bind {A B C} (f : B → C) (g : A → list B) (l : list A) :
  map f (l ≫= g) = l ≫= fun x => map f (g x).
Proof. induction l as [|x l IH]; csimpl; [done|]. by rewrite map_app, IH. Qed.

(** The paths of a well-formed folder are distinct. *)
Lemma entries_NoDup (folder : Folder) :
  wellFormed folder → NoDup (map fst (entries folder)).
Proof.
  induction folder as [files folders IH] using Folder_induction.
  intros (Hfiles & Hfolders & Hnames & Hchildren)%wellFormed_unfold.
  cbn [entries]. rewrite map_app, map_map. cbn [fst].
  apply NoDup_app. split_and!.
  - rewrite map_bind.
    apply NoDup_bind.
    + intros [name1 child1] [name2 child2] q Hin1 Hin2.
      cbn [fst snd]. rewrite !map_map. cbn [fst].
      intros (qf1 & -> & _)%list_elem_of_fmap (qf2 & [= -> _] & _)%list_elem_of_fmap.
      f_equal. eapply NoDup_keys_eq; [apply Hfolders|done..].
    + intros [name child] Hin. cbn [fst snd]. rewrite map_map. cbn [fst].
      rewrite <- (map_map fst (cons name)).
      apply (NoDup_fmap_2 (cons name)).
      apply (proj1 (Forall_forall _ _) IH _ Hin).
      apply (proj1 (Forall_forall _ _) Hchildren _ Hin).
    + by apply NoDup_fmap_1 in Hfolders.
  - intros q Hq (e & -> & _)%list_elem_of_fmap.
    rewrite map_bind in Hq.
    apply list_elem_of_bind in Hq as ([name child] & Hq & _).
    cbn [fst snd] in Hq. rewrite map_map in Hq. cbn [fst] in Hq.
    apply list_elem_of_fmap in Hq as ([q' g] & [= _ <-] & Hin).
    by apply entries_nonempty in Hin.
  - rewrite <- (map_map fst (fun name => [name])).
    apply (NoDup_fmap_2 (fun name => [name])). done.
Qed.

(** *** The structure of a selection *)

(** What [createFolderStructure] builds on a folder: the files of the list
    at their places, and what the folder held elsewhere. *)
Lemma entries_fold_addFile (files : list PickedFile) :
  ∀ start, wellFormed start →
    let rootFolder :=
      fold_left (fun rootFolder file => addFile (folderSegments file) file rootFolder)
                files start in
    (∀ q g, (q, g) ∈ entries rootFolder →
            (g ∈ files ∧ q = location g) ∨ (q, g) ∈ entries start)
    ∧ (∀ f, f ∈ files → ∃ g, (location f, g) ∈ entries rootFolder)
    ∧ (∀ q g, (q, g) ∈ entries start → ∃ g', (q, g') ∈ entries rootFolder).
Proof.
  induction files as [|f files IH]; intros start Hstart; cbn [fold_left].
  - split_and!; [by right|by intros f ?%elem_of_nil|by eexists].
  - pose proof (addFile_wellFormed (folderSegments f) f start Hstart) as Hnext.
    destruct (IH _ Hnext) as (Hfrom & Hfiles & Hkept). cbv zeta. split_and!.
    + intros q g [[Hg ->]|Hin]%Hfrom; [left; split; [by right|done]|].
      apply (proj1 (entries_addFile _ _ _ _ _ Hstart)) in Hin as [[-> ->]|[Hin _]].
      * left. split; [by left|done].
      * by right.
    + intros f' [->|Hf']%elem_of_cons; [|by apply Hfiles].
      apply (Hkept (location f) f).
      apply (proj2 (entries_addFile _ _ _ _ _ Hstart)). by left.
    + intros q g Hin.
      destruct (decide (q = folderSegments f ++ [fileName f])) as [->|Hne].
      * apply (Hkept _ f). apply (proj2 (entries_addFile _ _ _ _ _ Hstart)). by left.
      * apply (Hkept _ g). apply (proj2 (entries_addFile _ _ _ _ _ Hstart)). by right.
Qed.

Lemma createFolderStructure_wellFormed (files : list PickedFile) :
  wellFormed (createFolderStructure files).
Proof. apply fold_addFile_wellFormed, wellFormed_empty. Qed.

(** The file list of a selection is the list of the entries of its root
    folder, in both modes. *)
Lemma loadFileOrFolder_fileList (files : list PickedFile) :
  ∃ info,
    loadFileOrFolder (Some files) = Some info
    ∧ info_size info = getFolderSize (createFolderStructure files)
    ∧ fileList info
      = map (fun qf => {| path := fst qf; file := content (snd qf) |})
            (entries (createFolderStructure files)).
Proof.
  unfold loadFileOrFolder. set (rootFolder := createFolderStructure files).
  destruct rootFolder as [rootFiles rootFolders]. cbn [foldersOf filesOf].
  destruct ((length rootFolders =? 0)%nat && (length rootFiles =? 1)%nat) eqn:Hsingle.
  - apply andb_true_iff in Hsingle as [Hfolders%Nat.eqb_eq Hfiles%Nat.eqb_eq].
    destruct rootFolders; [|done]. destruct rootFiles as [|[name f] [|]]; try done.
    eexists. split_and!; [done|done|done].
  - eexists. split_and!; [done|done|]. cbn [fileList].
    rewrite visitFolder_files. cbn [visitedFiles app]. rewrite map_map. done.
Qed.

(** Files that all go to the same place directly under the root: the
    structure holds the last of them. *)
Lemma fold_addFile_flat (files : list PickedFile) (name : jsstring) :
  Forall (fun f => folderSegments f = [] ∧ fileName f = name) files →
  ∀ f0,
    fold_left (fun rootFolder file => addFile (folderSegments file) file rootFolder)
              files (mkFolderOf [(name, f0)] [])
    = mkFolderOf [(name, default f0 (last files))] [].
Proof.
  induction 1 as [|f files [Hflat Hname] _ IH]; intros f0; [done|].
  cbn [fold_left]. rewrite Hflat. cbn [addFile filesOf foldersOf]. rewrite Hname.
  unfold Map_set. cbn [Object_set]. rewrite decide_True by done. rewrite IH.
  rewrite last_cons. by destruct (last files).
Qed.

Lemma createFolderStructure_flat (files : list PickedFile) (name : jsstring) :
  files ≠ [] →
  Forall (fun f => folderSegments f = [] ∧ fileName f = name) files →
  ∃ f, last files = Some f ∧ createFolderStructure files = mkFolderOf [(name, f)] [].
Proof.
  intros Hfiles Hflat. destruct files as [|f files]; [done|].
  pose proof Hflat as [[Hsegments Hname] Hrest]%Forall_cons.
  unfold createFolderStructure. cbn [fold_left]. rewrite Hsegments.
  cbn [addFile filesOf foldersOf]. rewrite Hname. unfold Map_set. cbn [Object_set].
  rewrite (fold_addFile_flat files name Hrest).
  exists (default f (last files)). split; [|done].
  rewrite last_cons. by destruct (last files).
Qed.

End FolderProperties.

Module FolderClaims.

Import FolderStructure FolderProperties.

(** X13 (FileInput.ts, loadFileOrFolder and getFolderSize): a selection
    that is not [null] always loads, and the size it reports is the sum of
    the sizes of the files of its file list. (This is the total size that
    the form passes to [calculateHashes] with that file list.) *)
Theorem loadFileOrFolder_size_is_sum_of_fileList (files : list PickedFile) :
  ∃ info,
    loadFileOrFolder (Some files) = Some info
    ∧ info_size info = totalSizeOf (fileList info)
    ∧ info_size info = getFolderSize (createFolderStructure files).
Proof.
  destruct (loadFileOrFolder_fileList files) as (info & Hload & Hsize & Hlist).
  exists info. split_and!; [done| |done].
  rewrite Hsize, Hlist, getFolderSize_entries. unfold totalSizeOf.
  by rewrite foldr_sum_map.
Qed.

(** X14 (FileInput.ts, createFolderStructure and loadFileOrFolder): no two
    entries of the file list have the same path, every path is the place of
    a selected file (its folders below the root folder, then its name) and
    holds that file, and the place of every selected file is in the list.
    So each place is listed exactly once; of two selected files with the
    same place only one is kept. *)
Theorem loadFileOrFolder_lists_each_place_once (files : list PickedFile) :
  ∃ info,
    loadFileOrFolder (Some files) = Some info
    ∧ NoDup (map path (fileList info))
    ∧ Forall (fun entry =>
                ∃ f, f ∈ files ∧ path entry = folderSegments f ++ [fileName f]
                     ∧ file entry = content f)
             (fileList info)
    ∧ Forall (fun f =>
                ∃ entry, entry ∈ fileList info
                         ∧ path entry = folderSegments f ++ [fileName f])
             files.
Proof.
  destruct (loadFileOrFolder_fileList files) as (info & Hload & _ & Hlist).
  pose proof (createFolderStructure_wellFormed files) as Hwf.
  destruct (entries_fold_addFile files _ wellFormed_empty) as (Hfrom & Hfiles & _).
  fold (createFolderStructure files) in Hfrom, Hfiles.
  exists info. rewrite Hlist. split_and!; [done| | |].
  - rewrite map_map. cbn [path]. by apply entries_NoDup.
  - apply Forall_forall. intros entry ([q g] & -> & Hin)%list_elem_of_fmap.
    apply Hfrom in Hin as [[Hg ->]|Hin]; [|by apply elem_of_nil in Hin].
    by exists g.
  - apply Forall_forall. intros f Hf. destruct (Hfiles f Hf) as (g & Hin).
    exists {| path := location f; file := content g |}. split; [|done].
    apply list_elem_of_fmap. by exists (location f, g).
Qed.

(** X15 (FileInput.ts, loadFileOrFolder): the selection is taken as a
    single file exactly when there is at least one selected file and all of
    them have the same name and no folder between the root folder and the
    file. A folder that holds one file directly is therefore a single-file
    selection: its name is the name of the file, not of the folder, and the
    file is the last one selected. *)
Theorem loadFileOrFolder_single_file_mode (files : list PickedFile) :
  ∃ info,
    loadFileOrFolder (Some files) = Some info
    ∧ (input_type (input info) = InputFile
       ↔ files ≠ []
         ∧ ∃ name, Forall (fun f => folderSegments f = [] ∧ fileName f = name) files)
    ∧ (input_type (input info) = InputFile →
       ∃ f, last files = Some f
            ∧ info_name info = fileName f
            ∧ input info = input_File (content f)
            ∧ info_size info = size (content f)
            ∧ fileList info = [{| path := [fileName f]; file := content f |}]).
Proof.
  destruct (entries_fold_addFile files _ wellFormed_empty) as (_ & Hfiles & _).
  fold (createFolderStructure files) in Hfiles. cbv zeta in Hfiles.
  unfold loadFileOrFolder.
  destruct (createFolderStructure files) as [rootFiles rootFolders] eqn:Hroot.
  cbn [foldersOf filesOf].
  destruct ((length rootFolders =? 0)%nat && (length rootFiles =? 1)%nat) eqn:Hsingle.
  - apply andb_true_iff in Hsingle as [Hfolders%Nat.eqb_eq Hone%Nat.eqb_eq].
    destruct rootFolders; [|done]. destruct rootFiles as [|[name f0] [|]]; try done.
    assert (files ≠ []
            ∧ Forall (fun f => folderSegments f = [] ∧ fileName f = name) files)
      as [Hnonempty Hflat].
    { split; [by intros ->|]. apply Forall_forall. intros f Hf.
      destruct (Hfiles f Hf) as (g & Hin).
      apply elem_of_entries in Hin as [(? & ? & ? & []%elem_of_nil & _)|(k & Hk & Hloc)].
      apply list_elem_of_singleton in Hk as [= -> ->]. unfold location in Hloc.
      destruct (folderSegments f) as [|s [|]]; [by injection Hloc as ->|done..]. }
    destruct (createFolderStructure_flat files name Hnonempty Hflat) as (f & Hlast & Hshape).
    rewrite Hroot in Hshape. injection Hshape as ->.
    pose proof (proj1 (Forall_forall _ _) Hflat f) as Hf.
    destruct Hf as [_ <-].
    { apply last_Some in Hlast as [before ->]. apply elem_of_app. right.
      apply list_elem_of_here. }
    eexists. split_and!; [done| |].
    + cbn [input input_type]. split; [|done]. intros _. split; [done|by eexists].
    + intros _. exists f. by split_and!.
  - eexists. split_and!; [done| |by intros [=]].
    cbn [input input_type]. split; [done|]. intros (Hnonempty & name & Hflat).
    destruct (createFolderStructure_flat files name Hnonempty Hflat) as (f & _ & Hshape).
    rewrite Hroot in Hshape. by injection Hshape as -> ->.
Qed.

End FolderClaims.

(** ** A run of the pipeline that nobody cancels *)

Module PieceProperties.

Import Sha1Kernel Sha1Worker Sha1 Hashing.

(** The pieces, counted in natural numbers. *)
Lemma piecesOf_nat (blockSize : Z) (bytes : list Z) :
  0 < blockSize →
  piecesOf blockSize bytes
  = map (fun i : nat => take (Z.to_nat blockSize) (drop (i * Z.to_nat blockSize) bytes))
        (seq 0 ((length bytes + Z.to_nat blockSize - 1) / Z.to_nat blockSize)).
Proof.
  intros Hpos. unfold piecesOf, seqZ, Math_ceil_div.
  remember (Z.to_nat blockSize) as p eqn:Hp_eq.
  assert (0 < p)%nat as Hp by lia.
  assert (blockSize = Z.of_nat p) as Hb by lia. clear Hp_eq. subst blockSize.
  replace (Z.to_nat ((Z.of_nat (length bytes) + Z.of_nat p - 1) / Z.of_nat p))
    with ((length bytes + p - 1) / p)%nat.
  2:{ replace (Z.of_nat (length bytes) + Z.of_nat p - 1)
        with (Z.of_nat (length bytes + p - 1)) by lia.
      rewrite <- Nat2Z.inj_div. lia. }
  change (fmap ?f ?l) with (map f l). rewrite map_map.
  apply map_ext_in. intros i Hi%in_seq. unfold subarray.
  assert (i * p < length bytes)%nat as Hlt.
  { destruct Hi as [_ Hi]. cbn in Hi.
    pose proof (Nat.Div0.mul_div_le (length bytes + p - 1) p). nia. }
  replace (Z.to_nat ((Z.of_nat i + 0) * Z.of_nat p)) with (i * p)%nat by lia.
  replace (Z.to_nat (Z.min ((Z.of_nat i + 0 + 1) * Z.of_nat p) (Z.of_nat (length bytes)))
           - i * p)%nat
    with (min p (length (drop (i * p) bytes))) by (rewrite length_drop; lia).
  rewrite <- take_take. by rewrite (take_ge (drop (i * p) bytes) (length _)).
Qed.

Lemma concat_pieces (p : nat) (bytes : list Z) (k n : nat) :
  concat (map (fun i : nat => take p (drop (i * p) bytes)) (seq k n))
  = take (n * p) (drop (k * p) bytes).
Proof.
  revert k. induction n as [|n IH]; intros k; [done|].
  cbn [seq map concat]. rewrite IH.
  replace (S k * p)%nat with (k * p + p)%nat by lia.
  by rewrite <- drop_drop, take_take_drop.
Qed.

(** The pieces put together are the bytes. *)
Lemma concat_piecesOf (blockSize : Z) (bytes : list Z) :
  0 < blockSize → concat (piecesOf blockSize bytes) = bytes.
Proof.
  intros Hpos. rewrite piecesOf_nat by done.
  set (p := Z.to_nat blockSize). assert (0 < p)%nat as Hp by lia.
  rewrite concat_pieces. cbn [drop Nat.mul]. apply take_ge.
  pose proof (Nat.div_mod_eq (length bytes + p - 1) p).
  pose proof (Nat.mod_upper_bound (length bytes + p - 1) p). lia.
Qed.

Lemma length_piecesOf (blockSize : Z) (bytes : list Z) :
  0 < blockSize →
  Z.of_nat (length (piecesOf blockSize bytes))
  = Math_ceil_div (Z.of_nat (length bytes)) blockSize.
Proof.
  intros Hpos. unfold piecesOf. rewrite length_map, length_seqZ.
  unfold Math_ceil_div. apply Z2Nat.id, Z.div_pos; lia.
Qed.

(** No piece is longer than the piece size. *)
Lemma piecesOf_fit (blockSize : Z) (bytes : list Z) :
  0 < blockSize →
  Forall (fun piece => Z.of_nat (length piece) ≤ blockSize) (piecesOf blockSize bytes).
Proof.
  intros Hpos. rewrite piecesOf_nat by done. apply Forall_forall.
  intros piece (i & -> & _)%list_elem_of_fmap. rewrite length_take. lia.
Qed.

(** After a whole number of pieces the cutting starts afresh. *)
Lemma piecesOf_app (blockSize : Z) (chunk bytes : list Z) :
  0 < blockSize → Z.of_nat (length chunk) mod blockSize = 0 →
  piecesOf blockSize (chunk ++ bytes) = piecesOf blockSize chunk ++ piecesOf blockSize bytes.
Proof.
  intros Hpos Hwhole. rewrite !piecesOf_nat by done.
  set (p := Z.to_nat blockSize). assert (0 < p)%nat as Hp by lia.
  assert (∃ k, length chunk = (k * p)%nat) as [k Hk].
  { exists (length chunk / p)%nat.
    apply Z.mod_divide in Hwhole as [q Hq]; [|lia].
    assert (length chunk = Z.to_nat q * p)%nat as -> by nia.
    by rewrite Nat.div_mul by lia. }
  rewrite length_app, Hk.
  replace ((k * p + length bytes + p - 1) / p)%nat
    with (k + (length bytes + p - 1) / p)%nat.
  2:{ replace (k * p + length bytes + p - 1)%nat with (k * p + (length bytes + p - 1))%nat
        by lia.
      by rewrite Nat.div_add_l by lia. }
  replace ((k * p + p - 1) / p)%nat with k.
  2:{ replace (k * p + p - 1)%nat with (k * p + (p - 1))%nat by lia.
      rewrite Nat.div_add_l, Nat.div_small by lia. lia. }
  rewrite seq_app, map_app. f_equal.
  - apply map_ext_in. intros i [_ Hi]%in_seq. cbn in Hi.
    assert (i * p + p ≤ k * p)%nat as Hle by nia.
    rewrite drop_app_le by lia. apply take_app_le. rewrite length_drop. lia.
  - cbn [Nat.add]. set (m := ((length bytes + p - 1) / p)%nat).
    replace (seq k m) with (map (Nat.add k) (seq 0 m))
      by (rewrite <- (Nat.add_0_r k) at 2; apply (fmap_add_seq k 0)).
    rewrite map_map.
    apply map_ext. intros j. f_equal.
    replace ((k + j) * p)%nat with (length chunk + j * p)%nat by lia.
    by rewrite <- drop_drop, drop_app_length.
Qed.

Lemma piecesOf_nil (blockSize : Z) : 0 < blockSize → piecesOf blockSize [] = [].
Proof.
  intros Hpos. unfold piecesOf, Math_ceil_div. cbn [length].
  change (Z.of_nat 0) with 0. by rewrite Z.div_small by lia.
Qed.

(** The pieces of bytes are bytes. *)
Lemma piecesOf_isByte (blockSize : Z) (bytes : list Z) :
  Forall isByte bytes → Forall (Forall isByte) (piecesOf blockSize bytes).
Proof.
  intros Hbytes. unfold piecesOf, subarray.
  apply Forall_fmap, Forall_forall. intros i _. cbn.
  by apply Forall_take, Forall_drop.
Qed.

Lemma ceil_div_whole (a b : Z) :
  0 < b → 0 ≤ a → a mod b = 0 → Math_ceil_div a b = a / b.
Proof.
  intros Hb Ha Hmod. unfold Math_ceil_div. Z.div_mod_to_equations. nia.
Qed.

End PieceProperties.

Module PipelineProperties.

Import Sha1Kernel Sha1Worker Sha1 Hashing Sha1Properties PieceProperties.

(** *** The jobs *)

Lemma Jobs_nil_inv (blockSize start : Z) (bytes : list Z) :
  Jobs blockSize start [] bytes → bytes = [].
Proof. by inversion 1. Qed.

(** The bytes of the jobs before the last are a whole number of pieces, so
    the pieces of the jobs are the pieces of all the bytes. *)
Lemma Jobs_pieces (blockSize start : Z) (jobs : list Job) (bytes : list Z) :
  0 < blockSize → Jobs blockSize start jobs bytes →
  concat (map inputs jobs) = piecesOf blockSize bytes.
Proof.
  intros Hpos. induction 1 as [start|start chunk rest bytes Hwhole Hrest IH].
  - by rewrite piecesOf_nil.
  - cbn [map concat jobOf inputs]. rewrite IH. destruct rest as [|job rest].
    + apply Jobs_nil_inv in Hrest as ->. by rewrite piecesOf_nil, !app_nil_r.
    + by rewrite piecesOf_app by auto.
Qed.

(** [dispatchSha1Worker] after whole pieces: one more job. *)
Lemma Jobs_snoc (blockSize start : Z) (jobs : list Job) (bytes chunk : list Z) :
  0 < blockSize → Jobs blockSize start jobs bytes →
  Z.of_nat (length bytes) mod blockSize = 0 →
  Jobs blockSize start
    (jobs ++ [jobOf blockSize (start + Z.of_nat (length bytes) / blockSize) chunk])
    (bytes ++ chunk).
Proof.
  intros Hpos. induction 1 as [start|start chunk0 rest bytes Hwhole Hrest IH];
    intros Hbytes.
  - cbn [app length]. rewrite Z.div_0_l, Z.add_0_r by lia.
    rewrite <- (app_nil_r chunk) at 2. constructor; [done|constructor].
  - assert (Z.of_nat (length chunk0) mod blockSize = 0
            ∧ Z.of_nat (length bytes) mod blockSize = 0) as [Hchunk0 Hbytes0].
    { destruct rest as [|job rest].
      - apply Jobs_nil_inv in Hrest as ->. by rewrite app_nil_r in Hbytes.
      - pose proof (Hwhole ltac:(done)) as Hchunk0. split; [done|].
        rewrite length_app, Nat2Z.inj_add in Hbytes.
        rewrite <- Z.add_mod_idemp_l, Hchunk0 in Hbytes by lia. done. }
    cbn [app]. rewrite <- app_assoc. constructor; [done|].
    replace (start + Z.of_nat (length (chunk0 ++ bytes)) / blockSize)
      with (start + Math_ceil_div (Z.of_nat (length chunk0)) blockSize
            + Z.of_nat (length bytes) / blockSize); [by apply IH|].
    rewrite ceil_div_whole, length_app, Nat2Z.inj_add by lia.
    Z.div_mod_to_equations. nia.
Qed.

(** *** Reading *)

Lemma readingProgress_app (o1 o2 : list Observation) :
  readingProgress (o1 ++ o2) = readingProgress o1 + readingProgress o2.
Proof.
  unfold readingProgress. induction o1 as [|o o1 IH]; cbn [app foldr]; [done|].
  rewrite IH. destruct o; lia.
Qed.

Lemma processingProgress_app (o1 o2 : list Observation) :
  processingProgress (o1 ++ o2) = processingProgress o1 + processingProgress o2.
Proof.
  unfold processingProgress. induction o1 as [|o o1 IH]; cbn [app foldr]; [done|].
  rewrite IH. destruct o; lia.
Qed.

(** A check of the creation id, when nobody cancels. *)
Lemma isCancelled_never (creationId : Z) (st : State) :
  isCancelled creationId (fun _ => creationId) st
  = (false, {| pieceIndex := pieceIndex st; allWorkerPromises := allWorkerPromises st;
               readAccumulator := readAccumulator st;
               creationIdReads := S (creationIdReads st);
               observed := observed st |}).
Proof. unfold isCancelled. by rewrite Z.eqb_refl. Qed.

Lemma Reading_isCancelled (readBufferSize blockSize creationId : Z) (st : State)
    (bytes : list Z) :
  Reading readBufferSize blockSize st bytes →
  Reading readBufferSize blockSize
    {| pieceIndex := pieceIndex st; allWorkerPromises := allWorkerPromises st;
       readAccumulator := readAccumulator st;
       creationIdReads := S (creationIdReads st);
       observed := observed st |} bytes.
Proof. by intros []. Qed.

Lemma Reading_observe_started (readBufferSize blockSize : Z) (st : State)
    (bytes : list Z) (filePath : jsstring) :
  Reading readBufferSize blockSize st bytes →
  Reading readBufferSize blockSize (observe (OnReadingFileStarted filePath) st) bytes.
Proof.
  intros [Hdispatched Hroom Hprogress Hprocessing Hquiet].
  split; cbn [observe pieceIndex allWorkerPromises readAccumulator observed]; try done.
  - rewrite readingProgress_app, Hprogress. cbn. lia.
  - rewrite processingProgress_app, Hprocessing. cbn. lia.
  - intros p [Hin|[=]%list_elem_of_singleton]%elem_of_app. by apply (Hquiet p).
Qed.

Lemma dispatchSha1Worker_jobOf (blockSize : Z) (inputBytes : list Z) (st : State) :
  dispatchSha1Worker blockSize inputBytes st
  = {| pieceIndex :=
         pieceIndex st + Math_ceil_div (Z.of_nat (length inputBytes)) blockSize;
       allWorkerPromises :=
         allWorkerPromises st ++ [jobOf blockSize (pieceIndex st) inputBytes];
       readAccumulator := readAccumulator st;
       creationIdReads := creationIdReads st;
       observed := observed st |}.
Proof. done. Qed.

(** [onFileChunkRead] when nobody cancels: the chunk is taken in, and a
    full buffer goes to a worker. *)
Lemma onFileChunkRead_Reading (readBufferSize blockSize creationId : Z) (st : State)
    (bytes chunk : list Z) :
  0 < blockSize → readBufferSize mod blockSize = 0 →
  Z.of_nat (length chunk) ≤ readBufferSize →
  Reading readBufferSize blockSize st bytes →
  ∃ st',
    onFileChunkRead readBufferSize blockSize creationId (fun _ => creationId) chunk st
    = (false, st')
    ∧ Reading readBufferSize blockSize st' (bytes ++ chunk).
Proof.
  intros Hpos Hdivides Hchunk
    [(dispatched & Hjobs & Hfull & Hindex & ->) Hroom Hprogress Hprocessing Hquiet].
  assert (0 < readBufferSize) as HR by lia.
  assert (Z.of_nat (length dispatched) mod blockSize = 0) as Hwhole.
  { apply Z.mod_divide in Hfull as [a Ha]; [|lia].
    apply Z.mod_divide in Hdivides as [b Hb]; [|lia].
    rewrite Ha, Hb, Z.mul_assoc. apply Z.mod_mul. lia. }
  unfold onFileChunkRead. rewrite isCancelled_never.
  unfold readBufferIndex, observe.
  cbn [pieceIndex allWorkerPromises readAccumulator creationIdReads observed].
  destruct (Z.leb_spec readBufferSize
              (Z.of_nat (length (readAccumulator st)) + Z.of_nat (length chunk)))
    as [Hfills|Hfits].
  - set (remainingSize := readBufferSize - Z.of_nat (length (readAccumulator st))).
    assert (0 < remainingSize ≤ Z.of_nat (length chunk)) as Hremaining
      by (unfold remainingSize; lia).
    assert (subarray chunk 0 remainingSize = take (Z.to_nat remainingSize) chunk) as ->.
    { unfold subarray. cbn [Z.to_nat drop]. by rewrite Nat.sub_0_r. }
    set (full := readAccumulator st ++ take (Z.to_nat remainingSize) chunk).
    rewrite dispatchSha1Worker_jobOf. unfold setReadAccumulator.
    cbn [pieceIndex allWorkerPromises readAccumulator creationIdReads observed length].
    replace (readBufferSize <? Z.of_nat 0 + Z.of_nat (length (drop (Z.to_nat remainingSize) chunk)))
      with false by (symmetry; apply Z.ltb_ge; rewrite length_drop; lia).
    eexists. split; [done|].
    assert (Z.of_nat (length full) = readBufferSize) as Hfull_length.
    { unfold full. rewrite length_app, length_take. lia. }
    split; cbn [pieceIndex allWorkerPromises readAccumulator creationIdReads observed app].
    + exists (dispatched ++ full). split_and!.
      * rewrite Hindex. by apply (Jobs_snoc blockSize 0 _ dispatched full).
      * rewrite length_app, Nat2Z.inj_add, Hfull_length.
        by rewrite <- Z.add_mod_idemp_l, Hfull, Z.add_0_l, Z.mod_same by lia.
      * rewrite Hindex, length_app, Nat2Z.inj_add, Hfull_length.
        rewrite ceil_div_whole by lia. Z.div_mod_to_equations. nia.
      * unfold full. rewrite <- !app_assoc. by rewrite take_drop.
    + rewrite length_drop. lia.
    + rewrite readingProgress_app, Hprogress, !length_app. cbn. lia.
    + rewrite processingProgress_app, Hprocessing. cbn. lia.
    + intros p [Hin|[=]%list_elem_of_singleton]%elem_of_app. by apply (Hquiet p).
  - unfold setReadAccumulator.
    cbn [pieceIndex allWorkerPromises readAccumulator creationIdReads observed].
    replace (readBufferSize
             <? Z.of_nat (length (readAccumulator st)) + Z.of_nat (length chunk))
      with false by (symmetry; apply Z.ltb_ge; lia).
    eexists. split; [done|].
    split; cbn [pieceIndex allWorkerPromises readAccumulator creationIdReads observed].
    + exists dispatched. split_and!; try done. by rewrite app_assoc.
    + rewrite length_app. lia.
    + rewrite readingProgress_app, Hprogress, !length_app. cbn. lia.
    + rewrite processingProgress_app, Hprocessing. cbn. lia.
    + intros p [Hin|[=]%list_elem_of_singleton]%elem_of_app. by apply (Hquiet p).
Qed.

(** The stream loop on a readable stream. *)
Lemma readStream_Reading (readBufferSize blockSize creationId : Z)
    (filePath : jsstring) (reads : list ReadResult) :
  0 < blockSize → readBufferSize mod blockSize = 0 →
  streamReadable readBufferSize reads →
  ∀ st bytes,
    Reading readBufferSize blockSize st bytes →
    ∃ st',
      readStream readBufferSize blockSize creationId (fun _ => creationId)
        filePath reads st = Continue st'
      ∧ Reading readBufferSize blockSize st' (bytes ++ streamBytes reads).
Proof.
  intros Hpos Hdivides.
  induction reads as [|[|value isDone] reads IH]; intros Hreadable st bytes Hreading;
    cbn [readStream streamBytes].
  - rewrite isCancelled_never, app_nil_r. eexists. split; [done|].
    by apply Reading_isCancelled.
  - done.
  - destruct Hreadable as [Hchunk Hrest]. rewrite isCancelled_never.
    apply (Reading_isCancelled _ _ creationId) in Hreading.
    set (st1 := {| pieceIndex := pieceIndex st |}) in *.
    assert (∃ st2,
              match value with
              | Some chunk =>
                  onFileChunkRead readBufferSize blockSize creationId
                    (fun _ => creationId) chunk st1
              | None => (false, st1)
              end = (false, st2)
              ∧ Reading readBufferSize blockSize st2 (bytes ++ default [] value))
      as (st2 & -> & Hreading2).
    { destruct value as [chunk|]; cbn [default] in *.
      - by apply onFileChunkRead_Reading.
      - exists st1. by rewrite app_nil_r. }
    destruct isDone.
    + rewrite app_nil_r. by exists st2.
    + destruct Hrest as [[=]|Hrest].
      destruct (IH Hrest st2 _ Hreading2) as (st' & Hrun & Hreading').
      exists st'. split; [done|]. by rewrite app_assoc.
Qed.

(** The loop over the files, on readable files. *)
Lemma readFiles_Reading (readBufferSize blockSize creationId : Z)
    (inputFiles : list FileWithPath) :
  0 < blockSize → readBufferSize mod blockSize = 0 →
  filesReadable readBufferSize inputFiles →
  ∀ st bytes,
    Reading readBufferSize blockSize st bytes →
    ∃ st',
      readFiles readBufferSize blockSize creationId (fun _ => creationId) true
        inputFiles st = Continue st'
      ∧ Reading readBufferSize blockSize st' (bytes ++ contentOf inputFiles).
Proof.
  intros Hpos Hdivides. unfold contentOf.
  induction 1 as [|f inputFiles Hf _ IH]; intros st bytes Hreading;
    cbn [readFiles map concat].
  - rewrite app_nil_r. by exists st.
  - unfold readFile, isRead in *. destruct (size (file f) =? 0); cbn [negb] in *.
    + destruct (IH st bytes Hreading) as (st' & Hrun & Hreading'). by exists st'.
    + apply (Reading_observe_started _ _ _ _ (Array_join (path f))) in Hreading.
      destruct (readStream_Reading readBufferSize blockSize creationId
                  (Array_join (path f)) (reads (file f)) Hpos Hdivides (Hf eq_refl)
                  _ _ Hreading) as (st1 & -> & Hreading1).
      destruct (IH st1 _ Hreading1) as (st' & Hrun & Hreading').
      exists st'. split; [done|]. by rewrite app_assoc.
Qed.

(** *** Hashing *)

(** Inputs in buffers of their own, none detached, can be posted. *)
Lemma own_buffers_posted (n : nat) :
  postMessageThrows [] (map (fun i : nat => i) (seq 0 n)) = false.
Proof.
  apply PoolProperties.postMessageThrows_false. split.
  - rewrite map_id. apply NoDup_seq.
  - intros b _ Hb. by apply elem_of_nil in Hb.
Qed.

(** What the pool answers when the job's creation is the active one. *)
Lemma poolAnswer_digests (creationId : Z) (n : nat) (job : Job) :
  Forall (fun bytes => Z.of_nat (length bytes) ≤ 16 * MB) (inputs job) →
  ∃ digests,
    digestsOf (inputs job) digests
    ∧ poolAnswer creationId (fun _ => creationId) n job
      = Some (Some {| result := concat digests; originalInputs := inputs job |}).
Proof.
  intros Hfit. unfold poolAnswer, hashWithWorker, transferList.
  cbn [Sha1.creationId Sha1.isCancelled setCreationId activeCreationId data remote
       buffer].
  rewrite Z.eqb_refl, own_buffers_posted. cbn [negb].
  destruct (computeHashes_digests {| HEAPU8 := zeroMemory |} (inputs job) Hfit)
    as (digests & this' & Hdigests & ->).
  by exists digests.
Qed.

Lemma finished_fields (jobs : list Job) (st : State) :
  pieceIndex (finished jobs st) = pieceIndex st
  ∧ allWorkerPromises (finished jobs st) = allWorkerPromises st
  ∧ readAccumulator (finished jobs st) = readAccumulator st
  ∧ creationIdReads (finished jobs st) = creationIdReads st
  ∧ observed (finished jobs st)
    = observed st ++ map (fun job => UpdateProcessingProgress (inputLength job)) jobs.
Proof.
  unfold finished. revert st.
  induction jobs as [|job jobs IH]; intros st; cbn [fold_left map].
  - by rewrite app_nil_r.
  - destruct (IH (observe (UpdateProcessingProgress (inputLength job)) st))
      as (-> & -> & -> & -> & ->).
    unfold observe.
    cbn [pieceIndex allWorkerPromises readAccumulator creationIdReads observed].
    by rewrite <- app_assoc.
Qed.

(** The jobs write the digests of their pieces one after the other. *)
Lemma awaitAll_Jobs (blockSize creationId start : Z) (jobs : list Job) (bytes : list Z) :
  0 < blockSize ≤ 16 * MB →
  Jobs blockSize start jobs bytes →
  ∀ (n : nat) (done : list Z) (room : nat) (st : State),
    Z.of_nat (length done) = start * 20 →
    ∃ digests,
      digestsOf (piecesOf blockSize bytes) digests
      ∧ awaitAll creationId (fun _ => creationId) n jobs
          (done ++ replicate (20 * length (piecesOf blockSize bytes) + room) 0) st
        = Some (done ++ concat digests ++ replicate room 0, finished jobs st).
Proof.
  intros Hsize. induction 1 as [start|start chunk rest bytes Hwhole Hrest IH];
    intros n done room st Hdone.
  - exists []. rewrite piecesOf_nil by lia. split; [constructor|done].
  - assert (piecesOf blockSize (chunk ++ bytes)
            = piecesOf blockSize chunk ++ piecesOf blockSize bytes) as ->.
    { destruct rest as [|job rest].
      - apply Jobs_nil_inv in Hrest as ->. by rewrite piecesOf_nil, !app_nil_r by lia.
      - apply piecesOf_app; [lia|auto]. }
    destruct (poolAnswer_digests creationId n (jobOf blockSize start chunk))
      as (digests1 & Hdigests1 & Hanswer).
    { eapply Forall_impl; [apply piecesOf_fit; lia|]. cbn. lia. }
    cbn [jobOf inputs] in Hdigests1.
    pose proof (digestsOf_length _ _ Hdigests1) as Hlength1.
    destruct (IH (S n) (done ++ concat digests1) room
                (observe (UpdateProcessingProgress (Z.of_nat (length chunk))) st))
      as (digests2 & Hdigests2 & Hrun).
    { rewrite length_app, Nat2Z.inj_add, Hdone, Hlength1.
      rewrite <- (length_piecesOf blockSize chunk) by lia. lia. }
    exists (digests1 ++ digests2). split; [by apply Forall2_app|].
    cbn [awaitAll]. rewrite Hanswer. cbn [mbind option_bind result jobOf startPieceIndex
                                          inputLength].
    rewrite <- Hdone.
    replace (20 * length (piecesOf blockSize chunk ++ piecesOf blockSize bytes) + room)%nat
      with (length (concat digests1)
            + (20 * length (piecesOf blockSize bytes) + room))%nat
      by (rewrite length_app; lia).
    rewrite Uint8Array_set_next. cbn [mbind option_bind].
    rewrite Hrun, concat_app, <- !app_assoc. done.
Qed.

Lemma Jobs_inputLength (blockSize start : Z) (jobs : list Job) (bytes : list Z) :
  Jobs blockSize start jobs bytes →
  processingProgress (map (fun job => UpdateProcessingProgress (inputLength job)) jobs)
  = Z.of_nat (length bytes)
  ∧ readingProgress (map (fun job => UpdateProcessingProgress (inputLength job)) jobs)
    = 0.
Proof.
  induction 1 as [start|start chunk rest bytes Hwhole Hrest [IH1 IH2]]; [done|].
  unfold processingProgress, readingProgress in *.
  cbn [map foldr jobOf inputLength]. rewrite IH1, IH2, length_app. lia.
Qed.

(** From the end of the reading on, when nobody cancels. *)
Lemma calculateHashes_from_read (readBufferSize blockSize creationId : Z)
    (hasBYOB : bool) (inputFiles : list FileWithPath) (content : list Z) (st1 : State) :
  0 < blockSize ≤ 16 * MB → readBufferSize mod blockSize = 0 → 0 < readBufferSize →
  readFiles readBufferSize blockSize creationId (fun _ => creationId) hasBYOB
    inputFiles freshState = Continue st1 →
  Reading readBufferSize blockSize st1 content →
  ∃ digests st,
    calculateHashes_from readBufferSize blockSize creationId (fun _ => creationId)
      (fun _ => creationId) hasBYOB inputFiles (Z.of_nat (length content))
    = (Resolved (ok (concat digests)), st)
    ∧ digestsOf (piecesOf blockSize content) digests
    ∧ pieceIndex st = Z.of_nat (length (piecesOf blockSize content))
    ∧ readingProgress (observed st) = Z.of_nat (length content)
    ∧ processingProgress (observed st) = Z.of_nat (length content)
    ∧ concat (map inputs (allWorkerPromises st)) = piecesOf blockSize content.
Proof.
  intros Hsize Hdivides HR Hread Hreading.
  destruct Hreading
    as [(dispatched & Hjobs & Hfull & Hindex & Hcontent) Hroom Hprogress Hprocessing _].
  assert (Z.of_nat (length dispatched) mod blockSize = 0) as Hwhole.
  { apply Z.mod_divide in Hfull as [a Ha]; [|lia].
    apply Z.mod_divide in Hdivides as [b Hb]; [|lia].
    rewrite Ha, Hb, Z.mul_assoc. apply Z.mod_mul. lia. }
  unfold calculateHashes_from. fold freshState. rewrite Hread.
  set (st2 := if readBufferIndex st1 =? 0 then st1
              else dispatchSha1Worker blockSize (readAccumulator st1) st1).
  assert (Jobs blockSize 0 (allWorkerPromises st2) content
          ∧ pieceIndex st2 = Z.of_nat (length (piecesOf blockSize content))
          ∧ observed st2 = observed st1) as (Hjobs2 & Hindex2 & Hobserved2).
  { unfold st2, readBufferIndex.
    destruct (Z.eqb_spec (Z.of_nat (length (readAccumulator st1))) 0) as [Hempty|Hrest].
    - destruct (readAccumulator st1); [|done]. rewrite app_nil_r in Hcontent.
      subst dispatched. split_and!; [done| |done].
      rewrite Hindex, length_piecesOf, ceil_div_whole by lia. done.
    - rewrite dispatchSha1Worker_jobOf. cbn [allWorkerPromises pieceIndex observed].
      split_and!; [| |done].
      + rewrite Hcontent, Hindex. by apply (Jobs_snoc blockSize 0); [lia|..].
      + rewrite Hindex, Hcontent, piecesOf_app, length_app, Nat2Z.inj_add by lia.
        rewrite !length_piecesOf, (ceil_div_whole (Z.of_nat (length dispatched))) by lia.
        done. }
  clearbody st2. rewrite isCancelled_never.
  set (st3 := {| pieceIndex := pieceIndex st2 |}).
  destruct (awaitAll_Jobs blockSize creationId 0 _ _ Hsize Hjobs2 0%nat [] 0%nat st3 eq_refl)
    as (digests & Hdigests & Hawait).
  change (allWorkerPromises st3) with (allWorkerPromises st2) in *.
  unfold Uint8Array_new.
  replace (Z.to_nat (Math_ceil_div (Z.of_nat (length content)) blockSize * 20))
    with (20 * length (piecesOf blockSize content) + 0)%nat
    by (rewrite <- length_piecesOf by lia; lia).
  rewrite app_nil_l in Hawait. rewrite Hawait, app_nil_l, app_nil_r.
  rewrite isCancelled_never.
  destruct (finished_fields (allWorkerPromises st2) st3)
    as (Hf1 & Hf2 & Hf3 & Hf4 & Hf5).
  destruct (Jobs_inputLength _ _ _ _ Hjobs2) as [Hsum1 Hsum2].
  eexists digests, _. split; [done|].
  cbn [pieceIndex allWorkerPromises observed]. rewrite Hf1, Hf2, Hf5.
  cbn [st3 pieceIndex observed]. rewrite Hobserved2.
  rewrite readingProgress_app, processingProgress_app, Hsum1, Hsum2, Hprogress,
    Hprocessing.
  split_and!; [done|done|lia|lia|]. by apply (Jobs_pieces blockSize 0); [lia|].
Qed.

Lemma Reading_freshState (readBufferSize blockSize : Z) :
  0 < readBufferSize → Reading readBufferSize blockSize freshState [].
Proof.
  intros HR. split; cbn; try done.
  - exists []. split_and!; try done. constructor.
  - intros p. apply not_elem_of_nil.
Qed.

(** A run over readable files that nobody cancels. *)
Lemma calculateHashes_from_run (readBufferSize blockSize creationId : Z)
    (inputFiles : list FileWithPath) :
  0 < blockSize ≤ 16 * MB → readBufferSize mod blockSize = 0 → 0 < readBufferSize →
  filesReadable readBufferSize inputFiles →
  ∃ digests st,
    calculateHashes_from readBufferSize blockSize creationId (fun _ => creationId)
      (fun _ => creationId) true inputFiles (Z.of_nat (length (contentOf inputFiles)))
    = (Resolved (ok (concat digests)), st)
    ∧ digestsOf (piecesOf blockSize (contentOf inputFiles)) digests
    ∧ pieceIndex st = Z.of_nat (length (piecesOf blockSize (contentOf inputFiles)))
    ∧ readingProgress (observed st) = Z.of_nat (length (contentOf inputFiles))
    ∧ processingProgress (observed st) = Z.of_nat (length (contentOf inputFiles))
    ∧ concat (map inputs (allWorkerPromises st))
      = piecesOf blockSize (contentOf inputFiles).
Proof.
  intros Hsize Hdivides HR Hreadable.
  destruct (readFiles_Reading readBufferSize blockSize creationId inputFiles
              ltac:(lia) Hdivides Hreadable _ _ (Reading_freshState _ blockSize HR))
    as (st1 & Hread & Hreading).
  by apply (calculateHashes_from_read _ _ _ true inputFiles _ st1).
Qed.

(** The loop over the slices of a file that can be read. *)
Lemma readSlices_Reading (readBufferSize blockSize creationId : Z)
    (filePath : jsstring) (count : nat) :
  0 < blockSize → readBufferSize mod blockSize = 0 →
  ∀ reads st bytes,
    slicesReadable readBufferSize count reads →
    Reading readBufferSize blockSize st bytes →
    ∃ st',
      readSlices readBufferSize blockSize creationId (fun _ => creationId)
        filePath count reads st = Continue st'
      ∧ Reading readBufferSize blockSize st' (bytes ++ sliceBytes count reads).
Proof.
  intros Hpos Hdivides.
  induction count as [|count IH]; intros reads st bytes Hreadable Hreading;
    cbn [readSlices sliceBytes].
  - rewrite app_nil_r. by exists st.
  - destruct reads as [|[|[chunk|] isDone] reads]; cbn [slicesReadable] in Hreadable;
      try done.
    + pose proof (reading_room _ _ _ _ Hreading) as Hroom.
      destruct (onFileChunkRead_Reading readBufferSize blockSize creationId st bytes []
                  Hpos Hdivides ltac:(cbn; lia) Hreading) as (st1 & -> & Hreading1).
      rewrite isCancelled_never.
      apply (Reading_isCancelled _ _ creationId) in Hreading1.
      destruct (IH [] _ _ ltac:(by destruct count) Hreading1)
        as (st' & Hrun & Hreading').
      assert (sliceBytes count [] = []) as Hnil by (by destruct count).
      rewrite Hnil, !app_nil_r in Hreading'.
      exists st'. split; [done|]. by rewrite app_nil_r.
    + destruct Hreadable as [Hchunk Hrest].
      destruct (onFileChunkRead_Reading readBufferSize blockSize creationId st bytes chunk
                  Hpos Hdivides Hchunk Hreading) as (st1 & -> & Hreading1).
      rewrite isCancelled_never.
      apply (Reading_isCancelled _ _ creationId) in Hreading1.
      destruct (IH reads _ _ Hrest Hreading1) as (st' & Hrun & Hreading').
      exists st'. split; [done|]. by rewrite app_assoc.
Qed.

Lemma readFiles_slices_Reading (readBufferSize blockSize creationId : Z)
    (inputFiles : list FileWithPath) :
  0 < blockSize → readBufferSize mod blockSize = 0 →
  filesSliceable readBufferSize inputFiles →
  ∀ st bytes,
    Reading readBufferSize blockSize st bytes →
    ∃ st',
      readFiles readBufferSize blockSize creationId (fun _ => creationId) false
        inputFiles st = Continue st'
      ∧ Reading readBufferSize blockSize st'
          (bytes ++ sliceContentOf readBufferSize inputFiles).
Proof.
  intros Hpos Hdivides. unfold sliceContentOf.
  induction 1 as [|f inputFiles Hf _ IH]; intros st bytes Hreading;
    cbn [readFiles map concat].
  - rewrite app_nil_r. by exists st.
  - unfold readFile, isRead in *. destruct (size (file f) =? 0); cbn [negb] in *.
    + destruct (IH st bytes Hreading) as (st' & Hrun & Hreading'). by exists st'.
    + apply (Reading_observe_started _ _ _ _ (Array_join (path f))) in Hreading.
      destruct (readSlices_Reading readBufferSize blockSize creationId
                  (Array_join (path f)) (sliceCount readBufferSize f) Hpos Hdivides
                  (reads (file f)) _ _ (Hf eq_refl) Hreading) as (st1 & Hrun1 & Hreading1).
      unfold sliceCount in Hrun1. rewrite Hrun1.
      destruct (IH st1 _ Hreading1) as (st' & Hrun & Hreading').
      exists st'. split; [done|]. by rewrite app_assoc.
Qed.

Lemma calculateHashes_from_slices (readBufferSize blockSize creationId : Z)
    (inputFiles : list FileWithPath) :
  0 < blockSize ≤ 16 * MB → readBufferSize mod blockSize = 0 → 0 < readBufferSize →
  filesSliceable readBufferSize inputFiles →
  let content := sliceContentOf readBufferSize inputFiles in
  ∃ digests st,
    calculateHashes_from readBufferSize blockSize creationId (fun _ => creationId)
      (fun _ => creationId) false inputFiles (Z.of_nat (length content))
    = (Resolved (ok (concat digests)), st)
    ∧ digestsOf (piecesOf blockSize content) digests
    ∧ pieceIndex st = Z.of_nat (length (piecesOf blockSize content))
    ∧ readingProgress (observed st) = Z.of_nat (length content)
    ∧ processingProgress (observed st) = Z.of_nat (length content)
    ∧ concat (map inputs (allWorkerPromises st)) = piecesOf blockSize content.
Proof.
  intros Hsize Hdivides HR Hreadable.
  destruct (readFiles_slices_Reading readBufferSize blockSize creationId inputFiles
              ltac:(lia) Hdivides Hreadable _ _ (Reading_freshState _ blockSize HR))
    as (st1 & Hread & Hreading).
  by apply (calculateHashes_from_read _ _ _ false inputFiles _ st1).
Qed.

End PipelineProperties.

Module PipelineClaims.

Import Sha1Kernel Sha1Worker Sha1 Hashing Sha1Standard KernelProperties
  PieceProperties PipelineProperties.

(** X16 (TorrentHelper.ts, calculateHashes): when the streams of the files
    can be read to their end, the piece size divides the 16 MB of the read
    buffer, the total size is the number of bytes read and nobody cancels,
    the function resolves with the SHA-1 digests (the message digests of
    FIPS 180-4), one after the other, of the pieces of the bytes of all the
    files put together in the order of the list. Piece [i] is the bytes
    from [i * blockSize] up to [(i + 1) * blockSize] or the end of the last
    file: files do not start new pieces, and it does not matter how the
    streams cut the bytes into chunks. *)
Theorem calculateHashes_hashes_pieces_of_all_files
    (inputFiles : list FileWithPath) (blockSize creationId : Z) :
  0 < blockSize ≤ 16 * MB → (16 * MB) mod blockSize = 0 →
  filesReadable (16 * MB) inputFiles →
  Forall isByte (contentOf inputFiles) →
  ∃ st,
    calculateHashes inputFiles (Z.of_nat (length (contentOf inputFiles))) blockSize
      creationId (fun _ => creationId) (fun _ => creationId) true
    = (Resolved (ok (concat (map SHA1 (piecesOf blockSize (contentOf inputFiles))))),
       st)
    ∧ piecesOf blockSize (contentOf inputFiles)
      = map (fun i : nat => take (Z.to_nat blockSize)
                              (drop (i * Z.to_nat blockSize) (contentOf inputFiles)))
            (seq 0 (Z.to_nat (Math_ceil_div (Z.of_nat (length (contentOf inputFiles)))
                                blockSize)))
    ∧ concat (piecesOf blockSize (contentOf inputFiles)) = contentOf inputFiles
    ∧ concat (map inputs (allWorkerPromises st))
      = piecesOf blockSize (contentOf inputFiles).
Proof.
  intros Hsize Hdivides Hreadable Hbytes.
  destruct (calculateHashes_from_run (16 * MB) blockSize creationId inputFiles
              Hsize Hdivides ltac:(done) Hreadable)
    as (digests & st & Hrun & Hdigests & _ & _ & _ & Hjobs).
  apply digestsOf_SHA1 in Hdigests as ->; [|by apply piecesOf_isByte].
  exists st. split_and!; [done| | |done].
  - rewrite <- length_piecesOf, Nat2Z.id by lia.
    rewrite (piecesOf_nat blockSize) at 1 by lia. f_equal.
    by rewrite (piecesOf_nat blockSize), length_map, length_seq by lia.
  - apply concat_piecesOf. lia.
Qed.

Lemma calculateHashes_hashes_pieces_of_all_files_witness :
  let inputFiles :=
    [sampleInput "a" 3 [ReadChunk (Some (js "a")) false; ReadChunk (Some (js "bc")) true];
     sampleInput "empty" 0 [ReadThrows];
     sampleInput "b" 2 [ReadChunk (Some (js "de")) false; ReadChunk None true]] in
  ∃ st,
    calculateHashes inputFiles (Z.of_nat (length (contentOf inputFiles))) 2
      7 (fun _ => 7) (fun _ => 7) true
    = (Resolved (ok (concat (map SHA1 (piecesOf 2 (contentOf inputFiles))))), st)
    ∧ piecesOf 2 (contentOf inputFiles)
      = map (fun i : nat => take (Z.to_nat 2)
                              (drop (i * Z.to_nat 2) (contentOf inputFiles)))
            (seq 0 (Z.to_nat (Math_ceil_div (Z.of_nat (length (contentOf inputFiles)))
                                2)))
    ∧ concat (piecesOf 2 (contentOf inputFiles)) = contentOf inputFiles
    ∧ concat (map inputs (allWorkerPromises st)) = piecesOf 2 (contentOf inputFiles).
Proof.
  intros inputFiles.
  apply (calculateHashes_hashes_pieces_of_all_files inputFiles 2 7).
  - unfold MB, KB. lia.
  - reflexivity.
  - repeat (apply Forall_cons; split); [| | |constructor]; cbn; unfold MB, KB.
    + intros _. split; [lia|]. right. split; [lia|by left].
    + discriminate.
    + intros _. split; [lia|]. right. split; [lia|by left].
  - repeat constructor; cbn; lia.
Defined.

(** X17 (TorrentHelper.ts, calculateHashes): in such a run the arguments of
    [updateReadingProgress] add up to the total size, and so do those of
    [updateProcessingProgress]: the two halves of the progress bar of the
    form both end at the total size, and [pieceIndex] ends at the number of
    pieces. *)
Theorem calculateHashes_progress_reaches_total
    (inputFiles : list FileWithPath) (blockSize creationId : Z) :
  0 < blockSize ≤ 16 * MB → (16 * MB) mod blockSize = 0 →
  filesReadable (16 * MB) inputFiles →
  let totalSize := Z.of_nat (length (contentOf inputFiles)) in
  let st := snd (calculateHashes inputFiles totalSize blockSize creationId
                   (fun _ => creationId) (fun _ => creationId) true) in
  readingProgress (observed st) = totalSize
  ∧ processingProgress (observed st) = totalSize
  ∧ pieceIndex st = Math_ceil_div totalSize blockSize.
Proof.
  intros Hsize Hdivides Hreadable.
  destruct (calculateHashes_from_run (16 * MB) blockSize creationId inputFiles
              Hsize Hdivides ltac:(done) Hreadable)
    as (digests & st & Hrun & _ & Hindex & Hreading & Hprocessing & _).
  cbv zeta. unfold calculateHashes. rewrite Hrun. cbn [snd].
  split_and!; [done|done|]. rewrite Hindex. apply length_piecesOf. lia.
Qed.

Lemma calculateHashes_progress_reaches_total_witness :
  let inputFiles :=
    [sampleInput "a" 3 [ReadChunk (Some (js "abc")) true];
     sampleInput "b" 2 [ReadChunk (Some (js "de")) true]] in
  let totalSize := Z.of_nat (length (contentOf inputFiles)) in
  let st := snd (calculateHashes inputFiles totalSize 2 7 (fun _ => 7) (fun _ => 7) true) in
  readingProgress (observed st) = totalSize
  ∧ processingProgress (observed st) = totalSize
  ∧ pieceIndex st = Math_ceil_div totalSize 2.
Proof.
  intros inputFiles.
  apply (calculateHashes_progress_reaches_total inputFiles 2 7).
  - unfold MB, KB. lia.
  - reflexivity.
  - repeat (apply Forall_cons; split); [| |constructor]; cbn; unfold MB, KB.
    + intros _. split; [lia|by left].
    + intros _. split; [lia|by left].
Defined.

(** X18 (TorrentHelper.ts, calculateHashes): the slower reader, which asks
    a file for [ceil(size / 16 MB)] slices, gives the same piece table as
    the stream reader whenever both deliver the same bytes: when every
    slice can be read and nobody cancels, the function resolves with the
    digests of the pieces of the bytes of the slices put together (the
    SHA-1 digests of FIPS 180-4 when the slices are bytes), and both halves
    of the progress end at their number. *)
Theorem calculateHashes_slices_hash_same_pieces
    (inputFiles : list FileWithPath) (blockSize creationId : Z) :
  0 < blockSize ≤ 16 * MB → (16 * MB) mod blockSize = 0 →
  filesSliceable (16 * MB) inputFiles →
  let content := sliceContentOf (16 * MB) inputFiles in
  let totalSize := Z.of_nat (length content) in
  (∃ digests st,
     calculateHashes inputFiles totalSize blockSize creationId
       (fun _ => creationId) (fun _ => creationId) false
     = (Resolved (ok (concat digests)), st)
     ∧ digestsOf (piecesOf blockSize content) digests
     ∧ readingProgress (observed st) = totalSize
     ∧ processingProgress (observed st) = totalSize
     ∧ (Forall isByte content → digests = map SHA1 (piecesOf blockSize content)))
  ∧ ∀ streamedFiles,
      filesReadable (16 * MB) streamedFiles → contentOf streamedFiles = content →
      fst (calculateHashes streamedFiles totalSize blockSize creationId
             (fun _ => creationId) (fun _ => creationId) true)
      = fst (calculateHashes inputFiles totalSize blockSize creationId
               (fun _ => creationId) (fun _ => creationId) false).
Proof.
  intros Hsize Hdivides Hsliceable. cbv zeta.
  destruct (calculateHashes_from_slices (16 * MB) blockSize creationId inputFiles
              Hsize Hdivides ltac:(done) Hsliceable)
    as (digests & st & Hrun & Hdigests & _ & Hreading & Hprocessing & _).
  split.
  { exists digests, st. split_and!; try done.
    intros Hbytes. apply digestsOf_SHA1; [|done]. by apply piecesOf_isByte. }
  intros streamedFiles Hreadable Hcontent.
  destruct (calculateHashes_from_run (16 * MB) blockSize creationId streamedFiles
              Hsize Hdivides ltac:(done) Hreadable)
    as (digests' & st' & Hrun' & Hdigests' & _).
  rewrite Hcontent in Hrun', Hdigests'. unfold calculateHashes.
  rewrite Hrun, Hrun'. cbn [fst]. do 3 f_equal.
  by apply (digestsOf_unique (piecesOf blockSize (sliceContentOf (16 * MB) inputFiles))).
Qed.

Lemma calculateHashes_slices_hash_same_pieces_witness :
  let inputFiles :=
    [sampleInput "a" 3 [ReadChunk (Some (js "abc")) false];
     sampleInput "b" 2 [ReadChunk (Some (js "de")) false]] in
  let content := sliceContentOf (16 * MB) inputFiles in
  let totalSize := Z.of_nat (length content) in
  ∃ digests st,
    calculateHashes inputFiles totalSize 2 7 (fun _ => 7) (fun _ => 7) false
    = (Resolved (ok (concat digests)), st)
    ∧ digestsOf (piecesOf 2 content) digests
    ∧ readingProgress (observed st) = totalSize
    ∧ processingProgress (observed st) = totalSize
    ∧ (Forall isByte content → digests = map SHA1 (piecesOf 2 content)).
Proof.
  intros inputFiles.
  refine (proj1 (calculateHashes_slices_hash_same_pieces inputFiles 2 7 _ _ _)).
  - unfold MB, KB. lia.
  - reflexivity.
  - repeat (apply Forall_cons; split); [| |constructor]; intros _; vm_compute;
      by split.
Defined.

End PipelineClaims.
(** ** Text areas and sizes *)

Module UtilProperties.

Import UtilText BlockSizeProperties.

Lemma split_ws_from_free_prefix (piece line rest : jsstring) :
  Forall (fun c => isWhitespace c = false) line →
  split_ws_from false piece (line ++ rest) = split_ws_from false (piece ++ line) rest.
Proof.
  intros Hfree. revert piece.
  induction Hfree as [|c line Hc Hfree IH]; intros piece; [by rewrite app_nil_r|].
  cbn [app split_ws_from]. rewrite Hc, IH. by rewrite <- app_assoc.
Qed.

Lemma split_ws_from_line (inSeparator : bool) (piece line rest : jsstring) :
  isLine line →
  split_ws_from inSeparator piece (line ++ rest)
  = split_ws_from false (piece ++ line) rest.
Proof.
  intros [Hne Hfree]. destruct Hfree as [|c line Hc Hfree]; [done|].
  cbn [app split_ws_from]. rewrite Hc, split_ws_from_free_prefix by done.
  by rewrite <- app_assoc.
Qed.

(** Lines that end with a line feed each are split into themselves and the
    empty piece after the last line feed. *)
Lemma split_ws_from_lines (inSeparator : bool) (lines : list jsstring) :
  Forall isLine lines →
  split_ws_from inSeparator [] (concat (map (fun line => line ++ [10]) lines))
  = lines ++ [[]].
Proof.
  intros Hlines. revert inSeparator.
  induction Hlines as [|line lines Hline _ IH]; intros inSeparator; [done|].
  cbn [map concat]. rewrite <- app_assoc, split_ws_from_line by done.
  cbn [app split_ws_from isWhitespace]. cbn. by rewrite IH.
Qed.

Lemma split_ws_from_free (inSeparator : bool) (piece s : jsstring) :
  Forall (fun c => isWhitespace c = false) piece →
  Forall (Forall (fun c => isWhitespace c = false)) (split_ws_from inSeparator piece s).
Proof.
  revert inSeparator piece. induction s as [|c s IH]; intros inSeparator piece Hpiece.
  - by repeat constructor.
  - cbn [split_ws_from]. destruct (isWhitespace c) eqn:Hc.
    + destruct inSeparator; [by apply IH|]. constructor; [done|]. by apply IH.
    + apply IH. apply Forall_app. by repeat constructor.
Qed.

Lemma getLines_isLine (str : jsstring) : Forall isLine (getLines str).
Proof.
  unfold getLines. apply Forall_forall. intros line [Hne Hin]%list_elem_of_filter.
  split; [by destruct line|].
  pose proof (split_ws_from_free false [] str ltac:(constructor)) as Hfree.
  rewrite Forall_forall in Hfree. by apply Hfree.
Qed.

Lemma filter_lines (lines : list jsstring) :
  Forall isLine lines →
  filter (fun line => length line ≠ 0%nat) (lines ++ [[]]) = lines.
Proof.
  induction 1 as [|line lines [Hne _] _ IH]; [done|].
  cbn [app]. rewrite filter_cons_True by (by destruct line). by f_equal.
Qed.

Lemma join_lines (lines : list jsstring) :
  join lines [10] ++ (if lines is [] then [] else [10])
  = concat (map (fun line => line ++ [10]) lines).
Proof.
  induction lines as [|line lines IH]; [done|].
  cbn [map concat]. rewrite <- IH.
  destruct lines as [|line' lines]; [cbn; by rewrite app_nil_r|].
  cbn [join]. by rewrite <- !app_assoc.
Qed.

Lemma formatTextAreaLines_lines (value : jsstring) :
  formatTextAreaLines value = concat (map (fun line => line ++ [10]) (getLines value)).
Proof.
  unfold formatTextAreaLines. rewrite <- join_lines.
  destruct (getLines value); [done|]. done.
Qed.

Lemma getLines_formatTextAreaLines (value : jsstring) :
  getLines (formatTextAreaLines value) = getLines value.
Proof.
  rewrite formatTextAreaLines_lines. unfold getLines at 1. unfold split_ws.
  rewrite split_ws_from_lines by apply getLines_isLine.
  apply filter_lines, getLines_isLine.
Qed.

End UtilProperties.

Module UtilClaims.

Import UtilText UtilProperties.

(** X19 (Util.ts, formatTextAreaLines and getLines): formatting a text area
    writes the lines of its value, each followed by one line feed. The
    lines of the new value are those of the old one, none is empty and none
    holds whitespace, and formatting again changes nothing. *)
Theorem formatTextAreaLines_keeps_lines (value : jsstring) :
  formatTextAreaLines value = concat (map (fun line => line ++ [10]) (getLines value))
  ∧ getLines (formatTextAreaLines value) = getLines value
  ∧ Forall isLine (getLines value)
  ∧ formatTextAreaLines (formatTextAreaLines value) = formatTextAreaLines value.
Proof.
  split_and!.
  - apply formatTextAreaLines_lines.
  - apply getLines_formatTextAreaLines.
  - apply getLines_isLine.
  - by rewrite (formatTextAreaLines_lines (formatTextAreaLines value)),
      getLines_formatTextAreaLines, <- formatTextAreaLines_lines.
Qed.

(** X20 (Util.ts, formatTextAreaLines; TorrentHelper.ts, validateTorrentInput
    and assembleTorrentObject): formatting the text areas of the trackers
    and of the web seeds changes neither what the validator answers nor the
    torrent object that is assembled. *)
Theorem formatTextAreaLines_keeps_torrent
    (URL_new : jsstring → option URL) (Date_now : Z) (p : TorrentUIParameters)
    (selectedFileOrFolderInfo : option SelectedFileOrFolderInfo) (blockSize : Z) :
  let formatted :=
    withTextAreas (formatTextAreaLines (trackers p)) (formatTextAreaLines (webSeeds p)) p in
  validateTorrentInput URL_new formatted = validateTorrentInput URL_new p
  ∧ assembleTorrentObject URL_new Date_now formatted selectedFileOrFolderInfo blockSize
    = assembleTorrentObject URL_new Date_now p selectedFileOrFolderInfo blockSize.
Proof.
  cbv zeta.
  assert (validateTorrentInput URL_new
            (withTextAreas (formatTextAreaLines (trackers p))
               (formatTextAreaLines (webSeeds p)) p)
          = validateTorrentInput URL_new p) as Hvalidate.
  { unfold validateTorrentInput, withTextAreas.
    cbn [name trackers webSeeds]. by rewrite !getLines_formatTextAreaLines. }
  split; [done|]. unfold assembleTorrentObject. rewrite Hvalidate.
  unfold withTextAreas.
  cbn [name trackers webSeeds isPrivate source comment setCreationDate].
  by rewrite !getLines_formatTextAreaLines.
Qed.

End UtilClaims.
(** ** The piece size the form chooses *)

Module PieceSizeProperties.

Import UtilText BlockSizeProperties.

Lemma getAutoBlockSize_autoFactor (totalSize : Z) :
  getAutoBlockSize totalSize = 2 ^ autoFactor totalSize.
Proof. apply shiftLeft32_one, autoFactor_range. Qed.

Lemma getBlockSize_exponent (blockSize : BlockSize) (totalSize : Z) :
  ∃ k, 14 ≤ k ≤ 24 ∧ getBlockSize blockSize totalSize = 2 ^ k.
Proof.
  destruct blockSize;
    [exists (autoFactor totalSize); split;
       [apply autoFactor_range|apply getAutoBlockSize_autoFactor]
    |exists 14|exists 15|exists 16|exists 17|exists 18|exists 19
    |exists 20|exists 21|exists 22|exists 23|exists 24];
    (split; [lia|reflexivity]).
Qed.

(** The read buffer of 16 MB is a whole number of pieces. *)
Lemma getBlockSize_divides_readBuffer (blockSize : BlockSize) (totalSize : Z) :
  0 < getBlockSize blockSize totalSize ≤ 16 * MB
  ∧ (16 * MB) mod getBlockSize blockSize totalSize = 0.
Proof.
  destruct (getBlockSize_exponent blockSize totalSize) as (k & Hk & ->).
  assert (k = 14 ∨ k = 15 ∨ k = 16 ∨ k = 17 ∨ k = 18 ∨ k = 19 ∨ k = 20
          ∨ k = 21 ∨ k = 22 ∨ k = 23 ∨ k = 24) as Hcases by lia.
  repeat destruct Hcases as [->|Hcases]; try subst k; by vm_compute.
Qed.

(** Below the rounded logarithm the quotient is at least 2^(k - 1/2), above
    it less than 2^(k + 1/2), squared. *)
Lemma Math_round_log2_lower (a b r k : Z) :
  0 < a → 0 < b → Math_round_log2 a b = Finite r → 1 ≤ k ≤ r →
  2 ^ (2 * k - 1) * (b * b) ≤ a * a.
Proof.
  intros Ha Hb Hround Hk.
  destruct (Math_round_log2_nearest a b r Ha Hb Hround ltac:(lia)) as [Hlow _].
  assert (2 ^ (2 * k - 1) ≤ 2 ^ (2 * r - 1)) by (apply Z.pow_le_mono_r; lia).
  assert (0 < b * b) by nia. nia.
Qed.

Lemma Math_round_log2_upper (a b r k : Z) :
  0 < a → 0 < b → Math_round_log2 a b = Finite r → r ≤ k → 0 ≤ k →
  a * a < 2 ^ (2 * k + 1) * (b * b).
Proof.
  intros Ha Hb Hround Hr Hk.
  assert (0 < b * b) by nia.
  destruct (Z.le_gt_cases 1 r) as [Hpos|Hsmall].
  - destruct (Math_round_log2_nearest a b r Ha Hb Hround Hpos) as [_ Hhigh].
    assert (2 ^ (2 * r + 1) ≤ 2 ^ (2 * k + 1)) by (apply Z.pow_le_mono_r; lia).
    nia.
  - assert (2 ^ 1 ≤ 2 ^ (2 * k + 1)) as Hpow by (apply Z.pow_le_mono_r; lia).
    change (2 ^ 1) with 2 in Hpow.
    enough (a * a < 2 * (b * b)) by nia.
    unfold Math_round_log2 in Hround.
    replace (a =? 0) with false in Hround by (symmetry; apply Z.eqb_neq; lia).
    injection Hround as Hround.
    set (l := floor_log2_ratio (2 * a * a) (b * b)) in *.
    assert (l ≤ 1) as Hl.
    { pose proof (Z.div_mod l 2 ltac:(lia)). pose proof (Z.mod_pos_bound l 2). lia. }
    destruct (Z.le_gt_cases (b * b) (2 * a * a)) as [Hle|Hgt]; [|lia].
    pose proof (floor_log2_ratio_nonneg (2 * a * a) (b * b) ltac:(nia) Hle)
      as (Hnn & _ & Hhigh).
    fold l in Hnn, Hhigh.
    assert (2 ^ (l + 1) ≤ 2 ^ 2) as Hpow2 by (apply Z.pow_le_mono_r; lia).
    change (2 ^ 2) with 4 in Hpow2. nia.
Qed.

Lemma GetSizeStr_power (toFixed2 : Z → Z → jsstring) (k : Z) :
  14 ≤ k ≤ 24 →
  blockSizeTexts !! Z.to_nat (k - 14) = Some (GetSizeStr toFixed2 (2 ^ k)).
Proof.
  intros Hk.
  assert (k = 14 ∨ k = 15 ∨ k = 16 ∨ k = 17 ∨ k = 18 ∨ k = 19 ∨ k = 20
          ∨ k = 21 ∨ k = 22 ∨ k = 23 ∨ k = 24) as Hcases by lia.
  repeat destruct Hcases as [->|Hcases]; try subst k; reflexivity.
Qed.

End PieceSizeProperties.

Module PieceSizeClaims.

Import Sha1Kernel Sha1Worker Sha1 Hashing UtilText.
Import BlockSizeProperties Sha1Properties Sha1Standard PieceProperties
  PipelineProperties.
Import PieceSizeProperties.

(** X21 (TorrentHelper.ts, getAutoBlockSize): the automatic piece size aims
    at 1200 pieces. Unless it is the largest size of 16 MB, the torrent has
    at most 1698 pieces; unless it is the smallest size of 16 kB, the
    torrent has at least 849 pieces. *)
Theorem getAutoBlockSize_piece_count (totalSize : Z) :
  0 ≤ totalSize →
  let blockSize := getAutoBlockSize totalSize in
  let pieces := Math_ceil_div totalSize blockSize in
  (blockSize < 16 * MB → pieces ≤ 1698) ∧ (16 * KB < blockSize → 849 ≤ pieces).
Proof.
  intros Hsize. cbv zeta. rewrite getAutoBlockSize_autoFactor.
  pose proof (autoFactor_range totalSize) as Hrange.
  set (k := autoFactor totalSize) in *.
  assert (0 < 2 ^ k) as Hpos by (apply Z.pow_pos_nonneg; lia).
  assert (2 ^ (2 * k + 1) = 2 * (2 ^ k * 2 ^ k)) as Hdouble.
  { rewrite <- Z.pow_add_r, <- Z.pow_succ_r by lia. f_equal. lia. }
  assert (2 * 2 ^ (2 * k - 1) = 2 ^ k * 2 ^ k) as Hhalf.
  { rewrite <- Z.pow_add_r, <- Z.pow_succ_r by lia. f_equal. lia. }
  unfold Math_ceil_div.
  pose proof (Z.div_mod (totalSize + 2 ^ k - 1) (2 ^ k) ltac:(lia)) as Hdiv.
  pose proof (Z.mod_pos_bound (totalSize + 2 ^ k - 1) (2 ^ k) Hpos) as Hmod.
  set (pieces := (totalSize + 2 ^ k - 1) / 2 ^ k) in *.
  assert (k < 24 ↔ 2 ^ k < 16 * MB) as Hlargest.
  { change (16 * MB) with (2 ^ 24). split; [apply Z.pow_lt_mono_r; lia|].
    intros Hlt. apply (Z.pow_lt_mono_r_iff 2); [lia|lia|done]. }
  assert (14 < k ↔ 16 * KB < 2 ^ k) as Hsmallest.
  { change (16 * KB) with (2 ^ 14). split; [apply Z.pow_lt_mono_r; lia|].
    intros Hlt. apply (Z.pow_lt_mono_r_iff 2); [lia|lia|done]. }
  destruct (Z.eq_dec totalSize 0) as [->|Hne].
  { split; [intros _; subst pieces; nia|].
    intros Hlt. apply Hsmallest in Hlt. by vm_compute in Hlt. }
  destruct (Math_round_log2 totalSize 1200) as [|r] eqn:Hround.
  { unfold Math_round_log2 in Hround.
    replace (totalSize =? 0) with false in Hround by (symmetry; apply Z.eqb_neq; lia).
    done. }
  assert (k = Z.min (Z.max r 14) 24) as Hk.
  { unfold k, autoFactor. by rewrite Hround. }
  split.
  - intros Hlt. apply Hlargest in Hlt.
    pose proof (Math_round_log2_upper totalSize 1200 r k ltac:(lia) ltac:(lia) Hround
                  ltac:(lia) ltac:(lia)) as Hhigh.
    rewrite Hdouble in Hhigh.
    destruct (Z.le_gt_cases pieces 1698) as [|Hmany]; [done|exfalso].
    assert (1698 * 2 ^ k ≤ totalSize) as Hbig by nia.
    assert (1698 * 2 ^ k * (1698 * 2 ^ k) ≤ totalSize * totalSize) as Hsquare by nia.
    nia.
  - intros Hlt. apply Hsmallest in Hlt.
    pose proof (Math_round_log2_lower totalSize 1200 r k ltac:(lia) ltac:(lia) Hround
                  ltac:(lia)) as Hlow.
    destruct (Z.le_gt_cases 849 pieces) as [|Hfew]; [done|exfalso].
    assert (totalSize ≤ 848 * 2 ^ k) as Hbig by nia.
    assert (totalSize * totalSize ≤ 848 * 2 ^ k * (848 * 2 ^ k)) as Hsquare by nia.
    nia.
Qed.

Lemma getAutoBlockSize_piece_count_witness :
  Math_ceil_div (4 * GB) (getAutoBlockSize (4 * GB)) ≤ 1698
  ∧ 849 ≤ Math_ceil_div (4 * GB) (getAutoBlockSize (4 * GB)).
Proof.
  destruct (getAutoBlockSize_piece_count (4 * GB) ltac:(by vm_compute)) as [Hmost Hleast].
  split; [apply Hmost|apply Hleast]; reflexivity.
Defined.

(** X22 (Util.ts, GetSizeStr; TorrentHelper.ts, getAutoBlockSize): the text
    the form shows for the automatic piece size is one of [16 kB], [32 kB],
    ..., [512 kB], [1 MB], ..., [16 MB], the one at the place of the
    exponent of the size: never a number of bytes and never the two decimal
    places of the GB branch. *)
Theorem autoCalculatedBlockSizeText_kB_or_MB (toFixed2 : Z → Z → jsstring)
    (selectedFileOrFolderInfo : SelectedFileOrFolderInfo) :
  0 ≤ info_size selectedFileOrFolderInfo →
  ∃ text,
    autoCalculatedBlockSizeText toFixed2 (Some selectedFileOrFolderInfo) = Some text
    ∧ text ∈ blockSizeTexts
    ∧ blockSizeTexts !! Z.to_nat (autoFactor (info_size selectedFileOrFolderInfo) - 14)
      = Some text
    ∧ getAutoBlockSize (info_size selectedFileOrFolderInfo)
      = 2 ^ autoFactor (info_size selectedFileOrFolderInfo).
Proof.
  intros _. eexists. split; [done|]. cbv zeta. rewrite getAutoBlockSize_autoFactor.
  pose proof (GetSizeStr_power toFixed2 _ (autoFactor_range
                (info_size selectedFileOrFolderInfo))) as Htext.
  split_and!; [|done|done]. by eapply list_elem_of_lookup_2.
Qed.

Lemma autoCalculatedBlockSizeText_kB_or_MB_witness :
  let selectedFileOrFolderInfo :=
    {| info_name := js "a.iso"; info_size := 4 * GB;
       input := input_File (sampleFile (4 * GB));
       fileList := [{| path := [js "a.iso"]; file := sampleFile (4 * GB) |}] |} in
  ∃ text,
    autoCalculatedBlockSizeText (fun _ _ => []) (Some selectedFileOrFolderInfo)
    = Some text
    ∧ text ∈ blockSizeTexts
    ∧ blockSizeTexts !! Z.to_nat (autoFactor (info_size selectedFileOrFolderInfo) - 14)
      = Some text
    ∧ getAutoBlockSize (info_size selectedFileOrFolderInfo)
      = 2 ^ autoFactor (info_size selectedFileOrFolderInfo).
Proof.
  intros selectedFileOrFolderInfo.
  apply (autoCalculatedBlockSizeText_kB_or_MB (fun _ _ => []) selectedFileOrFolderInfo).
  by vm_compute.
Defined.

(** X23 (TorrentHelper.ts, getBlockSize and calculateHashes): whatever piece
    size the form chooses, the read buffer of 16 MB is a whole number of
    pieces, and a run over readable files that nobody cancels resolves with
    the digests of the pieces of that size (the SHA-1 digests of FIPS 180-4
    when the files deliver bytes), 20 bytes for each of the
    [ceil(totalSize / blockSize)] pieces. *)
Theorem calculateHashes_with_getBlockSize (choice : BlockSize)
    (inputFiles : list FileWithPath) (creationId : Z) :
  filesReadable (16 * MB) inputFiles →
  let totalSize := Z.of_nat (length (contentOf inputFiles)) in
  let blockSize := getBlockSize choice totalSize in
  (16 * MB) mod blockSize = 0
  ∧ ∃ digests st,
      calculateHashes inputFiles totalSize blockSize creationId
        (fun _ => creationId) (fun _ => creationId) true
      = (Resolved (ok (concat digests)), st)
      ∧ digestsOf (piecesOf blockSize (contentOf inputFiles)) digests
      ∧ Z.of_nat (length (concat digests)) = 20 * Math_ceil_div totalSize blockSize
      ∧ (Forall isByte (contentOf inputFiles) →
         digests = map SHA1 (piecesOf blockSize (contentOf inputFiles))).
Proof.
  intros Hreadable. cbv zeta.
  destruct (getBlockSize_divides_readBuffer choice
              (Z.of_nat (length (contentOf inputFiles)))) as [Hsize Hdivides].
  split; [done|].
  destruct (calculateHashes_from_run (16 * MB) _ creationId inputFiles
              Hsize Hdivides ltac:(done) Hreadable)
    as (digests & st & Hrun & Hdigests & _).
  exists digests, st. split_and!; [done|done| |].
  - rewrite (digestsOf_length _ _ Hdigests), <- length_piecesOf by lia. lia.
  - intros Hbytes. apply digestsOf_SHA1; [|done]. by apply piecesOf_isByte.
Qed.

Lemma calculateHashes_with_getBlockSize_witness :
  let inputFiles :=
    [sampleInput "a" 3 [ReadChunk (Some (js "abc")) true];
     sampleInput "b" 2 [ReadChunk (Some (js "de")) true]] in
  let totalSize := Z.of_nat (length (contentOf inputFiles)) in
  let blockSize := getBlockSize KB32 totalSize in
  (16 * MB) mod blockSize = 0
  ∧ ∃ digests st,
      calculateHashes inputFiles totalSize blockSize 7 (fun _ => 7) (fun _ => 7) true
      = (Resolved (ok (concat digests)), st)
      ∧ digestsOf (piecesOf blockSize (contentOf inputFiles)) digests
      ∧ Z.of_nat (length (concat digests)) = 20 * Math_ceil_div totalSize blockSize
      ∧ (Forall isByte (contentOf inputFiles) →
         digests = map SHA1 (piecesOf blockSize (contentOf inputFiles))).
Proof.
  intros inputFiles.
  apply (calculateHashes_with_getBlockSize KB32 inputFiles 7).
  repeat (apply Forall_cons; split); [| |constructor]; cbn; unfold MB, KB.
  - intros _. split; [lia|by left].
  - intros _. split; [lia|by left].
Defined.

End PieceSizeClaims.
(** ** What goes into the torrent object *)

Module AssembleProperties.

Import ValidatorProperties UtilProperties.

Lemma validateTorrentInput_ok (URL_new : jsstring → option URL)
    (p : TorrentUIParameters) :
  validateTorrentInput URL_new p = ok tt →
  nameAccepted p
  ∧ Forall (trackerAccepted URL_new) (getLines (trackers p))
  ∧ Forall (webSeedAccepted URL_new) (getLines (webSeeds p)).
Proof.
  intros Hok.
  assert (nameAccepted p) as Hname.
  { unfold validateTorrentInput, nameAccepted in *.
    destruct (length (name p) =? 0)%nat eqn:H0; [done|].
    destruct (255 <? length (name p))%nat eqn:H255; [done|].
    destruct (matchReserved (name p)) eqn:Hres; [done|].
    apply Nat.eqb_neq in H0. apply Nat.ltb_ge in H255.
    pose proof (proj1 (matchReserved_false _) Hres) as Hres'.
    split; [|done]. intros Hnil. by rewrite Hnil in H0. }
  split; [done|]. rewrite validateTorrentInput_nameAccepted in Hok by done.
  destruct (checkTrackers _ _) eqn:Ht; [done|].
  destruct (checkWebSeeds _ _) eqn:Hw; [done|].
  split; [by apply checkTrackers_None | by apply checkWebSeeds_None].
Qed.

Lemma concat_singletons {A} (l : list A) : concat (map (fun x => [x]) l) = l.
Proof. induction l as [|x l IH]; [done|]. cbn. by rewrite IH. Qed.

(** What [loadFileOrFolder] gives for a selection: its size is that of the
    files of its list, and a single file is the only entry of the list. *)
Lemma loadFileOrFolder_input (files : list FolderStructure.PickedFile) :
  ∃ info,
    FolderStructure.loadFileOrFolder (Some files) = Some info
    ∧ info_size info = totalSizeOf (fileList info)
    ∧ ∀ f, input info = input_File f → fileList info = [{| path := [info_name info]; file := f |}].
Proof.
  destruct (FolderProperties.loadFileOrFolder_fileList files)
    as (info & Hload & Hsize & Hlist).
  exists info. split_and!; [done| |].
  - rewrite Hsize, Hlist, FolderProperties.getFolderSize_entries. unfold totalSizeOf.
    by rewrite FolderProperties.foldr_sum_map.
  - clear Hsize Hlist. unfold FolderStructure.loadFileOrFolder in Hload.
    destruct (FolderStructure.createFolderStructure files) as [rootFiles rootFolders].
    cbn [FolderStructure.foldersOf FolderStructure.filesOf] in Hload.
    destruct ((length rootFolders =? 0)%nat && (length rootFiles =? 1)%nat).
    + destruct rootFiles as [|[name f] rest]; [done|].
      injection Hload as <-. cbn. by intros f' [= <-].
    + injection Hload as <-. cbn. by intros f'.
Qed.

End AssembleProperties.

Module AssembleClaims.

Import ValidatorProperties UtilProperties AssembleProperties.

(** X24 (TorrentHelper.ts, assembleTorrentObject and validateTorrentInput):
    the assembler fails exactly when the validator does, and with its
    message. A torrent object it returns holds only what the validator
    accepted: the name of the form; every tracker of [announce-list], each
    in a tier of its own and in the order of the text area, an URL whose
    path ends with the segment [announce]; [announce] the first of them;
    every web seed of [url-list] an URL. The two tracker keys are set
    together, and no list is set empty. *)
Theorem assembleTorrentObject_holds_validated_input
    (URL_new : jsstring → option URL) (Date_now : Z) (p : TorrentUIParameters)
    (selectedFileOrFolderInfo : option SelectedFileOrFolderInfo) (blockSize : Z) :
  let assembled :=
    assembleTorrentObject URL_new Date_now p selectedFileOrFolderInfo blockSize in
  (∀ e, assembled = error e ↔ validateTorrentInput URL_new p = error e)
  ∧ ∀ torrentObject, assembled = ok torrentObject →
      nameAccepted p
      ∧ ti_name (to_info torrentObject) = name p
      ∧ to_announce torrentObject = head (getLines (trackers p))
      ∧ concat (default [] (to_announce_list torrentObject)) = getLines (trackers p)
      ∧ Forall (fun tier => length tier = 1%nat)
          (default [] (to_announce_list torrentObject))
      ∧ default [] (to_url_list torrentObject) = getLines (webSeeds p)
      ∧ to_announce_list torrentObject ≠ Some []
      ∧ to_url_list torrentObject ≠ Some []
      ∧ (is_Some (to_announce torrentObject)
         ↔ is_Some (to_announce_list torrentObject))
      ∧ Forall (trackerAccepted URL_new)
          (concat (default [] (to_announce_list torrentObject)))
      ∧ (∀ tracker, to_announce torrentObject = Some tracker →
           trackerAccepted URL_new tracker)
      ∧ Forall (webSeedAccepted URL_new) (default [] (to_url_list torrentObject)).
Proof.
  cbv zeta. unfold assembleTorrentObject.
  destruct (validateTorrentInput URL_new p) as [[]|e] eqn:Hvalid; cbn [getError].
  - destruct (validateTorrentInput_ok URL_new p Hvalid) as (Hname & Htrackers & Hseeds).
    split; [by split|]. intros torrentObject [= <-].
    cbn [to_info ti_name to_announce to_announce_list to_url_list].
    assert (concat (default [] match getLines (trackers p) with
                               | [] => None
                               | _ :: _ => Some (map (fun t => [t]) (getLines (trackers p)))
                               end) = getLines (trackers p)) as Hflat.
    { destruct (getLines (trackers p)) eqn:Hlines; [done|].
      cbn [default]. apply concat_singletons. }
    assert (default [] match getLines (webSeeds p) with
                       | [] => None
                       | _ :: _ => Some (getLines (webSeeds p))
                       end = getLines (webSeeds p)) as Hlist.
    { by destruct (getLines (webSeeds p)). }
    rewrite Hflat, Hlist. split_and!; try done.
    + destruct (getLines (trackers p)); [constructor|].
      cbn [default]. apply Forall_forall. by intros tier (t & -> & _)%list_elem_of_fmap.
    + by destruct (getLines (trackers p)).
    + by destruct (getLines (webSeeds p)).
    + destruct (getLines (trackers p)); cbn; split; intros [? ?]; done || eauto.
    + intros tracker Hhead. rewrite Forall_forall in Htrackers.
      apply Htrackers. destruct (getLines (trackers p)); [done|].
      injection Hhead as <-. apply list_elem_of_here.
  - split; [|done]. intros e'. split; by intros [= <-].
Qed.

(** X28 (FileInput.ts, loadFileOrFolder; TorrentHelper.ts,
    assembleTorrentObject): for a form that passes validation, the lengths
    that the torrent object of a loaded selection declares add up to the
    size of the selection, which is the total size the pieces are computed
    for: [info.length] is that size, or the lengths of [info.files], whose
    paths are those of the file list in its order, add up to it. *)
Theorem torrent_lengths_add_up_to_size
    (URL_new : jsstring → option URL) (Date_now : Z) (p : TorrentUIParameters)
    (files : list FolderStructure.PickedFile) (blockSize : Z) :
  validateTorrentInput URL_new p = ok tt →
  ∃ info torrentObject,
    FolderStructure.loadFileOrFolder (Some files) = Some info
    ∧ assembleTorrentObject URL_new Date_now p (Some info) blockSize = ok torrentObject
    ∧ ti_piece_length (to_info torrentObject) = blockSize
    ∧ match ti_files (to_info torrentObject), ti_length (to_info torrentObject) with
      | Some declared, None =>
          foldr (fun f total => tfi_length f + total) 0 declared = info_size info
          ∧ map tfi_path declared = map path (fileList info)
      | None, Some declared => declared = info_size info
      | _, _ => False
      end.
Proof.
  intros Hvalid.
  destruct (loadFileOrFolder_input files) as (info & Hload & Hsize & Hsingle).
  exists info. unfold assembleTorrentObject. rewrite Hvalid. cbn [getError].
  eexists. split_and!; [done|done|done|].
  cbn [to_info ti_files ti_length]. rewrite Hsize.
  destruct (input info) as [f|rootFolder] eqn:Hinput.
  - rewrite (Hsingle f eq_refl). cbn. lia.
  - unfold totalSizeOf. split; [|rewrite map_map; by apply map_ext].
    generalize (fileList info). intros l.
    induction l as [|fp rest IH]; [done|]. cbn [map foldr tfi_length]. by rewrite IH.
Qed.

Lemma torrent_lengths_add_up_to_size_witness :
  let files :=
    [{| FolderStructure.fileName := js "a.txt";
        FolderStructure.webkitRelativePath := js "music/a.txt";
        FolderStructure.content := sampleFile 5 |};
     {| FolderStructure.fileName := js "b.txt";
        FolderStructure.webkitRelativePath := js "music/cd/b.txt";
        FolderStructure.content := sampleFile 7 |}] in
  ∃ info torrentObject,
    FolderStructure.loadFileOrFolder (Some files) = Some info
    ∧ assembleTorrentObject SamplePlatform.URL_new 0 sampleForm (Some info) 16384
      = ok torrentObject
    ∧ ti_piece_length (to_info torrentObject) = 16384
    ∧ match ti_files (to_info torrentObject), ti_length (to_info torrentObject) with
      | Some declared, None =>
          foldr (fun f total => tfi_length f + total) 0 declared = info_size info
          ∧ map tfi_path declared = map path (fileList info)
      | None, Some declared => declared = info_size info
      | _, _ => False
      end.
Proof.
  intros files.
  apply (torrent_lengths_add_up_to_size SamplePlatform.URL_new 0 sampleForm files 16384).
  reflexivity.
Defined.

End AssembleClaims.
(** ** The remote proxy *)

Module RemoteProperties.

Import TorrentHelper RemoteProxy.

Section Remote.

Context {Args Value Exn Err Data Obj : Type}.

Variable invoke : Obj → jsstring → Args → Obj * (Value + Exn).
Variable nullError : jsstring → Exn.
Variable toError : jsstring → Exn → Err.
Variable initCallback : Data → option Obj.

Lemma served_app (object : Obj) (calls1 calls2 : list (Z * jsstring * Args)) :
  served invoke toError object (calls1 ++ calls2)
  = served invoke toError object calls1
    ++ served invoke toError (objectAfter invoke object calls1) calls2.
Proof.
  revert object. induction calls1 as [|[[id functionName] args] calls1 IH];
    intros object; [done|].
  cbn [app served objectAfter].
  destruct (invoke object functionName args) as [object' [result|ex]]; cbn [fst];
    by rewrite IH.
Qed.

Lemma objectAfter_app (object : Obj) (calls1 calls2 : list (Z * jsstring * Args)) :
  objectAfter invoke object (calls1 ++ calls2)
  = objectAfter invoke (objectAfter invoke object calls1) calls2.
Proof.
  revert object. induction calls1 as [|[[id functionName] args] calls1 IH];
    intros object; [done|]. cbn [app objectAfter]. by rewrite IH.
Qed.

Lemma functionCallsOf_app (messages1 messages2 : list (@RemoteProxyMessage Args Data)) :
  functionCallsOf (messages1 ++ messages2)
  = functionCallsOf messages1 ++ functionCallsOf messages2.
Proof.
  induction messages1 as [|[id functionName args|data] messages1 IH]; [done| |done].
  cbn. by rewrite IH.
Qed.

Lemma initDataOf_app (messages1 messages2 : list (@RemoteProxyMessage Args Data)) :
  initDataOf (messages1 ++ messages2) = initDataOf messages1 ++ initDataOf messages2.
Proof.
  induction messages1 as [|[id functionName args|data] messages1 IH]; [done|done|].
  cbn. by rewrite IH.
Qed.

Lemma functionCallsOf_filter (messages : list (@RemoteProxyMessage Args Data)) :
  functionCallsOf (filter (fun m => isFunctionCall m = true) messages)
  = functionCallsOf messages.
Proof.
  induction messages as [|[id functionName args|data] messages IH]; [done| |].
  - rewrite filter_cons_True by done. cbn. by rewrite IH.
  - rewrite filter_cons_False by done. done.
Qed.

(** One message on an object that is there. *)
Lemma ProcessMessage_served (message : @RemoteProxyMessage Args Data) (st : @RemoteState Args Value Exn Err Data Obj) (object : Obj) :
  remoteObject st = Some object →
  ProcessMessage invoke nullError toError message st
  = {| remoteObject := Some (objectAfter invoke object (functionCallsOf [message]));
       initDataReceived := initDataReceived st;
       pendingMessages := pendingMessages st;
       initStage := initStage st;
       remoteCalls :=
         remoteCalls st ++ served invoke toError object (functionCallsOf [message]) |}.
Proof.
  intros Hobject. destruct message as [id functionName args|data]; cbn.
  - rewrite Hobject. by destruct (invoke object functionName args) as [object' [result|ex]].
  - rewrite app_nil_r, <- Hobject. by destruct st.
Qed.

(** The pending messages, processed one after the other. *)
Lemma ProcessMessage_all (messages : list (@RemoteProxyMessage Args Data)) (st : @RemoteState Args Value Exn Err Data Obj) (object : Obj) :
  remoteObject st = Some object →
  fold_left (fun st msg => ProcessMessage invoke nullError toError msg st) messages st
  = {| remoteObject := Some (objectAfter invoke object (functionCallsOf messages));
       initDataReceived := initDataReceived st;
       pendingMessages := pendingMessages st;
       initStage := initStage st;
       remoteCalls :=
         remoteCalls st ++ served invoke toError object (functionCallsOf messages) |}.
Proof.
  revert st object. induction messages as [|message messages IH]; intros st object Hobject.
  - cbn. rewrite app_nil_r, <- Hobject. by destruct st.
  - cbn [fold_left]. rewrite (ProcessMessage_served message st object Hobject).
    erewrite IH by done. cbn [remoteObject initDataReceived pendingMessages initStage
                               remoteCalls].
    change (message :: messages) with ([message] ++ messages).
    by rewrite functionCallsOf_app, served_app, objectAfter_app, <- app_assoc.
Qed.

Lemma head_app_Some {A} (l1 l2 : list A) (x : A) :
  head l1 = Some x → head (l1 ++ l2) = Some x.
Proof. by destruct l1. Qed.

Lemma waitingForObject_call (st : @RemoteState Args Value Exn Err Data Obj) (messages : list (@RemoteProxyMessage Args Data))
    (id : Z) (functionName : jsstring) (args : Args) :
  waitingForObject st messages →
  onRemoteMessage invoke nullError toError (FunctionCall id functionName args) st
  = {| remoteObject := remoteObject st;
       initDataReceived := initDataReceived st;
       pendingMessages := push (pendingMessages st) (FunctionCall id functionName args);
       initStage := initStage st;
       remoteCalls := remoteCalls st |}
  ∧ waitingForObject
      {| remoteObject := remoteObject st;
         initDataReceived := initDataReceived st;
         pendingMessages := push (pendingMessages st) (FunctionCall id functionName args);
         initStage := initStage st;
         remoteCalls := remoteCalls st |}
      (messages ++ [FunctionCall id functionName args]).
Proof.
  intros (Hobject & Hreceived & Hcalls & Hpending).
  unfold onRemoteMessage. rewrite Hreceived. cbn [andb]. split; [done|].
  split_and!; try done. cbn [pendingMessages]. unfold push.
  by rewrite Hpending, filter_app.
Qed.

Lemma waitingForObject_initialize (st st' : @RemoteState Args Value Exn Err Data Obj) (messages : list (@RemoteProxyMessage Args Data))
    (data : Data) :
  waitingForObject st messages →
  remoteObject st' = remoteObject st → initDataReceived st' = initDataReceived st →
  remoteCalls st' = remoteCalls st → pendingMessages st' = pendingMessages st →
  waitingForObject st' (messages ++ [Initialize data]).
Proof.
  unfold waitingForObject. intros (Hobject & Hreceived & Hcalls & Hpending) -> -> -> ->.
  split_and!; try done. rewrite filter_app, filter_cons_False by done.
  by rewrite filter_nil, app_nil_r.
Qed.

Lemma remoteStep_message (st : @RemoteState Args Value Exn Err Data Obj) (messages : list (@RemoteProxyMessage Args Data)) (message : @RemoteProxyMessage Args Data) :
  remoteStands invoke toError initCallback st messages →
  remoteStands invoke toError initCallback (onRemoteMessage invoke nullError toError message st)
               (messages ++ [message]).
Proof.
  unfold remoteStands. intros Hst.
  destruct message as [id functionName args|data'].
  - rewrite initDataOf_app, functionCallsOf_app. cbn [initDataOf functionCallsOf].
    rewrite app_nil_r.
    destruct (initStage st) eqn:Hstage.
    + destruct Hst as [Hdata Hwait].
      destruct (waitingForObject_call st messages id functionName args Hwait) as [-> Hwait'].
      cbn [initStage]. by rewrite Hstage.
    + destruct Hst as [Hdata Hwait].
      destruct (waitingForObject_call st messages id functionName args Hwait) as [-> Hwait'].
      cbn [initStage]. by rewrite Hstage.
    + destruct Hst as (data & object & Hdata & Hcallback & Hreceived & Hobject & Hcalls
                       & Hpending).
      unfold onRemoteMessage. rewrite Hreceived, Hobject. cbn [andb].
      rewrite (ProcessMessage_served _ st _ Hobject). cbn [initStage]. rewrite Hstage.
      exists data, object. cbn [initDataReceived remoteObject remoteCalls pendingMessages].
      by rewrite served_app, objectAfter_app, Hcalls.
    + destruct Hst as [Hdata Hwait].
      destruct (waitingForObject_call st messages id functionName args Hwait) as [-> Hwait'].
      cbn [initStage]. by rewrite Hstage.
  - rewrite initDataOf_app, functionCallsOf_app. cbn [initDataOf functionCallsOf].
    rewrite app_nil_r. unfold onRemoteMessage.
    destruct (initStage st) eqn:Hstage; cbn [initStage]; rewrite ?Hstage.
    + destruct Hst as [Hdata Hwait]. rewrite Hdata. split; [done|].
      by eapply waitingForObject_initialize.
    + destruct Hst as [Hdata Hwait]. split; [by apply head_app_Some|].
      by eapply waitingForObject_initialize.
    + destruct Hst as (data & object & Hdata & Hrest). exists data, object.
      split; [by apply head_app_Some|done].
    + destruct Hst as [(data & Hdata & Hcallback) Hwait].
      split; [exists data; split; [by apply head_app_Some|done]|].
      by eapply waitingForObject_initialize.
Qed.

Lemma remoteStep_object (st : @RemoteState Args Value Exn Err Data Obj) (messages : list (@RemoteProxyMessage Args Data)) :
  remoteStands invoke toError initCallback st messages →
  remoteStands invoke toError initCallback (onObjectReady invoke nullError toError initCallback st) messages.
Proof.
  unfold remoteStands, onObjectReady. intros Hst.
  destruct (initStage st) as [|data| |] eqn:Hstage; rewrite ?Hstage; try done.
  destruct Hst as [Hdata (Hobject & Hreceived & Hcalls & Hpending)].
  destruct (initCallback data) as [object|] eqn:Hcallback; cbn [initStage].
  - erewrite ProcessMessage_all by done.
    cbn [initStage remoteObject initDataReceived pendingMessages remoteCalls].
    exists data, object. rewrite Hpending, functionCallsOf_filter, Hcalls. done.
  - split; [by exists data|done].
Qed.

Lemma remoteRun_app (events1 events2 : list (@RemoteEvent Args Data)) (st : @RemoteState Args Value Exn Err Data Obj) :
  remoteRun invoke nullError toError initCallback (events1 ++ events2) st
  = remoteRun invoke nullError toError initCallback events2
      (remoteRun invoke nullError toError initCallback events1 st).
Proof. apply fold_left_app. Qed.

Lemma arrived_app (events1 events2 : list (@RemoteEvent Args Data)) :
  arrived (events1 ++ events2) = arrived events1 ++ arrived events2.
Proof.
  induction events1 as [|[message|] events1 IH]; [done| |done]. cbn. by rewrite IH.
Qed.

Lemma remoteRun_stands (events : list (@RemoteEvent Args Data)) (st : @RemoteState Args Value Exn Err Data Obj) :
  SetRemoteObject true TheInitCallback = Some st →
  remoteStands invoke toError initCallback (remoteRun invoke nullError toError initCallback events st)
               (arrived events).
Proof.
  intros [= <-]. induction events as [|e events IH] using rev_ind; [done|].
  rewrite remoteRun_app, arrived_app. cbn [remoteRun fold_left remoteStep].
  destruct e as [message|]; cbn [arrived].
  - by apply remoteStep_message.
  - rewrite app_nil_r. by apply remoteStep_object.
Qed.

(** With the object itself the remote side serves from the start. *)
Lemma remoteRun_object (events : list (@RemoteEvent Args Data))
    (st : @RemoteState Args Value Exn Err Data Obj) (object : Obj) :
  initStage st = InitDone → initDataReceived st = true → remoteObject st = Some object →
  let st' := remoteRun invoke nullError toError initCallback events st in
  remoteCalls st'
  = remoteCalls st ++ served invoke toError object (functionCallsOf (arrived events))
  ∧ remoteObject st'
    = Some (objectAfter invoke object (functionCallsOf (arrived events)))
  ∧ pendingMessages st' = pendingMessages st.
Proof.
  cbv zeta. unfold remoteRun. revert st object. induction events as [|e events IH];
    intros st object Hstage Hreceived Hobject.
  - cbn. by rewrite app_nil_r.
  - cbn [fold_left remoteStep]. destruct e as [message|].
    + change (remoteStep invoke nullError toError initCallback st
                (MessageArrives message))
        with (onRemoteMessage invoke nullError toError message st).
      assert (onRemoteMessage invoke nullError toError message st
              = ProcessMessage invoke nullError toError message st) as ->.
      { unfold onRemoteMessage. rewrite Hstage, Hreceived, Hobject.
        by destruct message. }
      rewrite (ProcessMessage_served message st object Hobject).
      edestruct IH as (Hcalls & Hobject' & Hpending);
        [..|rewrite Hcalls, Hobject', Hpending]; [done..|].
      cbn [remoteCalls pendingMessages arrived].
      change (message :: arrived events) with ([message] ++ arrived events).
      by rewrite functionCallsOf_app, served_app, objectAfter_app, <- app_assoc.
    + change (remoteStep invoke nullError toError initCallback st ObjectReady)
        with (onObjectReady invoke nullError toError initCallback st).
      assert (onObjectReady invoke nullError toError initCallback st = st) as ->.
      { unfold onObjectReady. by rewrite Hstage. }
      by apply IH.
Qed.

End Remote.

End RemoteProperties.

Module LocalProperties.

Import TorrentHelper RemoteProxy RemoteProperties.

Section Local.

Context {Args Value Err Data Caller : Type}.

Lemma Map_set_fresh (map : list (Z * Caller)) (key : Z) (value : Caller) :
  key ∉ map.*1 → Map_set map key value = map ++ [(key, value)].
Proof.
  induction map as [|[k v] map IH]; [done|]. cbn [fmap list_fmap fst Map_set app].
  intros Hfresh. apply not_elem_of_cons in Hfresh as [Hne Hfresh].
  destruct (Z.eqb_spec k key) as [->|_]; [done|]. by rewrite IH.
Qed.

Lemma Map_get_None (map : list (Z * Caller)) (key : Z) :
  Map_get map key = None ↔ key ∉ map.*1.
Proof.
  induction map as [|[k v] map IH]; cbn [fmap list_fmap fst Map_get].
  - split; [intros _; apply not_elem_of_nil|done].
  - rewrite not_elem_of_cons. destruct (Z.eqb_spec k key) as [->|Hne].
    + split; [done|]. by intros [? _].
    + rewrite IH. split; [by split|by intros [_ ?]].
Qed.

Lemma Map_delete_fresh (map : list (Z * Caller)) (key : Z) :
  key ∉ map.*1 → Map_delete map key = map.
Proof.
  induction map as [|[k v] map IH]; [done|]. cbn [fmap list_fmap fst Map_delete].
  intros Hfresh. apply not_elem_of_cons in Hfresh as [Hne Hfresh].
  destruct (Z.eqb_spec k key) as [->|_]; [done|]. by rewrite IH.
Qed.

(** An entry that is found is the first one with its key, and [delete]
    takes it out. *)
Lemma Map_get_Some (map : list (Z * Caller)) (key : Z) (value : Caller) :
  Map_get map key = Some value →
  ∃ before after,
    map = before ++ (key, value) :: after ∧ Map_delete map key = before ++ after.
Proof.
  induction map as [|[k v] map IH]; [done|]. cbn [Map_get Map_delete].
  destruct (Z.eqb_spec k key) as [->|Hne].
  - intros [= ->]. by exists [], map.
  - intros (before & after & -> & ->)%IH. by exists ((k, v) :: before), after.
Qed.

Lemma resolversFrom_app (start : Z) (calls1 calls2 : list (Caller * jsstring * Args)) :
  resolversFrom start (calls1 ++ calls2)
  = resolversFrom start calls1
    ++ resolversFrom (start + Z.of_nat (length calls1)) calls2.
Proof.
  revert start. induction calls1 as [|[[caller prop] args] calls1 IH]; intros start.
  - cbn. by rewrite Z.add_0_r.
  - cbn [app resolversFrom length]. rewrite IH. do 3 f_equal. lia.
Qed.

Lemma numberedFrom_app (start : Z) (calls1 calls2 : list (Caller * jsstring * Args)) :
  numberedFrom start (calls1 ++ calls2)
  = numberedFrom start calls1
    ++ numberedFrom (start + Z.of_nat (length calls1)) calls2.
Proof.
  revert start. induction calls1 as [|[[caller prop] args] calls1 IH]; intros start.
  - cbn. by rewrite Z.add_0_r.
  - cbn [app numberedFrom length]. rewrite IH. do 3 f_equal. lia.
Qed.

Lemma resolversFrom_keys (start : Z) (calls : list (Caller * jsstring * Args)) :
  (resolversFrom start calls).*1 = seqZ start (Z.of_nat (length calls)).
Proof.
  revert start. induction calls as [|[[caller prop] args] calls IH]; intros start; [done|].
  cbn [resolversFrom fmap list_fmap fst length]. rewrite IH.
  rewrite (seqZ_cons start) by lia. do 2 f_equal. lia.
Qed.

Lemma numberedFrom_ids (start : Z) (calls : list (Caller * jsstring * Args)) :
  map (fun call => fst (fst call)) (numberedFrom start calls)
  = seqZ start (Z.of_nat (length calls)).
Proof.
  revert start. induction calls as [|[[caller prop] args] calls IH]; intros start; [done|].
  cbn [numberedFrom map fst length]. rewrite IH.
  rewrite (seqZ_cons start) by lia. do 2 f_equal. lia.
Qed.

Lemma proxyCalls_app (events1 events2 : list (@LocalEvent Args Value Err Data Caller)) :
  proxyCalls (events1 ++ events2) = proxyCalls events1 ++ proxyCalls events2.
Proof.
  induction events1 as [|[caller prop args|response|data] events1 IH]; [done| |done|done].
  cbn [app proxyCalls]. destruct (jsstring_eqb prop (js "then")); [done|].
  cbn [app]. by rewrite IH.
Qed.

(** Where the local side stands after the calls [calls]. *)
Lemma localStep_stands (st : @LocalState Args Value Err Data Caller)
    (calls : list (Caller * jsstring * Args))
    (e : @LocalEvent Args Value Err Data Caller) :
  localStands st calls → localStands (localStep st e) (calls ++ proxyCalls [e]).
Proof.
  intros [Hid Hsent Hinit Hwaiting Hresolved Hall].
  destruct e as [caller prop args|response|data]; cbn [localStep proxyCalls].
  - unfold proxyGet. destruct (jsstring_eqb prop (js "then")).
    { by rewrite app_nil_r. }
    assert (messageId st ∉ (waitingMessages st).*1) as Hfresh.
    { intros ([id caller'] & Heq & Hin%Hwaiting)%list_elem_of_fmap.
      apply (list_elem_of_fmap_2 fst) in Hin. rewrite resolversFrom_keys in Hin.
      apply elem_of_seqZ in Hin. cbn [fst] in *. lia. }
    split; cbn [messageId sentToRemote waitingMessages resolved].
    + rewrite length_app, Hid. cbn. lia.
    + rewrite functionCallsOf_app, numberedFrom_app, Hsent, Hid. done.
    + by rewrite initDataOf_app, app_nil_r.
    + rewrite Map_set_fresh, resolversFrom_app, <- Hid by done.
      intros id caller' [Hin|Hin]%elem_of_app; apply elem_of_app; [left; auto|by right].
    + rewrite resolversFrom_app. intros caller' response Hin.
      apply elem_of_app. left. auto.
    + rewrite Map_set_fresh, resolversFrom_app, !fmap_app, <- Hid by done.
      cbn [resolversFrom fmap list_fmap fst]. rewrite <- Hall. solve_Permutation.
  - rewrite app_nil_r. unfold onResponse.
    destruct (Map_get (waitingMessages st) (response_id response)) as [caller|] eqn:Hget.
    + destruct (Map_get_Some _ _ _ Hget) as (before & after & Hmap & Hdelete).
      split; cbn [messageId sentToRemote waitingMessages resolved]; try done.
      * rewrite Hdelete. intros id caller' Hin. apply Hwaiting. rewrite Hmap.
        apply elem_of_app in Hin as [Hin|Hin]; apply elem_of_app; [by left|].
        right. by apply list_elem_of_further.
      * intros caller' response' [Hin|Hin]%elem_of_app; [auto|].
        apply list_elem_of_singleton in Hin as [= -> ->].
        apply Hwaiting. rewrite Hmap. apply elem_of_app. right. apply list_elem_of_here.
      * rewrite Hdelete, <- Hall, Hmap, !fmap_app. cbn [fmap list_fmap fst snd].
        solve_Permutation.
    + apply Map_get_None in Hget. rewrite (Map_delete_fresh _ _ Hget).
      by split.
  - rewrite app_nil_r. unfold onInitData.
    destruct (initDataAwaited st) eqn:Hawaited;
      [|split; try done; by rewrite Hawaited].
    split; cbn [messageId sentToRemote waitingMessages resolved initDataAwaited];
      try done.
    + by rewrite functionCallsOf_app, app_nil_r.
    + rewrite initDataOf_app, length_app. cbn [initDataOf length].
      destruct Hinit as [Hcount Hflag]. rewrite (proj1 Hflag eq_refl).
      split; [cbn; lia|]. split; [done|]. cbn. done.
Qed.

Lemma localRun_stands (events : list (@LocalEvent Args Value Err Data Caller))
    (st : @LocalState Args Value Err Data Caller) :
  CreateRemoteProxy false = Some st →
  localStands (localRun events st) (proxyCalls events).
Proof.
  intros [= <-]. induction events as [|e events IH] using rev_ind.
  - split; cbn; try done; try (split; [lia|done]);
      by intros ? ? ?%elem_of_nil.
  - unfold localRun. rewrite fold_left_app, proxyCalls_app. cbn [fold_left].
    by apply localStep_stands.
Qed.

End Local.

End LocalProperties.

Module WorkerProperties.

Import TorrentHelper RemoteProxy RemoteProperties LocalProperties.

Section Worker.

Context {Args Value Exn Err Data Obj Caller : Type}.

Variable invoke : Obj → jsstring → Args → Obj * (Value + Exn).
Variable nullError : jsstring → Exn.
Variable toError : jsstring → Exn → Err.
Variable initCallback : Data → option Obj.

Lemma responsesOf_app (called1 called2 : list (@RemoteCallback Value Exn Err)) :
  responsesOf (called1 ++ called2) = responsesOf called1 ++ responsesOf called2.
Proof.
  induction called1 as [|[ex|response] called1 IH]; [done|done|]. cbn. by rewrite IH.
Qed.

Lemma ProcessMessage_calls (message : @RemoteProxyMessage Args Data)
    (st : @RemoteState Args Value Exn Err Data Obj) :
  remoteCalls st `prefix_of` remoteCalls (ProcessMessage invoke nullError toError message st).
Proof.
  destruct message as [id functionName args|data]; [|done]. cbn.
  destruct (remoteObject st) as [object|].
  - destruct (invoke object functionName args) as [object' [result|ex]];
      by eexists.
  - by eexists.
Qed.

Lemma onRemoteMessage_calls (message : @RemoteProxyMessage Args Data)
    (st : @RemoteState Args Value Exn Err Data Obj) :
  remoteCalls st `prefix_of` remoteCalls (onRemoteMessage invoke nullError toError message st).
Proof.
  unfold onRemoteMessage. destruct message as [id functionName args|data].
  - destruct (_ && _); [apply ProcessMessage_calls|done].
  - by destruct (initStage st).
Qed.

Lemma onObjectReady_calls (st : @RemoteState Args Value Exn Err Data Obj) :
  remoteCalls st
  `prefix_of` remoteCalls (onObjectReady invoke nullError toError initCallback st).
Proof.
  unfold onObjectReady. destruct (initStage st) as [|data| |]; try done.
  destruct (initCallback data) as [object|]; [|done].
  erewrite ProcessMessage_all by done. cbn. by eexists.
Qed.

Lemma functionCallsOf_take (n : nat) (messages : list (@RemoteProxyMessage Args Data)) :
  functionCallsOf (take n messages) `prefix_of` functionCallsOf messages.
Proof.
  rewrite <- (take_drop n messages) at 2. rewrite functionCallsOf_app. by eexists.
Qed.

Lemma answers_lookup (object : Obj) (calls : list (Z * jsstring * Args)) (k : nat)
    (response : @RemoteProxyResponse Value Err) :
  responsesOf (served invoke toError object calls) !! k = Some response →
  ∃ functionName args, calls !! k = Some (response_id response, functionName, args).
Proof.
  revert object k. induction calls as [|[[id functionName] args] calls IH];
    intros object k; [done|]. cbn [served].
  destruct (invoke object functionName args) as [object' [result|ex]];
    cbn [responsesOf]; (destruct k as [|k]; [intros [= <-]; by eexists _, _|apply IH]).
Qed.

Lemma length_answers (object : Obj) (calls : list (Z * jsstring * Args)) :
  length (responsesOf (served invoke toError object calls)) = length calls.
Proof.
  revert object. induction calls as [|[[id functionName] args] calls IH];
    intros object; [done|]. cbn [served].
  destruct (invoke object functionName args) as [object' [result|ex]];
    cbn [responsesOf length]; by rewrite IH.
Qed.

Lemma numberedFrom_lookup (start : Z) (calls : list (Caller * jsstring * Args))
    (k : nat) (id : Z) (functionName : jsstring) (args : Args) :
  numberedFrom start calls !! k = Some (id, functionName, args) →
  id = start + Z.of_nat k ∧ ∃ caller, calls !! k = Some (caller, functionName, args).
Proof.
  revert start k. induction calls as [|[[caller prop] args'] calls IH];
    intros start k; [done|]. cbn [numberedFrom].
  destruct k as [|k].
  - intros [= <- <- <-]. split; [lia|by eexists].
  - intros [-> Hcaller]%IH. split; [lia|done].
Qed.

Lemma resolversFrom_lookup (start : Z) (calls : list (Caller * jsstring * Args))
    (k : nat) (caller : Caller) (functionName : jsstring) (args : Args) :
  calls !! k = Some (caller, functionName, args) →
  resolversFrom start calls !! k = Some (start + Z.of_nat k, caller).
Proof.
  revert start k. induction calls as [|[[caller' prop] args'] calls IH];
    intros start k; [done|]. cbn [resolversFrom].
  destruct k as [|k].
  - intros [= -> -> ->]. cbn. do 2 f_equal. lia.
  - intros Hk. cbn. rewrite (IH _ _ Hk). do 2 f_equal. lia.
Qed.

Lemma length_numberedFrom (start : Z) (calls : list (Caller * jsstring * Args)) :
  length (numberedFrom start calls) = length calls.
Proof.
  revert start. induction calls as [|[[caller prop] args] calls IH]; intros start; [done|].
  cbn. by rewrite IH.
Qed.

Lemma length_resolversFrom (start : Z) (calls : list (Caller * jsstring * Args)) :
  length (resolversFrom start calls) = length calls.
Proof.
  revert start. induction calls as [|[[caller prop] args] calls IH]; intros start; [done|].
  cbn. by rewrite IH.
Qed.

Lemma zip_snoc {A B} (xs : list A) (ys : list B) (x : A) (y : B) :
  xs !! length ys = Some x → zip xs (ys ++ [y]) = zip xs ys ++ [(x, y)].
Proof.
  revert xs. induction ys as [|y' ys IH]; intros [|x' xs]; try done.
  - cbn. intros [= ->]. by destruct xs.
  - cbn. intros Hx. by rewrite IH.
Qed.

Lemma zip_app_short {A B} (xs xs' : list A) (ys : list B) :
  (length ys ≤ length xs)%nat → zip (xs ++ xs') ys = zip xs ys.
Proof.
  revert xs. induction ys as [|y ys IH]; intros [|x xs]; cbn; try done; try lia.
  - by destruct xs'.
  - intros Hle. rewrite IH; [done|lia].
Qed.

Lemma pageCalls_app (events1 events2 : list (@WorkerEvent Args Data Caller)) :
  pageCalls (events1 ++ events2) = pageCalls events1 ++ pageCalls events2.
Proof.
  induction events1 as [|[caller prop args|data| | |] events1 IH]; try done.
  cbn [app pageCalls]. destruct (jsstring_eqb prop (js "then")); [done|].
  cbn [app]. by rewrite IH.
Qed.

Lemma pageInitData_app (events1 events2 : list (@WorkerEvent Args Data Caller)) :
  pageInitData (events1 ++ events2)
  = match pageInitData events1 with
    | Some data => Some data
    | None => pageInitData events2
    end.
Proof. induction events1 as [|[caller prop args|data| | |] events1 IH]; done. Qed.

(** The responses of the worker so far answer the first calls of the
    page. *)
Lemma workerStands_responses (w : @Worker Args Value Exn Err Data Obj Caller)
    (calls : list (Caller * jsstring * Args)) (initData : option Data) :
  workerStands invoke toError initCallback w calls initData →
  (length (responsesOf (remoteCalls (remoteSide w))) ≤ length calls)%nat
  ∧ ∀ k response,
      responsesOf (remoteCalls (remoteSide w)) !! k = Some response →
      response_id response = Z.of_nat k
      ∧ ∃ caller functionName args, calls !! k = Some (caller, functionName, args).
Proof.
  intros [_ Hsent _ _ _ Hremote _ _ _]. unfold remoteStands in Hremote.
  pose proof (functionCallsOf_take (arrivedAtRemote w) (sentToRemote (localSide w)))
    as Hprefix.
  rewrite Hsent in Hprefix.
  destruct (initStage (remoteSide w)).
  1,2,4: destruct Hremote as (_ & _ & _ & -> & _); split; [cbn; lia|done].
  destruct Hremote as (data & object & _ & _ & _ & _ & -> & _). split.
  - rewrite length_answers. apply prefix_length in Hprefix.
    by rewrite length_numberedFrom in Hprefix.
  - intros k response (functionName & args & Hk)%answers_lookup.
    eapply prefix_lookup_Some in Hk; [|done].
    apply numberedFrom_lookup in Hk as [-> (caller & Hk)]. split; [lia|eauto].
Qed.

Lemma workerStands_remote (w : @Worker Args Value Exn Err Data Obj Caller)
    (calls : list (Caller * jsstring * Args)) (initData : option Data)
    (remote : @RemoteState Args Value Exn Err Data Obj) (atRemote : nat) :
  workerStands invoke toError initCallback w calls initData →
  (atRemote ≤ length (sentToRemote (localSide w)))%nat →
  remoteStands invoke toError initCallback remote
    (take atRemote (sentToRemote (localSide w))) →
  remoteCalls (remoteSide w) `prefix_of` remoteCalls remote →
  workerStands invoke toError initCallback
    {| localSide := localSide w; remoteSide := remote;
       arrivedAtRemote := atRemote; arrivedAtLocal := arrivedAtLocal w |}
    calls initData.
Proof.
  intros Hw Hle Hremote [extra Hcalls].
  destruct Hw as [Hid Hsent Hinit Hawaited _ _ HatLocal Hwaiting Hresolved].
  split; cbn [localSide remoteSide arrivedAtRemote arrivedAtLocal]; try done.
  - rewrite Hcalls, responsesOf_app, length_app. lia.
  - by rewrite Hcalls, responsesOf_app, take_app_le.
Qed.

Lemma workerStep_stands (w : @Worker Args Value Exn Err Data Obj Caller)
    (calls : list (Caller * jsstring * Args)) (initData : option Data)
    (e : @WorkerEvent Args Data Caller) :
  workerStands invoke toError initCallback w calls initData →
  workerStands invoke toError initCallback
    (workerStep invoke nullError toError initCallback w e)
    (calls ++ pageCalls [e])
    (match initData with Some data => Some data | None => pageInitData [e] end).
Proof.
  intros Hw. pose proof (workerStands_responses w calls initData Hw) as [Hfew Hknown].
  destruct e as [caller prop args|data| | |]; cbn [workerStep pageCalls pageInitData].
  - (* the page calls *)
    cbn [localStep]. unfold proxyGet.
    destruct (jsstring_eqb prop (js "then")).
    { rewrite app_nil_r. by destruct w, initData. }
    destruct Hw as [Hid Hsent Hinit Hawaited HatRemote Hremote HatLocal Hwaiting
                      Hresolved].
    assert (messageId (localSide w) ∉ (waitingMessages (localSide w)).*1) as Hfresh.
    { rewrite Hwaiting.
      intros ([id caller'] & Heq & Hin)%list_elem_of_fmap.
      apply subseteq_drop, (list_elem_of_fmap_2 fst) in Hin. rewrite resolversFrom_keys in Hin.
      apply elem_of_seqZ in Hin. cbn [fst] in *. lia. }
    split; cbn [localSide remoteSide arrivedAtRemote arrivedAtLocal messageId
                sentToRemote initDataAwaited waitingMessages resolved].
    + rewrite length_app, Hid. cbn. lia.
    + by rewrite functionCallsOf_app, numberedFrom_app, Hsent, Hid.
    + rewrite initDataOf_app, app_nil_r, Hinit. by destruct initData.
    + rewrite Hawaited. by destruct initData.
    + rewrite length_app. lia.
    + by rewrite take_app_le.
    + done.
    + rewrite Map_set_fresh, resolversFrom_app, drop_app_le, Hwaiting, Hid by
        (done || rewrite length_resolversFrom; lia).
      done.
    + rewrite map_app, zip_app_short; [done|].
      rewrite length_take, length_map. lia.
  - (* the data of the initialization is there *)
    rewrite app_nil_r. cbn [localStep]. unfold onInitData.
    destruct Hw as [Hid Hsent Hinit Hawaited HatRemote Hremote HatLocal Hwaiting
                      Hresolved].
    rewrite Hawaited. destruct initData as [data'|].
    { by destruct w. }
    split; cbn [localSide remoteSide arrivedAtRemote arrivedAtLocal messageId
                sentToRemote initDataAwaited waitingMessages resolved]; try done.
    + by rewrite functionCallsOf_app, app_nil_r.
    + by rewrite initDataOf_app, Hinit.
    + rewrite length_app. lia.
    + by rewrite take_app_le.
  - (* a message arrives at the worker *)
    rewrite app_nil_r.
    destruct (sentToRemote (localSide w) !! arrivedAtRemote w) as [message|] eqn:Hmessage.
    2:{ by destruct initData. }
    replace (match initData with Some data => Some data | None => None end)
      with initData by (by destruct initData).
    apply workerStands_remote; [done| | |].
    + apply lookup_lt_Some in Hmessage. lia.
    + erewrite take_S_r by done. apply remoteStep_message. by destruct Hw.
    + apply onRemoteMessage_calls.
  - (* the object of the worker is there *)
    rewrite app_nil_r.
    replace (match initData with Some data => Some data | None => None end)
      with initData by (by destruct initData).
    apply workerStands_remote; [done|by destruct Hw| |].
    + apply remoteStep_object. by destruct Hw.
    + apply onObjectReady_calls.
  - (* a response arrives at the page *)
    rewrite app_nil_r.
    replace (match initData with Some data => Some data | None => None end)
      with initData by (by destruct initData).
    destruct (responsesOf (remoteCalls (remoteSide w)) !! arrivedAtLocal w)
      as [response|] eqn:Hresponse; [|done].
    destruct (Hknown _ _ Hresponse) as [Hid' (caller & functionName & args & Hcall)].
    destruct Hw as [Hid Hsent Hinit Hawaited HatRemote Hremote HatLocal Hwaiting
                      Hresolved].
    pose proof (resolversFrom_lookup 0 _ _ _ _ _ Hcall) as Hresolver.
    cbn [localStep]. unfold onResponse. rewrite Hwaiting.
    rewrite (drop_S _ _ _ Hresolver). cbn [Map_get Map_delete]. rewrite Hid'.
    rewrite Z.add_0_l, Z.eqb_refl.
    split; cbn [localSide remoteSide arrivedAtRemote arrivedAtLocal messageId
                sentToRemote initDataAwaited waitingMessages resolved]; try done.
    + apply lookup_lt_Some in Hresponse. lia.
    + rewrite Hresolved. erewrite take_S_r by done.
      rewrite zip_snoc with (x := caller); [done|].
      rewrite length_take, Nat.min_l by lia.
      by rewrite list_lookup_fmap, Hcall.
Qed.

Lemma initDataOf_take (n : nat) (messages : list (@RemoteProxyMessage Args Data)) :
  initDataOf (take n messages) `prefix_of` initDataOf messages.
Proof.
  rewrite <- (take_drop n messages) at 2. rewrite initDataOf_app. by eexists.
Qed.

Lemma zip_take_r {A B} (xs : list A) (ys : list B) (k : nat) :
  zip xs (take k ys) = take k (zip xs ys).
Proof.
  revert xs ys. induction k as [|k IH]; intros [|x xs] [|y ys]; cbn; try done.
  by rewrite IH.
Qed.

Lemma workerRun_stands (events : list (@WorkerEvent Args Data Caller)) :
  workerStands invoke toError initCallback
    (workerRun invoke nullError toError initCallback events newWorker)
    (pageCalls events) (pageInitData events).
Proof.
  induction events as [|e events IH] using rev_ind.
  - by split.
  - unfold workerRun. rewrite fold_left_app, pageCalls_app, pageInitData_app.
    cbn [fold_left]. by apply workerStep_stands.
Qed.

End Worker.

End WorkerProperties.

Module ProxyClaims.

Import TorrentHelper RemoteProxy RemoteProperties LocalProperties WorkerProperties.

Section Claims.

Context {Args Value Exn Err Data Obj Caller : Type}.

Variable invoke : Obj → jsstring → Args → Obj * (Value + Exn).
Variable nullError : jsstring → Exn.
Variable toError : jsstring → Exn → Err.
Variable initCallback : Data → option Obj.

(** X25 (RemoteProxy.ts, SetRemoteObject and ProcessMessage): whenever the
    object of the initialization gets ready, the remote side answers the
    function calls in the order they arrived, each with the id of its
    message, as an object that was there from the start would: the calls
    that arrive earlier wait in [pendingMessages] and nothing is answered
    before. The object is made from the data of the first initialization
    message. Called with the object itself the remote side serves from the
    start, and outside the remote side it throws. *)
Theorem SetRemoteObject_serves_in_arrival_order
    (events : list (@RemoteEvent Args Data)) :
  (∃ st0,
     SetRemoteObject true TheInitCallback = Some st0
     ∧ let st := remoteRun invoke nullError toError initCallback events st0 in
       let calls := functionCallsOf (arrived events) in
       (initStage st = InitDone →
        ∃ data object,
          head (initDataOf (arrived events)) = Some data
          ∧ initCallback data = Some object
          ∧ remoteCalls st = served invoke toError object calls
          ∧ remoteObject st = Some (objectAfter invoke object calls)
          ∧ pendingMessages st = [])
       ∧ (initStage st ≠ InitDone →
          remoteCalls st = [] ∧ remoteObject st = None
          ∧ functionCallsOf (pendingMessages st) = calls)
       ∧ ∃ n, map response_id (responsesOf (remoteCalls st))
              = take n (map (fun call => fst (fst call)) calls))
  ∧ (∀ object, ∃ st0,
       SetRemoteObject true (TheObject object) = Some st0
       ∧ let st := remoteRun invoke nullError toError initCallback events st0 in
         remoteCalls st
         = served invoke toError object (functionCallsOf (arrived events))
         ∧ pendingMessages st = [])
  ∧ ∀ objectOrInitCallback,
      @SetRemoteObject Args Value Exn Err Data Obj false objectOrInitCallback = None.
Proof.
  split_and!; [|intros object|done].
  - eexists. split; [done|]. cbv zeta.
    pose proof (remoteRun_stands invoke nullError toError initCallback events _ eq_refl)
      as Hstands.
    unfold remoteStands in Hstands.
    set (st := remoteRun invoke nullError toError initCallback events _) in *.
    assert (∀ object calls,
              map response_id (responsesOf (served invoke toError object calls))
              = map (fun call : Z * jsstring * Args => fst (fst call)) calls) as Hids.
    { intros object calls. revert object.
      induction calls as [|[[id functionName] args] calls IH]; intros object; [done|].
      cbn [served map fst].
      destruct (invoke object functionName args) as [object' [result|ex]];
        cbn [responsesOf map response_id]; by rewrite IH. }
    destruct (initStage st) eqn:Hstage.
    + destruct Hstands as (_ & Hobject & _ & Hcalls & Hpending).
      split_and!; [done| |exists 0%nat; by rewrite Hcalls].
      intros _. by rewrite Hpending, functionCallsOf_filter.
    + destruct Hstands as (_ & Hobject & _ & Hcalls & Hpending).
      split_and!; [done| |exists 0%nat; by rewrite Hcalls].
      intros _. by rewrite Hpending, functionCallsOf_filter.
    + destruct Hstands as (data & object & Hdata & Hcallback & _ & Hobject & Hcalls
                           & Hpending).
      split_and!; [intros _; by exists data, object|done|].
      exists (length (functionCallsOf (arrived events))).
      by rewrite Hcalls, Hids, take_ge by (by rewrite length_map).
    + destruct Hstands as (_ & Hobject & _ & Hcalls & Hpending).
      split_and!; [done| |exists 0%nat; by rewrite Hcalls].
      intros _. by rewrite Hpending, functionCallsOf_filter.
  - eexists. split; [done|].
    destruct (remoteRun_object invoke nullError toError initCallback events
                {| remoteObject := Some object; initDataReceived := true;
                   pendingMessages := []; initStage := InitDone; remoteCalls := [] |}
                object eq_refl eq_refl eq_refl) as (Hcalls & _ & Hpending).
    by split.
Qed.

(** X26 (RemoteProxy.ts, CreateRemoteProxy): the function calls the local
    side sends carry the ids 0, 1, 2, ... in the order of the calls, and at
    most one initialization is sent. Whatever responses arrive, each call
    either waits or was resolved once, by a response that carries its id; a
    response with an id nobody waits for resolves nobody. On the remote
    side the function throws. *)
Theorem CreateRemoteProxy_resolves_each_call_once
    (events : list (@LocalEvent Args Value Err Data Caller)) :
  (∃ st0,
     CreateRemoteProxy false = Some st0
     ∧ let st := localRun events st0 in
       let calls := proxyCalls events in
       functionCallsOf (sentToRemote st) = numberedFrom 0 calls
       ∧ map (fun call => fst (fst call)) (functionCallsOf (sentToRemote st))
         = seqZ 0 (Z.of_nat (length calls))
       ∧ (length (initDataOf (sentToRemote st)) ≤ 1)%nat
       ∧ (waitingMessages st).*1 ++ ((fun r => response_id (snd r)) <$> resolved st)
         ≡ₚ seqZ 0 (Z.of_nat (length calls))
       ∧ (∀ caller response,
            (caller, response) ∈ resolved st →
            (response_id response, caller) ∈ resolversFrom 0 calls)
       ∧ (∀ id caller,
            (id, caller) ∈ waitingMessages st → (id, caller) ∈ resolversFrom 0 calls))
  ∧ @CreateRemoteProxy Args Value Err Data Caller true = None.
Proof.
  split; [|done]. eexists. split; [done|]. cbv zeta.
  destruct (localRun_stands events _ eq_refl)
    as [Hid Hsent [Hinit _] Hwaiting Hresolved Hall].
  split_and!; try done.
  - by rewrite Hsent, numberedFrom_ids.
  - by rewrite Hall, resolversFrom_keys.
Qed.

(** X27 (RemoteProxy.ts and RemoteWorkerProxy.ts, both sides): between a
    page that has called [CreateRemoteProxy] and a worker that has called
    [SetRemoteObject] with an initialization callback, in whatever order the calls are made, the messages
    arrive and the object gets ready, the calls are resolved in the order
    they were made, each with the response of the remote object to its own
    function and arguments, the object serving the calls one after the
    other from the state the initialization gave it. Once nothing is on its
    way and the object is there, every call is resolved. *)
Theorem proxy_call_resolves_with_its_answer
    (events : list (@WorkerEvent Args Data Caller)) :
  let w0 := @newWorker Args Value Exn Err Data Obj Caller in
  let w := workerRun invoke nullError toError initCallback events newWorker in
  let calls := pageCalls events in
  (CreateRemoteProxy false = Some (localSide w0)
   ∧ SetRemoteObject true TheInitCallback = Some (remoteSide w0))
  ∧ (resolved (localSide w) = []
   ∨ ∃ data object k,
       pageInitData events = Some data ∧ initCallback data = Some object
       ∧ resolved (localSide w)
         = take k (zip (map callerOf calls)
                       (answers invoke toError object (numberedFrom 0 calls))))
  ∧ (quiescent w →
     ∃ data object,
       pageInitData events = Some data ∧ initCallback data = Some object
       ∧ resolved (localSide w)
         = zip (map callerOf calls)
               (answers invoke toError object (numberedFrom 0 calls))
       ∧ length (resolved (localSide w)) = length calls
       ∧ waitingMessages (localSide w) = []).
Proof.
  cbv zeta.
  pose proof (workerRun_stands invoke nullError toError initCallback events) as Hw.
  set (w := workerRun invoke nullError toError initCallback events newWorker) in *.
  destruct Hw as [Hid Hsent Hinit Hawaited HatRemote Hremote HatLocal Hwaiting Hresolved].
  pose proof (functionCallsOf_take (arrivedAtRemote w) (sentToRemote (localSide w)))
    as [extra Hextra].
  pose proof (initDataOf_take (arrivedAtRemote w) (sentToRemote (localSide w)))
    as [extraData HextraData].
  rewrite Hsent in Hextra. rewrite Hinit in HextraData.
  unfold remoteStands in Hremote.
  assert (initStage (remoteSide w) = InitDone →
          ∃ data object,
            pageInitData events = Some data ∧ initCallback data = Some object
            ∧ responsesOf (remoteCalls (remoteSide w))
              = answers invoke toError object
                  (functionCallsOf (take (arrivedAtRemote w)
                                         (sentToRemote (localSide w))))) as Hdone.
  { intros Hstage. rewrite Hstage in Hremote.
    destruct Hremote as (data & object & Hdata & Hcallback & _ & _ & Hcalls & _).
    exists data, object. split_and!; [|done|by rewrite Hcalls].
    destruct (initDataOf (take (arrivedAtRemote w) (sentToRemote (localSide w))))
      as [|data' rest]; [done|]. injection Hdata as ->.
    destruct (pageInitData events); [|done]. by injection HextraData as ->. }
  split; [done|]. split.
  - destruct (initStage (remoteSide w)) eqn:Hstage.
    1,2,4: left; destruct Hremote as (_ & _ & _ & Hcalls & _);
      rewrite Hresolved, Hcalls; cbn; rewrite take_nil; by destruct (map _ _).
    right. destruct (Hdone eq_refl) as (data & object & Hdata & Hcallback & Hresponses).
    exists data, object, (arrivedAtLocal w). split_and!; [done|done|].
    rewrite Hresolved, Hresponses, <- zip_take_r. f_equal.
    rewrite Hextra. unfold answers. rewrite served_app, responsesOf_app.
    rewrite Hresponses in HatLocal. unfold answers in HatLocal.
    by rewrite take_app_le.
  - intros (HallSent & HallBack & Hstage).
    destruct (Hdone Hstage) as (data & object & Hdata & Hcallback & Hresponses).
    exists data, object.
    rewrite HallSent, take_ge in Hresponses by done.
    rewrite Hsent in Hresponses.
    assert (length (responsesOf (remoteCalls (remoteSide w)))
            = length (pageCalls events)) as Hlength.
    { rewrite Hresponses. unfold answers.
      by rewrite length_answers, length_numberedFrom. }
    split_and!; [done|done| | |].
    + by rewrite Hresolved, HallBack, take_ge, Hresponses.
    + rewrite Hresolved, HallBack, take_ge by done.
      rewrite length_zip_with, length_map, Hlength. lia.
    + rewrite Hwaiting, HallBack, Hlength. apply drop_ge.
      by rewrite length_resolversFrom.
Qed.

End Claims.

End ProxyClaims.

(** ** The torrent of a first click *)

Module FormClaims.

Import Sha1Kernel Sha1Worker Sha1 Hashing InfoHash Form.
Import Sha1Properties Sha1Standard PieceProperties PipelineProperties
  PieceSizeProperties.

(** X29 (App.svelte, createTorrent; TorrentHelper.ts): a click on [Create
    torrent] with a form that passes validation and a selection whose files
    can be read and deliver as many bytes as the selection reports, which
    nobody cancels, ends with the torrent ready: its [piece length] is the
    piece size of the form, its [pieces] are the digests of the pieces of
    that size of the bytes of the files (the SHA-1 digests of FIPS 180-4
    when the files deliver bytes), 20 bytes for each of the
    [ceil(size / piece length)] pieces, and the bytes for the download are
    the encoding of this torrent object. With such a form, whatever the
    state of the creation, the selection and the cancellations, the check
    the assembler repeats never fails in [createTorrent]. *)
Theorem createTorrent_first_click
    (URL_new : jsstring → option URL) (Date_now : Z) (creationId : Z)
    (info : SelectedFileOrFolderInfo) (p : TorrentUIParameters) :
  validateTorrentInput URL_new p = ok tt →
  filesReadable (16 * MB) (fileList info) →
  Z.of_nat (length (contentOf (fileList info))) = info_size info →
  (∃ torrentObject digests,
     createTorrent URL_new Date_now NotStarted creationId None (Some info) p
       (fun _ => creationId + 1) (fun _ => creationId + 1) true
     = TorrentReady torrentObject (bencode (TorrentObject_object torrentObject)) None
     ∧ assembleTorrentObject URL_new Date_now p (Some info)
         (getBlockSize (blockSize p) (info_size info))
       = ok (setPieces torrentObject [])
     ∧ ti_piece_length (to_info torrentObject)
       = getBlockSize (blockSize p) (info_size info)
     ∧ ti_pieces (to_info torrentObject) = concat digests
     ∧ digestsOf (piecesOf (ti_piece_length (to_info torrentObject))
                    (contentOf (fileList info))) digests
     ∧ Z.of_nat (length (ti_pieces (to_info torrentObject)))
       = 20 * Math_ceil_div (info_size info) (ti_piece_length (to_info torrentObject))
     ∧ (Forall isByte (contentOf (fileList info)) →
        ti_pieces (to_info torrentObject)
        = concat (map SHA1 (piecesOf (ti_piece_length (to_info torrentObject))
                              (contentOf (fileList info))))))
  ∧ ∀ creationState pieces selectedFileOrFolderInfo getCurrentCreationId
      poolCreationId hasBYOB errorText,
      createTorrent URL_new Date_now creationState creationId pieces
        selectedFileOrFolderInfo p getCurrentCreationId poolCreationId hasBYOB
      ≠ AssembleFailed errorText.
Proof.
  intros Hvalid Hreadable Htotal. split.
  - rewrite <- Htotal.
    destruct (getBlockSize_divides_readBuffer (blockSize p)
                (Z.of_nat (length (contentOf (fileList info)))))
      as [Hsize Hdivides].
    destruct (calculateHashes_from_run (16 * MB) _ (creationId + 1) (fileList info)
                Hsize Hdivides ltac:(done) Hreadable)
      as (digests & st & Hrun & Hdigests & _).
    unfold createTorrent, calculateHashes.
    rewrite Hvalid, <- Htotal, Hrun. cbn [getError fst]. unfold assembleTorrentObject.
    rewrite Hvalid. cbn [getError].
    eexists _, digests. split_and!; [done|done|done|done|done| |].
    + cbn [setPieces to_info ti_pieces ti_piece_length].
      rewrite (digestsOf_length _ _ Hdigests), <- length_piecesOf by lia. lia.
    + intros Hbytes. cbn [setPieces to_info ti_pieces ti_piece_length]. f_equal.
      apply digestsOf_SHA1; [|done]. by apply piecesOf_isByte.
  - intros creationState pieces selectedFileOrFolderInfo getCurrentCreationId
      poolCreationId hasBYOB errorText.
    unfold createTorrent, assembleTorrentObject. rewrite Hvalid. cbn [getError].
    destruct creationState, selectedFileOrFolderInfo as [info'|], pieces as [pieces|];
      try done;
      destruct (fst (calculateHashes _ _ _ _ _ _ _)) as [[result|errorText']| |];
      done.
Qed.

Lemma createTorrent_first_click_witness :
  let info :=
    {| info_name := js "a.txt"; info_size := 5;
       input := input_File {| size := 5; reads := [ReadChunk (Some (js "hello")) true] |};
       fileList := [sampleInput "a.txt" 5 [ReadChunk (Some (js "hello")) true]] |} in
  ∃ torrentObject digests,
    createTorrent SamplePlatform.URL_new 0 NotStarted 0 None (Some info) sampleForm
      (fun _ => 0 + 1) (fun _ => 0 + 1) true
    = TorrentReady torrentObject (bencode (TorrentObject_object torrentObject)) None
    ∧ assembleTorrentObject SamplePlatform.URL_new 0 sampleForm (Some info)
        (getBlockSize (blockSize sampleForm) (info_size info))
      = ok (setPieces torrentObject [])
    ∧ ti_piece_length (to_info torrentObject)
      = getBlockSize (blockSize sampleForm) (info_size info)
    ∧ ti_pieces (to_info torrentObject) = concat digests
    ∧ digestsOf (piecesOf (ti_piece_length (to_info torrentObject))
                   (contentOf (fileList info))) digests
    ∧ Z.of_nat (length (ti_pieces (to_info torrentObject)))
      = 20 * Math_ceil_div (info_size info) (ti_piece_length (to_info torrentObject))
    ∧ (Forall isByte (contentOf (fileList info)) →
       ti_pieces (to_info torrentObject)
       = concat (map SHA1 (piecesOf (ti_piece_length (to_info torrentObject))
                             (contentOf (fileList info))))).
Proof.
  intros info.
  refine (proj1 (createTorrent_first_click SamplePlatform.URL_new 0 0 info sampleForm
                   _ _ _)).
  - reflexivity.
  - apply Forall_cons; split; [|constructor]. intros _. vm_compute. split; [done|by left].
  - reflexivity.
Defined.

End FormClaims.
